(** * The state/config manager of the VLESS control plane

    A shallow embedding of [internal/vpnserver/manager.go] (and of the parts
    of the Go standard library it calls) together with the properties the
    specification states about it.

    Go strings are byte sequences: they are modelled by [string] (a list
    of [ascii], i.e. of 8-bit bytes).  Go's [int] is modelled by [Z]
    (64-bit range where the library checks it), [map[string]T] by
    [gmap string T]. *)

From Stdlib Require Import ZArith NArith Ascii String List Lia DecimalString Decimal DecimalZ.
From stdpp Require Import gmap strings list fin_maps sorting.

Set Warnings "-register-all".
Open Scope string_scope.
Open Scope Z_scope.

(* ===================================================================== *)
(** ** Bytes and byte classes *)
(* ===================================================================== *)

Definition byte (n : N) : ascii := ascii_of_N n.
Definition code (c : ascii) : N := N_of_ascii c.

Definition in_range (lo hi : N) (c : ascii) : bool :=
  ((lo <=? code c) && (code c <=? hi))%N.

Definition is_digit (c : ascii) : bool := in_range 48 57 c.
Definition is_lower (c : ascii) : bool := in_range 97 122 c.
Definition is_upper (c : ascii) : bool := in_range 65 90 c.
(** [c < utf8.RuneSelf] *)
Definition is_ascii (c : ascii) : bool := (code c <? 128)%N.

Fixpoint string_forallb (p : ascii -> bool) (s : string) : bool :=
  match s with
  | EmptyString => true
  | String c r => p c && string_forallb p r
  end.

Fixpoint string_existsb (p : ascii -> bool) (s : string) : bool :=
  match s with
  | EmptyString => false
  | String c r => p c || string_existsb p r
  end.

Fixpoint string_map (f : ascii -> ascii) (s : string) : string :=
  match s with
  | EmptyString => EmptyString
  | String c r => String (f c) (string_map f r)
  end.

Fixpoint string_drop (n : nat) (s : string) : string :=
  match n, s with
  | O, _ => s
  | S n', String _ r => string_drop n' r
  | S _, EmptyString => EmptyString
  end.

(** [s] with its last byte removed, and the last byte of [s]. *)
Fixpoint string_init (s : string) : string :=
  match s with
  | EmptyString => EmptyString
  | String c EmptyString => EmptyString
  | String c r => String c (string_init r)
  end.

Fixpoint string_last (s : string) : option ascii :=
  match s with
  | EmptyString => None
  | String c EmptyString => Some c
  | String _ r => string_last r
  end.

(** [strings.HasPrefix s p] *)
Fixpoint HasPrefix (s p : string) : bool :=
  match p, s with
  | EmptyString, _ => true
  | String a p', String b s' => Ascii.eqb a b && HasPrefix s' p'
  | String _ _, EmptyString => false
  end.

(* ===================================================================== *)
(** ** package strings *)
(* ===================================================================== *)

(** The UTF-8 encodings of the code points with Unicode property
    White_Space, which is what [unicode.IsSpace] tests: the six ASCII
    ones, U+0085, U+00A0, U+1680, U+2000..U+200A, U+2028, U+2029, U+202F,
    U+205F and U+3000. *)
Definition bytes (l : list N) : string :=
  string_of_list_ascii (List.map byte l).

Definition spaceEncodings : list string :=
  List.map bytes
    [ [9]; [10]; [11]; [12]; [13]; [32];
      [194; 133]; [194; 160];
      [225; 154; 128];
      [226; 128; 128]; [226; 128; 129]; [226; 128; 130]; [226; 128; 131];
      [226; 128; 132]; [226; 128; 133]; [226; 128; 134]; [226; 128; 135];
      [226; 128; 136]; [226; 128; 137]; [226; 128; 138];
      [226; 128; 168]; [226; 128; 169]; [226; 128; 175];
      [226; 129; 159];
      [227; 128; 128] ]%N.

(** Length of the white-space rune [s] starts with, [0] when [s] does not
    start with one ([utf8.DecodeRuneInString] followed by
    [unicode.IsSpace]). *)
Fixpoint matchPrefix (pats : list string) (s : string) : nat :=
  match pats with
  | [] => O
  | p :: ps => if HasPrefix s p then String.length p else matchPrefix ps s
  end.

Fixpoint dropRunes (pats : list string) (fuel : nat) (s : string) : string :=
  match fuel with
  | O => s
  | S f =>
      match matchPrefix pats s with
      | O => s
      | n => dropRunes pats f (string_drop n s)
      end
  end.

(** [strings.TrimLeftFunc s unicode.IsSpace] *)
Definition TrimLeftSpace (s : string) : string :=
  dropRunes spaceEncodings (String.length s) s.

(** [strings.TrimRightFunc s unicode.IsSpace]: [DecodeLastRuneInString]
    yields a white-space rune exactly when the string ends with the
    encoding of one, so the right trim is the left trim of the reversed
    string against the reversed encodings. *)
Definition TrimRightSpace (s : string) : string :=
  String.rev (dropRunes (List.map String.rev spaceEncodings)
                        (String.length s) (String.rev s)).

(** [strings.TrimSpace]: the ASCII fast path and the Unicode slow path of
    the library compute the same function, left trim then right trim. *)
Definition TrimSpace (s : string) : string :=
  TrimRightSpace (TrimLeftSpace s).

(** [strings.TrimSpace(s) == ""] *)
Definition isBlank (s : string) : bool := String.eqb (TrimSpace s) "".

Definition lowerASCII (c : ascii) : ascii :=
  if is_upper c then byte (code c + 32) else c.

(** The part of the Go runtime the manager reaches through the standard
    library and that is a table or an external computation rather than an
    algorithm: the Unicode case table ([strings.Map(unicode.ToLower, _)],
    used by [strings.ToLower] on strings that are not pure ASCII). *)
Class UnicodeTables := {
  unicode_MapToLower : string -> string
}.

(** [strings.ToLower]: byte-wise on pure ASCII strings, the Unicode table
    otherwise. *)
Definition ToLower `{UnicodeTables} (s : string) : string :=
  if string_forallb is_ascii s then string_map lowerASCII s
  else unicode_MapToLower s.

(** [strings.Trim s cutset] for an ASCII cutset: bytes of the cutset are
    removed from both ends. *)
Definition inCutset (cutset : string) (c : ascii) : bool :=
  string_existsb (Ascii.eqb c) cutset.

Fixpoint TrimLeft (s cutset : string) : string :=
  match s with
  | EmptyString => EmptyString
  | String c r => if inCutset cutset c then TrimLeft r cutset else s
  end.

Definition TrimRight (s cutset : string) : string :=
  String.rev (TrimLeft (String.rev s) cutset).

Definition Trim (s cutset : string) : string :=
  TrimRight (TrimLeft s cutset) cutset.

(** [fmt.Sprintf("%d", i)] *)
Definition Itoa (i : Z) : string := NilZero.string_of_int (Z.to_int i).

(* ===================================================================== *)
(** ** Time *)
(* ===================================================================== *)

(** [time.Time] as the library keeps it: seconds since January 1, year 1
    (UTC) and nanoseconds within the second.  The zero value is the zero
    [Time]. *)
Record Time := mkTime { wall_sec : Z; wall_nsec : Z }.

Definition zeroTime : Time := mkTime 0 0.
Definition IsZero (t : Time) : bool := (wall_sec t =? 0) && (wall_nsec t =? 0).
(** [t.Unix()]: seconds since January 1, 1970. *)
Definition unixToInternal : Z := 62135596800.
Definition Unix (t : Time) : Z := wall_sec t - unixToInternal.

(* ===================================================================== *)
(** ** Client records *)
(* ===================================================================== *)

Record Client := mkClient {
  ID : string;
  Name : string;
  UUID : string;
  Address : string;
  ConfigPath : string;
  CreatedAt : Time
}.

(* ===================================================================== *)
(** ** Client ids *)
(* ===================================================================== *)

(** The complement of the class of [clientIDRe = [^a-z0-9._-]+]. *)
Definition idChar (c : ascii) : bool :=
  is_lower c || is_digit c ||
  Ascii.eqb c "." || Ascii.eqb c "_" || Ascii.eqb c "-".

(** [clientIDRe.ReplaceAllString(s, repl)]: every maximal run of bytes
    outside the class is replaced by [repl].  (A rune outside ASCII, and
    an invalid byte, consist only of bytes at or above 0x80, none of which
    is in the class, so runs of runes and runs of bytes coincide.)
    [inRun] tells that the previous byte was part of a run. *)
Fixpoint replaceRuns (repl : string) (inRun : bool) (s : string) : string :=
  match s with
  | EmptyString => EmptyString
  | String c r =>
      if idChar c then String c (replaceRuns repl false r)
      else if inRun then replaceRuns repl true r
      else repl +:+ replaceRuns repl true r
  end.

Definition clientIDRe_ReplaceAllString (s repl : string) : string :=
  replaceRuns repl false s.

Definition sanitizeClientID `{UnicodeTables} (name : string) : string :=
  let n := ToLower (TrimSpace name) in
  let n := if String.eqb n "" then "client" else n in
  let n := clientIDRe_ReplaceAllString n "-" in
  let n := Trim n "-_." in
  if String.eqb n "" then "client" else n.

(** [fmt.Sprintf("%s-%d", base, i)] *)
Definition suffixed (base : string) (i : Z) : string := base +:+ "-" +:+ Itoa i.

(** The loop [for i := 2; i < 10000; i++] of [allocateClientIDLocked],
    with [n] iterations left from [i]; [None] when it falls through. *)
Fixpoint allocateLoop (base : string) (clients : gmap string Client)
         (i : Z) (n : nat) : option string :=
  match n with
  | O => None
  | S n' =>
      let candidate := suffixed base i in
      match clients !! candidate with
      | None => Some candidate
      | Some _ => allocateLoop base clients (i + 1) n'
      end
  end.

(** [now] is the value [time.Now()] returns when the fallback is reached. *)
Definition allocateClientIDLocked `{UnicodeTables} (now : Time) (name : string)
           (clients : gmap string Client) : string :=
  let base := sanitizeClientID name in
  match clients !! base with
  | None => base
  | Some _ =>
      match allocateLoop base clients 2 (Z.to_nat 9998) with
      | Some candidate => candidate
      | None => suffixed base (Unix now)
      end
  end.

(* ===================================================================== *)
(** ** Errors *)
(* ===================================================================== *)

Inductive errno := ENOENT | ENOTDIR | EISDIR | EACCES | ENOSPC | EIO.

(** The error values the manager produces or passes on.  [ErrNotExist] is
    the sentinel [os.ErrNotExist]; [Wrapped msg e] is
    [fmt.Errorf(msg + ": %w", e)]. *)
Inductive error :=
| ErrNotExist
| PathError (op path : string) (e : errno)
| AddrError (why addr : string)
| NumError (fn arg : string)
| JSONError (msg : string)
| RandError
| X509Error
| ExecError (binary : string)
| Wrapped (msg : string) (e : error).

(** [errors.Is(err, os.ErrNotExist)] *)
Fixpoint IsNotExist (e : error) : bool :=
  match e with
  | ErrNotExist => true
  | PathError _ _ ENOENT => true
  | Wrapped _ e' => IsNotExist e'
  | _ => false
  end.

Inductive result (A : Type) :=
| Ok (a : A)
| Err (e : error).
Arguments Ok {A} a.
Arguments Err {A} e.

(* ===================================================================== *)
(** ** package strconv *)
(* ===================================================================== *)

Definition digitVal (c : ascii) : Z := Z.of_N (code c) - 48.

(** Value of a string of decimal digits, [None] if some byte is not one. *)
Fixpoint digitsVal (s : string) (acc : Z) : option Z :=
  match s with
  | EmptyString => Some acc
  | String c r => if is_digit c then digitsVal r (acc * 10 + digitVal c) else None
  end.

Definition minInt : Z := - 2 ^ 63.
Definition maxInt : Z := 2 ^ 63 - 1.

(** [strconv.Atoi] on a platform with 64-bit [int]: an optional sign, then
    at least one decimal digit and nothing else; a value outside the
    range of [int] is an error. *)
Definition Atoi (s : string) : result Z :=
  let '(neg, ds) :=
    match s with
    | String "-" r => (true, r)
    | String "+" r => (false, r)
    | _ => (false, s)
    end in
  match ds with
  | EmptyString => Err (NumError "Atoi" s)
  | _ =>
      match digitsVal ds 0 with
      | None => Err (NumError "Atoi" s)
      | Some n =>
          let v := if neg then - n else n in
          if (minInt <=? v) && (v <=? maxInt) then Ok v
          else Err (NumError "Atoi" s)
      end
  end.

(* ===================================================================== *)
(** ** package net: host and port *)
(* ===================================================================== *)

(** [strings.IndexByte] and [strings.LastIndexByte]; [None] is [-1]. *)
Fixpoint IndexByte (s : string) (c : ascii) : option nat :=
  match s with
  | EmptyString => None
  | String a r =>
      if Ascii.eqb a c then Some O
      else match IndexByte r c with Some i => Some (S i) | None => None end
  end.

Fixpoint LastIndexByte (s : string) (c : ascii) : option nat :=
  match s with
  | EmptyString => None
  | String a r =>
      match LastIndexByte r c with
      | Some i => Some (S i)
      | None => if Ascii.eqb a c then Some O else None
      end
  end.

(** [s[i:j]] and [s[i:]] *)
Definition slice (s : string) (i j : nat) : string := substring i (j - i) s.
Definition sliceFrom (s : string) (i : nat) : string := string_drop i s.

Definition contains (s : string) (c : ascii) : bool :=
  match IndexByte s c with Some _ => true | None => false end.

(** [net.SplitHostPort] *)
Definition SplitHostPort (hostport : string) : result (string * string) :=
  let missingPort := "missing port in address" in
  let tooManyColons := "too many colons in address" in
  match LastIndexByte hostport ":" with
  | None => Err (AddrError missingPort hostport)
  | Some i =>
      let bracketed :=
        match hostport with String "[" _ => true | _ => false end in
      let split : result (string * nat * nat) :=
        if bracketed then
          match IndexByte hostport "]" with
          | None => Err (AddrError "missing ']' in address" hostport)
          | Some e =>
              if Nat.eqb (e + 1) (String.length hostport) then
                Err (AddrError missingPort hostport)
              else if Nat.eqb (e + 1) i then
                Ok (slice hostport 1 e, 1%nat, (e + 1)%nat)
              else if match String.get (e + 1) hostport with
                      | Some ":"%char => true | _ => false end then
                Err (AddrError tooManyColons hostport)
              else Err (AddrError missingPort hostport)
          end
        else
          let host := slice hostport 0 i in
          if contains host ":" then Err (AddrError tooManyColons hostport)
          else Ok (host, O, O) in
      match split with
      | Err e => Err e
      | Ok (host, j, k) =>
          if contains (sliceFrom hostport j) "[" then
            Err (AddrError "unexpected '[' in address" hostport)
          else if contains (sliceFrom hostport k) "]" then
            Err (AddrError "unexpected ']' in address" hostport)
          else Ok (host, sliceFrom hostport (i + 1))
      end
  end.

Definition resolveEndpointHostPort (rawHost : string) (fallbackPort : Z)
  : string * Z :=
  let host := TrimSpace rawHost in
  let port := fallbackPort in
  if String.eqb host "" then ("127.0.0.1", port)
  else
    match SplitHostPort host with
    | Ok (parsedHost, parsedPort) =>
        match Atoi parsedPort with
        | Ok p => if 0 <? p then (parsedHost, p) else (parsedHost, port)
        | Err _ => (parsedHost, port)
        end
    | Err _ => (host, port)
    end.

(* ===================================================================== *)
(** ** package net: IP addresses *)
(* ===================================================================== *)

(** [net.IP] is a byte slice: [list Z], of length 4 or 16. *)
Definition IP := list Z.

(** The loop of [netip.parseIPv4Fields] over the bytes that remain:
    [first] tells whether the byte is the first one ([i == 0]), [prev] is
    the byte before it, [val] and [digLen] the value and the number of
    digits of the octet being read, [pos] the index of that octet. *)
Fixpoint parseIPv4Fields_loop (s : string) (first : bool) (prev : ascii)
         (val digLen : Z) (pos : nat) (fields : list Z) : option (list Z) :=
  match s with
  | EmptyString =>
      if (pos <? 3)%nat then None else Some (<[3%nat := val]> fields)
  | String c rest =>
      if is_digit c then
        if (digLen =? 1) && (val =? 0) then None
        else
          let val' := val * 10 + digitVal c in
          if 255 <? val' then None
          else parseIPv4Fields_loop rest false c val' (digLen + 1) pos fields
      else if Ascii.eqb c "." then
        if first || String.eqb rest "" || Ascii.eqb prev "." then None
        else if (pos =? 3)%nat then None
        else parseIPv4Fields_loop rest false c 0 0 (S pos) (<[pos := val]> fields)
      else None
  end.

Definition parseIPv4Fields (s : string) : option (list Z) :=
  parseIPv4Fields_loop s true "000" 0 0 O [0; 0; 0; 0].

Definition hexVal (c : ascii) : option Z :=
  if is_digit c then Some (Z.of_N (code c) - 48)
  else if in_range 97 102 c then Some (Z.of_N (code c) - 97 + 10)
  else if in_range 65 70 c then Some (Z.of_N (code c) - 65 + 10)
  else None.

(** The hex-number loop of [netip.parseIPv6]: number of digits read,
    their value and the rest of the string; [None] for a group of more
    than four digits. *)
Fixpoint hexGroup (s : string) (off : nat) (acc : Z) : option (nat * Z * string) :=
  match s with
  | EmptyString => Some (off, acc, s)
  | String c r =>
      match hexVal c with
      | None => Some (off, acc, s)
      | Some v =>
          let acc' := acc * 16 + v in
          if (3 <? off)%nat then None
          else if 65535 <? acc' then None
          else hexGroup r (S off) acc'
      end
  end.

(** [copy(ip[i:], fields)] *)
Fixpoint writeAt (ip : list Z) (i : nat) (vs : list Z) : list Z :=
  match vs with
  | [] => ip
  | v :: vs' => writeAt (<[i := v]> ip) (S i) vs'
  end.

(** The main loop of [netip.parseIPv6], [for i < 16]; the result is the
    state at the end of the loop: the unread rest, [i], the position of
    the ellipsis and the bytes. *)
Fixpoint parseIPv6_loop (fuel : nat) (s : string) (i : nat)
         (ellipsis : option nat) (ip : list Z)
  : option (string * nat * option nat * list Z) :=
  if (16 <=? i)%nat then Some (s, i, ellipsis, ip)
  else
    match fuel with
    | O => None
    | S fuel' =>
        match hexGroup s O 0 with
        | None => None
        | Some (off, acc, rest) =>
            if (off =? 0)%nat then None
            else if HasPrefix rest "." then
              if (match ellipsis with None => true | Some _ => false end)
                 && negb (i =? 12)%nat then None
              else if (16 <? i + 4)%nat then None
              else
                match parseIPv4Fields s with
                | None => None
                | Some fields => Some ("", (i + 4)%nat, ellipsis, writeAt ip i fields)
                end
            else
              let ip' := <[S i := Z.land acc 255]> (<[i := Z.shiftr acc 8]> ip) in
              let i' := (i + 2)%nat in
              match rest with
              | EmptyString => Some ("", i', ellipsis, ip')
              | String c r1 =>
                  if negb (Ascii.eqb c ":") then None
                  else
                    match r1 with
                    | EmptyString => None
                    | String ":" r2 =>
                        match ellipsis with
                        | Some _ => None
                        | None =>
                            if String.eqb r2 "" then Some ("", i', Some i', ip')
                            else parseIPv6_loop fuel' r2 i' (Some i') ip'
                        end
                    | _ => parseIPv6_loop fuel' r1 i' ellipsis ip'
                    end
              end
        end
    end.

(** [netip.parseIPv6] as [net.ParseIP] uses it: an address with a zone
    (a [%]) is rejected, whether the zone is empty or not. *)
Definition parseIPv6 (input : string) : option IP :=
  if contains input "%" then None
  else
    let zeros := replicate 16 0 in
    let '(s, ellipsis) :=
      if HasPrefix input "::" then (string_drop 2 input, Some O)
      else (input, None) in
    if match ellipsis with Some _ => String.eqb s "" | None => false end
    then Some zeros
    else
      match parseIPv6_loop 9 s O ellipsis zeros with
      | None => None
      | Some (rest, i, ellipsis, ip) =>
          if negb (String.eqb rest "") then None
          else if (i <? 16)%nat then
            match ellipsis with
            | None => None
            | Some e =>
                let n := (16 - i)%nat in
                Some (take e ip ++ replicate n 0 ++ take (i - e) (drop e ip))%list
            end
          else
            match ellipsis with
            | Some _ => None
            | None => Some ip
            end
      end.

(** [netip.ParseAddr] dispatches on the first of [.], [:] and [%]. *)
Fixpoint parseAddr_dispatch (input s : string) : option IP :=
  match s with
  | EmptyString => None
  | String c r =>
      if Ascii.eqb c "." then
        match parseIPv4Fields input with
        | Some f => Some (replicate 10 0 ++ [255; 255] ++ f)%list
        | None => None
        end
      else if Ascii.eqb c ":" then parseIPv6 input
      else if Ascii.eqb c "%" then None
      else parseAddr_dispatch input r
  end.

(** [net.ParseIP]: the 16-byte form of the address, [None] for [nil]. *)
Definition ParseIP (s : string) : option IP := parseAddr_dispatch s s.

(** [ip.To4()] *)
Definition To4 (ip : IP) : option IP :=
  if (length ip =? 4)%nat then Some ip
  else if (length ip =? 16)%nat
          && forallb (Z.eqb 0) (take 10 ip)
          && forallb (Z.eqb 255) (take 2 (drop 10 ip))
  then Some (drop 12 ip)
  else None.

Definition string4 (p : IP) : string :=
  match p with
  | [a; b; c; d] => Itoa a +:+ "." +:+ Itoa b +:+ "." +:+ Itoa c +:+ "." +:+ Itoa d
  | _ => "?"
  end.

Definition hexDigit (v : Z) : ascii :=
  if v <? 10 then byte (Z.to_N (48 + v)) else byte (Z.to_N (97 + v - 10)).

(** [appendHex]: lower-case hexadecimal without leading zeros. *)
Definition appendHex (x : Z) : string :=
  let d3 := Z.shiftr x 12 in
  let d2 := Z.land (Z.shiftr x 8) 15 in
  let d1 := Z.land (Z.shiftr x 4) 15 in
  let d0 := Z.land x 15 in
  if 4096 <=? x then string_of_list_ascii (List.map hexDigit [d3; d2; d1; d0])
  else if 256 <=? x then string_of_list_ascii (List.map hexDigit [d2; d1; d0])
  else if 16 <=? x then string_of_list_ascii (List.map hexDigit [d1; d0])
  else string_of_list_ascii [hexDigit d0].

(** The eight 16-bit groups of a 16-byte address. *)
Fixpoint groups (ip : list Z) : list Z :=
  match ip with
  | hi :: lo :: r => (hi * 256 + lo) :: groups r
  | _ => []
  end.

(** Length of the run of zero groups [gs] starts with. *)
Fixpoint zeroRun (gs : list Z) : nat :=
  match gs with
  | 0 :: r => S (zeroRun r)
  | _ => O
  end.

(** The first loop of [appendTo6]: the longest run of at least two zero
    groups, the first one among equals; [(255, 255)] when there is none. *)
Fixpoint longestZeroRun (gs : list Z) (i : nat) (best : nat * nat) : nat * nat :=
  match gs with
  | [] => best
  | _ :: r =>
      let l := zeroRun gs in
      let best' :=
        if (2 <=? l)%nat && (snd best - fst best <? l)%nat then (i, (i + l)%nat)
        else best in
      longestZeroRun r (S i) best'
  end.

(** The second loop of [appendTo6], from group [i] on. *)
Fixpoint appendGroups (fuel : nat) (gs : list Z) (i : nat) (zr : nat * nat) : string :=
  match fuel with
  | O => ""
  | S fuel' =>
      if (8 <=? i)%nat then ""
      else if (i =? fst zr)%nat then
        if (8 <=? snd zr)%nat then "::"
        else "::" +:+ appendHex (nth (snd zr) gs 0)
                  +:+ appendGroups fuel' gs (S (snd zr)) zr
      else
        (if (0 <? i)%nat then ":" else "")
          +:+ appendHex (nth i gs 0) +:+ appendGroups fuel' gs (S i) zr
  end.

Definition string6 (ip : IP) : string :=
  let gs := groups ip in
  appendGroups 8 gs O (longestZeroRun gs O (255%nat, 255%nat)).

(** [ip.String()] for a slice of length 4 or 16. *)
Definition IPString (ip : IP) : string :=
  match To4 ip with
  | Some p4 => string4 p4
  | None => string6 ip
  end.

Definition routeExcludeCIDRsForHost (host : string) : list string :=
  let trimmedHost := TrimSpace host in
  if String.eqb trimmedHost "" then []
  else
    match ParseIP trimmedHost with
    | None => []
    | Some parsedIP =>
        match To4 parsedIP with
        | Some ipv4 => [IPString ipv4 +:+ "/32"]
        | None => [IPString parsedIP +:+ "/128"]
        end
    end.

(* ===================================================================== *)
(** ** Configuration and documents *)
(* ===================================================================== *)

Record Config := mkConfig {
  StateDir : string;
  Interface : string;
  ListenAddress : string;
  ListenPort : Z;
  EndpointHost : string;
  WebsocketPath : string;
  TLSServerName : string;
  TLSCertPath : string;
  TLSKeyPath : string;
  ClientTunName : string;
  ClientTunCIDR : string;
  ClientInsecureTLS : bool;
  SingBoxBinary : string;
  APIBind : string;
  APIToken : string;
  AutoStart : bool
}.

(** The values the documents are built from: [map[string]any] with the
    dynamic types the manager puts into it. *)
Inductive JValue :=
| JString (s : string)
| JInt (z : Z)
| JBool (b : bool)
| JStrings (l : list string)
| JUsers (l : list (gmap string string))
| JArray (l : list JValue)
| JObject (m : gmap string JValue).

(** A map literal [map[string]any{ k: v, ... }]. *)
Definition object (l : list (string * JValue)) : gmap string JValue :=
  list_to_map l.

(** [strings.Split(s, ",")]-like splitting on one separator byte; [cur]
    is the reversed part read since the last separator. *)
Fixpoint splitByte (sep : ascii) (s : string) (cur : string) : list string :=
  match s with
  | EmptyString => [String.rev cur]
  | String c r =>
      if Ascii.eqb c sep then String.rev cur :: splitByte sep r ""
      else splitByte sep r (String c cur)
  end.

Definition Split (s : string) (sep : ascii) : list string := splitByte sep s "".

Fixpoint trimNonEmpty (parts : list string) : list string :=
  match parts with
  | [] => []
  | part :: r =>
      let trimmed := TrimSpace part in
      if String.eqb trimmed "" then trimNonEmpty r
      else trimmed :: trimNonEmpty r
  end.

Definition splitAndTrimCSV (raw : string) : list string :=
  trimNonEmpty (Split raw ",").

Definition privateCIDRs : list string :=
  [ "127.0.0.0/8"; "10.0.0.0/8"; "172.16.0.0/12"; "192.168.0.0/16";
    "169.254.0.0/16"; "224.0.0.0/4"; "::1/128"; "fc00::/7"; "fe80::/10" ].

(** The tun inbound of the client document. *)
Definition tunInboundOf (cfg : Config) (host : string) : gmap string JValue :=
  let tunAddresses := splitAndTrimCSV (ClientTunCIDR cfg) in
  let tunAddresses :=
    if (length tunAddresses =? 0)%nat then ["172.19.0.1/30"] else tunAddresses in
  let endpointExcludeCIDRs := routeExcludeCIDRsForHost host in
  let tunInbound := object
    [ ("type", JString "tun");
      ("tag", JString "tun-in");
      ("interface_name", JString (ClientTunName cfg));
      ("address", JStrings tunAddresses);
      ("auto_route", JBool true);
      ("strict_route", JBool true);
      ("sniff", JBool true);
      ("sniff_override_destination", JBool false);
      ("stack", JString "mixed") ] in
  if (0 <? length endpointExcludeCIDRs)%nat
  then <["route_exclude_address" := JStrings endpointExcludeCIDRs]> tunInbound
  else tunInbound.

Definition buildClientConfigMap (cfg : Config) (c : Client) : gmap string JValue :=
  let '(host, port) := resolveEndpointHostPort (EndpointHost cfg) (ListenPort cfg) in
  let tunInbound := tunInboundOf cfg host in
  object
    [ ("log", JObject (object [ ("level", JString "warn") ]));
      ("dns", JObject (object
         [ ("servers", JArray
              [ JObject (object
                  [ ("type", JString "udp");
                    ("tag", JString "dns-remote");
                    ("server", JString "1.1.1.1");
                    ("detour", JString "vless-out") ]) ]);
           ("final", JString "dns-remote");
           ("strategy", JString "prefer_ipv4") ]));
      ("inbounds", JArray [ JObject tunInbound ]);
      ("outbounds", JArray
         [ JObject (object
             [ ("type", JString "vless");
               ("tag", JString "vless-out");
               ("server", JString host);
               ("server_port", JInt port);
               ("uuid", JString (UUID c));
               ("tls", JObject (object
                  [ ("enabled", JBool true);
                    ("server_name", JString (TLSServerName cfg));
                    ("insecure", JBool (ClientInsecureTLS cfg)) ]));
               ("transport", JObject (object
                  [ ("type", JString "ws");
                    ("path", JString (WebsocketPath cfg)) ])) ]);
           JObject (object [ ("type", JString "direct"); ("tag", JString "direct") ]);
           JObject (object [ ("type", JString "block"); ("tag", JString "block") ]) ]);
      ("route", JObject (object
         [ ("auto_detect_interface", JBool true);
           ("default_domain_resolver", JObject (object
              [ ("server", JString "dns-remote");
                ("strategy", JString "prefer_ipv4") ]));
           ("rules", JArray
              [ JObject (object
                  [ ("protocol", JString "dns");
                    ("action", JString "hijack-dns") ]);
                JObject (object
                  [ ("ip_cidr", JStrings privateCIDRs);
                    ("outbound", JString "direct") ]) ]);
           ("final", JString "vless-out") ])) ].

Definition buildServerConfigMap (cfg : Config) (clients : list Client)
  : gmap string JValue :=
  let users :=
    List.map (fun c => ({[ "name" := Name c; "uuid" := UUID c ]} : gmap string string))
             clients in
  object
    [ ("log", JObject (object
         [ ("level", JString "info"); ("timestamp", JBool true) ]));
      ("inbounds", JArray
         [ JObject (object
             [ ("type", JString "vless");
               ("tag", JString "vless-in");
               ("listen", JString (ListenAddress cfg));
               ("listen_port", JInt (ListenPort cfg));
               ("users", JUsers users);
               ("tls", JObject (object
                  [ ("enabled", JBool true);
                    ("server_name", JString (TLSServerName cfg));
                    ("certificate_path", JString (TLSCertPath cfg));
                    ("key_path", JString (TLSKeyPath cfg)) ]));
               ("transport", JObject (object
                  [ ("type", JString "ws");
                    ("path", JString (WebsocketPath cfg)) ])) ]) ]);
      ("outbounds", JArray
         [ JObject (object [ ("type", JString "direct"); ("tag", JString "direct") ]);
           JObject (object [ ("type", JString "block"); ("tag", JString "block") ]) ]) ].

(** Accessors used to state properties of documents. *)
Definition field (k : string) (v : option JValue) : option JValue :=
  match v with
  | Some (JObject m) => m !! k
  | _ => None
  end.

Definition item (i : nat) (v : option JValue) : option JValue :=
  match v with
  | Some (JArray l) => l !! i
  | _ => None
  end.

(* ===================================================================== *)
(** ** package path/filepath (Unix) *)
(* ===================================================================== *)

(** One step of the element loop of [filepath.Clean]; [out] is the stack
    of the elements kept so far, last one first. *)
Definition cleanStep (rooted : bool) (out : list string) (elem : string) : list string :=
  if String.eqb elem "" || String.eqb elem "." then out
  else if String.eqb elem ".." then
    match out with
    | top :: below => if String.eqb top ".." then elem :: out else below
    | [] => if rooted then out else [elem]
    end
  else elem :: out.

Fixpoint joinWith (sep : string) (l : list string) : string :=
  match l with
  | [] => ""
  | [x] => x
  | x :: r => x +:+ sep +:+ joinWith sep r
  end.

Definition Clean (path : string) : string :=
  if String.eqb path "" then "."
  else
    let rooted := HasPrefix path "/" in
    let out := fold_left (cleanStep rooted) (Split path "/") [] in
    let body := joinWith "/" (List.rev out) in
    if rooted then "/" +:+ body
    else if String.eqb body "" then "." else body.

(** [filepath.Join(elem...)] *)
Fixpoint Join (elem : list string) : string :=
  match elem with
  | [] => ""
  | e :: r => if String.eqb e "" then Join r else Clean (joinWith "/" elem)
  end.

(** [filepath.Dir] *)
Definition Dir (path : string) : string :=
  match LastIndexByte path "/" with
  | Some i => Clean (slice path 0 (i + 1))
  | None => Clean ""
  end.

(* ===================================================================== *)
(** ** The manager's environment *)
(* ===================================================================== *)

Record File := mkFile { content : string; perm : Z }.

(** What the environment does to the next system call: nothing, or an
    error that does not depend on the modelled state (permissions, a full
    disk, an I/O error).  A failed [WriteFile] may leave the first
    [written] bytes behind. *)
Inductive envError := FaultAccess | FaultNoSpace | FaultIO.
Inductive fault := NoFault | Fault (e : envError) (written : nat).

Definition errnoOf (e : envError) : errno :=
  match e with
  | FaultAccess => EACCES
  | FaultNoSpace => ENOSPC
  | FaultIO => EIO
  end.

Inductive procEvent :=
| Started (pid : nat)
| Interrupted (pid : nat)
| Killed (pid : nat).

(** The file system, the schedule of faults of the coming system calls,
    the random bytes [crypto/rand] will deliver, the clock, the process
    handle [m.serverCmd] (the pid of the started process), what happened
    to processes and what the logger printed. *)
Record World := mkWorld {
  files : gmap string File;
  dirs : gmap string Z;
  faults : list fault;
  entropy : list Z;
  clock : Time;
  serverCmd : option nat;
  nextPid : nat;
  procs : list procEvent;
  logged : list string
}.

Definition setFiles (f : gmap string File) (w : World) : World :=
  mkWorld f (dirs w) (faults w) (entropy w) (clock w) (serverCmd w)
          (nextPid w) (procs w) (logged w).
Definition setDirs (d : gmap string Z) (w : World) : World :=
  mkWorld (files w) d (faults w) (entropy w) (clock w) (serverCmd w)
          (nextPid w) (procs w) (logged w).
Definition setFaults (fs : list fault) (w : World) : World :=
  mkWorld (files w) (dirs w) fs (entropy w) (clock w) (serverCmd w)
          (nextPid w) (procs w) (logged w).
Definition setEntropy (e : list Z) (w : World) : World :=
  mkWorld (files w) (dirs w) (faults w) e (clock w) (serverCmd w)
          (nextPid w) (procs w) (logged w).
Definition setClock (t : Time) (w : World) : World :=
  mkWorld (files w) (dirs w) (faults w) (entropy w) t (serverCmd w)
          (nextPid w) (procs w) (logged w).
Definition setServerCmd (c : option nat) (w : World) : World :=
  mkWorld (files w) (dirs w) (faults w) (entropy w) (clock w) c
          (nextPid w) (procs w) (logged w).
Definition setNextPid (n : nat) (w : World) : World :=
  mkWorld (files w) (dirs w) (faults w) (entropy w) (clock w) (serverCmd w)
          n (procs w) (logged w).
Definition addProc (e : procEvent) (w : World) : World :=
  mkWorld (files w) (dirs w) (faults w) (entropy w) (clock w) (serverCmd w)
          (nextPid w) (procs w ++ [e])%list (logged w).
Definition addLog (line : string) (w : World) : World :=
  mkWorld (files w) (dirs w) (faults w) (entropy w) (clock w) (serverCmd w)
          (nextPid w) (procs w) (logged w ++ [line])%list.

(** Computations that read and change the world and may fail; the world
    a failed computation leaves behind is kept, as in Go. *)
Definition M (A : Type) : Type := World -> result A * World.

Definition ret {A} (a : A) : M A := fun w => (Ok a, w).
Definition throw {A} (e : error) : M A := fun w => (Err e, w).
Definition bind {A B} (m : M A) (k : A -> M B) : M B :=
  fun w =>
    match m w with
    | (Ok a, w') => k a w'
    | (Err e, w') => (Err e, w')
    end.

(** [if err != nil { return fmt.Errorf(msg + ": %w", err) }] *)
Definition wrapErr {A} (msg : string) (m : M A) : M A :=
  fun w =>
    match m w with
    | (Err e, w') => (Err (Wrapped msg e), w')
    | r => r
    end.

Declare Scope go_scope.
Delimit Scope go_scope with go.
Notation "x <- m ;; k" := (bind m (fun x => k))
  (at level 100, m at next level, right associativity) : go_scope.
Notation "m ;;; k" := (bind m (fun _ => k))
  (at level 100, right associativity) : go_scope.
Open Scope go_scope.

(** The outcome the environment has in store for the next system call. *)
Definition nextFault : M fault :=
  fun w =>
    match faults w with
    | [] => (Ok NoFault, w)
    | f :: r => (Ok f, setFaults r w)
    end.

Definition modify (f : World -> World) : M unit := fun w => (Ok tt, f w).
Definition gets {A} (f : World -> A) : M A := fun w => (Ok (f w), w).

(** The directories [os.MkdirAll] makes sure exist: [path] and the
    directories above it. *)
Fixpoint ancestors (fuel : nat) (path : string) : list string :=
  match fuel with
  | O => [path]
  | S fuel' =>
      let up := Dir path in
      if String.eqb up path then [path] else path :: ancestors fuel' up
  end.

Definition mkdirs (mode : Z) (paths : list string) (d : gmap string Z) : gmap string Z :=
  fold_right (fun p d => match d !! p with Some _ => d | None => <[p := mode]> d end)
             d paths.

Definition os_MkdirAll (path : string) (mode : Z) : M unit :=
  f <- nextFault ;;
  match f with
  | Fault e _ => throw (PathError "mkdir" path (errnoOf e))
  | NoFault =>
      fs <- gets files ;;
      match fs !! path with
      | Some _ => throw (PathError "mkdir" path ENOTDIR)
      | None =>
          modify (fun w => setDirs (mkdirs mode (ancestors (String.length path) (Clean path))
                                           (dirs w)) w)
      end
  end.

Definition os_Chmod (path : string) (mode : Z) : M unit :=
  f <- nextFault ;;
  match f with
  | Fault e _ => throw (PathError "chmod" path (errnoOf e))
  | NoFault =>
      fs <- gets files ;;
      ds <- gets dirs ;;
      match fs !! path, ds !! path with
      | Some file, _ => modify (setFiles (<[path := mkFile (content file) mode]> fs))
      | None, Some _ => modify (setDirs (<[path := mode]> ds))
      | None, None => throw (PathError "chmod" path ENOENT)
      end
  end.

(** [os.WriteFile]: the file is created with [mode] when it does not
    exist, truncated when it does; a failure may leave a prefix of the
    data in it. *)
Definition os_WriteFile (path data : string) (mode : Z) : M unit :=
  f <- nextFault ;;
  fs <- gets files ;;
  ds <- gets dirs ;;
  let modeOf := match fs !! path with Some old => perm old | None => mode end in
  match ds !! path with
  | Some _ => throw (PathError "open" path EISDIR)
  | None =>
      match f with
      | Fault e O => throw (PathError "open" path (errnoOf e))
      | Fault e (S n) =>
          modify (setFiles (<[path := mkFile (substring 0 n data) modeOf]> fs)) ;;;
          throw (PathError "write" path (errnoOf e))
      | NoFault => modify (setFiles (<[path := mkFile data modeOf]> fs))
      end
  end.

Definition os_Rename (oldpath newpath : string) : M unit :=
  f <- nextFault ;;
  match f with
  | Fault e _ => throw (PathError "rename" oldpath (errnoOf e))
  | NoFault =>
      fs <- gets files ;;
      ds <- gets dirs ;;
      match fs !! oldpath, ds !! newpath with
      | None, _ => throw (PathError "rename" oldpath ENOENT)
      | Some _, Some _ => throw (PathError "rename" oldpath EISDIR)
      | Some file, None => modify (setFiles (<[newpath := file]> (delete oldpath fs)))
      end
  end.

(** Whether one of the directories above [path] is a regular file. *)
Definition underFile (fs : gmap string File) (path : string) : bool :=
  existsb (fun p => match fs !! p with Some _ => true | None => false end)
          (ancestors (String.length path) (Dir path)).

(** [os.ReadFile]: a directory opens but does not read ([EISDIR]), a
    path below a regular file does not open ([ENOTDIR]), and only a path
    at which there is nothing is reported as missing ([ENOENT]). *)
Definition os_ReadFile (path : string) : M string :=
  f <- nextFault ;;
  match f with
  | Fault e _ => throw (PathError "read" path (errnoOf e))
  | NoFault =>
      fs <- gets files ;;
      ds <- gets dirs ;;
      match fs !! path with
      | Some file => ret (content file)
      | None =>
          match ds !! path with
          | Some _ => throw (PathError "read" path EISDIR)
          | None =>
              if underFile fs path then throw (PathError "open" path ENOTDIR)
              else throw (PathError "open" path ENOENT)
          end
      end
  end.

(** [fileExists]: [os.Stat] succeeds and the path is not a directory.  A
    [Stat] that fails for another reason than absence is not modelled. *)
Definition fileExists (path : string) : M bool :=
  fs <- gets files ;;
  ret (match fs !! path with Some _ => true | None => false end).

(** [crypto/rand.Read] of [n] bytes. *)
Definition rand_Read (n : nat) : M (list Z) :=
  e <- gets entropy ;;
  if (length e <? n)%nat then throw RandError
  else modify (setEntropy (drop n e)) ;;; ret (take n e).

Definition time_Now : M Time := gets clock.

(** [time.Sleep(d)] with [d] in nanoseconds. *)
Definition time_Sleep (d : Z) : M unit :=
  modify (fun w =>
    let t := clock w in
    let n := wall_nsec t + d in
    setClock (mkTime (wall_sec t + n / 1000000000) (n mod 1000000000)) w).

Definition logger_Printf (line : string) : M unit := modify (addLog line).

(** [os.OpenFile(path, O_CREATE|O_WRONLY|O_APPEND, mode)] followed, at
    some point, by [Close]: the file exists afterwards. *)
Definition os_OpenAppend (path : string) (mode : Z) : M unit :=
  f <- nextFault ;;
  match f with
  | Fault e _ => throw (PathError "open" path (errnoOf e))
  | NoFault =>
      fs <- gets files ;;
      match fs !! path with
      | Some _ => ret tt
      | None => modify (setFiles (<[path := mkFile "" mode]> fs))
      end
  end.

(** [exec.Command(binary, ...).Start()]: the pid of the new process. *)
Definition exec_Start (binary : string) : M nat :=
  f <- nextFault ;;
  match f with
  | Fault _ _ => throw (ExecError binary)
  | NoFault =>
      pid <- gets nextPid ;;
      modify (fun w => addProc (Started pid) (setNextPid (S pid) w)) ;;;
      ret pid
  end.

(* ===================================================================== *)
(** ** encoding/json and crypto/x509 *)
(* ===================================================================== *)

(** [json.MarshalIndent(v, "", "  ")] at the two types the manager
    encodes, and [json.Unmarshal] into a [map[string]Client]. *)
Class JSON := {
  json_MarshalIndent_clients : gmap string Client -> result string;
  json_MarshalIndent_doc : gmap string JValue -> result string;
  json_Unmarshal_clients : string -> result (gmap string Client)
}.

(** The cryptographic part of [generateSelfSignedCertificate]
    ([rsa.GenerateKey], [rand.Int], [x509.CreateCertificate] and the PEM
    encoding): from the random bytes available, the time and the common
    name, the certificate and the key in PEM form, or an error, and the
    random bytes left. *)
Class X509 := {
  x509_selfSigned : list Z -> Time -> string -> result (string * string) * list Z
}.

Definition marshalPretty {V} (encode : V -> result string) (v : V) : result string :=
  match encode v with
  | Err e => Err e
  | Ok raw =>
      match string_last raw with
      | Some "010"%char => Ok raw
      | _ => Ok (raw +:+ String "010" "")
      end
  end.

Definition liftResult {A} (r : result A) : M A :=
  match r with
  | Ok a => ret a
  | Err e => throw e
  end.

Definition writeSecretFile (path content : string) : M unit :=
  os_MkdirAll (Dir path) 448 ;;;
  let tmpPath := path +:+ ".tmp" in
  os_WriteFile tmpPath content 384 ;;;
  os_Chmod tmpPath 384 ;;;
  os_Rename tmpPath path.

(** [hex.EncodeToString] *)
Definition hexByte (x : Z) : string :=
  String (hexDigit (Z.shiftr (x mod 256) 4)) (String (hexDigit (Z.land x 15)) "").

Fixpoint hexEncode (bs : list Z) : string :=
  match bs with
  | [] => ""
  | x :: r => hexByte x +:+ hexEncode r
  end.

Definition sliceL {A} (l : list A) (i j : nat) : list A := take (j - i) (drop i l).

(** The text of a version 4 UUID made of 16 random bytes. *)
Definition formatUUID (b : list Z) : string :=
  let b := <[6%nat := Z.lor (Z.land (nth 6 b 0) 15) 64]> b in
  let b := <[8%nat := Z.lor (Z.land (nth 8 b 0) 63) 128]> b in
  hexEncode (sliceL b 0 4) +:+ "-" +:+ hexEncode (sliceL b 4 6) +:+ "-"
    +:+ hexEncode (sliceL b 6 8) +:+ "-" +:+ hexEncode (sliceL b 8 10) +:+ "-"
    +:+ hexEncode (sliceL b 10 16).

Definition generateUUID : M string :=
  b <- rand_Read 16 ;;
  ret (formatUUID b).

Definition generateSelfSignedCertificate `{X509} (certPath keyPath commonName : string)
  : M unit :=
  os_MkdirAll (Dir certPath) 448 ;;;
  os_MkdirAll (Dir keyPath) 448 ;;;
  e <- gets entropy ;;
  now <- time_Now ;;
  let '(r, e') := x509_selfSigned e now commonName in
  modify (setEntropy e') ;;;
  pems <- liftResult r ;;
  writeSecretFile certPath (fst pems) ;;;
  writeSecretFile keyPath (snd pems).

(* ===================================================================== *)
(** ** The manager *)
(* ===================================================================== *)

(** The fields of [Manager] that never change; [m.serverCmd] is part of
    the [World], [m.mu] is what makes each public operation one step. *)
Record Manager := mkManager {
  cfg : Config;
  clientsDir : string;
  statePath : string;
  serverConfigPath : string;
  serverLogPath : string
}.

Definition NewManager (cfg : Config) : Manager :=
  {| cfg := cfg;
     clientsDir := Join [StateDir cfg; "clients"];
     statePath := Join [StateDir cfg; "clients"; "clients.json"];
     serverConfigPath := Join [StateDir cfg; "server.json"];
     serverLogPath := Join [StateDir cfg; "sing-box.log"] |}.

Definition setID (v : string) (c : Client) : Client :=
  mkClient v (Name c) (UUID c) (Address c) (ConfigPath c) (CreatedAt c).
Definition setName (v : string) (c : Client) : Client :=
  mkClient (ID c) v (UUID c) (Address c) (ConfigPath c) (CreatedAt c).
Definition setUUID (v : string) (c : Client) : Client :=
  mkClient (ID c) (Name c) v (Address c) (ConfigPath c) (CreatedAt c).
Definition setAddress (v : string) (c : Client) : Client :=
  mkClient (ID c) (Name c) (UUID c) v (ConfigPath c) (CreatedAt c).
Definition setConfigPath (v : string) (c : Client) : Client :=
  mkClient (ID c) (Name c) (UUID c) (Address c) v (CreatedAt c).
Definition setCreatedAt (v : Time) (c : Client) : Client :=
  mkClient (ID c) (Name c) (UUID c) (Address c) (ConfigPath c) v.

(** [filepath.Join(m.clientsDir, id+".json")] *)
Definition clientConfigPath (m : Manager) (id : string) : string :=
  Join [clientsDir m; id +:+ ".json"].

Definition interfaceRunningLocked : M bool :=
  cmd <- gets serverCmd ;;
  ret (match cmd with Some _ => true | None => false end).

Definition writeClientConfigLocked `{JSON} (m : Manager) (c : Client) : M unit :=
  payload <- wrapErr "serialize client config"
               (liftResult (marshalPretty json_MarshalIndent_doc
                                          (buildClientConfigMap (cfg m) c))) ;;
  wrapErr "write client config" (writeSecretFile (ConfigPath c) payload).

(** The record [saveClientsLocked] stores under key [id]. *)
Definition saveNormalize (m : Manager) (id : string) (c : Client) : Client :=
  let c := setID id c in
  if isBlank (ConfigPath c) then setConfigPath (clientConfigPath m id) c else c.

(** The map [normalized] of [saveClientsLocked]. *)
Definition normalizedClients (m : Manager) (clients : gmap string Client)
  : gmap string Client :=
  map_imap (fun id c => Some (saveNormalize m id c)) clients.

Definition saveClientsLocked `{JSON} (m : Manager) (clients : gmap string Client)
  : M unit :=
  let normalized := normalizedClients m clients in
  jsonBytes <- wrapErr "serialize clients state"
                 (liftResult (marshalPretty json_MarshalIndent_clients normalized)) ;;
  wrapErr "write clients state" (writeSecretFile (statePath m) jsonBytes).

(** The body of the loop of [loadClientsLocked] for the entry [id]: the
    healed record and whether something was filled in. *)
Definition healClient (m : Manager) (id : string) (c : Client) : M (Client * bool) :=
  let changed := false in
  let '(c, changed) :=
    if isBlank (ID c) then (setID id c, true) else (c, changed) in
  let '(c, changed) :=
    if isBlank (Name c) then (setName id c, true) else (c, changed) in
  s <- (if isBlank (UUID c)
        then u <- generateUUID ;; ret (setUUID u c, true)
        else ret (c, changed)) ;;
  let '(c, changed) := s in
  let '(c, changed) :=
    if isBlank (Address c) then (setAddress (UUID c) c, true) else (c, changed) in
  let '(c, changed) :=
    if isBlank (ConfigPath c)
    then (setConfigPath (clientConfigPath m (ID c)) c, true) else (c, changed) in
  if IsZero (CreatedAt c)
  then now <- time_Now ;; ret (setCreatedAt now c, true)
  else ret (c, changed).

(** [for id, c := range clients { ...; clients[id] = c }] over the
    entries in the order given. Go leaves the order of a map iteration
    unspecified; the callers below pass [map_to_list]. *)
Fixpoint healAll (m : Manager) (entries : list (string * Client))
         (clients : gmap string Client) (changed : bool)
  : M (gmap string Client * bool) :=
  match entries with
  | [] => ret (clients, changed)
  | (id, c) :: rest =>
      r <- healClient m id c ;;
      healAll m rest (<[id := fst r]> clients) (changed || snd r)
  end.

Definition loadClientsLocked `{JSON} (m : Manager) : M (gmap string Client) :=
  fun w =>
    match os_ReadFile (statePath m) w with
    | (Err e, w1) =>
        if IsNotExist e then (Ok ∅, w1)
        else (Err (Wrapped "read clients state" e), w1)
    | (Ok raw, w1) =>
        if (String.length (TrimSpace raw) =? 0)%nat then (Ok ∅, w1)
        else
          match json_Unmarshal_clients raw with
          | Err e => (Err (Wrapped "parse clients state" e), w1)
          | Ok clients =>
              (r <- healAll m (map_to_list clients) clients false ;;
               let '(clients, changed) := r in
               (if changed : bool then saveClientsLocked m clients else ret tt) ;;;
               ret clients) w1
          end
    end.

(** [sort.Slice(list, func(i, j) { return list[i].ID < list[j].ID })],
    as an insertion sort (stable; [sort.Slice] does not promise an order
    among records with equal ids). *)
Fixpoint insertByID (c : Client) (l : list Client) : list Client :=
  match l with
  | [] => [c]
  | x :: r => if String.ltb (ID x) (ID c) || String.eqb (ID x) (ID c)
              then x :: insertByID c r else c :: l
  end.

Definition sortByID (l : list Client) : list Client :=
  fold_right insertByID [] l.

(** The first loop of [rewriteServerConfigLocked] for one entry. *)
Definition fillPaths (m : Manager) (id : string) (c : Client) : Client * bool :=
  let '(c, changed) :=
    if isBlank (ConfigPath c)
    then (setConfigPath (clientConfigPath m id) c, true) else (c, false) in
  if isBlank (Address c) then (setAddress (UUID c) c, true) else (c, changed).

Fixpoint writeClientConfigs `{JSON} (m : Manager) (l : list Client) : M unit :=
  match l with
  | [] => ret tt
  | c :: r => writeClientConfigLocked m c ;;; writeClientConfigs m r
  end.

(** The map [clients] after the first loop of [rewriteServerConfigLocked]. *)
Definition filledClients (m : Manager) (clients : gmap string Client)
  : gmap string Client :=
  map_imap (fun id c => Some (fst (fillPaths m id c))) clients.

Definition rewriteServerConfigLocked `{JSON} (m : Manager)
           (clients : gmap string Client) : M unit :=
  let entries := map_to_list clients in
  let list := List.map (fun e => fst (fillPaths m (fst e) (snd e))) entries in
  let changed := existsb (fun e => snd (fillPaths m (fst e) (snd e))) entries in
  let clients' := filledClients m clients in
  let list := sortByID list in
  payload <- wrapErr "serialize server config"
               (liftResult (marshalPretty json_MarshalIndent_doc
                                          (buildServerConfigMap (cfg m) list))) ;;
  wrapErr "write server config" (writeSecretFile (serverConfigPath m) payload) ;;;
  writeClientConfigs m list ;;;
  if changed then saveClientsLocked m clients' else ret tt.

Definition ensureTLSMaterialLocked `{X509} (m : Manager) : M unit :=
  haveCert <- fileExists (TLSCertPath (cfg m)) ;;
  haveKey <- fileExists (TLSKeyPath (cfg m)) ;;
  if haveCert && haveKey then ret tt
  else
    let commonName := TrimSpace (TLSServerName (cfg m)) in
    let commonName :=
      if String.eqb commonName "" then TrimSpace (EndpointHost (cfg m))
      else commonName in
    let commonName :=
      if String.eqb commonName "" then "localhost" else commonName in
    wrapErr "generate self-signed tls certificate"
      (generateSelfSignedCertificate (TLSCertPath (cfg m)) (TLSKeyPath (cfg m))
                                     commonName) ;;;
    logger_Printf ("generated self-signed TLS certificate at " +:+ TLSCertPath (cfg m)).

Definition startInterfaceLocked (m : Manager) : M unit :=
  running <- interfaceRunningLocked ;;
  if running : bool then ret tt
  else
    wrapErr "open sing-box log" (os_OpenAppend (serverLogPath m) 384) ;;;
    pid <- wrapErr "start sing-box" (exec_Start (SingBoxBinary (cfg m))) ;;
    modify (setServerCmd (Some pid)) ;;;
    logger_Printf ("vless server started with sing-box (pid="
                   +:+ Itoa (Z.of_nat pid) +:+ ")").

(** What the goroutine started by [startInterfaceLocked] does, under the
    lock, once the process [pid] has exited. *)
Definition reapLocked (pid : nat) : M unit :=
  cmd <- gets serverCmd ;;
  match cmd with
  | Some p => if (p =? pid)%nat then modify (setServerCmd None) else ret tt
  | None => ret tt
  end.

Definition stopInterfaceLocked : M unit :=
  cmd <- gets serverCmd ;;
  match cmd with
  | None => ret tt
  | Some pid =>
      modify (addProc (Interrupted pid)) ;;;
      time_Sleep 350000000 ;;;
      modify (addProc (Killed pid)) ;;;
      modify (setServerCmd None) ;;;
      logger_Printf "vless server stopped"
  end.

(** [createClientLocked].  The map is a [gmap], which is never nil.  The
    Go map is nil after a state file that holds the JSON value [null],
    and the assignment [clients[c.ID] = c] then panics: the function
    returns nothing, where the model goes on with the empty map.  What is
    stated of this function and of its callers is stated of a call that
    returns, or under [storeNotVoid]. *)
Definition createClientLocked `{UnicodeTables} `{JSON} (m : Manager) (name : string)
           (clients : gmap string Client) : M (Client * string) :=
  now <- time_Now ;;
  let id := allocateClientIDLocked now name clients in
  userUUID <- generateUUID ;;
  let configPath := clientConfigPath m id in
  created <- time_Now ;;
  let c := mkClient id (TrimSpace name) userUUID userUUID configPath created in
  let c := if String.eqb (Name c) "" then setName id c else c in
  let clients := <[ID c := c]> clients in
  saveClientsLocked m clients ;;;
  rewriteServerConfigLocked m clients ;;;
  running <- interfaceRunningLocked ;;
  (if running : bool
   then stopInterfaceLocked ;;;
        wrapErr "reload sing-box after creating client" (startInterfaceLocked m)
   else ret tt) ;;;
  raw <- wrapErr "read generated client config" (os_ReadFile (ConfigPath c)) ;;
  ret (c, raw).

Definition InitState `{UnicodeTables} `{JSON} `{X509} (m : Manager) : M unit :=
  wrapErr "create clients dir" (os_MkdirAll (clientsDir m) 448) ;;;
  wrapErr "create tls cert dir" (os_MkdirAll (Dir (TLSCertPath (cfg m))) 448) ;;;
  wrapErr "create tls key dir" (os_MkdirAll (Dir (TLSKeyPath (cfg m))) 448) ;;;
  (fun w =>
     match os_Chmod (StateDir (cfg m)) 448 w with
     | (Err e, w') =>
         if IsNotExist e then (Ok tt, w')
         else (Err (Wrapped ("chmod " +:+ StateDir (cfg m)) e), w')
     | r => r
     end) ;;;
  wrapErr ("chmod " +:+ clientsDir m) (os_Chmod (clientsDir m) 448) ;;;
  ensureTLSMaterialLocked m ;;;
  clients <- loadClientsLocked m ;;
  clients <- (if (size clients =? 0)%nat
              then createClientLocked m "default-client" clients ;;;
                   loadClientsLocked m
              else ret clients) ;;
  rewriteServerConfigLocked m clients.

Definition CreateClient `{UnicodeTables} `{JSON} (m : Manager) (name : string)
  : M (Client * string) :=
  clients <- loadClientsLocked m ;;
  createClientLocked m name clients.

Definition GetClientConfig `{JSON} (m : Manager) (clientID : string)
  : M (Client * string) :=
  clients <- loadClientsLocked m ;;
  match clients !! clientID with
  | None => throw ErrNotExist
  | Some c =>
      writeClientConfigLocked m c ;;;
      raw <- wrapErr "read client config" (os_ReadFile (ConfigPath c)) ;;
      ret (c, raw)
  end.

Definition StartInterface `{JSON} (m : Manager) : M unit :=
  clients <- loadClientsLocked m ;;
  rewriteServerConfigLocked m clients ;;;
  running <- interfaceRunningLocked ;;
  if running : bool then ret tt else startInterfaceLocked m.

Definition StopInterface : M unit := stopInterfaceLocked.

(* ===================================================================== *)
(** ** package unicode/utf8 *)
(* ===================================================================== *)

(** A continuation byte, and what the second byte of a rune may be after
    the first byte [a] (the accept ranges of [unicode/utf8]: no overlong
    form, no surrogate, nothing above U+10FFFF). *)
Definition continuation (c : ascii) : bool := in_range 128 191 c.

Definition secondByte (a b : ascii) : bool :=
  if (code a =? 224)%N then in_range 160 191 b
  else if (code a =? 237)%N then in_range 128 159 b
  else if (code a =? 240)%N then in_range 144 191 b
  else if (code a =? 244)%N then in_range 128 143 b
  else continuation b.

(** The number of bytes of the rune that [s] starts with; 0 when [s] is
    empty or does not start with the encoding of a rune. *)
Definition runeLen (s : string) : nat :=
  match s with
  | EmptyString => 0
  | String a r =>
      if is_ascii a then 1
      else if in_range 194 223 a then
        match r with
        | String b _ => if continuation b then 2 else 0
        | _ => 0
        end
      else if in_range 224 239 a then
        match r with
        | String b (String c _) => if secondByte a b && continuation c then 3 else 0
        | _ => 0
        end
      else if in_range 240 244 a then
        match r with
        | String b (String c (String d _)) =>
            if secondByte a b && continuation c && continuation d then 4 else 0
        | _ => 0
        end
      else 0
  end.

(** [utf8.ValidString] *)
Fixpoint validFrom (fuel : nat) (s : string) : bool :=
  match s with
  | EmptyString => true
  | String _ _ =>
      match fuel with
      | O => false
      | S fuel' =>
          match runeLen s with
          | O => false
          | n => validFrom fuel' (string_drop n s)
          end
      end
  end.

Definition ValidString (s : string) : bool := validFrom (String.length s) s.

(** U+FFFD, and a string with each byte that does not belong to the
    encoding of a rune replaced by it: what [encoding/json] makes of a
    string on the way out (where it writes the rune as the escape
    [\ufffd], which reads back as the rune) and on the way in. *)
Definition replacementChar : string := bytes [239; 191; 189]%N.

Fixpoint coerceFrom (fuel : nat) (s : string) : string :=
  match s with
  | EmptyString => EmptyString
  | String _ r =>
      match fuel with
      | O => EmptyString
      | S fuel' =>
          match runeLen s with
          | O => replacementChar +:+ coerceFrom fuel' r
          | n => substring 0 n s +:+ coerceFrom fuel' (string_drop n s)
          end
      end
  end.

Definition coerceUTF8 (s : string) : string := coerceFrom (String.length s) s.

(* ===================================================================== *)
(** ** A reference implementation of the library interfaces *)
(* ===================================================================== *)

(** The statements below hold for every implementation of
    [UnicodeTables], [JSON] and [X509].  The implementations of this
    section show that what is assumed of them can be met, and let the
    model run on examples: a case table that leaves runes outside ASCII
    alone, a codec for the JSON subset the client map needs (objects in
    objects with string leaves, members in key order, the time written as
    [seconds:nanoseconds]), and a certificate issuer that draws 32 random
    bytes. *)

Definition asciiToLower : UnicodeTables :=
  {| unicode_MapToLower := fun s => s |}.

Definition dquote : ascii := "034"%char.
Definition backslash : ascii := "092"%char.
Definition newline : ascii := "010"%char.

Definition isJSONSpace (c : ascii) : bool :=
  Ascii.eqb c " " || Ascii.eqb c "009" || Ascii.eqb c "010" || Ascii.eqb c "013".

Fixpoint skipWS (s : string) : string :=
  match s with
  | EmptyString => EmptyString
  | String c r => if isJSONSpace c then skipWS r else s
  end.

Definition needsEscape (c : ascii) : bool :=
  (code c <? 32)%N || Ascii.eqb c dquote || Ascii.eqb c backslash.

Definition escapeByte (c : ascii) : string :=
  if needsEscape c then
    String backslash
      (String "u" (String "0" (String "0"
        (String (hexDigit (Z.shiftr (Z.of_N (code c)) 4))
          (String (hexDigit (Z.land (Z.of_N (code c)) 15)) "")))))
  else String c "".

Fixpoint escape (s : string) : string :=
  match s with
  | EmptyString => EmptyString
  | String c r => escapeByte c +:+ escape r
  end.

Definition encodeString (s : string) : string :=
  String dquote (escape s +:+ String dquote "").

(** The body of a JSON string, after the opening quote; [acc] is what
    has been read, reversed. *)
Fixpoint parseStringBody (s : string) (acc : string) : option (string * string) :=
  match s with
  | EmptyString => None
  | String c r =>
      if Ascii.eqb c dquote then Some (String.rev acc, r)
      else if Ascii.eqb c backslash then
        match r with
        | String "u" (String a (String b (String x (String y r')))) =>
            match hexVal a, hexVal b, hexVal x, hexVal y with
            | Some va, Some vb, Some vx, Some vy =>
                let v := ((va * 16 + vb) * 16 + vx) * 16 + vy in
                if v <? 128 then parseStringBody r' (String (byte (Z.to_N v)) acc)
                else None
            | _, _, _, _ => None
            end
        | String e r' =>
            if Ascii.eqb e dquote || Ascii.eqb e backslash || Ascii.eqb e "/"
            then parseStringBody r' (String e acc)
            else if Ascii.eqb e "n" then parseStringBody r' (String "010" acc)
            else if Ascii.eqb e "t" then parseStringBody r' (String "009" acc)
            else if Ascii.eqb e "r" then parseStringBody r' (String "013" acc)
            else None
        | EmptyString => None
        end
      else if (code c <? 32)%N then None
      else parseStringBody r (String c acc)
  end.

Definition parseString (s : string) : option (string * string) :=
  match skipWS s with
  | String c r => if Ascii.eqb c dquote then parseStringBody r "" else None
  | EmptyString => None
  end.

(** The rest of [s] after white space and the byte [c]. *)
Definition expect (c : ascii) (s : string) : option string :=
  match skipWS s with
  | String a r => if Ascii.eqb a c then Some r else None
  | EmptyString => None
  end.

(** The members of an object after its opening brace, at least one. *)
Fixpoint parseMembers {V} (pv : string -> option (V * string)) (fuel : nat)
         (s : string) : option (list (string * V) * string) :=
  match fuel with
  | O => None
  | S fuel' =>
      match parseString s with
      | None => None
      | Some (k, s1) =>
          match expect ":" s1 with
          | None => None
          | Some s2 =>
              match pv s2 with
              | None => None
              | Some (v, s3) =>
                  match skipWS s3 with
                  | String c r =>
                      if Ascii.eqb c "," then
                        match parseMembers pv fuel' r with
                        | Some (l, s4) => Some ((k, v) :: l, s4)
                        | None => None
                        end
                      else if Ascii.eqb c "}" then Some ([(k, v)], r)
                      else None
                  | EmptyString => None
                  end
              end
          end
      end
  end.

Definition parseObject {V} (pv : string -> option (V * string)) (s : string)
  : option (list (string * V) * string) :=
  match expect "{" s with
  | None => None
  | Some r =>
      match expect "}" r with
      | Some r' => Some ([], r')
      | None => parseMembers pv (String.length r) r
      end
  end.

(** [indent] is the white space put before each member, [close] the one
    before the closing brace. *)
Fixpoint encodeMembers {V} (enc : V -> string) (indent close : string)
         (l : list (string * V)) : string :=
  match l with
  | [] => close +:+ "}"
  | [(k, v)] => indent +:+ encodeString k +:+ ": " +:+ enc v +:+ close +:+ "}"
  | (k, v) :: r =>
      indent +:+ encodeString k +:+ ": " +:+ enc v +:+ ","
             +:+ encodeMembers enc indent close r
  end.

Definition encodeObject {V} (enc : V -> string) (indent close : string)
           (l : list (string * V)) : string :=
  match l with
  | [] => "{}"
  | _ => "{" +:+ encodeMembers enc indent close l
  end.

Definition nl (indent : string) : string := String newline indent.

(** The value of the last member named [k], as [encoding/json] takes it. *)
Fixpoint lookupLast {V} (k : string) (l : list (string * V)) : option V :=
  match l with
  | [] => None
  | (k', v) :: r =>
      match lookupLast k r with
      | Some v' => Some v'
      | None => if String.eqb k' k then Some v else None
      end
  end.

Definition parseZ (s : string) : option Z :=
  option_map Z.of_int (NilZero.int_of_string s).

Definition encodeTime (t : Time) : string :=
  Itoa (wall_sec t) +:+ ":" +:+ Itoa (wall_nsec t).

Definition decodeTime (s : string) : option Time :=
  match IndexByte s ":" with
  | None => None
  | Some i =>
      match parseZ (slice s 0 i), parseZ (sliceFrom s (i + 1)) with
      | Some sec, Some nsec => Some (mkTime sec nsec)
      | _, _ => None
      end
  end.

(** The members of a client record, in the order of the struct fields;
    [address] is [omitempty]. *)
Definition clientFields (c : Client) : list (string * string) :=
  ([ ("id", ID c); ("name", Name c); ("uuid", UUID c) ]
   ++ (if String.eqb (Address c) "" then [] else [ ("address", Address c) ])
   ++ [ ("config_path", ConfigPath c); ("created_at", encodeTime (CreatedAt c)) ])%list.

Definition clientOfFields (l : list (string * string)) : option Client :=
  let str k := match lookupLast k l with Some v => v | None => "" end in
  let created :=
    match lookupLast "created_at" l with
    | None => Some zeroTime
    | Some s => decodeTime s
    end in
  match created with
  | None => None
  | Some t =>
      Some (mkClient (str "id") (str "name") (str "uuid") (str "address")
                     (str "config_path") t)
  end.

Definition keyLe (x y : string * Client) : Prop := String.leb (fst x) (fst y) = true.

#[global] Instance keyLe_dec : RelDecision keyLe :=
  fun x y => decide (String.leb (fst x) (fst y) = true).

Definition sortedEntries (store : gmap string Client) : list (string * Client) :=
  merge_sort keyLe (map_to_list store).

Definition encodeClient (c : Client) : string :=
  encodeObject encodeString (nl "    ") (nl "  ") (clientFields c).

Definition encodeClients (store : gmap string Client) : result string :=
  Ok (encodeObject encodeClient (nl "  ") (nl "") (sortedEntries store)).

Definition parseClient (s : string) : option (Client * string) :=
  match parseObject parseString s with
  | None => None
  | Some (fields, rest) =>
      match clientOfFields fields with
      | Some c => Some (c, rest)
      | None => None
      end
  end.

Definition decodeClients (raw : string) : result (gmap string Client) :=
  match parseObject parseClient raw with
  | None => Err (JSONError "invalid client map")
  | Some (entries, rest) =>
      if String.eqb (skipWS rest) "" then Ok (list_to_map (List.rev entries))
      else Err (JSONError "invalid character after top-level value")
  end.

Definition encodeStrings (l : list string) : string :=
  "[" +:+ joinWith ", " (List.map encodeString l) +:+ "]".

Definition encodeStringMap (m : gmap string string) : string :=
  encodeObject encodeString " " " " (map_to_list m).

(** Documents on one line. *)
Fixpoint encodeJValue (v : JValue) : string :=
  match v with
  | JString s => encodeString s
  | JInt z => Itoa z
  | JBool b => if b then "true" else "false"
  | JStrings l => encodeStrings l
  | JUsers l => "[" +:+ joinWith ", " (List.map encodeStringMap l) +:+ "]"
  | JArray l => "[" +:+ joinWith ", " (List.map encodeJValue l) +:+ "]"
  | JObject m =>
      "{" +:+ joinWith ", "
                (map_fold (fun k x acc => (encodeString k +:+ ": " +:+ encodeJValue x) :: acc)
                          [] m) +:+ "}"
  end.

Definition referenceJSON : JSON :=
  {| json_MarshalIndent_clients := encodeClients;
     json_MarshalIndent_doc := fun m => Ok (encodeJValue (JObject m));
     json_Unmarshal_clients := decodeClients |}.

(** The reference codec with the one trait of [encoding/json] that
    keeps it from giving back every map: strings, keys included, are
    coerced to valid UTF-8 when they are written and when they are read.
    The documents, which the manager never reads back, are written as by
    the reference codec. *)
Definition coerceClient (c : Client) : Client :=
  mkClient (coerceUTF8 (ID c)) (coerceUTF8 (Name c)) (coerceUTF8 (UUID c))
           (coerceUTF8 (Address c)) (coerceUTF8 (ConfigPath c)) (CreatedAt c).

Definition coerceEntry (e : string * Client) : string * Client :=
  (coerceUTF8 (fst e), coerceClient (snd e)).

Definition encodeClientsGo (store : gmap string Client) : result string :=
  Ok (encodeObject encodeClient (nl "  ") (nl "")
                   (List.map coerceEntry (sortedEntries store))).

Definition decodeClientsGo (raw : string) : result (gmap string Client) :=
  match parseObject parseClient raw with
  | None => Err (JSONError "invalid client map")
  | Some (entries, rest) =>
      if String.eqb (skipWS rest) ""
      then Ok (list_to_map (List.rev (List.map coerceEntry entries)))
      else Err (JSONError "invalid character after top-level value")
  end.

Definition goJSON : JSON :=
  {| json_MarshalIndent_clients := encodeClientsGo;
     json_MarshalIndent_doc := fun m => Ok (encodeJValue (JObject m));
     json_Unmarshal_clients := decodeClientsGo |}.

Definition referenceX509 : X509 :=
  {| x509_selfSigned := fun e now commonName =>
       if (length e <? 32)%nat then (Err X509Error, e)
       else (Ok ("CERTIFICATE " +:+ commonName +:+ " " +:+ hexEncode (take 16 e),
                 "RSA PRIVATE KEY " +:+ hexEncode (take 16 (drop 16 e))),
             drop 32 e) |}.

(* ===================================================================== *)
(** ** Vocabulary of the statements *)
(* ===================================================================== *)

(** The dotted-decimal text of an IPv4 address. *)
Definition dotted (a b c d : Z) : string :=
  Itoa a +:+ "." +:+ Itoa b +:+ "." +:+ Itoa c +:+ "." +:+ Itoa d.

Definition octet (a : Z) : Prop := 0 <= a <= 255.

(** The tun inbound of a client document and its captured-route
    exclusion. *)
Definition tunInbound (doc : gmap string JValue) : option JValue :=
  item 0 (doc !! "inbounds").

Definition routeExclusion (doc : gmap string JValue) : option JValue :=
  field "route_exclude_address" (tunInbound doc).

(** The rules of the route table of a client document and the blocks the
    second one lists. *)
Definition routeRules (doc : gmap string JValue) : option JValue :=
  field "rules" (doc !! "route").

Definition allowlistOf (doc : gmap string JValue) : list string :=
  match field "ip_cidr" (item 1 (routeRules doc)) with
  | Some (JStrings l) => l
  | _ => []
  end.

(** An address block [addr/len] as a 128-bit number and a prefix length
    in the 128-bit space (an IPv4 block is the IPv4-mapped one). *)
Definition ipToZ (ip : IP) : Z := fold_left (fun acc b => acc * 256 + b) ip 0.

Definition parseBlock (s : string) : option (Z * Z) :=
  match IndexByte s "/" with
  | None => None
  | Some i =>
      match ParseIP (slice s 0 i), Atoi (sliceFrom s (i + 1)) with
      | Some ip, Ok n =>
          match To4 ip with
          | Some _ => if (0 <=? n) && (n <=? 32) then Some (ipToZ ip, 96 + n) else None
          | None => if (0 <=? n) && (n <=? 128) then Some (ipToZ ip, n) else None
          end
      | _, _ => None
      end
  end.

(** Every address of block [inner] is an address of block [outer]. *)
Definition blockWithin (inner outer : string) : bool :=
  match parseBlock inner, parseBlock outer with
  | Some (a, la), Some (b, lb) =>
      (lb <=? la) && (Z.shiftr a (128 - lb) =? Z.shiftr b (128 - lb))
  | _, _ => false
  end.

(** The classes the specification names for the allowlist, in its words:
    RFC1918, loopback and link-local blocks, IPv4 and IPv6 (for IPv6 the
    private range is the unique-local one). *)
Definition spec_rfc1918 : list string := [ "10.0.0.0/8"; "172.16.0.0/12"; "192.168.0.0/16" ].
Definition spec_loopback : list string := [ "127.0.0.0/8"; "::1/128" ].
Definition spec_linkLocal : list string := [ "169.254.0.0/16"; "fe80::/10" ].
Definition spec_uniqueLocal : list string := [ "fc00::/7" ].

Definition spec_privateLoopbackLinkLocal (block : string) : bool :=
  existsb (blockWithin block)
          (spec_rfc1918 ++ spec_loopback ++ spec_linkLocal ++ spec_uniqueLocal)%list.

(** The IPv4 multicast range. *)
Definition multicast4 : string := "224.0.0.0/4".

Definition exampleConfig (endpoint : string) : Config :=
  mkConfig "/etc/vpn" "vless" "::" 8443 endpoint "/vpn" "vpn.example.com"
           "/etc/vpn/tls/server.crt" "/etc/vpn/tls/server.key" "sb-tun"
           "172.19.0.1/30" true "sing-box" "127.0.0.1:8080" "" true.

Definition exampleClient : Client :=
  mkClient "laptop" "laptop" "11111111-1111-4111-8111-111111111111"
           "11111111-1111-4111-8111-111111111111" "/etc/vpn/clients/laptop.json"
           (mkTime 63837000000 0).

(** A client map in which [base] and [base-2] ... [base-9999] are taken. *)
Definition crowded (base : string) (c : Client) : gmap string Client :=
  list_to_map ((base, c) :: List.map (fun i => (suffixed base i, c)) (seqZ 2 9998)).

(** Some time in November 2023. *)
Definition exampleNow : Time := mkTime (unixToInternal + 1700000000) 0.

(** A manager with the default layout under [/etc/vpn], and worlds to run
    it in: no file, no fault to come, 64 random bytes. *)
Definition exampleManager : Manager := NewManager (exampleConfig "vpn.example.com").

Definition emptyWorld : World :=
  mkWorld ∅ ∅ [] (seqZ 0 64) exampleNow None 100%nat [] [].

(** The world in which the state file holds [raw]. *)
Definition worldWithState (raw : string) : World :=
  setFiles {[ statePath exampleManager := mkFile raw 384 ]} emptyWorld.

(** Whether the loop of [loadClientsLocked] fills something in. *)
Definition needsHealing (c : Client) : bool :=
  isBlank (ID c) || isBlank (Name c) || isBlank (UUID c) || isBlank (Address c)
  || isBlank (ConfigPath c) || IsZero (CreatedAt c).

(** The record the loop of [loadClientsLocked] leaves under [id] for the
    record [c], given the UUID [u] it generates when it needs one and the
    time [now]. *)
Definition healPure (m : Manager) (id u : string) (now : Time) (c : Client) : Client :=
  let c := if isBlank (ID c) then setID id c else c in
  let c := if isBlank (Name c) then setName id c else c in
  let c := if isBlank (UUID c) then setUUID u c else c in
  let c := if isBlank (Address c) then setAddress (UUID c) c else c in
  let c := if isBlank (ConfigPath c)
           then setConfigPath (clientConfigPath m (ID c)) c else c in
  if IsZero (CreatedAt c) then setCreatedAt now c else c.

(** A record with nothing to fill in: the id is the key and no field is
    blank or zero. *)
Definition populated (id : string) (c : Client) : bool :=
  String.eqb (ID c) id && negb (isBlank (ID c)) && negb (isBlank (Name c))
  && negb (isBlank (UUID c)) && negb (isBlank (Address c))
  && negb (isBlank (ConfigPath c)) && negb (IsZero (CreatedAt c)).

(** [c'] is what loading makes of the record [c] stored under [id] when
    the clock shows [now]. *)
Definition healedFrom (m : Manager) (id : string) (now : Time) (c c' : Client) : Prop :=
  ID c' = (if isBlank (ID c) then id else ID c) /\
  Name c' = (if isBlank (Name c) then id else Name c) /\
  (if isBlank (UUID c)
   then exists b, length b = 16%nat /\ UUID c' = formatUUID b
   else UUID c' = UUID c) /\
  Address c' = (if isBlank (Address c) then UUID c' else Address c) /\
  ConfigPath c' = (if isBlank (ConfigPath c)
                   then clientConfigPath m (ID c') else ConfigPath c) /\
  CreatedAt c' = (if IsZero (CreatedAt c) then now else CreatedAt c).

(** A store with one complete record and one record that has only a
    name, and its encoding by the reference codec. *)
Definition exampleStore : gmap string Client :=
  {[ "laptop" := exampleClient;
     "phone" := mkClient "" "Phone" "" "" "" zeroTime ]}.

Definition exampleStoreJSON : string :=
  match marshalPretty encodeClients exampleStore with
  | Ok raw => raw
  | Err _ => ""
  end.

(* ===================================================================== *)
(** ** Vocabulary of the proofs *)
(* ===================================================================== *)

(** A byte is one of the 256 values; a property of the bytes of a class
    is proved by going through them. *)
Ltac each_byte c :=
  destruct c as [[] [] [] [] [] [] [] []]; vm_compute; try reflexivity; try discriminate.

(** A byte that occurs in no encoding of a white-space rune. *)
Definition solid (c : ascii) : bool :=
  negb (existsb (string_existsb (Ascii.eqb c)) spaceEncodings).

(** What the text of an octet is to the functions that read it: it starts
    with a digit, ends with a digit, [netip.ParseAddr] runs over it to
    the dot that follows, and [parseIPv4Fields] reads its value. *)
Definition octetText (a : Z) : Prop :=
  exists (c0 : ascii) (tail : string) (last : ascii) (n : Z),
    Itoa a = String c0 tail /\
    is_digit c0 = true /\
    string_last (Itoa a) = Some last /\
    is_digit last = true /\
    (forall input rest,
        parseAddr_dispatch input (Itoa a +:+ String "." rest) =
        parseAddr_dispatch input (String "." rest)) /\
    (forall rest first prev pos fields,
        parseIPv4Fields_loop (Itoa a +:+ rest) first prev 0 0 pos fields =
        parseIPv4Fields_loop rest false last a n pos fields).

(** The bytes of a decimal number. *)
Definition digitOrDash (c : ascii) : bool := is_digit c || Ascii.eqb c "-".

(** A computation keeps a relation between the world before and the
    world after, whatever its outcome. *)
Definition keeps {A} (R : World -> World -> Prop) (m : M A) : Prop :=
  forall w, R w (snd (m w)).

(** Files whose path is not in [S] are as before. *)
Definition filesOutside (S : string -> Prop) (w w' : World) : Prop :=
  forall p, ~ S p -> files w' !! p = files w !! p.

(** The process handle and the processes are as before. *)
Definition sameProcs (w w' : World) : Prop :=
  serverCmd w' = serverCmd w /\ procs w' = procs w /\ nextPid w' = nextPid w.

Definition sameEntropy (w w' : World) : Prop := entropy w' = entropy w.

Definition sameClock (w w' : World) : Prop := clock w' = clock w.

Definition sameFiles (w w' : World) : Prop := files w' = files w.

Definition sameLog (w w' : World) : Prop := logged w' = logged w.

(** The primitives, run on a world, case by case. *)
Ltac run_on :=
  unfold os_MkdirAll, os_Chmod, os_WriteFile, os_Rename, os_ReadFile, os_OpenAppend,
         exec_Start, fileExists, rand_Read, time_Now, time_Sleep, logger_Printf,
         nextFault, gets, modify, bind, ret, throw;
  simpl; repeat (case_match; simplify_eq/=).

Ltac run_primitive := intros w; run_on.

(** The paths [writeSecretFile path _] may change. *)
Definition secretPaths (path : string) (p : string) : Prop :=
  p = path \/ p = path +:+ ".tmp".

(** The paths whose files the idempotence of [InitState] is about: the
    two TLS files and the state file. *)
Definition protected (m : Manager) (p : string) : Prop :=
  p = TLSCertPath (cfg m) \/ p = TLSKeyPath (cfg m) \/ p = statePath m.

(** Writing [p] through [p.tmp] touches none of them. *)
Definition safePath (m : Manager) (p : string) : Prop :=
  ~ protected m p /\ ~ protected m (p +:+ ".tmp").

(** The paths at which the document of the record [c] stored under [id]
    may be written are safe. *)
Definition recordPathsSafe (m : Manager) (id : string) (c : Client) : Prop :=
  safePath m (ConfigPath c) /\
  safePath m (clientConfigPath m id) /\
  safePath m (clientConfigPath m (ID c)).

(** The files of the manager do not overlap: the server document, the
    log, the document of the default client and the directories are not
    the TLS files or the state file, nor are their temporary files, and
    the temporary files of the state file and of the key are not TLS
    files or the state file either. *)
Definition layoutOK (m : Manager) : Prop :=
  safePath m (serverConfigPath m) /\
  safePath m (serverLogPath m) /\
  safePath m (clientConfigPath m "default-client") /\
  ~ protected m (StateDir (cfg m)) /\
  ~ protected m (clientsDir m) /\
  ~ protected m (statePath m +:+ ".tmp") /\
  statePath m <> TLSCertPath (cfg m) /\
  statePath m <> TLSKeyPath (cfg m) /\
  statePath m <> TLSCertPath (cfg m) +:+ ".tmp" /\
  statePath m <> TLSKeyPath (cfg m) +:+ ".tmp" /\
  TLSCertPath (cfg m) <> TLSKeyPath (cfg m) +:+ ".tmp".

(** The client map the state file of a world holds: the empty map when
    the file is missing or blank, nothing when it does not parse. *)
Definition storeOf `{JSON} (m : Manager) (w : World) : option (gmap string Client) :=
  match files w !! statePath m with
  | None => Some ∅
  | Some f =>
      if String.eqb (TrimSpace (content f)) "" then Some ∅
      else
        match json_Unmarshal_clients (content f) with
        | Ok store => Some store
        | Err _ => None
        end
  end.

(** A record, and a client map, whose strings are valid UTF-8. *)
Definition clientValid (c : Client) : Prop :=
  ValidString (ID c) = true /\ ValidString (Name c) = true /\
  ValidString (UUID c) = true /\ ValidString (Address c) = true /\
  ValidString (ConfigPath c) = true.

Definition storeValid (store : gmap string Client) : Prop :=
  forall id c, store !! id = Some c -> ValidString id = true /\ clientValid c.

(** Decoding gives back a client map that was encoded, and its encoding
    is not blank, when the strings of the map are valid UTF-8.  More
    cannot be asked of [encoding/json], which replaces the bytes of a
    string that are no UTF-8 by U+FFFD. *)
Definition codecRoundTrip `{JSON} : Prop :=
  forall store raw,
    storeValid store ->
    marshalPretty json_MarshalIndent_clients store = Ok raw ->
    TrimSpace raw <> "" /\ json_Unmarshal_clients raw = Ok store.

(** The strings of the record [c] stored under [id], and the paths at
    which its document may be written, are valid UTF-8. *)
Definition recordValid (m : Manager) (id : string) (c : Client) : Prop :=
  ValidString id = true /\ clientValid c /\
  ValidString (clientConfigPath m id) = true /\
  ValidString (clientConfigPath m (ID c)) = true.

(** In-memory records that need no UUID, whose documents are written at
    safe paths and whose strings are valid UTF-8. *)
Definition recordsOK (m : Manager) (clients : gmap string Client) : Prop :=
  forall id c, clients !! id = Some c ->
               isBlank (UUID c) = false /\ recordPathsSafe m id c /\
               recordValid m id c.

(** The state file, when it is there and not blank, holds at least one
    record.  A document without records may be [null], which leaves the
    Go map nil, so that the assignment of [createClientLocked] panics;
    the model, whose maps are never nil, does not follow the program
    there. *)
Definition storeNotVoid `{JSON} (m : Manager) (w : World) : Prop :=
  forall f, files w !! statePath m = Some f ->
            TrimSpace (content f) <> "" ->
            json_Unmarshal_clients (content f) <> Ok ∅.

(** The state file of [w] holds a client map with the ids [ids], made of
    such records. *)
Definition stateGood `{JSON} (m : Manager) (ids : gset string) (w : World) : Prop :=
  exists f store,
    files w !! statePath m = Some f /\
    TrimSpace (content f) <> "" /\
    json_Unmarshal_clients (content f) = Ok store /\
    dom store = ids /\
    recordsOK m store.

(** Both TLS files exist. *)
Definition tlsPresent (m : Manager) (w : World) : Prop :=
  is_Some (files w !! TLSCertPath (cfg m)) /\ is_Some (files w !! TLSKeyPath (cfg m)).

(** The paths [rewriteServerConfigLocked m clients] may write. *)
Definition managedPaths (m : Manager) (clients : gmap string Client) (p : string) : Prop :=
  secretPaths (serverConfigPath m) p \/ secretPaths (statePath m) p \/
  exists id c, clients !! id = Some c /\
               secretPaths (ConfigPath (fst (fillPaths m id c))) p.

(** Files outside [S], the random bytes and the log are as before. *)
Definition calm (S : string -> Prop) (w w' : World) : Prop :=
  filesOutside S w w' /\ sameEntropy w w' /\ sameLog w w'.

(** The TLS files. *)
Definition tlsPath (m : Manager) (p : string) : Prop :=
  p = TLSCertPath (cfg m) \/ p = TLSKeyPath (cfg m).

(** The TLS files of [w'] are those of [w]. *)
Definition tlsKept (m : Manager) (w w' : World) : Prop :=
  forall q, tlsPath m q -> files w' !! q = files w !! q.

(** What a run that starts in [w0] with a good state file and both TLS
    files keeps: the TLS files, the random bytes, the log and a good
    state file with the ids [ids]. *)
Definition settled `{JSON} (m : Manager) (ids : gset string) (w0 w : World) : Prop :=
  tlsKept m w0 w /\ sameEntropy w0 w /\ sameLog w0 w /\ stateGood m ids w.

(** From a world in [P], the computation ends, with a result or with an
    error, in a world in [Q]. *)
Definition hoare {A} (P : World -> Prop) (c : M A) (Q : result A -> World -> Prop) : Prop :=
  forall w, P w -> Q (fst (c w)) (snd (c w)).

(** White space of JSON only. *)
Definition isWS (s : string) : Prop := string_forallb isJSONSpace s = true.

(* ===================================================================== *)
(** ** The status report *)
(* ===================================================================== *)

(** [StatusClient] and [StatusResponse]; the fields that [Client] and
    [Config] have too carry the prefix [status_]. *)
Record StatusClient := mkStatusClient {
  status_ID : string;
  status_Name : string;
  status_UUID : string;
  status_Address : string;
  status_CreatedAt : Time
}.

Record StatusResponse := mkStatusResponse {
  Running : bool;
  status_Interface : string;
  status_ListenPort : Z;
  ServerPublicKey : string;
  ClientSubnet : string;
  Protocol : string;
  Transport : string;
  Endpoint : string;
  Clients : list StatusClient
}.

(** The body of the loop of [GetStatus]. *)
Definition statusClientOf (c : Client) : StatusClient :=
  let addr := TrimSpace (Address c) in
  let addr := if String.eqb addr "" then UUID c else addr in
  mkStatusClient (ID c) (Name c) (UUID c) addr (CreatedAt c).

(** [sort.Slice(list, func(i, j) { return list[i].ID < list[j].ID })] on
    the status list, as an insertion sort like [sortByID]. *)
Fixpoint insertStatusByID (c : StatusClient) (l : list StatusClient)
  : list StatusClient :=
  match l with
  | [] => [c]
  | x :: r => if String.ltb (status_ID x) (status_ID c)
                 || String.eqb (status_ID x) (status_ID c)
              then x :: insertStatusByID c r else c :: l
  end.

Definition sortStatusByID (l : list StatusClient) : list StatusClient :=
  fold_right insertStatusByID [] l.

Definition GetStatus `{JSON} (m : Manager) : M StatusResponse :=
  clients <- loadClientsLocked m ;;
  running <- interfaceRunningLocked ;;
  let list := List.map (fun e => statusClientOf (snd e)) (map_to_list clients) in
  let list := sortStatusByID list in
  ret (mkStatusResponse running (Interface (cfg m)) (ListenPort (cfg m)) "" ""
                        "vless" "ws+tls" (EndpointHost (cfg m)) list).

(* ===================================================================== *)
(** ** The configuration read from the environment (config.go) *)
(* ===================================================================== *)

(** The environment of the process; [os.Getenv] gives the empty string
    for a variable that is not set. *)
Definition Env := gmap string string.

Definition os_Getenv (env : Env) (key : string) : string :=
  default "" (env !! key).

Fixpoint firstNonEmpty (values : list string) : string :=
  match values with
  | [] => ""
  | v :: r =>
      let trimmed := TrimSpace v in
      if String.eqb trimmed "" then firstNonEmpty r else trimmed
  end.

Definition envOrDefault (env : Env) (key fallback : string) : string :=
  let val := TrimSpace (os_Getenv env key) in
  if String.eqb val "" then fallback else val.

Definition envInt (env : Env) (key : string) (fallback : Z) : Z :=
  let raw := TrimSpace (os_Getenv env key) in
  if String.eqb raw "" then fallback
  else match Atoi raw with
       | Ok parsed => parsed
       | Err _ => fallback
       end.

Definition envBool `{UnicodeTables} (env : Env) (key : string) (fallback : bool) : bool :=
  let raw := TrimSpace (ToLower (os_Getenv env key)) in
  if String.eqb raw "" then fallback
  else if existsb (String.eqb raw) ["1"; "true"; "yes"; "y"; "on"] then true
  else if existsb (String.eqb raw) ["0"; "false"; "no"; "n"; "off"] then false
  else fallback.

Definition normalizeWebsocketPath (path : string) : string :=
  let trimmed := TrimSpace path in
  if String.eqb trimmed "" then "/vpn"
  else if negb (HasPrefix trimmed "/") then "/" +:+ trimmed
  else trimmed.

Definition LoadConfigFromEnv `{UnicodeTables} (env : Env) : Config :=
  let stateDir :=
    firstNonEmpty [ TrimSpace (os_Getenv env "VLESS_STATE_DIR");
                    TrimSpace (os_Getenv env "WG_DIR");
                    "/etc/vpn" ] in
  let endpoint :=
    firstNonEmpty [ TrimSpace (os_Getenv env "VLESS_ENDPOINT");
                    TrimSpace (os_Getenv env "WG_ENDPOINT");
                    "127.0.0.1" ] in
  {| StateDir := stateDir;
     Interface := "vless";
     ListenAddress := envOrDefault env "VLESS_LISTEN_ADDRESS" "::";
     ListenPort := envInt env "VLESS_LISTEN_PORT" (envInt env "WG_LISTEN_PORT" 443);
     EndpointHost := endpoint;
     WebsocketPath := normalizeWebsocketPath (envOrDefault env "VLESS_WS_PATH" "/vpn");
     TLSServerName := envOrDefault env "VLESS_TLS_SERVER_NAME" endpoint;
     TLSCertPath := envOrDefault env "VLESS_TLS_CERT_PATH" "/etc/vpn/tls/server.crt";
     TLSKeyPath := envOrDefault env "VLESS_TLS_KEY_PATH" "/etc/vpn/tls/server.key";
     ClientTunName := envOrDefault env "VLESS_CLIENT_TUN_NAME" "sb-tun";
     ClientTunCIDR := envOrDefault env "VLESS_CLIENT_TUN_CIDR" "172.19.0.1/30";
     ClientInsecureTLS := envBool env "VLESS_CLIENT_INSECURE_TLS" true;
     SingBoxBinary := envOrDefault env "SING_BOX_BIN" "sing-box";
     APIBind := envOrDefault env "API_BIND" "127.0.0.1:8080";
     APIToken := TrimSpace (os_Getenv env "API_TOKEN");
     AutoStart := envBool env "VLESS_AUTOSTART" (envBool env "WG_AUTOSTART" true) |}.

(* ===================================================================== *)
(** ** Vocabulary of the further statements *)
(* ===================================================================== *)

Definition is_hex_lower (c : ascii) : bool := is_digit c || in_range 97 102 c.

(** The text of a version 4, variant 1 UUID (RFC 4122): groups of 8, 4,
    4, 4 and 12 lower-case hexadecimal digits with dashes between them,
    the third group starting with 4 and the fourth with 8, 9, a or b.
    [i] is the index of the first byte of [s] in the text. *)
Fixpoint uuidShape (i : nat) (s : string) : bool :=
  match s with
  | EmptyString => (i =? 36)%nat
  | String c r =>
      (if existsb (Nat.eqb i) [8; 13; 18; 23]%nat then Ascii.eqb c "-"
       else if (i =? 14)%nat then Ascii.eqb c "4"
       else if (i =? 19)%nat then existsb (Ascii.eqb c) ["8"; "9"; "a"; "b"]%char
       else is_hex_lower c)
      && uuidShape (S i) r
  end.

Definition isUUIDv4 (s : string) : bool := uuidShape 0 s.

(** The processes that were started and not killed since, oldest first,
    after the events [events] have happened to the processes [acc]. *)
Definition aliveStep (acc : list nat) (e : procEvent) : list nat :=
  match e with
  | Started pid => (acc ++ [pid])%list
  | Interrupted _ => acc
  | Killed pid => List.filter (fun p => negb (p =? pid)%nat) acc
  end.

Definition alive (events : list procEvent) : list nat :=
  fold_left aliveStep events [].

(** The process handle accounts for every process the manager started:
    the processes started and not killed are the one the handle refers
    to, if any, and every pid is below the next one to be given out. *)
Definition supervised (w : World) : Prop :=
  alive (procs w) = match serverCmd w with Some pid => [pid] | None => [] end /\
  Forall (fun pid => (pid < nextPid w)%nat) (alive (procs w)).

(** The calls of the public interface of the manager. *)
Inductive call :=
| CallInitState
| CallGetStatus
| CallCreateClient (name : string)
| CallGetClientConfig (clientID : string)
| CallStartInterface
| CallStopInterface.

(** The world a call leaves, whether it returns an error or not. *)
Definition after `{UnicodeTables} `{JSON} `{X509} (m : Manager) (c : call) (w : World)
  : World :=
  match c with
  | CallInitState => snd (InitState m w)
  | CallGetStatus => snd (GetStatus m w)
  | CallCreateClient name => snd (CreateClient m name w)
  | CallGetClientConfig clientID => snd (GetClientConfig m clientID w)
  | CallStartInterface => snd (StartInterface m w)
  | CallStopInterface => snd (StopInterface w)
  end.

(** The world after the calls [cs], made one after the other. *)
Definition afterAll `{UnicodeTables} `{JSON} `{X509} (m : Manager) (cs : list call)
           (w : World) : World :=
  fold_left (fun w c => after m c w) cs w.

(** A byte that is neither the colon nor a square bracket. *)
Definition hostChar (c : ascii) : bool :=
  negb (Ascii.eqb c ":" || Ascii.eqb c "[" || Ascii.eqb c "]").

(* ===================================================================== *)
(** * Properties *)
(* ===================================================================== *)

(** ** Strings *)

#[local] Arguments String.append !s1 s2 : simpl nomatch.

Lemma app_nil_r_s (s : string) : s +:+ "" = s.
Proof. induction s; simpl; congruence. Qed.

Lemma app_assoc_s (a b c : string) : (a +:+ b) +:+ c = a +:+ (b +:+ c).
Proof. induction a; simpl; congruence. Qed.

Lemma length_app_s (a b : string) :
  String.length (a +:+ b) = (String.length a + String.length b)%nat.
Proof. induction a; simpl; congruence. Qed.

Lemma rev_app_spec (s acc : string) :
  String.rev_app s acc = String.rev s +:+ acc.
Proof.
  unfold String.rev. revert acc.
  induction s as [|c s IH]; intros acc; simpl; [reflexivity|].
  rewrite IH, (IH (String c "")), app_assoc_s. reflexivity.
Qed.

Lemma rev_cons (c : ascii) (s : string) :
  String.rev (String c s) = String.rev s +:+ String c "".
Proof. unfold String.rev at 1. simpl. apply rev_app_spec. Qed.

Lemma rev_app_distr_s (a b : string) :
  String.rev (a +:+ b) = String.rev b +:+ String.rev a.
Proof.
  induction a as [|c a IH]; simpl.
  - symmetry. apply app_nil_r_s.
  - rewrite !rev_cons, IH, app_assoc_s. reflexivity.
Qed.

Lemma rev_involutive_s (s : string) : String.rev (String.rev s) = s.
Proof.
  induction s as [|c s IH]; [reflexivity|].
  rewrite rev_cons, rev_app_distr_s, IH. reflexivity.
Qed.

Lemma length_rev_s (s : string) : String.length (String.rev s) = String.length s.
Proof.
  induction s as [|c s IH]; [reflexivity|].
  rewrite rev_cons, length_app_s, IH. simpl. lia.
Qed.

Lemma string_last_app (a : string) (c : ascii) (b : string) :
  string_last (a +:+ String c b) = string_last (String c b).
Proof.
  induction a as [|x a IH]; [reflexivity|].
  simpl (String x a +:+ _).
  change (string_last (String x (a +:+ String c b)))
    with (match a +:+ String c b with
          | EmptyString => Some x
          | _ => string_last (a +:+ String c b)
          end).
  destruct (a +:+ String c b) eqn:E; [destruct a; discriminate|].
  exact IH.
Qed.

Lemma string_last_snoc (a : string) (c : ascii) :
  string_last (a +:+ String c "") = Some c.
Proof. rewrite string_last_app. reflexivity. Qed.

Lemma string_last_rev (s : string) (l : ascii) :
  string_last s = Some l -> exists r, String.rev s = String l r.
Proof.
  induction s as [|c s IH]; [discriminate|].
  intros H. rewrite rev_cons.
  destruct s as [|c' s'].
  - injection H as <-. exists "". reflexivity.
  - destruct (IH H) as [r Hr]. rewrite Hr. eexists. reflexivity.
Qed.

Lemma string_forallb_app (p : ascii -> bool) (a b : string) :
  string_forallb p (a +:+ b) = string_forallb p a && string_forallb p b.
Proof. induction a; simpl; [reflexivity|]. rewrite IHa. apply andb_assoc. Qed.

Lemma string_existsb_app (p : ascii -> bool) (a b : string) :
  string_existsb p (a +:+ b) = string_existsb p a || string_existsb p b.
Proof. induction a; simpl; [reflexivity|]. rewrite IHa. apply orb_assoc. Qed.

Lemma string_existsb_rev (p : ascii -> bool) (s : string) :
  string_existsb p (String.rev s) = string_existsb p s.
Proof.
  induction s as [|c s IH]; [reflexivity|].
  rewrite rev_cons, string_existsb_app, IH. simpl.
  rewrite orb_false_r. apply orb_comm.
Qed.

Lemma string_forallb_rev (p : ascii -> bool) (s : string) :
  string_forallb p (String.rev s) = string_forallb p s.
Proof.
  induction s as [|c s IH]; [reflexivity|].
  rewrite rev_cons, string_forallb_app, IH. simpl.
  rewrite andb_true_r. apply andb_comm.
Qed.

Lemma string_existsb_drop (p : ascii -> bool) (n : nat) (s : string) :
  string_existsb p (string_drop n s) = true -> string_existsb p s = true.
Proof.
  revert s. induction n as [|n IH]; intros s; [auto|].
  destruct s as [|c s]; simpl; [auto|].
  intros H. rewrite (IH _ H). apply orb_true_r.
Qed.

Lemma is_digit_cases (c : ascii) :
  is_digit c = true ->
  In c ["0"; "1"; "2"; "3"; "4"; "5"; "6"; "7"; "8"; "9"]%char.
Proof.
  destruct c as [[] [] [] [] [] [] [] []]; vm_compute; intros H;
    try discriminate; tauto.
Qed.

(** ** White space *)

Lemma HasPrefix_split (s p : string) :
  HasPrefix s p = true -> s = p +:+ string_drop (String.length p) s.
Proof.
  revert s. induction p as [|a p IH]; intros s; simpl; [reflexivity|].
  destruct s as [|b s]; [discriminate|].
  intros H. apply andb_true_iff in H as [Hab Hp].
  apply Ascii.eqb_eq in Hab as ->. f_equal. apply IH, Hp.
Qed.

Lemma matchPrefix_spec (pats : list string) (s : string) :
  matchPrefix pats s = O \/
  exists p, In p pats /\ matchPrefix pats s = String.length p /\
            s = p +:+ string_drop (String.length p) s.
Proof.
  induction pats as [|p ps IH]; simpl; [left; reflexivity|].
  destruct (HasPrefix s p) eqn:E.
  - right. exists p. split; [left; reflexivity|]. split; [reflexivity|].
    apply HasPrefix_split, E.
  - destruct IH as [IH|(q & Hin & Hm & Hs)]; [left; exact IH|].
    right. exists q. auto.
Qed.

(** Trimming keeps every byte that belongs to no pattern. *)
Lemma dropRunes_keeps (q : ascii -> bool) (pats : list string) :
  (forall p, In p pats -> string_existsb q p = false) ->
  forall fuel s, string_existsb q s = true ->
                 string_existsb q (dropRunes pats fuel s) = true.
Proof.
  intros Hq. induction fuel as [|fuel IH]; intros s Hs; simpl; [exact Hs|].
  destruct (matchPrefix_spec pats s) as [E|(p & Hin & E & Hsplit)].
  - rewrite E. exact Hs.
  - rewrite E.
    assert (Hd : string_existsb q (string_drop (String.length p) s) = true).
    { rewrite Hsplit, string_existsb_app, (Hq p Hin) in Hs. exact Hs. }
    destruct (String.length p); [exact Hs|]. apply IH, Hd.
Qed.

Lemma solid_not_in_pattern (c : ascii) (p : string) :
  solid c = true -> In p spaceEncodings -> string_existsb (Ascii.eqb c) p = false.
Proof.
  unfold solid. intros H Hin.
  apply negb_true_iff in H.
  destruct (string_existsb (Ascii.eqb c) p) eqn:E; [|reflexivity].
  rewrite <- H. symmetry. apply existsb_exists. exists p. auto.
Qed.

Lemma TrimSpace_keeps_solid (c : ascii) (s : string) :
  solid c = true ->
  string_existsb (Ascii.eqb c) s = true ->
  string_existsb (Ascii.eqb c) (TrimSpace s) = true.
Proof.
  intros Hc Hs. unfold TrimSpace, TrimRightSpace, TrimLeftSpace.
  rewrite string_existsb_rev.
  apply dropRunes_keeps.
  - intros p Hin. apply in_map_iff in Hin as (p0 & <- & Hin0).
    rewrite string_existsb_rev. apply solid_not_in_pattern; assumption.
  - rewrite string_existsb_rev.
    apply dropRunes_keeps; [|exact Hs].
    intros p Hin. apply solid_not_in_pattern; assumption.
Qed.

(** A string with a byte that is part of no white-space rune is not
    blank. *)
Lemma solid_not_blank (c : ascii) (s : string) :
  solid c = true ->
  string_existsb (Ascii.eqb c) s = true ->
  isBlank s = false.
Proof.
  intros Hc Hs. unfold isBlank.
  pose proof (TrimSpace_keeps_solid c s Hc Hs) as H.
  destruct (TrimSpace s); [discriminate|reflexivity].
Qed.

Lemma matchPrefix_solid_head (pats : list string) (c : ascii) (r : string) :
  (forall p, In p pats -> string_existsb (Ascii.eqb c) p = false) ->
  matchPrefix pats (String c r) = O.
Proof.
  induction pats as [|p ps IH]; intros Hq; [reflexivity|].
  simpl. destruct p as [|a p'].
  - reflexivity.
  - pose proof (Hq (String a p') (or_introl eq_refl)) as Hp. simpl in Hp.
    apply orb_false_iff in Hp as [Hca _].
    simpl. rewrite Ascii.eqb_sym, Hca. simpl.
    apply IH. intros q Hin. apply Hq. right. exact Hin.
Qed.

Lemma dropRunes_solid_head (pats : list string) (fuel : nat) (c : ascii) (r : string) :
  (forall p, In p pats -> string_existsb (Ascii.eqb c) p = false) ->
  dropRunes pats fuel (String c r) = String c r.
Proof.
  intros Hq. destruct fuel; [reflexivity|].
  simpl. rewrite matchPrefix_solid_head by exact Hq. reflexivity.
Qed.

(** A string that starts and ends with bytes that are part of no
    white-space rune is left alone by [TrimSpace]. *)
Lemma TrimSpace_solid_ends (c : ascii) (r : string) (l : ascii) :
  solid c = true -> solid l = true ->
  string_last (String c r) = Some l ->
  TrimSpace (String c r) = String c r.
Proof.
  intros Hc Hl Hlast. unfold TrimSpace, TrimLeftSpace.
  rewrite dropRunes_solid_head
    by (intros p Hin; apply solid_not_in_pattern; assumption).
  unfold TrimRightSpace.
  destruct (string_last_rev _ _ Hlast) as [r' Hr']. rewrite Hr'.
  rewrite dropRunes_solid_head.
  - rewrite <- Hr'. apply rev_involutive_s.
  - intros p Hin. apply in_map_iff in Hin as (p0 & <- & Hin0).
    rewrite string_existsb_rev. apply solid_not_in_pattern; assumption.
Qed.

Lemma TrimSpace_empty : TrimSpace "" = "".
Proof. reflexivity. Qed.

(** Trimming only removes bytes: what is left has no byte the string did
    not have. *)
Lemma dropRunes_forallb (q : ascii -> bool) (pats : list string) (fuel : nat) (s : string) :
  string_forallb q s = true -> string_forallb q (dropRunes pats fuel s) = true.
Proof.
  revert s. induction fuel as [|fuel IH]; intros s Hs; simpl; [exact Hs|].
  destruct (matchPrefix_spec pats s) as [E|(p & Hin & E & Hsplit)]; rewrite E.
  - exact Hs.
  - assert (Hd : string_forallb q (string_drop (String.length p) s) = true).
    { rewrite Hsplit, string_forallb_app in Hs.
      apply andb_true_iff in Hs as [_ Hs]. exact Hs. }
    destruct (String.length p); [exact Hs|]. apply IH, Hd.
Qed.

Lemma TrimSpace_forallb (q : ascii -> bool) (s : string) :
  string_forallb q s = true -> string_forallb q (TrimSpace s) = true.
Proof.
  intros Hs. unfold TrimSpace, TrimRightSpace, TrimLeftSpace.
  rewrite string_forallb_rev. apply dropRunes_forallb.
  rewrite string_forallb_rev. apply dropRunes_forallb, Hs.
Qed.

Lemma IndexByte_None_forallb (s : string) (c : ascii) :
  IndexByte s c = None <-> string_forallb (fun a => negb (Ascii.eqb a c)) s = true.
Proof.
  induction s as [|a s IH]; simpl; [tauto|].
  destruct (Ascii.eqb a c); simpl.
  - split; discriminate.
  - rewrite <- IH. destruct (IndexByte s c); split; congruence.
Qed.

Lemma LastIndexByte_None (s : string) (c : ascii) :
  IndexByte s c = None -> LastIndexByte s c = None.
Proof.
  induction s as [|a s IH]; simpl; [reflexivity|].
  destruct (Ascii.eqb a c); [discriminate|].
  destruct (IndexByte s c); [discriminate|].
  intros _. rewrite IH; reflexivity.
Qed.

Lemma contains_false (s : string) (c : ascii) :
  contains s c = false <-> IndexByte s c = None.
Proof. unfold contains. destruct (IndexByte s c); split; congruence. Qed.

(** ** The client document *)

(** The parts of the client document that do not depend on the endpoint
    are read off the map literal. *)
Lemma buildClientConfigMap_shape cfg c :
  exists host port tun,
    resolveEndpointHostPort (EndpointHost cfg) (ListenPort cfg) = (host, port) /\
    tun = tunInboundOf cfg host /\
    buildClientConfigMap cfg c !! "inbounds" = Some (JArray [JObject tun]) /\
    routeRules (buildClientConfigMap cfg c) =
      Some (JArray
        [ JObject (object [ ("protocol", JString "dns"); ("action", JString "hijack-dns") ]);
          JObject (object [ ("ip_cidr", JStrings privateCIDRs);
                            ("outbound", JString "direct") ]) ]) /\
    field "final" (buildClientConfigMap cfg c !! "route") = Some (JString "vless-out") /\
    field "servers" (buildClientConfigMap cfg c !! "dns") =
      Some (JArray
        [ JObject (object [ ("type", JString "udp"); ("tag", JString "dns-remote");
                            ("server", JString "1.1.1.1");
                            ("detour", JString "vless-out") ]) ]) /\
    field "final" (buildClientConfigMap cfg c !! "dns") = Some (JString "dns-remote") /\
    field "server" (field "default_domain_resolver"
                          (buildClientConfigMap cfg c !! "route"))
      = Some (JString "dns-remote") /\
    field "tag" (item 0 (buildClientConfigMap cfg c !! "outbounds"))
      = Some (JString "vless-out") /\
    field "type" (item 0 (buildClientConfigMap cfg c !! "outbounds"))
      = Some (JString "vless") /\
    field "server" (item 0 (buildClientConfigMap cfg c !! "outbounds"))
      = Some (JString host) /\
    field "tag" (item 1 (buildClientConfigMap cfg c !! "outbounds"))
      = Some (JString "direct").
Proof.
  unfold routeRules, buildClientConfigMap.
  destruct (resolveEndpointHostPort (EndpointHost cfg) (ListenPort cfg)) as [host port].
  exists host, port, (tunInboundOf cfg host).
  generalize (tunInboundOf cfg host) as tun; intros tun.
  generalize (UUID c) (TLSServerName cfg) (ClientInsecureTLS cfg) (WebsocketPath cfg).
  intros u sn ins ws.
  repeat split; vm_compute; reflexivity.
Qed.

(** C7 (as amended). The route table of every client document has
    exactly two rules, in this order: DNS protocol traffic is hijacked
    whatever its destination, and traffic to a fixed list of blocks goes
    to the direct outbound; everything else goes to the tunnel outbound
    [vless-out].  The list holds the RFC1918, loopback, link-local and
    unique-local blocks and, besides them, the IPv4 multicast block
    224.0.0.0/4.  Names are resolved by one remote resolver only, reached
    through the tunnel outbound. *)
Theorem client_route_policy (cfg : Config) (c : Client) :
  let doc := buildClientConfigMap cfg c in
  routeRules doc =
    Some (JArray
      [ JObject (object [ ("protocol", JString "dns"); ("action", JString "hijack-dns") ]);
        JObject (object [ ("ip_cidr", JStrings privateCIDRs);
                          ("outbound", JString "direct") ]) ]) /\
  allowlistOf doc = privateCIDRs /\
  forallb (fun block => spec_privateLoopbackLinkLocal block || blockWithin block multicast4)
          (allowlistOf doc) = true /\
  filter (fun block => negb (spec_privateLoopbackLinkLocal block)) (allowlistOf doc)
    = [multicast4] /\
  field "final" (doc !! "route") = Some (JString "vless-out") /\
  field "servers" (doc !! "dns") =
    Some (JArray
      [ JObject (object [ ("type", JString "udp"); ("tag", JString "dns-remote");
                          ("server", JString "1.1.1.1");
                          ("detour", JString "vless-out") ]) ]) /\
  field "final" (doc !! "dns") = Some (JString "dns-remote") /\
  field "server" (field "default_domain_resolver" (doc !! "route"))
    = Some (JString "dns-remote") /\
  field "type" (item 0 (doc !! "outbounds")) = Some (JString "vless") /\
  field "tag" (item 0 (doc !! "outbounds")) = Some (JString "vless-out") /\
  field "tag" (item 1 (doc !! "outbounds")) = Some (JString "direct").
Proof.
  intros doc. subst doc.
  destruct (buildClientConfigMap_shape cfg c)
    as (host & port & tun & _ & _ & _ & Hrules & Hfinal & Hdns & Hdfinal & Hres
        & Htag & Htype & _ & Hdirect).
  assert (Hallow : allowlistOf (buildClientConfigMap cfg c) = privateCIDRs).
  { unfold allowlistOf. rewrite Hrules. reflexivity. }
  rewrite Hallow.
  repeat split; try assumption; reflexivity.
Qed.

(** The claim as stated fails: the allowlist is not made of RFC1918,
    loopback and link-local blocks only. *)
Lemma client_route_allowlist_has_multicast :
  forallb spec_privateLoopbackLinkLocal
          (allowlistOf (buildClientConfigMap (exampleConfig "vpn.example.com")
                                             exampleClient)) = false.
Proof. reflexivity. Qed.

(** ** Endpoint resolution *)

Lemma SplitHostPort_no_colon (s : string) :
  contains s ":" = false ->
  SplitHostPort s = Err (AddrError "missing port in address" s).
Proof.
  intros H. apply contains_false in H.
  unfold SplitHostPort. rewrite (LastIndexByte_None _ _ H). reflexivity.
Qed.

Lemma resolveEndpointHostPort_no_split (raw : string) (fallback : Z) (e : error) :
  TrimSpace raw <> "" ->
  SplitHostPort (TrimSpace raw) = Err e ->
  resolveEndpointHostPort raw fallback = (TrimSpace raw, fallback).
Proof.
  intros Hne Hsplit. unfold resolveEndpointHostPort.
  apply String.eqb_neq in Hne. rewrite Hne, Hsplit. reflexivity.
Qed.



(** ** The captured-route exclusion *)


Lemma octet_text (a : Z) : octet a -> octetText a.
Proof.
  intros [Hlo Hhi].
  assert (Hk : exists k : nat, (k < 256)%nat /\ a = Z.of_nat k).
  { exists (Z.to_nat a). split; lia. }
  destruct Hk as (k & Hk & ->). clear Hlo Hhi.
  do 256 (destruct k as [|k];
          [ unfold octetText; do 4 eexists;
            split; [reflexivity|];
            split; [reflexivity|];
            split; [reflexivity|];
            split; [reflexivity|];
            split; intros; reflexivity
          | ]).
  exfalso. lia.
Qed.

Lemma is_digit_solid (c : ascii) : is_digit c = true -> solid c = true.
Proof.
  intros H. apply is_digit_cases in H. simpl in H.
  repeat (destruct H as [<-|H]; [reflexivity|]). contradiction.
Qed.

Lemma is_digit_not_dot (c : ascii) : is_digit c = true -> Ascii.eqb c "." = false.
Proof.
  intros H. apply is_digit_cases in H. simpl in H.
  repeat (destruct H as [<-|H]; [reflexivity|]). contradiction.
Qed.

(** [net.ParseIP] reads the dotted-decimal text of four octets as the
    IPv4-mapped address of these octets. *)
Lemma ParseIP_dotted (a b c d : Z) :
  octet a -> octet b -> octet c -> octet d ->
  ParseIP (dotted a b c d) = Some (replicate 10 0 ++ [255; 255] ++ [a; b; c; d])%list.
Proof.
  intros Ha Hb Hc Hd.
  destruct (octet_text a Ha) as (a0 & ta & la & na & Ea & _ & _ & Hla & Hda & Hpa).
  destruct (octet_text b Hb) as (b0 & tb & lb & nb & Eb & _ & _ & Hlb & _ & Hpb).
  destruct (octet_text c Hc) as (c0 & tc & lc & nc & Ec & _ & _ & Hlc & _ & Hpc).
  destruct (octet_text d Hd) as (d0 & td & ld & nd & Ed & _ & _ & Hld & _ & Hpd).
  unfold ParseIP, dotted.
  change ("." +:+ ?x) with (String "." x).
  rewrite Hda. simpl parseAddr_dispatch.
  unfold parseIPv4Fields.
  rewrite Hpa. simpl parseIPv4Fields_loop.
  rewrite (is_digit_not_dot la Hla).
  replace (String.eqb (Itoa b +:+ String "." (Itoa c +:+ String "." (Itoa d))) "")
    with false by (rewrite Eb; reflexivity).
  simpl. rewrite Hpb. simpl parseIPv4Fields_loop.
  rewrite (is_digit_not_dot lb Hlb).
  replace (String.eqb (Itoa c +:+ String "." (Itoa d)) "")
    with false by (rewrite Ec; reflexivity).
  simpl. rewrite Hpc. simpl parseIPv4Fields_loop.
  rewrite (is_digit_not_dot lc Hlc).
  replace (String.eqb (Itoa d) "") with false by (rewrite Ed; reflexivity).
  simpl. rewrite <- (app_nil_r_s (Itoa d)), Hpd. reflexivity.
Qed.

Lemma TrimSpace_dotted (a b c d : Z) :
  octet a -> octet d -> TrimSpace (dotted a b c d) = dotted a b c d.
Proof.
  intros Ha Hd.
  destruct (octet_text a Ha) as (a0 & ta & _ & _ & Ea & Ha0 & _).
  destruct (octet_text d Hd) as (d0 & td & ld & _ & Ed & _ & Hlast & Hld & _).
  assert (Hl : string_last (dotted a b c d) = Some ld).
  { unfold dotted. rewrite Ed in *.
    rewrite <- !app_assoc_s. rewrite string_last_app. exact Hlast. }
  unfold dotted in *. rewrite Ea in *. simpl in *.
  eapply TrimSpace_solid_ends; [apply is_digit_solid, Ha0| |exact Hl].
  apply is_digit_solid, Hld.
Qed.

Lemma routeExcludeCIDRsForHost_dotted (a b c d : Z) :
  octet a -> octet b -> octet c -> octet d ->
  routeExcludeCIDRsForHost (dotted a b c d) = [dotted a b c d +:+ "/32"].
Proof.
  intros Ha Hb Hc Hd. unfold routeExcludeCIDRsForHost.
  rewrite TrimSpace_dotted by assumption.
  rewrite ParseIP_dotted by assumption.
  destruct (octet_text a Ha) as (a0 & ta & _ & _ & Ea & _).
  replace (String.eqb (dotted a b c d) "") with false
    by (unfold dotted; rewrite Ea; reflexivity).
  reflexivity.
Qed.

(** The exclusion key of the tun inbound is present exactly when
    [routeExcludeCIDRsForHost] returns something for the resolved host,
    and then holds what it returns. *)
Lemma routeExclusion_eq (cfg : Config) (c : Client) :
  routeExclusion (buildClientConfigMap cfg c) =
  match routeExcludeCIDRsForHost
          (fst (resolveEndpointHostPort (EndpointHost cfg) (ListenPort cfg))) with
  | [] => None
  | l => Some (JStrings l)
  end.
Proof.
  destruct (buildClientConfigMap_shape cfg c)
    as (host & port & tun & Hres & Htun & Hin & _).
  unfold routeExclusion, tunInbound. rewrite Hin, Hres. simpl.
  subst tun. unfold tunInboundOf.
  destruct (routeExcludeCIDRsForHost host) as [|x l].
  - simpl.
    generalize (ClientTunName cfg)
               (if (length (splitAndTrimCSV (ClientTunCIDR cfg)) =? 0)%nat
                then ["172.19.0.1/30"] else splitAndTrimCSV (ClientTunCIDR cfg)).
    intros n adds. vm_compute. reflexivity.
  - simpl. apply lookup_insert_eq.
Qed.

(** C3 (as amended). The tun inbound of the client document carries the
    key [route_exclude_address] exactly when the resolved endpoint host,
    trimmed, parses as an IP address.  Its value is then the one-element
    list made of the canonical text of the address ([IP.String]) and a
    suffix: ["/32"] on the IPv4 form when the address is an IPv4 or an
    IPv4-mapped one, ["/128"] otherwise.  For a host written as dotted
    decimal octets the canonical text is the host itself, so that the
    value is [host + "/32"].  When the trimmed host is not an IP address
    the key is absent.  Endpoint ["111.88.141.226"] gives
    ["111.88.141.226/32"], endpoint ["vpn.example.com"] no key. *)
Theorem route_exclusion_spec (cfg : Config) (c : Client) :
  let host := fst (resolveEndpointHostPort (EndpointHost cfg) (ListenPort cfg)) in
  let exclusion := routeExclusion (buildClientConfigMap cfg c) in
  (forall o1 o2 o3 o4,
      octet o1 -> octet o2 -> octet o3 -> octet o4 ->
      host = dotted o1 o2 o3 o4 ->
      exclusion = Some (JStrings [host +:+ "/32"])) /\
  (forall ip p4,
      ParseIP (TrimSpace host) = Some ip -> To4 ip = Some p4 ->
      exclusion = Some (JStrings [IPString p4 +:+ "/32"])) /\
  (forall ip,
      ParseIP (TrimSpace host) = Some ip -> To4 ip = None ->
      exclusion = Some (JStrings [IPString ip +:+ "/128"])) /\
  (ParseIP (TrimSpace host) = None -> exclusion = None) /\
  routeExclusion (buildClientConfigMap (exampleConfig "111.88.141.226") c)
    = Some (JStrings ["111.88.141.226/32"]) /\
  routeExclusion (buildClientConfigMap (exampleConfig "vpn.example.com") c) = None.
Proof.
  intros host exclusion. subst exclusion.
  split; [|split; [|split; [|split; [|split]]]].
  - intros o1 o2 o3 o4 H1 H2 H3 H4 Hhost.
    rewrite routeExclusion_eq. fold host. rewrite Hhost.
    rewrite routeExcludeCIDRsForHost_dotted by assumption. reflexivity.
  - intros ip p4 Hip H4. rewrite routeExclusion_eq. fold host.
    unfold routeExcludeCIDRsForHost. rewrite Hip, H4.
    destruct (String.eqb_spec (TrimSpace host) "") as [E|_]; [|reflexivity].
    rewrite E in Hip. discriminate.
  - intros ip Hip H4. rewrite routeExclusion_eq. fold host.
    unfold routeExcludeCIDRsForHost. rewrite Hip, H4.
    destruct (String.eqb_spec (TrimSpace host) "") as [E|_]; [|reflexivity].
    rewrite E in Hip. discriminate.
  - intros Hip. rewrite routeExclusion_eq. fold host.
    unfold routeExcludeCIDRsForHost. rewrite Hip.
    destruct (String.eqb (TrimSpace host) ""); reflexivity.
  - rewrite routeExclusion_eq. reflexivity.
  - rewrite routeExclusion_eq. reflexivity.
Qed.

Lemma route_exclusion_spec_witness :
  routeExclusion (buildClientConfigMap (exampleConfig "10.20.30.40:8443") exampleClient)
    = Some (JStrings ["10.20.30.40/32"]) /\
  routeExclusion (buildClientConfigMap (exampleConfig "[::FFFF:10.20.30.40]:8443")
                                       exampleClient)
    = Some (JStrings ["10.20.30.40/32"]) /\
  routeExclusion (buildClientConfigMap (exampleConfig "[FE80::1]:8443") exampleClient)
    = Some (JStrings ["fe80::1/128"]) /\
  routeExclusion (buildClientConfigMap (exampleConfig "vpn.example.com:8443")
                                       exampleClient) = None.
Proof.
  split; [|split; [|split]].
  - destruct (route_exclusion_spec (exampleConfig "10.20.30.40:8443") exampleClient)
      as (H & _).
    apply (H 10 20 30 40); unfold octet; solve [lia | reflexivity].
  - destruct (route_exclusion_spec (exampleConfig "[::FFFF:10.20.30.40]:8443")
                                   exampleClient) as (_ & H & _).
    apply (H (replicate 10 0 ++ [255; 255; 10; 20; 30; 40])%list [10; 20; 30; 40]);
      reflexivity.
  - destruct (route_exclusion_spec (exampleConfig "[FE80::1]:8443") exampleClient)
      as (_ & _ & H & _).
    apply (H [254; 128; 0; 0; 0; 0; 0; 0; 0; 0; 0; 0; 0; 0; 0; 1]); reflexivity.
  - destruct (route_exclusion_spec (exampleConfig "vpn.example.com:8443") exampleClient)
      as (_ & _ & _ & H & _).
    apply H. reflexivity.
Defined.

(** The claim as stated fails for an IPv6 literal that is not in
    canonical form: the resolved host ["2001:DB8::1"] is a literal IPv6
    address, and the exclusion is the canonical ["2001:db8::1/128"], not
    [host + "/128"]. *)
Lemma route_exclusion_not_host_text :
  let cfg := exampleConfig "[2001:DB8::1]:8443" in
  let host := fst (resolveEndpointHostPort (EndpointHost cfg) (ListenPort cfg)) in
  host = "2001:DB8::1" /\
  (exists ip, ParseIP host = Some ip /\ To4 ip = None) /\
  routeExclusion (buildClientConfigMap cfg exampleClient)
    = Some (JStrings ["2001:db8::1/128"]) /\
  routeExclusion (buildClientConfigMap cfg exampleClient)
    <> Some (JStrings [host +:+ "/128"]).
Proof.
  split; [reflexivity|]. split.
  - eexists. split; reflexivity.
  - rewrite routeExclusion_eq. split; [reflexivity|].
    vm_compute. discriminate.
Qed.

(** ** Client ids *)

Lemma idChar_dash : idChar "-" = true.
Proof. reflexivity. Qed.

Lemma replaceRuns_chars (inRun : bool) (s : string) :
  string_forallb idChar (replaceRuns "-" inRun s) = true.
Proof.
  revert inRun. induction s as [|c s IH]; intros inRun; simpl; [reflexivity|].
  destruct (idChar c) eqn:E.
  - simpl. rewrite E, IH. reflexivity.
  - destruct inRun; [apply IH|]. simpl. apply IH.
Qed.

Lemma TrimLeft_forallb (q : ascii -> bool) (s cutset : string) :
  string_forallb q s = true -> string_forallb q (TrimLeft s cutset) = true.
Proof.
  induction s as [|c s IH]; simpl; [auto|].
  intros H. apply andb_true_iff in H as [Hc Hs].
  destruct (inCutset cutset c); [apply IH, Hs|].
  simpl. rewrite Hc, Hs. reflexivity.
Qed.

Lemma Trim_forallb (q : ascii -> bool) (s cutset : string) :
  string_forallb q s = true -> string_forallb q (Trim s cutset) = true.
Proof.
  intros H. unfold Trim, TrimRight.
  rewrite string_forallb_rev. apply TrimLeft_forallb.
  rewrite string_forallb_rev. apply TrimLeft_forallb, H.
Qed.

(** The id derived from a name is never empty and is made of the bytes
    [a-z0-9._-] only, whatever the name and the Unicode case table. *)
Lemma sanitizeClientID_charset `{UnicodeTables} (name : string) :
  sanitizeClientID name <> "" /\
  string_forallb idChar (sanitizeClientID name) = true.
Proof.
  unfold sanitizeClientID, clientIDRe_ReplaceAllString.
  set (n := if String.eqb (ToLower (TrimSpace name)) "" then "client"
            else ToLower (TrimSpace name)).
  destruct (String.eqb_spec (Trim (replaceRuns "-" false n) "-_.") "") as [E|E].
  - split; [discriminate|reflexivity].
  - split; [exact E|]. apply Trim_forallb, replaceRuns_chars.
Qed.

Lemma idChar_lowercase (c : ascii) : idChar c = true -> is_upper c = false.
Proof. each_byte c. Qed.

Lemma string_of_uint_digits (d : Decimal.uint) :
  string_forallb is_digit (NilEmpty.string_of_uint d) = true.
Proof. induction d; simpl; auto. Qed.

Lemma Itoa_chars (z : Z) : string_forallb digitOrDash (Itoa z) = true.
Proof.
  assert (Hd : forall d, string_forallb digitOrDash (NilZero.string_of_uint d) = true).
  { intros d. unfold NilZero.string_of_uint.
    assert (Hw : forall s, string_forallb is_digit s = true ->
                           string_forallb digitOrDash s = true).
    { induction s as [|c s IH]; simpl; [auto|]. intros H.
      apply andb_true_iff in H as [Hc Hs]. unfold digitOrDash at 1.
      rewrite Hc, (IH Hs). reflexivity. }
    destruct d; try reflexivity; apply Hw, (string_of_uint_digits (_ d)). }
  unfold Itoa. destruct (Z.to_int z) as [d|d]; simpl; [apply Hd|].
  rewrite Hd. reflexivity.
Qed.

Lemma digitOrDash_idChar (c : ascii) : digitOrDash c = true -> idChar c = true.
Proof. each_byte c. Qed.

Lemma string_forallb_impl (p q : ascii -> bool) (s : string) :
  (forall c, p c = true -> q c = true) ->
  string_forallb p s = true -> string_forallb q s = true.
Proof.
  intros Hpq. induction s as [|c s IH]; simpl; [auto|].
  intros H. apply andb_true_iff in H as [Hc Hs].
  rewrite (Hpq c Hc), (IH Hs). reflexivity.
Qed.

Lemma suffixed_charset (base : string) (i : Z) :
  string_forallb idChar base = true ->
  string_forallb idChar (suffixed base i) = true.
Proof.
  intros H. unfold suffixed. rewrite !string_forallb_app, H. simpl.
  apply (string_forallb_impl digitOrDash); [apply digitOrDash_idChar|apply Itoa_chars].
Qed.

Lemma suffixed_nonempty (base : string) (i : Z) : base <> "" -> suffixed base i <> "".
Proof. unfold suffixed. destruct base; [congruence|discriminate]. Qed.

(** What the loop returns: the first free candidate. *)
Lemma allocateLoop_Some (base : string) (clients : gmap string Client)
      (n : nat) (i : Z) (candidate : string) :
  allocateLoop base clients i n = Some candidate ->
  exists j, i <= j < i + Z.of_nat n /\ candidate = suffixed base j /\
            clients !! candidate = None /\
            forall k, i <= k < j -> clients !! suffixed base k <> None.
Proof.
  revert i. induction n as [|n IH]; intros i; simpl; [discriminate|].
  destruct (clients !! suffixed base i) eqn:E.
  - intros H. destruct (IH _ H) as (j & Hj & Hc & Hfree & Hbelow).
    exists j. split; [lia|]. split; [exact Hc|]. split; [exact Hfree|].
    intros k Hk. destruct (Z.eq_dec k i) as [->|Hne]; [congruence|].
    apply Hbelow. lia.
  - intros [= <-]. exists i. split; [lia|]. split; [reflexivity|].
    split; [exact E|]. intros k Hk. lia.
Qed.

Lemma allocateLoop_None (base : string) (clients : gmap string Client)
      (n : nat) (i : Z) :
  allocateLoop base clients i n = None <->
  forall k, i <= k < i + Z.of_nat n -> clients !! suffixed base k <> None.
Proof.
  revert i. induction n as [|n IH]; intros i; simpl.
  - split; [intros _ k Hk; lia|reflexivity].
  - destruct (clients !! suffixed base i) eqn:E.
    + rewrite IH. split.
      * intros H k Hk. destruct (Z.eq_dec k i) as [->|Hne]; [congruence|].
        apply H. lia.
      * intros H k Hk. apply H. lia.
    + split; [discriminate|]. intros H. exfalso. apply (H i); [lia|exact E].
Qed.

(** The id [allocateClientIDLocked] returns is free in the map, unless
    [base] and all of [base-2] ... [base-9999] are taken: then it is the
    time-suffixed id, whether or not that one is free. *)
Lemma allocateClientIDLocked_cases `{UnicodeTables} (now : Time) (name : string)
      (clients : gmap string Client) :
  let base := sanitizeClientID name in
  let id := allocateClientIDLocked now name clients in
  (id = base /\ clients !! base = None) \/
  (exists j, 2 <= j < 10000 /\ id = suffixed base j /\ clients !! id = None /\
             clients !! base <> None) \/
  (id = suffixed base (Unix now) /\ clients !! base <> None /\
   forall k, 2 <= k < 10000 -> clients !! suffixed base k <> None).
Proof.
  intros base id. subst id. unfold allocateClientIDLocked. fold base.
  destruct (clients !! base) eqn:Eb; [|left; auto].
  right.
  destruct (allocateLoop base clients 2 (Z.to_nat 9998)) eqn:El.
  - left. apply allocateLoop_Some in El as (j & Hj & -> & Hfree & _).
    exists j. split; [lia|]. split; [reflexivity|]. split; [exact Hfree|congruence].
  - right. split; [reflexivity|]. split; [congruence|].
    intros k Hk. apply (proj1 (allocateLoop_None _ _ _ _) El). lia.
Qed.

(** Every allocated id is a non-empty string over [a-z0-9._-]. *)
Lemma allocateClientIDLocked_charset `{UnicodeTables} (now : Time) (name : string)
      (clients : gmap string Client) :
  allocateClientIDLocked now name clients <> "" /\
  string_forallb idChar (allocateClientIDLocked now name clients) = true.
Proof.
  destruct (sanitizeClientID_charset name) as [Hne Hcs].
  destruct (allocateClientIDLocked_cases now name clients)
    as [[-> _]|[(j & _ & -> & _)|(-> & _)]].
  - auto.
  - split; [apply suffixed_nonempty, Hne|apply suffixed_charset, Hcs].
  - split; [apply suffixed_nonempty, Hne|apply suffixed_charset, Hcs].
Qed.

Lemma allocateClientIDLocked_fallback `{UnicodeTables} (now : Time) (name : string)
      (clients : gmap string Client) :
  clients !! sanitizeClientID name <> None ->
  (forall k, 2 <= k < 10000 -> clients !! suffixed (sanitizeClientID name) k <> None) ->
  allocateClientIDLocked now name clients = suffixed (sanitizeClientID name) (Unix now).
Proof.
  intros Hb Hall.
  destruct (allocateClientIDLocked_cases now name clients)
    as [[_ E]|[(j & Hj & E & Hf & _)|(E & _)]].
  - contradiction.
  - exfalso. rewrite E in Hf. exact (Hall j Hj Hf).
  - exact E.
Qed.

(** Two successive allocations from names with the same base give two
    different ids as long as the second one finds one of [base-2] ...
    [base-9999] free; the second id is then [base-j] for the first such
    [j]. *)
Lemma allocateClientIDLocked_distinct `{UnicodeTables} (now1 now2 : Time)
      (name1 name2 : string) (clients : gmap string Client) (c : Client) :
  sanitizeClientID name1 = sanitizeClientID name2 ->
  (exists k, 2 <= k < 10000 /\
             <[allocateClientIDLocked now1 name1 clients := c]> clients
               !! suffixed (sanitizeClientID name2) k = None) ->
  allocateClientIDLocked now1 name1 clients <>
  allocateClientIDLocked now2 name2
    (<[allocateClientIDLocked now1 name1 clients := c]> clients) /\
  exists j, 2 <= j < 10000 /\
            allocateClientIDLocked now2 name2
              (<[allocateClientIDLocked now1 name1 clients := c]> clients)
            = suffixed (sanitizeClientID name2) j.
Proof.
  intros Hbase (k & Hk & Hfree).
  remember (allocateClientIDLocked now1 name1 clients) as id1 eqn:Eid1.
  remember (<[id1 := c]> clients) as clients' eqn:Ecl.
  assert (Htaken : clients' !! id1 = Some c) by (subst clients'; apply lookup_insert_eq).
  assert (Hbase1 : clients' !! sanitizeClientID name2 <> None).
  { destruct (allocateClientIDLocked_cases now1 name1 clients)
      as [[E _]|[(j & _ & _ & _ & Hb)|(_ & Hb & _)]]; try rewrite <- Eid1 in *.
    - rewrite <- Hbase, <- E. congruence.
    - rewrite <- Hbase. subst clients'.
      rewrite lookup_insert. case_decide; [discriminate|exact Hb].
    - rewrite <- Hbase. subst clients'.
      rewrite lookup_insert. case_decide; [discriminate|exact Hb]. }
  destruct (allocateClientIDLocked_cases now2 name2 clients')
    as [[_ E]|[(j & Hj & E & Hf & _)|(_ & _ & Hall)]].
  - contradiction.
  - split; [|exists j; auto]. intros Heq. rewrite <- Heq in Hf. congruence.
  - exfalso. apply (Hall k Hk), Hfree.
Qed.

Lemma crowded_taken (base : string) (c : Client) :
  crowded base c !! base <> None /\
  forall k, 2 <= k < 10000 -> crowded base c !! suffixed base k <> None.
Proof.
  unfold crowded. split.
  - rewrite <- not_elem_of_list_to_map. intros Hnot. apply Hnot.
    rewrite fmap_cons. left.
  - intros k Hk. rewrite <- not_elem_of_list_to_map. intros Hnot. apply Hnot.
    rewrite fmap_cons. right.
    apply list_elem_of_fmap. exists (suffixed base k, c). split; [reflexivity|].
    apply list_elem_of_In, in_map_iff. exists k. split; [reflexivity|].
    apply list_elem_of_In, elem_of_seqZ. lia.
Qed.

(** C1, at the bound. With [client] and [client-2] ... [client-9999]
    taken, the allocation for the name [client] returns the time-suffixed
    id; once that id is inserted, a second allocation within the same
    second, for a name with the same base, returns the same id again: the
    two ids are not distinct, and the second one names a record that is
    already in the map. *)
Theorem allocateClientIDLocked_collision :
  let clients := crowded "client" exampleClient in
  let id1 := @allocateClientIDLocked asciiToLower exampleNow "client" clients in
  let clients' := <[id1 := exampleClient]> clients in
  let id2 := @allocateClientIDLocked asciiToLower exampleNow " Client " clients' in
  @sanitizeClientID asciiToLower "client" = @sanitizeClientID asciiToLower " Client " /\
  id1 = "client-1700000000" /\
  id2 = id1 /\
  clients' !! id2 = Some exampleClient.
Proof.
  intros clients id1 clients' id2.
  destruct (crowded_taken "client" exampleClient) as [Hb Hall].
  assert (E1 : id1 = "client-1700000000").
  { subst id1. rewrite allocateClientIDLocked_fallback; [reflexivity|exact Hb|exact Hall]. }
  assert (E2 : id2 = "client-1700000000").
  { subst id2. rewrite allocateClientIDLocked_fallback; [reflexivity| |].
    - change (@sanitizeClientID asciiToLower " Client ") with "client".
      subst clients'. rewrite lookup_insert. case_decide; [discriminate|exact Hb].
    - change (@sanitizeClientID asciiToLower " Client ") with "client".
      intros k Hk. subst clients'. rewrite lookup_insert.
      case_decide; [discriminate|apply Hall, Hk]. }
  split; [reflexivity|]. split; [exact E1|]. split; [congruence|].
  rewrite E2, <- E1. subst clients'. apply lookup_insert_eq.
Qed.

(** ** Computations in the world *)

Lemma bind_inv {A B} (m : M A) (k : A -> M B) (w w2 : World) (r : result B) :
  bind m k w = (r, w2) ->
  (exists e, m w = (Err e, w2) /\ r = Err e) \/
  (exists a w1, m w = (Ok a, w1) /\ k a w1 = (r, w2)).
Proof.
  unfold bind. destruct (m w) as [[a|e] w1]; intros H.
  - right. eauto.
  - left. injection H as <- <-. eauto.
Qed.

Lemma bind_Ok_inv {A B} (m : M A) (k : A -> M B) (w w2 : World) (b : B) :
  bind m k w = (Ok b, w2) ->
  exists a w1, m w = (Ok a, w1) /\ k a w1 = (Ok b, w2).
Proof.
  intros H. apply bind_inv in H as [(e & _ & He)|H]; [discriminate|exact H].
Qed.

Lemma wrapErr_inv {A} (msg : string) (m : M A) (w w2 : World) (r : result A) :
  wrapErr msg m w = (r, w2) ->
  (exists e, m w = (Err e, w2) /\ r = Err (Wrapped msg e)) \/
  (exists a, m w = (Ok a, w2) /\ r = Ok a).
Proof.
  unfold wrapErr. destruct (m w) as [[a|e] w1]; intros H; injection H as <- <-; eauto.
Qed.

Lemma wrapErr_Ok_inv {A} (msg : string) (m : M A) (w w2 : World) (a : A) :
  wrapErr msg m w = (Ok a, w2) -> m w = (Ok a, w2).
Proof.
  intros H. apply wrapErr_inv in H as [(e & _ & He)|(a' & H & Ha)];
    [discriminate|congruence].
Qed.

Lemma keeps_run {A} (R : World -> World -> Prop) (m : M A) (w w' : World) (r : result A) :
  keeps R m -> m w = (r, w') -> R w w'.
Proof. intros H E. specialize (H w). rewrite E in H. exact H. Qed.

Section Keeps.
Context (R : World -> World -> Prop) `{!PreOrder R}.

Lemma keeps_ret {A} (a : A) : keeps R (ret a).
Proof. intros w. reflexivity. Qed.

Lemma keeps_throw {A} (e : error) : keeps R (@throw A e).
Proof. intros w. reflexivity. Qed.

Lemma keeps_gets {A} (f : World -> A) : keeps R (gets f).
Proof. intros w. reflexivity. Qed.

Lemma keeps_liftResult {A} (r : result A) : keeps R (liftResult r).
Proof. destruct r; [apply keeps_ret|apply keeps_throw]. Qed.

Lemma keeps_bind {A B} (m : M A) (k : A -> M B) :
  keeps R m -> (forall a, keeps R (k a)) -> keeps R (bind m k).
Proof.
  intros Hm Hk w. unfold bind. specialize (Hm w).
  destruct (m w) as [[a|e] w1]; simpl in *; [|exact Hm].
  etransitivity; [exact Hm|apply Hk].
Qed.

Lemma keeps_wrapErr {A} (msg : string) (m : M A) :
  keeps R m -> keeps R (wrapErr msg m).
Proof.
  intros Hm w. unfold wrapErr. specialize (Hm w).
  destruct (m w) as [[a|e] w1]; exact Hm.
Qed.

Lemma keeps_if {A} (b : bool) (m1 m2 : M A) :
  keeps R m1 -> keeps R m2 -> keeps R (if b then m1 else m2).
Proof. destruct b; auto. Qed.
End Keeps.

(** The relations kept. *)

#[local] Instance filesOutside_preorder S : PreOrder (filesOutside S).
Proof.
  split.
  - intros w p _. reflexivity.
  - intros w1 w2 w3 H12 H23 p Hp. rewrite (H23 p Hp). apply H12, Hp.
Qed.

#[local] Instance sameProcs_preorder : PreOrder sameProcs.
Proof.
  split.
  - intros w. repeat split.
  - intros w1 w2 w3 (A1 & B1 & C1) (A2 & B2 & C2). repeat split; congruence.
Qed.

#[local] Instance sameEntropy_preorder : PreOrder sameEntropy.
Proof. split; [intros w; reflexivity|intros w1 w2 w3; unfold sameEntropy; congruence]. Qed.

#[local] Instance sameClock_preorder : PreOrder sameClock.
Proof. split; [intros w; reflexivity|intros w1 w2 w3; unfold sameClock; congruence]. Qed.

#[local] Instance sameFiles_preorder : PreOrder sameFiles.
Proof. split; [intros w; reflexivity|intros w1 w2 w3; unfold sameFiles; congruence]. Qed.

#[local] Instance sameLog_preorder : PreOrder sameLog.
Proof. split; [intros w; reflexivity|intros w1 w2 w3; unfold sameLog; congruence]. Qed.

Lemma filesOutside_weaken (S S' : string -> Prop) (w w' : World) :
  (forall p, S p -> S' p) -> filesOutside S w w' -> filesOutside S' w w'.
Proof. intros Hsub H p Hp. apply H. intros Hs. apply Hp, Hsub, Hs. Qed.

Lemma keeps_weaken {A} (S S' : string -> Prop) (m : M A) :
  (forall p, S p -> S' p) -> keeps (filesOutside S) m -> keeps (filesOutside S') m.
Proof. intros Hsub H w. eapply filesOutside_weaken; [exact Hsub|apply H]. Qed.

Lemma sameFiles_outside (S : string -> Prop) {A} (m : M A) :
  keeps sameFiles m -> keeps (filesOutside S) m.
Proof. intros H w p _. rewrite (H w). reflexivity. Qed.

Lemma keeps_nextFault (R : World -> World -> Prop) :
  (forall w fs, R w (setFaults fs w)) -> (forall w, R w w) -> keeps R nextFault.
Proof. intros H Hr w. unfold nextFault. destruct (faults w); simpl; auto. Qed.

(** Processes, entropy, clock and log are out of reach of the file
    system calls. *)
Lemma os_MkdirAll_procs p mo : keeps sameProcs (os_MkdirAll p mo).
Proof. run_primitive; repeat split. Qed.
Lemma os_Chmod_procs p mo : keeps sameProcs (os_Chmod p mo).
Proof. run_primitive; repeat split. Qed.
Lemma os_WriteFile_procs p d mo : keeps sameProcs (os_WriteFile p d mo).
Proof. run_primitive; repeat split. Qed.
Lemma os_Rename_procs p q : keeps sameProcs (os_Rename p q).
Proof. run_primitive; repeat split. Qed.
Lemma os_ReadFile_procs p : keeps sameProcs (os_ReadFile p).
Proof. run_primitive; repeat split. Qed.
Lemma fileExists_procs p : keeps sameProcs (fileExists p).
Proof. run_primitive; repeat split. Qed.
Lemma rand_Read_procs n : keeps sameProcs (rand_Read n).
Proof. run_primitive; repeat split. Qed.
Lemma time_Now_procs : keeps sameProcs time_Now.
Proof. run_primitive; repeat split. Qed.
Lemma logger_Printf_procs l : keeps sameProcs (logger_Printf l).
Proof. run_primitive; repeat split. Qed.

Lemma os_MkdirAll_entropy p mo : keeps sameEntropy (os_MkdirAll p mo).
Proof. run_primitive; reflexivity. Qed.
Lemma os_Chmod_entropy p mo : keeps sameEntropy (os_Chmod p mo).
Proof. run_primitive; reflexivity. Qed.
Lemma os_WriteFile_entropy p d mo : keeps sameEntropy (os_WriteFile p d mo).
Proof. run_primitive; reflexivity. Qed.
Lemma os_Rename_entropy p q : keeps sameEntropy (os_Rename p q).
Proof. run_primitive; reflexivity. Qed.
Lemma os_ReadFile_entropy p : keeps sameEntropy (os_ReadFile p).
Proof. run_primitive; reflexivity. Qed.
Lemma fileExists_entropy p : keeps sameEntropy (fileExists p).
Proof. run_primitive; reflexivity. Qed.
Lemma time_Now_entropy : keeps sameEntropy time_Now.
Proof. run_primitive; reflexivity. Qed.
Lemma logger_Printf_entropy l : keeps sameEntropy (logger_Printf l).
Proof. run_primitive; reflexivity. Qed.

Lemma os_MkdirAll_clock p mo : keeps sameClock (os_MkdirAll p mo).
Proof. run_primitive; reflexivity. Qed.
Lemma os_Chmod_clock p mo : keeps sameClock (os_Chmod p mo).
Proof. run_primitive; reflexivity. Qed.
Lemma os_WriteFile_clock p d mo : keeps sameClock (os_WriteFile p d mo).
Proof. run_primitive; reflexivity. Qed.
Lemma os_Rename_clock p q : keeps sameClock (os_Rename p q).
Proof. run_primitive; reflexivity. Qed.
Lemma os_ReadFile_clock p : keeps sameClock (os_ReadFile p).
Proof. run_primitive; reflexivity. Qed.
Lemma fileExists_clock p : keeps sameClock (fileExists p).
Proof. run_primitive; reflexivity. Qed.
Lemma rand_Read_clock n : keeps sameClock (rand_Read n).
Proof. run_primitive; reflexivity. Qed.
Lemma time_Now_clock : keeps sameClock time_Now.
Proof. run_primitive; reflexivity. Qed.
Lemma logger_Printf_clock l : keeps sameClock (logger_Printf l).
Proof. run_primitive; reflexivity. Qed.

(** Which files a file system call may change. *)
Lemma os_MkdirAll_files p mo : keeps sameFiles (os_MkdirAll p mo).
Proof. run_primitive; reflexivity. Qed.
Lemma os_ReadFile_files p : keeps sameFiles (os_ReadFile p).
Proof. run_primitive; reflexivity. Qed.
Lemma fileExists_files p : keeps sameFiles (fileExists p).
Proof. run_primitive; reflexivity. Qed.
Lemma rand_Read_files n : keeps sameFiles (rand_Read n).
Proof. run_primitive; reflexivity. Qed.
Lemma time_Now_files : keeps sameFiles time_Now.
Proof. run_primitive; reflexivity. Qed.
Lemma logger_Printf_files l : keeps sameFiles (logger_Printf l).
Proof. run_primitive; reflexivity. Qed.

Lemma os_WriteFile_outside p d mo : keeps (filesOutside (eq p)) (os_WriteFile p d mo).
Proof.
  run_primitive; intros q Hq; simpl; try reflexivity;
    rewrite lookup_insert_ne by exact Hq; reflexivity.
Qed.

Lemma os_Chmod_outside p mo : keeps (filesOutside (eq p)) (os_Chmod p mo).
Proof.
  run_primitive; intros q Hq; simpl; try reflexivity;
    rewrite lookup_insert_ne by exact Hq; reflexivity.
Qed.

Lemma os_Rename_outside p q :
  keeps (filesOutside (fun x => x = p \/ x = q)) (os_Rename p q).
Proof.
  run_primitive; intros x Hx; simpl; try reflexivity.
  all: rewrite lookup_insert_ne by (intros ->; apply Hx; auto).
  all: rewrite lookup_delete_ne by (intros ->; apply Hx; auto).
  all: reflexivity.
Qed.

(** ** Writing a file through a temporary one *)

Lemma tmp_ne (path : string) : path +:+ ".tmp" <> path.
Proof.
  intros H. apply (f_equal String.length) in H.
  rewrite length_app_s in H. simpl in H. lia.
Qed.

Section KeepsSecret.
Context (R : World -> World -> Prop) `{!PreOrder R}.

Lemma writeSecretFile_keeps (path content : string) :
  (forall p mo, keeps R (os_MkdirAll p mo)) ->
  (forall p d mo, keeps R (os_WriteFile p d mo)) ->
  (forall p mo, keeps R (os_Chmod p mo)) ->
  (forall p q, keeps R (os_Rename p q)) ->
  keeps R (writeSecretFile path content).
Proof.
  intros H1 H2 H3 H4. unfold writeSecretFile.
  apply keeps_bind; [exact _|apply H1|intros _].
  apply keeps_bind; [exact _|apply H2|intros _].
  apply keeps_bind; [exact _|apply H3|intros _].
  apply H4.
Qed.
End KeepsSecret.

Lemma writeSecretFile_procs path content : keeps sameProcs (writeSecretFile path content).
Proof.
  apply writeSecretFile_keeps;
    auto using os_MkdirAll_procs, os_WriteFile_procs, os_Chmod_procs, os_Rename_procs
    with typeclass_instances.
Qed.

Lemma writeSecretFile_entropy path content : keeps sameEntropy (writeSecretFile path content).
Proof.
  apply writeSecretFile_keeps;
    auto using os_MkdirAll_entropy, os_WriteFile_entropy, os_Chmod_entropy,
               os_Rename_entropy with typeclass_instances.
Qed.

Lemma writeSecretFile_clock path content : keeps sameClock (writeSecretFile path content).
Proof.
  apply writeSecretFile_keeps;
    auto using os_MkdirAll_clock, os_WriteFile_clock, os_Chmod_clock, os_Rename_clock
    with typeclass_instances.
Qed.

Lemma writeSecretFile_outside path content :
  keeps (filesOutside (secretPaths path)) (writeSecretFile path content).
Proof.
  unfold writeSecretFile.
  apply keeps_bind; [exact _| |intros _].
  { apply sameFiles_outside, os_MkdirAll_files. }
  apply keeps_bind; [exact _| |intros _].
  { eapply keeps_weaken; [|apply os_WriteFile_outside]. intros p <-. right. reflexivity. }
  apply keeps_bind; [exact _| |intros _].
  { eapply keeps_weaken; [|apply os_Chmod_outside]. intros p <-. right. reflexivity. }
  eapply keeps_weaken; [|apply os_Rename_outside].
  intros p [->| ->]; [right|left]; reflexivity.
Qed.

Lemma os_WriteFile_result (p d : string) (mo : Z) (w : World) :
  match os_WriteFile p d mo w with
  | (Ok _, w') => exists mo', files w' = <[p := mkFile d mo']> (files w)
  | (Err _, w') => filesOutside (eq p) w w'
  end.
Proof.
  pose proof (os_WriteFile_outside p d mo w) as Hout.
  destruct (os_WriteFile p d mo w) as [[[]|e] w'] eqn:E; [|exact Hout].
  revert E. run_on; intros; simplify_eq/=; eauto.
Qed.

Lemma os_Chmod_result (p : string) (mo : Z) (w : World) :
  match os_Chmod p mo w with
  | (Ok _, w') =>
      forall f, files w !! p = Some f ->
                files w' = <[p := mkFile (content f) mo]> (files w)
  | (Err _, w') => sameFiles w w'
  end.
Proof.
  destruct (os_Chmod p mo w) as [[[]|e] w'] eqn:E; revert E;
    run_on; intros; simplify_eq/=; reflexivity.
Qed.

Lemma os_Rename_result (p q : string) (w : World) :
  match os_Rename p q w with
  | (Ok _, w') =>
      exists f, files w !! p = Some f /\ files w' = <[q := f]> (delete p (files w))
  | (Err _, w') => sameFiles w w'
  end.
Proof.
  destruct (os_Rename p q w) as [[[]|e] w'] eqn:E; revert E;
    run_on; intros; simplify_eq/=; eauto; reflexivity.
Qed.

(** The outcome of [writeSecretFile]: on success the file holds the
    content, with permission 0600, and the temporary file is gone; on
    failure the file is what it was. *)
Lemma writeSecretFile_spec (path content : string) (w : World) :
  match writeSecretFile path content w with
  | (Ok _, w') =>
      files w' !! path = Some (mkFile content 384) /\
      files w' !! (path +:+ ".tmp") = None
  | (Err _, w') => files w' !! path = files w !! path
  end.
Proof.
  pose proof (tmp_ne path) as Hne.
  destruct (writeSecretFile path content w) as [r w4] eqn:E.
  unfold writeSecretFile in E.
  apply bind_inv in E as [(e & E1 & ->)|([] & w1 & E1 & E)].
  { apply (keeps_run _ _ _ _ _ (os_MkdirAll_files _ _)) in E1. rewrite E1. reflexivity. }
  apply (keeps_run _ _ _ _ _ (os_MkdirAll_files _ _)) in E1. rewrite <- E1.
  apply bind_inv in E as [(e & E2 & ->)|([] & w2 & E2 & E)].
  { pose proof (os_WriteFile_result (path +:+ ".tmp") content 384 w1) as H.
    rewrite E2 in H. apply H. congruence. }
  pose proof (os_WriteFile_result (path +:+ ".tmp") content 384 w1) as H2.
  rewrite E2 in H2. destruct H2 as [mo' H2].
  apply bind_inv in E as [(e & E3 & ->)|([] & w3 & E3 & E)].
  { pose proof (os_Chmod_result (path +:+ ".tmp") 384 w2) as H.
    rewrite E3 in H. unfold sameFiles in H.
    rewrite H, H2. apply lookup_insert_ne. exact Hne. }
  pose proof (os_Chmod_result (path +:+ ".tmp") 384 w2) as H3.
  rewrite E3 in H3.
  specialize (H3 (mkFile content mo')).
  rewrite H2, lookup_insert_eq in H3. specialize (H3 eq_refl). simpl in H3.
  pose proof (os_Rename_result (path +:+ ".tmp") path w3) as H4.
  rewrite E in H4. destruct r as [[]|e].
  - destruct H4 as (f & Hf & H4). rewrite H3, lookup_insert_eq in Hf.
    injection Hf as <-. rewrite H4. split.
    + apply lookup_insert_eq.
    + rewrite lookup_insert_ne by congruence. apply lookup_delete_eq.
  - unfold sameFiles in H4. rewrite H4, H3, !lookup_insert_ne by exact Hne.
    reflexivity.
Qed.

(** A run known by its result. *)
Lemma run_Ok {A} (c : M A) (w : World) (a : A) :
  fst (c w) = Ok a -> c w = (Ok a, snd (c w)).
Proof. destruct (c w); simpl; congruence. Qed.

(** ** The client store *)

Lemma marshalPretty_newline {V} (encode : V -> result string) (v : V) (raw : string) :
  marshalPretty encode v = Ok raw ->
  string_last raw = Some newline /\
  exists encoded, encode v = Ok encoded /\
                  (raw = encoded \/ raw = encoded +:+ String newline "").
Proof.
  unfold marshalPretty. destruct (encode v) as [encoded|e]; [|discriminate].
  destruct (string_last encoded) as [c|] eqn:El.
  - destruct (Ascii.eqb_spec c newline) as [->|Hne].
    + intros [= <-]. split; [exact El|]. eauto.
    + assert (E : (match c with
                   | "010"%char => Ok encoded
                   | _ => @Ok string (encoded +:+ String "010" "")
                   end) = Ok (encoded +:+ String "010" "")).
      { destruct c as [[] [] [] [] [] [] [] []]; try reflexivity.
        exfalso. apply Hne. reflexivity. }
      rewrite E. intros [= <-]. split; [apply string_last_snoc|]. eauto.
  - intros [= <-]. split; [apply string_last_snoc|]. eauto.
Qed.

Lemma normalizedClients_lookup (m : Manager) (clients : gmap string Client) (id : string) :
  normalizedClients m clients !! id = saveNormalize m id <$> clients !! id.
Proof.
  unfold normalizedClients. rewrite map_lookup_imap.
  destruct (clients !! id); reflexivity.
Qed.

Lemma normalizedClients_dom (m : Manager) (clients : gmap string Client) :
  dom (normalizedClients m clients) = dom clients.
Proof.
  apply set_eq. intros id. rewrite !elem_of_dom, normalizedClients_lookup.
  destruct (clients !! id); simpl; split; intros [x Hx]; eauto; discriminate.
Qed.

Lemma Clean_nonempty (path : string) : Clean path <> "".
Proof.
  unfold Clean. destruct (String.eqb path ""); [discriminate|].
  destruct (HasPrefix path "/"); [discriminate|].
  destruct (String.eqb_spec
              (joinWith "/" (List.rev (fold_left (cleanStep false) (Split path "/") []))) "");
    [discriminate|assumption].
Qed.

Lemma clientConfigPath_nonempty (m : Manager) (id : string) :
  clientConfigPath m id <> "".
Proof.
  unfold clientConfigPath. simpl.
  destruct (String.eqb (clientsDir m) ""); [|apply Clean_nonempty].
  destruct (String.eqb_spec (id +:+ ".json") "") as [E|_]; [|apply Clean_nonempty].
  destruct id; discriminate.
Qed.

Lemma isBlank_empty : isBlank "" = true.
Proof. reflexivity. Qed.

(** What [saveClientsLocked] stores under a key: the id is the key and
    the config path is not empty. *)
Lemma saveNormalize_spec (m : Manager) (id : string) (c : Client) :
  ID (saveNormalize m id c) = id /\
  ConfigPath (saveNormalize m id c) <> "" /\
  ConfigPath (saveNormalize m id c) =
    (if isBlank (ConfigPath c) then clientConfigPath m id else ConfigPath c) /\
  Name (saveNormalize m id c) = Name c /\
  UUID (saveNormalize m id c) = UUID c /\
  Address (saveNormalize m id c) = Address c /\
  CreatedAt (saveNormalize m id c) = CreatedAt c.
Proof.
  unfold saveNormalize. simpl.
  destruct (isBlank (ConfigPath c)) eqn:E; simpl; repeat split.
  - apply clientConfigPath_nonempty.
  - intros H. rewrite H in E. discriminate.
Qed.

Section Store.
Context `{JSON}.

Lemma saveClientsLocked_keeps (R : World -> World -> Prop) `{!PreOrder R}
      (m : Manager) (clients : gmap string Client) :
  (forall content, keeps R (writeSecretFile (statePath m) content)) ->
  keeps R (saveClientsLocked m clients).
Proof.
  intros Hw. unfold saveClientsLocked.
  apply keeps_bind; [exact _| |intros raw].
  - apply keeps_wrapErr, keeps_liftResult; exact _.
  - apply keeps_wrapErr, Hw.
Qed.

(** The outcome of [saveClientsLocked]. *)
Lemma saveClientsLocked_spec (m : Manager) (clients : gmap string Client) (w : World) :
  match saveClientsLocked m clients w with
  | (Ok _, w') =>
      exists raw,
        marshalPretty json_MarshalIndent_clients (normalizedClients m clients) = Ok raw /\
        files w' !! statePath m = Some (mkFile raw 384) /\
        files w' !! (statePath m +:+ ".tmp") = None
  | (Err _, w') => files w' !! statePath m = files w !! statePath m
  end.
Proof.
  destruct (saveClientsLocked m clients w) as [r w'] eqn:E.
  unfold saveClientsLocked in E.
  apply bind_inv in E as [(e & E1 & ->)|(raw & w1 & E1 & E)].
  - apply wrapErr_inv in E1 as [(e' & E1 & _)|(a & E1 & ?)]; [|discriminate].
    apply (keeps_run sameFiles) in E1; [|apply keeps_liftResult; exact _].
    rewrite E1. reflexivity.
  - apply wrapErr_Ok_inv in E1.
    assert (Hw1 : w1 = w /\
                  marshalPretty json_MarshalIndent_clients (normalizedClients m clients)
                  = Ok raw).
    { destruct (marshalPretty json_MarshalIndent_clients (normalizedClients m clients));
        simpl in E1; [|discriminate]. injection E1 as -> ->. auto. }
    destruct Hw1 as [-> Hraw].
    pose proof (writeSecretFile_spec (statePath m) raw w) as Hs.
    apply wrapErr_inv in E as [(e' & E & ->)|(a & E & ->)]; rewrite E in Hs.
    + exact Hs.
    + exists raw. tauto.
Qed.
End Store.

(** C6. [saveClientsLocked] encodes the whole map, one member per id,
    with [json.MarshalIndent], adds the final newline when the encoding
    has none, writes the bytes to [<state file>.tmp] and renames that file
    over the state file.  When it succeeds the state file holds exactly
    these bytes, with permission 0600 (384), and the temporary file is
    gone; when any step fails the state file is byte for byte what it was.
    No other file is touched in either case. *)
Theorem saveClientsLocked_atomic `{JSON} (m : Manager) (clients : gmap string Client)
        (w w' : World) (r : result unit) :
  saveClientsLocked m clients w = (r, w') ->
  (forall p, p <> statePath m -> p <> statePath m +:+ ".tmp" ->
             files w' !! p = files w !! p) /\
  match r with
  | Ok _ =>
      exists encoded raw,
        json_MarshalIndent_clients (normalizedClients m clients) = Ok encoded /\
        dom (normalizedClients m clients) = dom clients /\
        (raw = encoded \/ raw = encoded +:+ String newline "") /\
        string_last raw = Some newline /\
        files w' !! statePath m = Some (mkFile raw 384) /\
        files w' !! (statePath m +:+ ".tmp") = None
  | Err _ => files w' !! statePath m = files w !! statePath m
  end.
Proof.
  intros E. split.
  - intros p Hp Htmp.
    apply (keeps_run (filesOutside (secretPaths (statePath m)))) in E.
    + apply E. intros [?|?]; contradiction.
    + apply saveClientsLocked_keeps; [exact _|]. intros. apply writeSecretFile_outside.
  - pose proof (saveClientsLocked_spec m clients w) as Hs. rewrite E in Hs.
    destruct r as [[]|e]; [|exact Hs].
    destruct Hs as (raw & Hraw & Hfile & Htmp).
    destruct (marshalPretty_newline _ _ _ Hraw) as (Hnl & encoded & Henc & Hcases).
    exists encoded, raw. repeat split; auto using normalizedClients_dom.
Qed.

(** C10. What [saveClientsLocked] persists is the encoding of a map with
    the keys of the map it was given in which every record has its key
    as id and a config path that is not empty: the path the record had
    or, when that was blank, [filepath.Join(clientsDir, id + ".json")]. *)
Theorem saveClientsLocked_normalizes `{JSON} (m : Manager)
        (clients : gmap string Client) (w w' : World) :
  saveClientsLocked m clients w = (Ok tt, w') ->
  exists stored raw,
    marshalPretty json_MarshalIndent_clients stored = Ok raw /\
    files w' !! statePath m = Some (mkFile raw 384) /\
    dom stored = dom clients /\
    forall id c,
      stored !! id = Some c ->
      ID c = id /\
      ConfigPath c <> "" /\
      exists c0, clients !! id = Some c0 /\
                 ConfigPath c = (if isBlank (ConfigPath c0)
                                 then clientConfigPath m id else ConfigPath c0) /\
                 Name c = Name c0 /\ UUID c = UUID c0 /\
                 Address c = Address c0 /\ CreatedAt c = CreatedAt c0.
Proof.
  intros E.
  pose proof (saveClientsLocked_spec m clients w) as Hs. rewrite E in Hs.
  destruct Hs as (raw & Hraw & Hfile & _).
  exists (normalizedClients m clients), raw.
  split; [exact Hraw|]. split; [exact Hfile|].
  split; [apply normalizedClients_dom|].
  intros id c Hc. rewrite normalizedClients_lookup in Hc.
  destruct (clients !! id) as [c0|] eqn:E0; [|discriminate].
  injection Hc as <-.
  destruct (saveNormalize_spec m id c0) as (H1 & H2 & H3 & H4 & H5 & H6 & H7).
  split; [exact H1|]. split; [exact H2|]. exists c0. auto 10.
Qed.

(** C4. [loadClientsLocked], when the read of the state file is not hit
    by an I/O fault, returns the empty map and no error if there is
    nothing at the path of the state file (no file, no directory, and no
    regular file in the place of a directory above it), the empty map and
    no error if the file is empty or holds white space only, and the
    error of [json.Unmarshal], wrapped, and no map if the content does
    not parse.  Whatever the faults, it returns no map from a file whose
    content does not parse.  A directory at the path, or a regular file
    above it, is not a missing file: the read fails and the load returns
    its error, wrapped, and no map. *)
Theorem loadClientsLocked_file_cases `{JSON} (m : Manager) (w : World) :
  (hd NoFault (faults w) = NoFault ->
   files w !! statePath m = None ->
   dirs w !! statePath m = None ->
   underFile (files w) (statePath m) = false ->
   loadClientsLocked m w = (Ok ∅, snd (nextFault w))) /\
  (forall f,
      hd NoFault (faults w) = NoFault ->
      files w !! statePath m = Some f ->
      TrimSpace (content f) = "" ->
      loadClientsLocked m w = (Ok ∅, snd (nextFault w))) /\
  (forall f e,
      hd NoFault (faults w) = NoFault ->
      files w !! statePath m = Some f ->
      TrimSpace (content f) <> "" ->
      json_Unmarshal_clients (content f) = Err e ->
      loadClientsLocked m w
      = (Err (Wrapped "parse clients state" e), snd (nextFault w))) /\
  (forall f e,
      files w !! statePath m = Some f ->
      TrimSpace (content f) <> "" ->
      json_Unmarshal_clients (content f) = Err e ->
      exists e', fst (loadClientsLocked m w) = Err e') /\
  (hd NoFault (faults w) = NoFault ->
   files w !! statePath m = None ->
   (is_Some (dirs w !! statePath m) \/ underFile (files w) (statePath m) = true) ->
   exists en,
     (en = EISDIR \/ en = ENOTDIR) /\
     exists op,
       loadClientsLocked m w
       = (Err (Wrapped "read clients state" (PathError op (statePath m) en)),
          snd (nextFault w))).
Proof.
  assert (Hread : hd NoFault (faults w) = NoFault ->
                  os_ReadFile (statePath m) w =
                  (match files w !! statePath m with
                   | Some f => Ok (content f)
                   | None =>
                       match dirs w !! statePath m with
                       | Some _ => Err (PathError "read" (statePath m) EISDIR)
                       | None =>
                           if underFile (files w) (statePath m)
                           then Err (PathError "open" (statePath m) ENOTDIR)
                           else Err (PathError "open" (statePath m) ENOENT)
                       end
                   end, snd (nextFault w))).
  { intros Hf. unfold os_ReadFile, nextFault, bind, gets, ret, throw.
    destruct (faults w) as [|f0 fs]; simpl in *.
    - destruct (files w !! statePath m); [reflexivity|].
      destruct (dirs w !! statePath m); [reflexivity|].
      destruct (underFile (files w) (statePath m)); reflexivity.
    - subst f0. simpl. destruct (files w !! statePath m); [reflexivity|].
      destruct (dirs w !! statePath m); [reflexivity|].
      destruct (underFile (files w) (statePath m)); reflexivity. }
  split; [|split; [|split; [|split]]].
  - intros Hf Hnone Hnodir Hnofile. unfold loadClientsLocked.
    rewrite (Hread Hf), Hnone, Hnodir, Hnofile. reflexivity.
  - intros f Hf Hsome Hblank. unfold loadClientsLocked.
    rewrite (Hread Hf), Hsome, Hblank. reflexivity.
  - intros f e Hf Hsome Hnb Herr. unfold loadClientsLocked.
    rewrite (Hread Hf), Hsome, Herr.
    destruct (TrimSpace (content f)); [contradiction|reflexivity].
  - intros f e Hsome Hnb Herr. unfold loadClientsLocked.
    destruct (os_ReadFile (statePath m) w) as [[raw|e0] w1] eqn:Er.
    + assert (raw = content f) as ->.
      { revert Er. unfold os_ReadFile, nextFault, bind, gets, ret, throw.
        destruct (faults w) as [|[|? ?] fs]; simpl; rewrite ?Hsome;
          intros; simplify_eq/=; reflexivity. }
      rewrite Herr.
      destruct (TrimSpace (content f)); [contradiction|]. simpl. eauto.
    + assert (IsNotExist e0 = false) as ->; [|simpl; eauto].
      revert Er. unfold os_ReadFile, nextFault, bind, gets, ret, throw.
      destruct (faults w) as [|[|[] ?] fs]; simpl; rewrite ?Hsome;
        intros; simplify_eq/=; reflexivity.
  - intros Hf Hnone Hthere. unfold loadClientsLocked.
    rewrite (Hread Hf), Hnone.
    destruct (dirs w !! statePath m) as [mode|] eqn:Hd.
    + exists EISDIR. split; [left; reflexivity|]. exists "read". reflexivity.
    + destruct Hthere as [[? ?]|Hu]; [discriminate|]. rewrite Hu.
      exists ENOTDIR. split; [right; reflexivity|]. exists "open". reflexivity.
Qed.

(** ** Loading and healing *)

Lemma rand_Read_inv (n : nat) (w w' : World) (r : result (list Z)) :
  rand_Read n w = (r, w') ->
  (exists b, r = Ok b /\ length b = n /\ b = take n (entropy w) /\
             w' = setEntropy (drop n (entropy w)) w) \/
  ((length (entropy w) < n)%nat /\ r = Err RandError /\ w' = w).
Proof.
  unfold rand_Read, bind, gets, modify, ret, throw.
  destruct (length (entropy w) <? n)%nat eqn:E; simpl; intros [= <- <-].
  - right. apply Nat.ltb_lt in E. auto.
  - left. apply Nat.ltb_ge in E. eexists. split; [reflexivity|].
    split; [|auto]. rewrite length_take. lia.
Qed.

Lemma generateUUID_inv (w w' : World) (r : result string) :
  generateUUID w = (r, w') ->
  (exists b, r = Ok (formatUUID b) /\ length b = 16%nat /\
             w' = setEntropy (drop 16 (entropy w)) w) \/
  ((length (entropy w) < 16)%nat /\ r = Err RandError /\ w' = w).
Proof.
  unfold generateUUID. intros E.
  apply bind_inv in E as [(e & E & ->)|(b & w1 & E & E')].
  - apply rand_Read_inv in E as [(b & ? & _)|(Hl & [= ->] & ->)]; [discriminate|].
    right. auto.
  - apply rand_Read_inv in E as [(b' & [= <-] & Hl & _ & ->)|(_ & ? & _)];
      [|discriminate].
    injection E' as <- <-. left. eauto.
Qed.

Lemma generateUUID_clock : keeps sameClock generateUUID.
Proof.
  unfold generateUUID. apply keeps_bind; [exact _|apply rand_Read_clock|].
  intros b. apply keeps_ret. exact _.
Qed.

(** [healClient] is [healPure], with the UUID drawn when one is needed. *)
Lemma healClient_run (m : Manager) (id : string) (c : Client) (w : World) :
  healClient m id c w =
  if isBlank (UUID c) then
    match generateUUID w with
    | (Ok u, w') => (Ok (healPure m id u (clock w') c, true), w')
    | (Err e, w') => (Err e, w')
    end
  else (Ok (healPure m id (UUID c) (clock w) c, needsHealing c), w).
Proof.
  unfold healClient, healPure, needsHealing.
  generalize generateUUID. intros gen.
  generalize (clientConfigPath m). intros ccp.
  generalize isBlank. intros bl.
  generalize IsZero. intros iz.
  destruct c as [cid cname cuuid caddr cpath ctime].
  simpl.
  destruct (bl cid) eqn:E1; simpl;
    destruct (bl cname) eqn:E2; simpl;
    destruct (bl cuuid) eqn:E3; simpl;
    unfold bind, ret, time_Now, gets; simpl;
    try (destruct (gen w) as [[u|e] w']; [|reflexivity]);
    simpl;
    destruct (bl caddr) eqn:E4; simpl;
    destruct (bl cpath) eqn:E5; simpl;
    destruct (iz ctime) eqn:E6; simpl;
    unfold bind, ret, time_Now, gets; simpl;
    rewrite ?E1, ?E2, ?E3, ?E4, ?E5, ?E6; simpl;
    reflexivity.
Qed.

Lemma healPure_healedFrom (m : Manager) (id u : string) (now : Time) (c : Client) :
  (isBlank (UUID c) = true -> exists b, length b = 16%nat /\ u = formatUUID b) ->
  healedFrom m id now c (healPure m id u now c).
Proof.
  unfold healedFrom, healPure.
  generalize (clientConfigPath m). intros ccp.
  generalize isBlank. intros bl.
  generalize IsZero. intros iz.
  destruct c as [cid cname cuuid caddr cpath ctime].
  simpl. intros Hu.
  destruct (bl cid) eqn:E1; simpl;
    destruct (bl cname) eqn:E2; simpl;
    destruct (bl cuuid) eqn:E3; simpl;
    destruct (bl caddr) eqn:E4; simpl;
    destruct (bl cpath) eqn:E5; simpl;
    destruct (iz ctime) eqn:E6; simpl;
    rewrite ?E1, ?E2, ?E3, ?E4, ?E5, ?E6;
    repeat split; try reflexivity; try (apply Hu; reflexivity).
Qed.

Lemma healPure_id (m : Manager) (id u : string) (now : Time) (c : Client) :
  needsHealing c = false -> healPure m id u now c = c.
Proof.
  unfold needsHealing, healPure. intros H.
  repeat (apply orb_false_iff in H as [H ?]).
  repeat match goal with E : _ = false |- _ => rewrite E; clear E end.
  reflexivity.
Qed.

Lemma populated_spec (id : string) (c : Client) :
  populated id c = true <-> ID c = id /\ needsHealing c = false.
Proof.
  unfold populated, needsHealing.
  destruct (String.eqb_spec (ID c) id) as [E|E];
    destruct (isBlank (ID c)), (isBlank (Name c)), (isBlank (UUID c)),
             (isBlank (Address c)), (isBlank (ConfigPath c)), (IsZero (CreatedAt c));
    simpl; split; try discriminate; try (intros [? ?]; congruence); auto.
Qed.

Section Heal.
Context (R : World -> World -> Prop) `{!PreOrder R}.

Lemma healClient_keeps (m : Manager) (id : string) (c : Client) :
  keeps R generateUUID -> keeps R (healClient m id c).
Proof.
  intros Hg w. rewrite healClient_run.
  destruct (isBlank (UUID c)); [|reflexivity].
  specialize (Hg w). destruct (generateUUID w) as [[u|e] w']; exact Hg.
Qed.

Lemma healAll_keeps (m : Manager) (entries : list (string * Client))
      (acc : gmap string Client) (changed : bool) :
  keeps R generateUUID -> keeps R (healAll m entries acc changed).
Proof.
  intros Hg. revert acc changed.
  induction entries as [|[id c] rest IH]; intros acc changed; simpl.
  - apply keeps_ret. exact _.
  - apply keeps_bind; [exact _|apply healClient_keeps, Hg|]. intros r. apply IH.
Qed.
End Heal.

Lemma generateUUID_files : keeps sameFiles generateUUID.
Proof.
  unfold generateUUID. apply keeps_bind; [exact _|apply rand_Read_files|].
  intros b. apply keeps_ret. exact _.
Qed.

Lemma generateUUID_procs : keeps sameProcs generateUUID.
Proof.
  unfold generateUUID. apply keeps_bind; [exact _|apply rand_Read_procs|].
  intros b. apply keeps_ret. exact _.
Qed.

(** The loop over the entries heals each record under its key and leaves
    the other keys alone. *)
Lemma healAll_spec (m : Manager) (entries : list (string * Client)) :
  forall (acc : gmap string Client) (changed : bool) (w w' : World)
         (res : gmap string Client) (changed' : bool),
    NoDup entries.*1 ->
    healAll m entries acc changed w = (Ok (res, changed'), w') ->
    (forall id, id ∉ entries.*1 -> res !! id = acc !! id) /\
    (forall id c, (id, c) ∈ entries ->
                  exists c', res !! id = Some c' /\ healedFrom m id (clock w) c c').
Proof.
  induction entries as [|[id c] rest IH]; intros acc changed w w' res changed' Hnd E.
  - simpl in E. injection E as <- <- <-. split; [reflexivity|].
    intros id c Hin. inversion Hin.
  - simpl in E. apply bind_Ok_inv in E as ([c1 ch1] & w1 & E1 & E).
    rewrite fmap_cons in Hnd. apply NoDup_cons in Hnd as [Hnotin Hnd].
    assert (Hck : clock w1 = clock w).
    { apply (keeps_run sameClock) in E1; [exact E1|].
      apply healClient_keeps; [exact _|apply generateUUID_clock]. }
    destruct (IH _ _ _ _ _ _ Hnd E) as [Hother Hhealed]. simpl in *.
    assert (Hc1 : healedFrom m id (clock w) c c1).
    { rewrite healClient_run in E1.
      destruct (isBlank (UUID c)) eqn:Eb.
      - destruct (generateUUID w) as [[u|e] w2] eqn:Eg; [|discriminate].
        injection E1 as <- <- <-.
        pose proof (keeps_run sameClock _ _ _ _ generateUUID_clock Eg) as Hc.
        unfold sameClock in Hc. rewrite Hc.
        apply healPure_healedFrom. intros _.
        apply generateUUID_inv in Eg as [(b & [= ->] & Hb & _)|(_ & ? & _)];
          [eauto|discriminate].
      - injection E1 as <- <- <-. apply healPure_healedFrom.
        intros Hb. congruence. }
    split.
    + intros id' Hid'.
      apply not_elem_of_cons in Hid' as [Hne Hid'].
      rewrite (Hother id' Hid'). apply lookup_insert_ne. congruence.
    + intros id' c' Hin. apply elem_of_cons in Hin as [[= -> ->]|Hin].
      * exists c1. split; [|exact Hc1].
        rewrite (Hother id Hnotin). apply lookup_insert_eq.
      * rewrite <- Hck. apply Hhealed, Hin.
Qed.

Lemma os_ReadFile_inv (p : string) (w w' : World) (r : result string) :
  os_ReadFile p w = (r, w') ->
  w' = snd (nextFault w) /\
  match r with
  | Ok raw => exists f, files w !! p = Some f /\ raw = content f
  | Err e => if IsNotExist e then files w !! p = None else True
  end.
Proof.
  unfold os_ReadFile, nextFault, bind, gets, ret, throw.
  destruct (faults w) as [|[|[] n] fs]; simpl;
    destruct (files w !! p) eqn:E; simpl;
    destruct (dirs w !! p); simpl; destruct (underFile (files w) p); simpl;
    intros [= <- <-]; simpl; eauto.
Qed.

Lemma nextFault_same (w : World) :
  sameFiles w (snd (nextFault w)) /\ sameClock w (snd (nextFault w)) /\
  sameEntropy w (snd (nextFault w)) /\ sameProcs w (snd (nextFault w)).
Proof.
  unfold nextFault. destruct (faults w); simpl; repeat split.
Qed.

Lemma nextFault_none (w : World) : faults w = [] -> snd (nextFault w) = w.
Proof. unfold nextFault. intros ->. reflexivity. Qed.

Section Load.
Context `{JSON}.

(** What a successful load returns: nothing when the state file is
    missing or blank, and otherwise the decoded map with every record
    healed. *)
Lemma loadClientsLocked_Ok (m : Manager) (w w' : World) (clients : gmap string Client) :
  loadClientsLocked m w = (Ok clients, w') ->
  (clients = ∅ /\
   (files w !! statePath m = None \/
    exists f, files w !! statePath m = Some f /\ TrimSpace (content f) = "")) \/
  (exists f store,
      files w !! statePath m = Some f /\
      TrimSpace (content f) <> "" /\
      json_Unmarshal_clients (content f) = Ok store /\
      dom clients = dom store /\
      forall id c, store !! id = Some c ->
                   exists c', clients !! id = Some c' /\
                              healedFrom m id (clock w) c c').
Proof.
  unfold loadClientsLocked. intros E.
  destruct (os_ReadFile (statePath m) w) as [[raw|e] w1] eqn:Er.
  - apply os_ReadFile_inv in Er as [-> (f & Hf & ->)].
    destruct (String.length (TrimSpace (content f)) =? 0)%nat eqn:El.
    + injection E as <- <-. left. split; [reflexivity|]. right.
      exists f. split; [exact Hf|].
      apply Nat.eqb_eq in El. destruct (TrimSpace (content f)); [reflexivity|discriminate].
    + right. exists f.
      destruct (json_Unmarshal_clients (content f)) as [store|e] eqn:Ed; [|discriminate].
      exists store. split; [exact Hf|]. split.
      { intros Hb. rewrite Hb in El. discriminate. }
      split; [reflexivity|].
      apply bind_Ok_inv in E as ([res changed] & w2 & Eh & E).
      apply bind_Ok_inv in E as ([] & w3 & _ & E). injection E as <- <-.
      destruct (healAll_spec m _ _ _ _ _ _ _ (NoDup_fst_map_to_list store) Eh)
        as [Hother Hhealed].
      destruct (nextFault_same w) as (_ & Hck & _). unfold sameClock in Hck.
      rewrite Hck in Hhealed.
      assert (Hlook : forall id c, store !! id = Some c ->
                 exists c', res !! id = Some c' /\ healedFrom m id (clock w) c c').
      { intros id c Hc. apply Hhealed, elem_of_map_to_list, Hc. }
      split; [|exact Hlook].
      apply set_eq. intros id. rewrite !elem_of_dom.
      destruct (store !! id) as [c|] eqn:Es.
      * destruct (Hlook id c Es) as (c' & Hc' & _). rewrite Hc'. split; eauto.
      * rewrite (Hother id), Es; [reflexivity|].
        intros Hin. apply list_elem_of_fmap in Hin as ([id' c] & -> & Hin).
        apply elem_of_map_to_list in Hin. simpl in Es. congruence.
  - destruct (IsNotExist e) eqn:Ee; [|discriminate].
    injection E as <- <-. left. split; [reflexivity|]. left.
    apply os_ReadFile_inv in Er as [_ Hr]. rewrite Ee in Hr. exact Hr.
Qed.

Lemma healAll_populated (m : Manager) (entries : list (string * Client))
      (acc : gmap string Client) (changed : bool) (w : World) :
  (forall id c, (id, c) ∈ entries -> needsHealing c = false /\ acc !! id = Some c) ->
  healAll m entries acc changed w = (Ok (acc, changed), w).
Proof.
  revert changed. induction entries as [|[id c] rest IH]; intros changed Hall;
    [reflexivity|].
  destruct (Hall id c) as [Hn Hacc]; [left|].
  simpl. unfold bind at 1. rewrite healClient_run.
  assert (Hu : isBlank (UUID c) = false).
  { unfold needsHealing in Hn.
    destruct (isBlank (ID c)), (isBlank (Name c)), (isBlank (UUID c));
      simpl in Hn; congruence. }
  rewrite Hu, healPure_id, Hn by exact Hn. simpl.
  rewrite insert_id by exact Hacc. rewrite orb_false_r.
  apply IH. intros id' c' Hin. apply Hall. right. exact Hin.
Qed.

Lemma normalizedClients_populated (m : Manager) (clients : gmap string Client) :
  (forall id c, clients !! id = Some c -> populated id c = true) ->
  normalizedClients m clients = clients.
Proof.
  intros Hall. apply map_eq. intros id. rewrite normalizedClients_lookup.
  destruct (clients !! id) as [c|] eqn:E; [|reflexivity]. simpl. f_equal.
  apply Hall, populated_spec in E as [Hid Hn].
  unfold saveNormalize.
  assert (Hp : isBlank (ConfigPath c) = false).
  { unfold needsHealing in Hn.
    destruct (isBlank (ID c)), (isBlank (Name c)), (isBlank (UUID c)),
             (isBlank (Address c)), (isBlank (ConfigPath c));
      simpl in Hn; congruence. }
  destruct c; simpl in *. rewrite Hp. subst. reflexivity.
Qed.

(** C5 (as amended). After [saveClientsLocked] has stored a map, and
    provided the JSON library gives back from the bytes saved the map
    that was encoded, as [encoding/json] does when the strings of the map
    are valid UTF-8 and does not when they are not, a load that succeeds
    returns the map with the same keys in which each record is the
    stored one normalized: the id is the key, a blank name is the id, a
    blank UUID is a fresh one, a blank address is the UUID, a blank
    config path is [filepath.Join(clientsDir, id + ".json")], a zero
    creation time is the current time; a record that had all its fields
    (and its key as id) is returned unchanged.  When every record is
    such and no I/O fault is to come, the load does succeed and returns
    the map that was saved. *)
Theorem save_load_roundtrip (m : Manager) (clients : gmap string Client)
        (w w1 : World) :
  saveClientsLocked m clients w = (Ok tt, w1) ->
  (forall raw,
      marshalPretty json_MarshalIndent_clients (normalizedClients m clients) = Ok raw ->
      TrimSpace raw <> "" /\
      json_Unmarshal_clients raw = Ok (normalizedClients m clients)) ->
  (forall loaded w2,
      loadClientsLocked m w1 = (Ok loaded, w2) ->
      dom loaded = dom clients /\
      forall id c,
        clients !! id = Some c ->
        exists c',
          loaded !! id = Some c' /\
          ID c' = id /\
          Name c' = (if isBlank (Name c) then id else Name c) /\
          (if isBlank (UUID c)
           then exists b, length b = 16%nat /\ UUID c' = formatUUID b
           else UUID c' = UUID c) /\
          Address c' = (if isBlank (Address c) then UUID c' else Address c) /\
          ConfigPath c' = (if isBlank (ConfigPath c)
                           then clientConfigPath m id else ConfigPath c) /\
          CreatedAt c' = (if IsZero (CreatedAt c) then clock w1 else CreatedAt c) /\
          (populated id c = true -> c' = c)) /\
  (faults w1 = [] ->
   (forall id c, clients !! id = Some c -> populated id c = true) ->
   loadClientsLocked m w1 = (Ok clients, w1)).
Proof.
  intros Esave Hcodec.
  pose proof (saveClientsLocked_spec m clients w) as Hs. rewrite Esave in Hs.
  destruct Hs as (raw & Hraw & Hfile & _).
  destruct (Hcodec raw Hraw) as [Hnb Hdec].
  split.
  - intros loaded w2 Eload.
    apply loadClientsLocked_Ok in Eload
      as [(_ & [Hnone|(f & Hf & Hblank)])|(f & store & Hf & _ & Hd & Hdom & Hrec)].
    + congruence.
    + rewrite Hfile in Hf. injection Hf as <-. simpl in Hblank. contradiction.
    + rewrite Hfile in Hf. injection Hf as <-. simpl in Hd.
      rewrite Hdec in Hd. injection Hd as <-.
      split; [rewrite Hdom; apply normalizedClients_dom|].
      intros id c Hc.
      destruct (Hrec id (saveNormalize m id c)) as (c' & Hc' & Hh).
      { rewrite normalizedClients_lookup, Hc. reflexivity. }
      exists c'. split; [exact Hc'|].
      destruct (saveNormalize_spec m id c) as (S1 & S2 & S3 & S4 & S5 & S6 & S7).
      destruct Hh as (H1 & H2 & H3 & H4 & H5 & H6).
      rewrite S1 in H1. rewrite S4 in H2. rewrite S5 in H3. rewrite S6 in H4.
      rewrite S7 in H6.
      assert (Hid : ID c' = id) by (rewrite H1; destruct (isBlank id); reflexivity).
      assert (Hpath : ConfigPath c' = (if isBlank (ConfigPath c)
                                       then clientConfigPath m id else ConfigPath c)).
      { rewrite H5, Hid.
        destruct (isBlank (ConfigPath (saveNormalize m id c))) eqn:Ecn; [|exact S3].
        destruct (isBlank (ConfigPath c)) eqn:Eb; [reflexivity|].
        rewrite S3 in Ecn. congruence. }
      repeat split; try assumption.
      intros Hpop. apply populated_spec in Hpop as [Hpid Hn].
      unfold needsHealing in Hn.
      repeat (apply orb_false_iff in Hn as [Hn ?]).
      repeat match goal with E : _ = false |- _ => rewrite E in *; clear E end.
      destruct c, c'; simpl in *. congruence.
  - intros Hfaults Hpop.
    rewrite (normalizedClients_populated m clients Hpop) in *.
    unfold loadClientsLocked.
    assert (Er : os_ReadFile (statePath m) w1 = (Ok raw, w1)).
    { unfold os_ReadFile, nextFault, bind, gets, ret, throw.
      rewrite Hfaults. simpl. rewrite Hfile. reflexivity. }
    rewrite Er, Hdec.
    destruct (String.length (TrimSpace raw) =? 0)%nat eqn:El.
    { apply Nat.eqb_eq in El. destruct (TrimSpace raw); [contradiction|discriminate]. }
    unfold bind at 1. rewrite healAll_populated; [reflexivity|].
    intros id c Hin. apply elem_of_map_to_list in Hin.
    split; [|exact Hin]. apply (Hpop id c), populated_spec in Hin. tauto.
Qed.
End Load.

(** ** Reading one client's configuration *)

Section GetConfig.
Context `{JSON}.

Lemma loadClientsLocked_keeps (R : World -> World -> Prop) `{!PreOrder R}
      (m : Manager) :
  keeps R (os_ReadFile (statePath m)) ->
  keeps R generateUUID ->
  (forall content, keeps R (writeSecretFile (statePath m) content)) ->
  keeps R (loadClientsLocked m).
Proof.
  intros Hr Hg Hw w. unfold loadClientsLocked.
  specialize (Hr w). destruct (os_ReadFile (statePath m) w) as [[raw|e] w1]; simpl in Hr.
  - destruct (String.length (TrimSpace raw) =? 0)%nat; [exact Hr|].
    destruct (json_Unmarshal_clients raw) as [store|e]; [|exact Hr].
    etransitivity; [exact Hr|].
    apply keeps_bind; [exact _|apply healAll_keeps; [exact _|exact Hg]|].
    intros [res changed].
    apply keeps_bind; [exact _| |intros; apply keeps_ret; exact _].
    destruct changed; [|apply keeps_ret; exact _].
    apply saveClientsLocked_keeps; [exact _|exact Hw].
  - destruct (IsNotExist e); exact Hr.
Qed.

Lemma loadClientsLocked_procs (m : Manager) : keeps sameProcs (loadClientsLocked m).
Proof.
  apply loadClientsLocked_keeps;
    [exact _|apply os_ReadFile_procs|apply generateUUID_procs|].
  intros. apply writeSecretFile_procs.
Qed.

Lemma loadClientsLocked_outside (m : Manager) :
  keeps (filesOutside (secretPaths (statePath m))) (loadClientsLocked m).
Proof.
  apply loadClientsLocked_keeps; [exact _| | |].
  - apply sameFiles_outside, os_ReadFile_files.
  - apply sameFiles_outside, generateUUID_files.
  - intros. apply writeSecretFile_outside.
Qed.

Lemma healAll_error (m : Manager) (entries : list (string * Client))
      (acc : gmap string Client) (changed : bool) (w w' : World) (e : error) :
  healAll m entries acc changed w = (Err e, w') -> e = RandError.
Proof.
  revert acc changed w. induction entries as [|[id c] rest IH]; intros acc changed w E.
  - discriminate.
  - simpl in E. apply bind_inv in E as [(e' & E & [= ->])|(r & w1 & _ & E)].
    + rewrite healClient_run in E.
      destruct (isBlank (UUID c)); [|discriminate].
      destruct (generateUUID w) as [[u|e''] w2] eqn:Eg; [discriminate|].
      injection E as <- <-.
      apply generateUUID_inv in Eg as [(b & ? & _)|(_ & [= ->] & _)];
        [discriminate|reflexivity].
    + apply (IH _ _ _ E).
Qed.

Lemma saveClientsLocked_error (m : Manager) (clients : gmap string Client)
      (w w' : World) (e : error) :
  saveClientsLocked m clients w = (Err e, w') -> exists msg e', e = Wrapped msg e'.
Proof.
  unfold saveClientsLocked. intros E.
  apply bind_inv in E as [(e' & E & [= ->])|(raw & w1 & _ & E)].
  - apply wrapErr_inv in E as [(e'' & _ & [= ->])|(a & _ & ?)]; [eauto|discriminate].
  - apply wrapErr_inv in E as [(e'' & _ & [= ->])|(a & _ & ?)]; [eauto|discriminate].
Qed.

(** A load never fails with the sentinel [os.ErrNotExist]. *)
Lemma loadClientsLocked_error (m : Manager) (w w' : World) (e : error) :
  loadClientsLocked m w = (Err e, w') -> e <> ErrNotExist.
Proof.
  unfold loadClientsLocked. intros E.
  destruct (os_ReadFile (statePath m) w) as [[raw|e0] w1].
  - destruct (String.length (TrimSpace raw) =? 0)%nat; [discriminate|].
    destruct (json_Unmarshal_clients raw) as [store|e1].
    + apply bind_inv in E as [(e' & E & [= ->])|([res changed] & w2 & _ & E)].
      * apply healAll_error in E as ->. discriminate.
      * apply bind_inv in E as [(e' & E & [= ->])|([] & w3 & _ & E)]; [|discriminate].
        destruct changed; [|discriminate].
        apply saveClientsLocked_error in E as (msg & e'' & ->). discriminate.
    + injection E as <- <-. discriminate.
  - destruct (IsNotExist e0); [discriminate|]. injection E as <- <-. discriminate.
Qed.

Lemma writeClientConfigLocked_keeps (R : World -> World -> Prop) `{!PreOrder R}
      (m : Manager) (c : Client) :
  (forall content, keeps R (writeSecretFile (ConfigPath c) content)) ->
  keeps R (writeClientConfigLocked m c).
Proof.
  intros Hw. unfold writeClientConfigLocked.
  apply keeps_bind; [exact _| |intros raw].
  - apply keeps_wrapErr, keeps_liftResult; exact _.
  - apply keeps_wrapErr, Hw.
Qed.

(** The outcome of [writeClientConfigLocked]. *)
Lemma writeClientConfigLocked_spec (m : Manager) (c : Client) (w : World) :
  match writeClientConfigLocked m c w with
  | (Ok _, w') =>
      exists raw,
        marshalPretty json_MarshalIndent_doc (buildClientConfigMap (cfg m) c) = Ok raw /\
        files w' !! ConfigPath c = Some (mkFile raw 384) /\
        files w' !! (ConfigPath c +:+ ".tmp") = None
  | (Err e, w') =>
      files w' !! ConfigPath c = files w !! ConfigPath c /\
      exists msg e', e = Wrapped msg e'
  end.
Proof.
  destruct (writeClientConfigLocked m c w) as [r w'] eqn:E.
  unfold writeClientConfigLocked in E.
  apply bind_inv in E as [(e & E1 & ->)|(raw & w1 & E1 & E)].
  - apply wrapErr_inv in E1 as [(e' & E1 & [= ->])|(a & E1 & ?)]; [|discriminate].
    apply (keeps_run sameFiles) in E1; [|apply keeps_liftResult; exact _].
    rewrite E1. eauto.
  - apply wrapErr_Ok_inv in E1.
    assert (Hw1 : w1 = w /\
                  marshalPretty json_MarshalIndent_doc (buildClientConfigMap (cfg m) c)
                  = Ok raw).
    { destruct (marshalPretty json_MarshalIndent_doc (buildClientConfigMap (cfg m) c));
        simpl in E1; [|discriminate]. injection E1 as -> ->. auto. }
    destruct Hw1 as [-> Hraw].
    pose proof (writeSecretFile_spec (ConfigPath c) raw w) as Hs.
    apply wrapErr_inv in E as [(e' & E & ->)|([] & E & ->)]; rewrite E in Hs.
    + eauto.
    + exists raw. tauto.
Qed.

End GetConfig.

(** ** Valid UTF-8 *)

Lemma below_forallb (n : Z) (P : Z -> bool) (r : Z) :
  forallb P (seqZ 0 n) = true -> 0 <= r < n -> P r = true.
Proof.
  intros Hall Hr. apply (proj1 (forallb_forall P (seqZ 0 n)) Hall).
  apply list_elem_of_In, elem_of_seqZ. lia.
Qed.

Lemma hexDigit_hex (v : Z) : 0 <= v < 16 -> is_hex_lower (hexDigit v) = true.
Proof. apply (below_forallb 16 (fun v => is_hex_lower (hexDigit v))). reflexivity. Qed.

Lemma high_nibble (x : Z) : 0 <= Z.shiftr (x mod 256) 4 < 16.
Proof.
  rewrite Z.shiftr_div_pow2 by lia. change (2 ^ 4) with 16.
  pose proof (Z.mod_pos_bound x 256 eq_refl) as Hm.
  split; [apply Z.div_pos; lia|apply Z.div_lt_upper_bound; lia].
Qed.

Lemma low_bits (x : Z) (n : Z) : 0 <= n -> 0 <= Z.land x (Z.ones n) < 2 ^ n.
Proof.
  intros Hn. rewrite Z.land_ones by exact Hn. apply Z.mod_pos_bound.
  apply Z.pow_pos_nonneg; lia.
Qed.

Lemma low_nibble (x : Z) : 0 <= Z.land x 15 < 16.
Proof. exact (low_bits x 4 ltac:(lia)). Qed.

Lemma substring_drop (n : nat) (s : string) : substring 0 n s +:+ string_drop n s = s.
Proof.
  revert s. induction n as [|n IH]; intros s; destruct s as [|a r]; simpl;
    try reflexivity.
  rewrite IH. reflexivity.
Qed.

(** A string of ASCII bytes is valid UTF-8. *)
Lemma ascii_valid (s : string) : string_forallb is_ascii s = true -> ValidString s = true.
Proof.
  unfold ValidString. induction s as [|a r IH]; simpl; [reflexivity|].
  intros H. apply andb_true_iff in H as [Ha Hr]. rewrite Ha. simpl. apply IH, Hr.
Qed.

(** Coercing to valid UTF-8 leaves a valid string as it is. *)
Lemma coerceFrom_valid (fuel : nat) (s : string) :
  validFrom fuel s = true -> coerceFrom fuel s = s.
Proof.
  revert s. induction fuel as [|fuel IH]; intros s; destruct s as [|a r];
    try reflexivity; try discriminate.
  cbn [validFrom coerceFrom].
  destruct (runeLen (String a r)) as [|n] eqn:E; [discriminate|].
  intros Hv. rewrite (IH _ Hv). apply substring_drop.
Qed.

Lemma coerceUTF8_valid (s : string) : ValidString s = true -> coerceUTF8 s = s.
Proof. apply coerceFrom_valid. Qed.

Lemma hex_lower_ascii (c : ascii) : is_hex_lower c = true -> is_ascii c = true.
Proof. each_byte c. Qed.

Lemma hexEncode_ascii (bs : list Z) : string_forallb is_ascii (hexEncode bs) = true.
Proof.
  induction bs as [|x r IH]; simpl; [reflexivity|].
  rewrite (hex_lower_ascii _ (hexDigit_hex _ (high_nibble x))).
  rewrite (hex_lower_ascii _ (hexDigit_hex _ (low_nibble x))). exact IH.
Qed.

(** The text of a generated UUID is valid UTF-8. *)
Lemma formatUUID_valid (b : list Z) : ValidString (formatUUID b) = true.
Proof.
  apply ascii_valid. unfold formatUUID.
  rewrite !string_forallb_app, !hexEncode_ascii. reflexivity.
Qed.

Lemma coerceClient_valid (c : Client) : clientValid c -> coerceClient c = c.
Proof.
  intros (H1 & H2 & H3 & H4 & H5). destruct c as [i n u a p t]. unfold coerceClient.
  simpl in *. rewrite !coerceUTF8_valid by assumption. reflexivity.
Qed.

(** ** Initialization *)

Lemma os_MkdirAll_log p mo : keeps sameLog (os_MkdirAll p mo).
Proof. run_primitive; reflexivity. Qed.
Lemma os_Chmod_log p mo : keeps sameLog (os_Chmod p mo).
Proof. run_primitive; reflexivity. Qed.
Lemma os_WriteFile_log p d mo : keeps sameLog (os_WriteFile p d mo).
Proof. run_primitive; reflexivity. Qed.
Lemma os_Rename_log p q : keeps sameLog (os_Rename p q).
Proof. run_primitive; reflexivity. Qed.
Lemma os_ReadFile_log p : keeps sameLog (os_ReadFile p).
Proof. run_primitive; reflexivity. Qed.
Lemma rand_Read_log n : keeps sameLog (rand_Read n).
Proof. run_primitive; reflexivity. Qed.

Lemma writeSecretFile_log path content : keeps sameLog (writeSecretFile path content).
Proof.
  apply writeSecretFile_keeps;
    auto using os_MkdirAll_log, os_WriteFile_log, os_Chmod_log, os_Rename_log
    with typeclass_instances.
Qed.

Lemma generateUUID_log : keeps sameLog generateUUID.
Proof.
  unfold generateUUID. apply keeps_bind; [exact _|apply rand_Read_log|].
  intros b. apply keeps_ret. exact _.
Qed.

#[local] Instance calm_preorder S : PreOrder (calm S).
Proof.
  split.
  - intros w. repeat split; reflexivity.
  - intros w1 w2 w3 (A1 & B1 & C1) (A2 & B2 & C2).
    repeat split; etransitivity; eassumption.
Qed.

Lemma keeps_calm {A} (S : string -> Prop) (m : M A) :
  keeps (filesOutside S) m -> keeps sameEntropy m -> keeps sameLog m -> keeps (calm S) m.
Proof. intros H1 H2 H3 w. repeat split; [apply H1|apply H2|apply H3]. Qed.

Lemma calm_weaken (S S' : string -> Prop) (w w' : World) :
  (forall p, S p -> S' p) -> calm S w w' -> calm S' w w'.
Proof.
  intros Hsub (H1 & H2 & H3). split; [|auto].
  eapply filesOutside_weaken; eassumption.
Qed.

Lemma keeps_calm_weaken {A} (S S' : string -> Prop) (m : M A) :
  (forall p, S p -> S' p) -> keeps (calm S) m -> keeps (calm S') m.
Proof. intros Hsub H w. eapply calm_weaken; [exact Hsub|apply H]. Qed.

Lemma writeSecretFile_calm path content :
  keeps (calm (secretPaths path)) (writeSecretFile path content).
Proof.
  apply keeps_calm;
    [apply writeSecretFile_outside|apply writeSecretFile_entropy|apply writeSecretFile_log].
Qed.

Lemma formatUUID_not_blank (b : list Z) : isBlank (formatUUID b) = false.
Proof.
  apply (solid_not_blank "-"); [reflexivity|].
  unfold formatUUID. rewrite string_existsb_app. simpl. apply orb_true_r.
Qed.

Lemma in_insertByID (x c : Client) (l : list Client) :
  In x (insertByID c l) -> x = c \/ In x l.
Proof.
  induction l as [|y l IH]; simpl.
  - intros [->|[]]. left. reflexivity.
  - destruct (String.ltb (ID y) (ID c) || String.eqb (ID y) (ID c)); simpl.
    + intros [->|Hin]; [right; left; reflexivity|].
      destruct (IH Hin) as [->|Hl]; [left; reflexivity|right; right; exact Hl].
    + intros [->|[->|Hin]]; [left|right; left|right; right]; auto.
Qed.

Lemma in_sortByID (x : Client) (l : list Client) : In x (sortByID l) -> In x l.
Proof.
  induction l as [|y l IH]; simpl; [tauto|].
  intros Hin. apply in_insertByID in Hin as [->|Hin]; [left; reflexivity|].
  right. apply IH, Hin.
Qed.

Section Paths.
Context (m : Manager).

Lemma safePath_outside (p q : string) :
  safePath m p -> protected m q -> ~ secretPaths p q.
Proof. intros [H1 H2] Hq [->| ->]; contradiction. Qed.

(** The three steps through which a record goes keep its UUID, if it
    has one, and move its document to safe paths only. *)
Lemma recordPathsSafe_heal (id u : string) (now : Time) (c : Client) :
  recordPathsSafe m id c -> recordPathsSafe m id (healPure m id u now c).
Proof.
  unfold recordPathsSafe, healPure.
  generalize (clientConfigPath m). intros ccp.
  generalize isBlank. intros bl.
  generalize IsZero. intros iz.
  destruct c as [cid cname cuuid caddr cpath ctime]. simpl.
  intros (H1 & H2 & H3).
  destruct (bl cid); simpl; destruct (bl cname); simpl; destruct (bl cuuid); simpl;
    destruct (bl caddr); simpl; destruct (bl cpath); simpl; destruct (iz ctime); simpl;
    auto.
Qed.

Lemma recordPathsSafe_fill (id : string) (c : Client) :
  recordPathsSafe m id c -> recordPathsSafe m id (fst (fillPaths m id c)).
Proof.
  unfold recordPathsSafe, fillPaths.
  generalize (clientConfigPath m). intros ccp.
  generalize isBlank. intros bl.
  destruct c as [cid cname cuuid caddr cpath ctime]. simpl.
  intros (H1 & H2 & H3).
  destruct (bl cpath); simpl; destruct (bl caddr); simpl; auto.
Qed.

Lemma recordPathsSafe_save (id : string) (c : Client) :
  recordPathsSafe m id c -> recordPathsSafe m id (saveNormalize m id c).
Proof.
  unfold recordPathsSafe, saveNormalize.
  generalize (clientConfigPath m). intros ccp.
  generalize isBlank. intros bl.
  destruct c as [cid cname cuuid caddr cpath ctime]. simpl.
  intros (H1 & H2 & H3).
  destruct (bl cpath); simpl; auto.
Qed.

(** They keep its strings valid UTF-8 as well. *)
Lemma recordValid_heal (id u : string) (now : Time) (c : Client) :
  ValidString u = true ->
  recordValid m id c -> recordValid m id (healPure m id u now c).
Proof.
  unfold recordValid, clientValid, healPure.
  generalize (clientConfigPath m). intros ccp.
  generalize isBlank. intros bl.
  generalize IsZero. intros iz.
  generalize ValidString. intros V.
  destruct c as [cid cname cuuid caddr cpath ctime]. simpl.
  intros Hu (H0 & (H1 & H2 & H3 & H4 & H5) & H6 & H7).
  destruct (bl cid); simpl; destruct (bl cname); simpl; destruct (bl cuuid); simpl;
    destruct (bl caddr); simpl; destruct (bl cpath); simpl; destruct (iz ctime); simpl;
    auto 10.
Qed.

Lemma recordValid_fill (id : string) (c : Client) :
  recordValid m id c -> recordValid m id (fst (fillPaths m id c)).
Proof.
  unfold recordValid, clientValid, fillPaths.
  generalize (clientConfigPath m). intros ccp.
  generalize isBlank. intros bl.
  generalize ValidString. intros V.
  destruct c as [cid cname cuuid caddr cpath ctime]. simpl.
  intros (H0 & (H1 & H2 & H3 & H4 & H5) & H6 & H7).
  destruct (bl cpath); simpl; destruct (bl caddr); simpl; auto 10.
Qed.

Lemma recordValid_save (id : string) (c : Client) :
  recordValid m id c -> recordValid m id (saveNormalize m id c).
Proof.
  unfold recordValid, clientValid, saveNormalize.
  generalize (clientConfigPath m). intros ccp.
  generalize isBlank. intros bl.
  generalize ValidString. intros V.
  destruct c as [cid cname cuuid caddr cpath ctime]. simpl.
  intros (H0 & (H1 & H2 & H3 & H4 & H5) & H6 & H7).
  destruct (bl cpath); simpl; auto 10.
Qed.

Lemma recordsOK_valid (clients : gmap string Client) :
  recordsOK m clients -> storeValid clients.
Proof.
  intros Hok id c Hc. destruct (Hok id c Hc) as (_ & _ & Hid & Hv & _). auto.
Qed.

Lemma UUID_fill (id : string) (c : Client) : UUID (fst (fillPaths m id c)) = UUID c.
Proof.
  unfold fillPaths. destruct (isBlank (ConfigPath c)); simpl;
    destruct (isBlank (Address _)); reflexivity.
Qed.

Lemma recordsOK_normalized (clients : gmap string Client) :
  recordsOK m clients -> recordsOK m (normalizedClients m clients).
Proof.
  intros Hok id c Hc. rewrite normalizedClients_lookup in Hc.
  destruct (clients !! id) as [c0|] eqn:E; [|discriminate]. injection Hc as <-.
  destruct (Hok id c0 E) as (Hu & Hp & Hv). split; [|split].
  - destruct (saveNormalize_spec m id c0) as (_ & _ & _ & _ & -> & _). exact Hu.
  - apply recordPathsSafe_save, Hp.
  - apply recordValid_save, Hv.
Qed.

Lemma filledClients_lookup (clients : gmap string Client) (id : string) :
  filledClients m clients !! id = (fun c => fst (fillPaths m id c)) <$> clients !! id.
Proof.
  unfold filledClients. rewrite map_lookup_imap. destruct (clients !! id); reflexivity.
Qed.

Lemma filledClients_dom (clients : gmap string Client) : dom (filledClients m clients) = dom clients.
Proof.
  apply set_eq. intros id. rewrite !elem_of_dom, filledClients_lookup.
  destruct (clients !! id); simpl; split; intros [x Hx]; eauto; discriminate.
Qed.

Lemma recordsOK_filled (clients : gmap string Client) :
  recordsOK m clients -> recordsOK m (filledClients m clients).
Proof.
  intros Hok id c Hc. rewrite filledClients_lookup in Hc.
  destruct (clients !! id) as [c0|] eqn:E; [|discriminate]. injection Hc as <-.
  destruct (Hok id c0 E) as (Hu & Hp & Hv). split; [|split].
  - rewrite UUID_fill. exact Hu.
  - apply recordPathsSafe_fill, Hp.
  - apply recordValid_fill, Hv.
Qed.
End Paths.

Section Init.
Context `{UnicodeTables} `{JSON} `{X509}.
Context (m : Manager) (Hlayout : layoutOK m) (Hcodec : codecRoundTrip).
Context (Hdefault : ValidString (clientConfigPath m "default-client") = true).

Lemma stateGood_frame (ids : gset string) (w w' : World) :
  files w' !! statePath m = files w !! statePath m ->
  stateGood m ids w -> stateGood m ids w'.
Proof.
  intros Hf (f & store & Hfile & Hrest). exists f, store.
  split; [congruence|exact Hrest].
Qed.

Lemma stateGood_saved (store : gmap string Client) (raw : string) (w : World) :
  marshalPretty json_MarshalIndent_clients store = Ok raw ->
  files w !! statePath m = Some (mkFile raw 384) ->
  recordsOK m store ->
  stateGood m (dom store) w.
Proof.
  intros Hraw Hfile Hok.
  destruct (Hcodec store raw (recordsOK_valid m store Hok) Hraw) as [Hnb Hdec].
  exists (mkFile raw 384), store. auto.
Qed.

Lemma state_not_secret (p : string) :
  safePath m p -> ~ secretPaths p (statePath m).
Proof. intros Hs. apply (safePath_outside m p); [exact Hs|]. right. right. reflexivity. Qed.

Lemma tls_not_secret (p q : string) :
  safePath m p -> tlsPath m q -> ~ secretPaths p q.
Proof.
  intros Hs Hq. apply (safePath_outside m p); [exact Hs|].
  destruct Hq as [->| ->]; [left|right; left]; reflexivity.
Qed.

Lemma tls_not_state (q : string) : tlsPath m q -> ~ secretPaths (statePath m) q.
Proof.
  destruct Hlayout as (_ & _ & _ & _ & _ & Htmp & Hc & Hk & _).
  intros [->| ->] [E|E].
  - apply Hc. congruence.
  - apply Htmp. left. congruence.
  - apply Hk. congruence.
  - apply Htmp. right. left. congruence.
Qed.

Lemma saveClientsLocked_calm (clients : gmap string Client) :
  keeps (calm (secretPaths (statePath m))) (saveClientsLocked m clients).
Proof.
  apply saveClientsLocked_keeps; [exact _|]. intros. apply writeSecretFile_calm.
Qed.

(** Saving leaves a good state file behind, whether it succeeds or
    not. *)
Lemma save_step (clients : gmap string Client) (w w' : World) (r : result unit) :
  saveClientsLocked m clients w = (r, w') ->
  recordsOK m clients ->
  (r = Ok tt \/ stateGood m (dom clients) w) ->
  calm (secretPaths (statePath m)) w w' /\ stateGood m (dom clients) w'.
Proof.
  intros E Hok Hgood. split.
  - exact (keeps_run _ _ _ _ _ (saveClientsLocked_calm clients) E).
  - pose proof (saveClientsLocked_spec m clients w) as Hs. rewrite E in Hs.
    destruct r as [[]|e].
    + destruct Hs as (raw & Hraw & Hfile & _).
      rewrite <- (normalizedClients_dom m clients).
      eapply stateGood_saved; [exact Hraw|exact Hfile|].
      apply recordsOK_normalized, Hok.
    + destruct Hgood as [?|Hgood]; [discriminate|].
      eapply stateGood_frame; [exact Hs|exact Hgood].
Qed.

Lemma writeClientConfigLocked_calm (c : Client) :
  keeps (calm (secretPaths (ConfigPath c))) (writeClientConfigLocked m c).
Proof.
  apply writeClientConfigLocked_keeps; [exact _|]. intros. apply writeSecretFile_calm.
Qed.

Lemma writeClientConfigs_calm (l : list Client) :
  keeps (calm (fun p => exists c, In c l /\ secretPaths (ConfigPath c) p))
        (writeClientConfigs m l).
Proof.
  induction l as [|c l IH]; simpl.
  - apply keeps_ret. exact _.
  - apply keeps_bind; [exact _| |intros _].
    + eapply keeps_calm_weaken; [|apply writeClientConfigLocked_calm].
      intros p Hp. exists c. auto.
    + eapply keeps_calm_weaken; [|apply IH].
      intros p (c' & Hin & Hp). exists c'. auto.
Qed.

Lemma doc_in_managed (clients : gmap string Client) (c : Client) (p : string) :
  In c (sortByID (List.map (fun e => fst (fillPaths m (fst e) (snd e)))
                           (map_to_list clients))) ->
  secretPaths (ConfigPath c) p ->
  managedPaths m clients p.
Proof.
  intros Hin Hp. apply in_sortByID, in_map_iff in Hin as ([id c0] & <- & Hin).
  apply list_elem_of_In, elem_of_map_to_list in Hin.
  right. right. exists id, c0. auto.
Qed.

Lemma state_not_doc (clients : gmap string Client) (c : Client) :
  recordsOK m clients ->
  In c (sortByID (List.map (fun e => fst (fillPaths m (fst e) (snd e)))
                           (map_to_list clients))) ->
  ~ secretPaths (ConfigPath c) (statePath m).
Proof.
  intros Hok Hin. apply in_sortByID, in_map_iff in Hin as ([id c0] & <- & Hin).
  apply list_elem_of_In, elem_of_map_to_list in Hin. simpl.
  destruct (Hok id c0 Hin) as (_ & Hp & _).
  apply state_not_secret. apply (recordPathsSafe_fill m id c0 Hp).
Qed.

Lemma tls_not_managed (clients : gmap string Client) (q : string) :
  recordsOK m clients -> tlsPath m q -> ~ managedPaths m clients q.
Proof.
  intros Hok Hq [Hs|[Hs|(id & c & Hc & Hs)]].
  - destruct Hlayout as (Hsv & _). exact (tls_not_secret _ _ Hsv Hq Hs).
  - exact (tls_not_state _ Hq Hs).
  - destruct (Hok id c Hc) as (_ & Hp & _).
    exact (tls_not_secret _ _ (proj1 (recordPathsSafe_fill m id c Hp)) Hq Hs).
Qed.

(** Rewriting the documents touches managed paths only and leaves a
    good state file good. *)
Lemma rewrite_step (clients : gmap string Client) (w w' : World) (r : result unit) :
  rewriteServerConfigLocked m clients w = (r, w') ->
  recordsOK m clients ->
  stateGood m (dom clients) w ->
  calm (managedPaths m clients) w w' /\ stateGood m (dom clients) w'.
Proof.
  intros E Hok Hgood. unfold rewriteServerConfigLocked in E.
  set (list := sortByID (List.map (fun e => fst (fillPaths m (fst e) (snd e)))
                                  (map_to_list clients))) in *.
  destruct Hlayout as (Hsv & _).
  (* the encoding of the server document *)
  apply bind_inv in E as [(e & E1 & ->)|(payload & w1 & E1 & E)].
  { assert (w = w') as <-.
    { eapply (keeps_run eq); [|exact E1].
      apply keeps_wrapErr, keeps_liftResult; exact _. }
    split; [reflexivity|exact Hgood]. }
  assert (w = w1) as <-.
  { eapply (keeps_run eq); [|exact E1].
    apply keeps_wrapErr, keeps_liftResult; exact _. }
  (* the server document *)
  assert (Hstep1 : forall r1 w1,
             wrapErr "write server config"
                     (writeSecretFile (serverConfigPath m) payload) w = (r1, w1) ->
             calm (managedPaths m clients) w w1 /\ stateGood m (dom clients) w1).
  { intros r1 w1 E2.
    assert (Hc : calm (secretPaths (serverConfigPath m)) w w1).
    { eapply keeps_run; [|exact E2]. apply keeps_wrapErr, writeSecretFile_calm. }
    split.
    - eapply calm_weaken; [|exact Hc]. intros p Hp. left. exact Hp.
    - eapply stateGood_frame; [|exact Hgood].
      apply (proj1 Hc). apply state_not_secret, Hsv. }
  apply bind_inv in E as [(e & E2 & ->)|([] & w2 & E2 & E)].
  { exact (Hstep1 _ _ E2). }
  destruct (Hstep1 _ _ E2) as [Hc2 Hg2].
  (* the client documents *)
  assert (Hstep2 : forall r3 w3,
             writeClientConfigs m list w2 = (r3, w3) ->
             calm (managedPaths m clients) w w3 /\ stateGood m (dom clients) w3).
  { intros r3 w3 E3.
    pose proof (keeps_run _ _ _ _ _ (writeClientConfigs_calm list) E3) as Hc.
    split.
    - etransitivity; [exact Hc2|].
      eapply calm_weaken; [|exact Hc].
      intros p (c & Hin & Hp). eapply doc_in_managed; eassumption.
    - eapply stateGood_frame; [|exact Hg2].
      apply (proj1 Hc). intros (c & Hin & Hp).
      exact (state_not_doc clients c Hok Hin Hp). }
  apply bind_inv in E as [(e & E3 & ->)|([] & w3 & E3 & E)].
  { exact (Hstep2 _ _ E3). }
  destruct (Hstep2 _ _ E3) as [Hc3 Hg3].
  (* the state file, when a record was completed *)
  destruct (existsb _ _).
  - rewrite <- (filledClients_dom m clients) in Hg3.
    destruct (save_step _ _ _ _ E (recordsOK_filled m clients Hok) (or_intror Hg3))
      as [Hc4 Hg4].
    rewrite (filledClients_dom m clients) in Hg4. split; [|exact Hg4].
    etransitivity; [exact Hc3|].
    eapply calm_weaken; [|exact Hc4]. intros p Hp. right. left. exact Hp.
  - injection E as <- <-. auto.
Qed.

(** Records that have a UUID are healed without a random byte. *)
Lemma healAll_quiet (entries : list (string * Client)) :
  forall (acc : gmap string Client) (changed : bool) (w : World),
    (forall id c, (id, c) ∈ entries -> isBlank (UUID c) = false) ->
    exists res changed', healAll m entries acc changed w = (Ok (res, changed'), w).
Proof.
  induction entries as [|[id c] rest IH]; intros acc changed w Hu; simpl.
  - eauto.
  - unfold bind. rewrite healClient_run.
    rewrite (Hu id c) by (apply elem_of_cons; left; reflexivity).
    apply IH. intros id' c' Hin. apply (Hu id' c'). apply elem_of_cons. right. exact Hin.
Qed.

(** When the loop reports no change, no record needed one. *)
Lemma healAll_unchanged (entries : list (string * Client)) :
  forall (acc : gmap string Client) (changed : bool) (w w' : World)
         (res : gmap string Client),
    healAll m entries acc changed w = (Ok (res, false), w') ->
    changed = false /\
    forall id c, (id, c) ∈ entries -> needsHealing c = false.
Proof.
  induction entries as [|[id c] rest IH]; intros acc changed w w' res E; simpl in E.
  - injection E as _ -> _. split; [reflexivity|]. intros id c Hin. inversion Hin.
  - apply bind_Ok_inv in E as ([c1 ch1] & w1 & E1 & E).
    destruct (IH _ _ _ _ _ E) as [Hch Hrest].
    apply orb_false_elim in Hch as [-> Hch1]. simpl in Hch1. subst ch1.
    split; [reflexivity|].
    intros id' c' Hin. apply elem_of_cons in Hin as [[= -> ->]|Hin]; [|eauto].
    rewrite healClient_run in E1.
    destruct (isBlank (UUID c)).
    + destruct (generateUUID w) as [[u|e] w2]; discriminate.
    + injection E1 as _ Hn _. exact Hn.
Qed.

Lemma needsHealing_UUID (c : Client) : needsHealing c = false -> isBlank (UUID c) = false.
Proof.
  unfold needsHealing. intros Hn.
  destruct (isBlank (UUID c)); [|reflexivity].
  rewrite !orb_true_r in Hn. simpl in Hn. discriminate.
Qed.

Lemma healedFrom_OK (id : string) (now : Time) (c c' : Client) :
  recordPathsSafe m id c /\ recordValid m id c -> healedFrom m id now c c' ->
  isBlank (UUID c') = false /\ recordPathsSafe m id c' /\ recordValid m id c'.
Proof.
  intros [(P1 & P2 & P3) (V0 & (V1 & V2 & V3 & V4 & V5) & V6 & V7)]
         (Hid & Hn & Hu & Ha & Hp & _).
  assert (Hvu : ValidString (UUID c') = true).
  { destruct (isBlank (UUID c)).
    - destruct Hu as (b & _ & ->). apply formatUUID_valid.
    - rewrite Hu. exact V3. }
  split; [|split].
  - destruct (isBlank (UUID c)) eqn:E.
    + destruct Hu as (b & _ & ->). apply formatUUID_not_blank.
    + rewrite Hu. exact E.
  - unfold recordPathsSafe. rewrite Hp, Hid.
    destruct (isBlank (ConfigPath c)); destruct (isBlank (ID c)); auto.
  - unfold recordValid, clientValid. rewrite Hp, Hid, Hn, Ha.
    destruct (isBlank (ConfigPath c)); destruct (isBlank (ID c));
      destruct (isBlank (Name c)); destruct (isBlank (Address c)); auto 10.
Qed.

(** Loading a good state file needs no random byte and leaves a good
    state file, whatever it returns; what it returns is made of good
    records under the stored ids. *)
Lemma load_step (ids : gset string) (w w' : World) (r : result (gmap string Client)) :
  loadClientsLocked m w = (r, w') ->
  stateGood m ids w ->
  calm (secretPaths (statePath m)) w w' /\ stateGood m ids w' /\
  match r with
  | Ok clients => dom clients = ids /\ recordsOK m clients
  | Err _ => True
  end.
Proof.
  intros E Hgood.
  pose proof Hgood as (f & store & Hf & Hnb & Hdec & Hdom & Hok).
  unfold loadClientsLocked in E.
  destruct (os_ReadFile (statePath m) w) as [[raw|e] w1] eqn:Er.
  2:{ assert (Hc : calm (secretPaths (statePath m)) w w1).
      { eapply keeps_run; [|exact Er].
        apply keeps_calm;
          [apply sameFiles_outside, os_ReadFile_files|apply os_ReadFile_entropy
          |apply os_ReadFile_log]. }
      assert (Hg : stateGood m ids w1).
      { apply (stateGood_frame ids w); [|exact Hgood].
        apply (keeps_run sameFiles) in Er; [|apply os_ReadFile_files].
        rewrite Er. reflexivity. }
      apply os_ReadFile_inv in Er as [_ Hr].
      destruct (IsNotExist e); [congruence|].
      injection E as <- <-. auto. }
  assert (Hc1 : calm (secretPaths (statePath m)) w w1).
  { eapply keeps_run; [|exact Er].
    apply keeps_calm;
      [apply sameFiles_outside, os_ReadFile_files|apply os_ReadFile_entropy
      |apply os_ReadFile_log]. }
  assert (Hg1 : stateGood m ids w1).
  { apply (stateGood_frame ids w); [|exact Hgood].
    apply (keeps_run sameFiles) in Er; [|apply os_ReadFile_files].
    rewrite Er. reflexivity. }
  assert (Hck : clock w1 = clock w).
  { apply (keeps_run sameClock) in Er; [exact Er|apply os_ReadFile_clock]. }
  apply os_ReadFile_inv in Er as [_ (f' & Hf' & ->)].
  assert (f' = f) as -> by congruence.
  destruct (String.length (TrimSpace (content f)) =? 0)%nat eqn:El.
  { apply Nat.eqb_eq in El. destruct (TrimSpace (content f)); [congruence|discriminate]. }
  rewrite Hdec in E.
  destruct (healAll_quiet (map_to_list store) store false w1) as (res & ch & Eh).
  { intros id c Hin. apply elem_of_map_to_list in Hin. apply (Hok id c Hin). }
  destruct (healAll_spec m _ _ _ _ _ _ _ (NoDup_fst_map_to_list store) Eh)
    as [Hother Hhealed].
  assert (Hlook : forall id c, store !! id = Some c ->
             exists c', res !! id = Some c' /\ healedFrom m id (clock w1) c c').
  { intros id c Hc. apply Hhealed, elem_of_map_to_list, Hc. }
  assert (Hdomres : dom res = ids).
  { rewrite <- Hdom. apply set_eq. intros id. rewrite !elem_of_dom.
    destruct (store !! id) as [c|] eqn:Es.
    - destruct (Hlook id c Es) as (c' & Hc' & _). rewrite Hc'. split; eauto.
    - rewrite (Hother id), Es; [reflexivity|].
      intros Hin. apply list_elem_of_fmap in Hin as ([id' c] & -> & Hin).
      apply elem_of_map_to_list in Hin. simpl in Es. congruence. }
  assert (Hokres : recordsOK m res).
  { intros id c' Hc'.
    assert (Hin : id ∈ dom store).
    { rewrite Hdom, <- Hdomres. apply elem_of_dom. eauto. }
    apply elem_of_dom in Hin as [c Hc].
    destruct (Hlook id c Hc) as (c'' & Hc'' & Hh).
    assert (c'' = c') as -> by congruence.
    eapply healedFrom_OK; [apply (proj2 (Hok id c Hc))|exact Hh]. }
  unfold bind at 1 in E. rewrite Eh in E.
  apply bind_inv in E as [(e & E1 & ->)|([] & w2 & E1 & E)].
  - destruct ch; [|discriminate].
    rewrite <- Hdomres in Hg1.
    destruct (save_step _ _ _ _ E1 Hokres (or_intror Hg1)) as [Hc2 Hg2].
    rewrite Hdomres in Hg2.
    split; [etransitivity; eassumption|]. auto.
  - injection E as <- <-.
    destruct ch.
    + rewrite <- Hdomres in Hg1.
      destruct (save_step _ _ _ _ E1 Hokres (or_intror Hg1)) as [Hc2 Hg2].
      rewrite Hdomres in Hg2.
      split; [etransitivity; eassumption|]. auto.
    + injection E1 as <-. auto.
Qed.

(** A first load that finds records leaves a good state file, when the
    stored paths are safe. *)
Lemma load_first (w w' : World) (clients : gmap string Client) :
  loadClientsLocked m w = (Ok clients, w') ->
  (forall store, storeOf m w = Some store ->
                 forall id c, store !! id = Some c ->
                              recordPathsSafe m id c /\ recordValid m id c) ->
  size clients <> 0%nat ->
  stateGood m (dom clients) w' /\ recordsOK m clients.
Proof.
  intros E Hsafe Hsize. unfold loadClientsLocked in E.
  destruct (os_ReadFile (statePath m) w) as [[raw|e] w1] eqn:Er.
  2:{ destruct (IsNotExist e); [|discriminate]. injection E as <- <-.
      rewrite map_size_empty in Hsize. congruence. }
  assert (Hf1 : files w1 = files w).
  { apply (keeps_run sameFiles) in Er; [exact Er|apply os_ReadFile_files]. }
  apply os_ReadFile_inv in Er as [_ (f & Hf & ->)].
  destruct (String.length (TrimSpace (content f)) =? 0)%nat eqn:El.
  { injection E as <- <-. rewrite map_size_empty in Hsize. congruence. }
  assert (Hnb : TrimSpace (content f) <> "").
  { intros Hb. rewrite Hb in El. discriminate. }
  destruct (json_Unmarshal_clients (content f)) as [store|e] eqn:Hdec; [|discriminate].
  assert (Hst : storeOf m w = Some store).
  { unfold storeOf. rewrite Hf.
    destruct (String.eqb_spec (TrimSpace (content f)) ""); [contradiction|].
    rewrite Hdec. reflexivity. }
  specialize (Hsafe store Hst).
  apply bind_Ok_inv in E as ([res ch] & w2 & Eh & E).
  destruct (healAll_spec m _ _ _ _ _ _ _ (NoDup_fst_map_to_list store) Eh)
    as [Hother Hhealed].
  assert (Hlook : forall id c, store !! id = Some c ->
             exists c', res !! id = Some c' /\ healedFrom m id (clock w1) c c').
  { intros id c Hc. apply Hhealed, elem_of_map_to_list, Hc. }
  assert (Hdomres : dom res = dom store).
  { apply set_eq. intros id. rewrite !elem_of_dom.
    destruct (store !! id) as [c|] eqn:Es.
    - destruct (Hlook id c Es) as (c' & Hc' & _). rewrite Hc'. split; eauto.
    - rewrite (Hother id), Es; [reflexivity|].
      intros Hin. apply list_elem_of_fmap in Hin as ([id' c] & -> & Hin).
      apply elem_of_map_to_list in Hin. simpl in Es. congruence. }
  assert (Hokres : recordsOK m res).
  { intros id c' Hc'.
    assert (Hin : id ∈ dom store).
    { rewrite <- Hdomres. apply elem_of_dom. eauto. }
    apply elem_of_dom in Hin as [c Hc].
    destruct (Hlook id c Hc) as (c'' & Hc'' & Hh).
    assert (c'' = c') as -> by congruence.
    eapply healedFrom_OK; [apply (Hsafe id c Hc)|exact Hh]. }
  assert (Hf2 : files w2 = files w1).
  { apply (keeps_run sameFiles) in Eh; [exact Eh|].
    apply healAll_keeps; [exact _|apply generateUUID_files]. }
  apply bind_Ok_inv in E as ([] & w3 & E1 & E). injection E as <- <-.
  split; [|exact Hokres].
  destruct ch.
  - destruct (save_step _ _ _ _ E1 Hokres (or_introl eq_refl)) as [_ Hg]. exact Hg.
  - injection E1 as <-.
    destruct (healAll_unchanged _ _ _ _ _ _ Eh) as [_ Hnone].
    exists f, store. rewrite Hf2, Hf1.
    split; [exact Hf|]. split; [exact Hnb|]. split; [exact Hdec|].
    split; [symmetry; exact Hdomres|].
    intros id c Hc. split; [|exact (Hsafe id c Hc)].
    apply needsHealing_UUID, (Hnone id c). apply elem_of_map_to_list, Hc.
Qed.

Lemma default_id (now : Time) :
  allocateClientIDLocked now "default-client" ∅ = "default-client".
Proof.
  unfold allocateClientIDLocked.
  assert (sanitizeClientID "default-client" = "default-client") as -> by reflexivity.
  rewrite lookup_empty. reflexivity.
Qed.

Lemma tlsKept_outside (S : string -> Prop) (w w' : World) :
  (forall q, tlsPath m q -> ~ S q) -> filesOutside S w w' -> tlsKept m w w'.
Proof. intros Hs Hf q Hq. apply Hf, Hs, Hq. Qed.

Lemma tlsKept_trans (w1 w2 w3 : World) :
  tlsKept m w1 w2 -> tlsKept m w2 w3 -> tlsKept m w1 w3.
Proof. intros H12 H23 q Hq. rewrite (H23 q Hq). apply H12, Hq. Qed.

Lemma tlsKept_present (w w' : World) :
  tlsKept m w w' -> tlsPresent m w -> tlsPresent m w'.
Proof.
  intros Hk [Hc Hkey]. split.
  - rewrite (Hk (TLSCertPath (cfg m))); [exact Hc|left; reflexivity].
  - rewrite (Hk (TLSKeyPath (cfg m))); [exact Hkey|right; reflexivity].
Qed.

Lemma tls_protected (q : string) : tlsPath m q -> protected m q.
Proof. intros [->| ->]; [left|right; left]; reflexivity. Qed.

(** Stopping and starting the process touches the log file of the
    process only. *)
Lemma restart_outside :
  keeps (filesOutside (eq (serverLogPath m)))
        (stopInterfaceLocked ;;;
         wrapErr "reload sing-box after creating client" (startInterfaceLocked m)).
Proof.
  intros w.
  unfold stopInterfaceLocked, startInterfaceLocked, interfaceRunningLocked, wrapErr,
         time_Sleep, logger_Printf.
  run_on; intros q Hq; simpl; try reflexivity; apply lookup_insert_ne; exact Hq.
Qed.

(** Creating the default client in an empty store leaves a good state
    file with that one id, and the TLS files as they were. *)
Lemma create_step (w w' : World) (res : Client * string) :
  createClientLocked m "default-client" ∅ w = (Ok res, w') ->
  stateGood m {["default-client"]} w' /\ tlsKept m w w'.
Proof.
  intros E. unfold createClientLocked in E.
  apply bind_Ok_inv in E as (now & w1 & E1 & E). injection E1 as _ <-.
  cbv zeta in E. rewrite default_id in E.
  apply bind_Ok_inv in E as (u & w2 & E2 & E).
  assert (Hf2 : files w2 = files w).
  { apply (keeps_run sameFiles) in E2; [exact E2|apply generateUUID_files]. }
  apply generateUUID_inv in E2 as [(b & [= ->] & _ & _)|(_ & ? & _)]; [|discriminate].
  apply bind_Ok_inv in E as (created & w3 & E3 & E). injection E3 as _ <-.
  set (c0 := mkClient "default-client" (TrimSpace "default-client") (formatUUID b)
                      (formatUUID b) (clientConfigPath m "default-client") created) in E.
  change (if String.eqb (Name c0) "" then setName "default-client" c0 else c0)
    with c0 in E.
  change (ID c0) with "default-client" in E.
  set (clients := <["default-client" := c0]> (∅ : gmap string Client)) in E.
  assert (Hdom : dom clients = {["default-client"]}).
  { unfold clients. rewrite dom_insert_L, dom_empty_L. apply (right_id_L ∅ (∪)). }
  destruct Hlayout as (_ & Hlog & Hdef & _).
  assert (Hok : recordsOK m clients).
  { intros id c Hc. unfold clients in Hc.
    apply lookup_insert_Some in Hc as [[<- <-]|[_ Hc]];
      [|rewrite lookup_empty in Hc; discriminate].
    split; [apply formatUUID_not_blank|]. split; [repeat split; apply Hdef|].
    pose proof (formatUUID_valid b) as Hvu.
    unfold recordValid, clientValid. cbn [ID Name UUID Address ConfigPath].
    repeat split; first [exact Hvu|exact Hdefault|reflexivity]. }
  apply bind_Ok_inv in E as ([] & w4 & E4 & E).
  destruct (save_step _ _ _ _ E4 Hok (or_introl eq_refl)) as [Hc4 Hg4].
  apply bind_Ok_inv in E as ([] & w5 & E5 & E).
  destruct (rewrite_step _ _ _ _ E5 Hok Hg4) as [Hc5 Hg5].
  apply bind_Ok_inv in E as (running & w6 & E6 & E). injection E6 as _ <-.
  apply bind_Ok_inv in E as ([] & w7 & E7 & E).
  assert (Hf7 : filesOutside (eq (serverLogPath m)) w5 w7).
  { destruct running.
    - exact (keeps_run _ _ _ _ _ restart_outside E7).
    - injection E7 as <-. reflexivity. }
  apply bind_Ok_inv in E as (raw & w8 & E8 & E). injection E as _ <-.
  apply wrapErr_Ok_inv in E8.
  apply (keeps_run sameFiles) in E8; [|apply os_ReadFile_files].
  unfold sameFiles in E8. split.
  - rewrite <- Hdom. eapply stateGood_frame; [|exact Hg5].
    rewrite E8. apply Hf7. intros Heq. apply (proj1 Hlog). right. right. auto.
  - intros q Hq. rewrite E8, <- Hf2.
    rewrite (Hf7 q).
    2:{ intros Heq. apply (proj1 Hlog). rewrite Heq. apply tls_protected, Hq. }
    rewrite (proj1 Hc5 q) by (apply tls_not_managed; assumption).
    apply (proj1 Hc4 q). apply tls_not_state, Hq.
Qed.

(** With both TLS files there, nothing is generated. *)
Lemma ensureTLS_present (w : World) :
  tlsPresent m w -> ensureTLSMaterialLocked m w = (Ok tt, w).
Proof.
  intros [[f1 H1'] [f2 H2']].
  unfold ensureTLSMaterialLocked, fileExists, bind, gets, ret. simpl.
  rewrite H1', H2'. reflexivity.
Qed.

(** When it succeeds, both TLS files are there. *)
Lemma ensureTLS_first (w w' : World) :
  ensureTLSMaterialLocked m w = (Ok tt, w') -> tlsPresent m w'.
Proof.
  intros E. unfold ensureTLSMaterialLocked in E.
  apply bind_Ok_inv in E as (haveCert & w1 & E1 & E).
  apply bind_Ok_inv in E as (haveKey & w2 & E2 & E).
  unfold fileExists, bind, gets, ret in E1, E2. simpl in E1, E2.
  injection E1 as <- <-. injection E2 as <- <-.
  destruct (files w !! TLSCertPath (cfg m)) as [f1|] eqn:Hc;
    destruct (files w !! TLSKeyPath (cfg m)) as [f2|] eqn:Hk; simpl in E.
  { injection E as <-. split; [rewrite Hc|rewrite Hk]; eauto. }
  all: apply bind_Ok_inv in E as ([] & w3 & E & El);
    apply (keeps_run sameFiles) in El; [|apply logger_Printf_files];
    apply wrapErr_Ok_inv in E;
    unfold generateSelfSignedCertificate in E;
    apply bind_Ok_inv in E as ([] & wa & _ & E);
    apply bind_Ok_inv in E as ([] & wb & _ & E);
    apply bind_Ok_inv in E as (en & wc & _ & E);
    apply bind_Ok_inv in E as (now & wd & _ & E);
    destruct (x509_selfSigned en now _) as [rr e'];
    apply bind_Ok_inv in E as ([] & we & _ & E);
    apply bind_Ok_inv in E as (pems & wf & _ & E);
    apply bind_Ok_inv in E as ([] & wg & Ecert & Ekey);
    pose proof (writeSecretFile_spec (TLSCertPath (cfg m)) (fst pems) wf) as Sc;
    rewrite Ecert in Sc; destruct Sc as [Sc _];
    pose proof (writeSecretFile_spec (TLSKeyPath (cfg m)) (snd pems) wg) as Sk;
    rewrite Ekey in Sk; destruct Sk as [Sk _];
    pose proof (keeps_run _ _ _ _ _ (writeSecretFile_outside _ _) Ekey) as Hout;
    unfold sameFiles in El; split; rewrite El; [|eauto];
    destruct (decide (TLSCertPath (cfg m) = TLSKeyPath (cfg m))) as [Heq|Hne];
    [rewrite Heq; eauto|];
    rewrite (Hout (TLSCertPath (cfg m))); [eauto|];
    intros [?|Htmp]; [contradiction|];
    destruct Hlayout as (_ & _ & _ & _ & _ & _ & _ & _ & _ & _ & Hl); contradiction.
Qed.

Lemma os_Chmod_calm (p : string) (mo : Z) : keeps (calm (eq p)) (os_Chmod p mo).
Proof.
  apply keeps_calm; [apply os_Chmod_outside|apply os_Chmod_entropy|apply os_Chmod_log].
Qed.

Lemma os_MkdirAll_calm (S : string -> Prop) (p : string) (mo : Z) :
  keeps (calm S) (os_MkdirAll p mo).
Proof.
  apply keeps_calm;
    [apply sameFiles_outside, os_MkdirAll_files|apply os_MkdirAll_entropy
    |apply os_MkdirAll_log].
Qed.

(** [os.Chmod] of the state directory, a missing directory forgiven. *)
Lemma chmodStateDir_keeps (R : World -> World -> Prop) (p msg : string) (mo : Z) :
  keeps R (os_Chmod p mo) ->
  keeps R (fun w =>
             match os_Chmod p mo w with
             | (Err e, w') =>
                 if IsNotExist e then (Ok tt, w') else (Err (Wrapped msg e), w')
             | r => r
             end).
Proof.
  intros Hk w. specialize (Hk w).
  destruct (os_Chmod p mo w) as [[[]|e] w']; simpl in *; [exact Hk|].
  destruct (IsNotExist e); exact Hk.
Qed.

(** The files [ensureTLSMaterialLocked] may write. *)
Lemma ensureTLS_outside :
  keeps (filesOutside (fun p => secretPaths (TLSCertPath (cfg m)) p \/
                                secretPaths (TLSKeyPath (cfg m)) p))
        (ensureTLSMaterialLocked m).
Proof.
  unfold ensureTLSMaterialLocked.
  apply keeps_bind; [exact _|apply sameFiles_outside, fileExists_files|intros haveCert].
  apply keeps_bind; [exact _|apply sameFiles_outside, fileExists_files|intros haveKey].
  apply keeps_if; [apply keeps_ret; exact _|].
  apply keeps_bind; [exact _| |intros _; apply sameFiles_outside, logger_Printf_files].
  apply keeps_wrapErr. unfold generateSelfSignedCertificate.
  apply keeps_bind; [exact _|apply sameFiles_outside, os_MkdirAll_files|intros _].
  apply keeps_bind; [exact _|apply sameFiles_outside, os_MkdirAll_files|intros _].
  apply keeps_bind; [exact _|apply keeps_gets; exact _|intros en].
  apply keeps_bind; [exact _|apply sameFiles_outside, time_Now_files|intros now].
  destruct (x509_selfSigned en now _) as [rr e'].
  apply keeps_bind; [exact _|intros w p _; reflexivity|intros _].
  apply keeps_bind; [exact _|apply keeps_liftResult; exact _|intros pems].
  apply keeps_bind; [exact _| |intros _].
  - eapply keeps_weaken; [|apply writeSecretFile_outside]. intros p Hp. left. exact Hp.
  - eapply keeps_weaken; [|apply writeSecretFile_outside]. intros p Hp. right. exact Hp.
Qed.

Lemma state_not_tls_written :
  ~ (secretPaths (TLSCertPath (cfg m)) (statePath m) \/
     secretPaths (TLSKeyPath (cfg m)) (statePath m)).
Proof.
  destruct Hlayout as (_ & _ & _ & _ & _ & _ & A1 & A2 & A3 & A4 & _).
  intros [[?|?]|[?|?]]; contradiction.
Qed.

(** The store does not depend on the other files. *)
Lemma storeOf_frame (w w' : World) :
  files w' !! statePath m = files w !! statePath m -> storeOf m w' = storeOf m w.
Proof. unfold storeOf. intros ->. reflexivity. Qed.

(** The first run: when it succeeds, it leaves both TLS files and a
    good state file that holds at least one record. *)
Lemma first_run (w w1 : World) :
  InitState m w = (Ok tt, w1) ->
  (forall store, storeOf m w = Some store ->
                 forall id c, store !! id = Some c ->
                              recordPathsSafe m id c /\ recordValid m id c) ->
  exists ids, ids <> ∅ /\ stateGood m ids w1 /\ tlsPresent m w1.
Proof.
  intros E Hsafe. unfold InitState in E.
  pose proof Hlayout as (_ & _ & _ & HnoSD & HnoCD & _).
  apply bind_Ok_inv in E as ([] & wa & Ea & E).
  apply (keeps_run sameFiles) in Ea; [|apply keeps_wrapErr, os_MkdirAll_files; exact _].
  apply bind_Ok_inv in E as ([] & wb & Eb & E).
  apply (keeps_run sameFiles) in Eb; [|apply keeps_wrapErr, os_MkdirAll_files; exact _].
  apply bind_Ok_inv in E as ([] & wc & Ec & E).
  apply (keeps_run sameFiles) in Ec; [|apply keeps_wrapErr, os_MkdirAll_files; exact _].
  apply bind_Ok_inv in E as ([] & wd & Ed & E).
  pose proof (chmodStateDir_keeps _ _ ("chmod " +:+ StateDir (cfg m)) _
                (os_Chmod_outside (StateDir (cfg m)) 448) wc) as Hd.
  cbv beta in Hd. rewrite Ed in Hd. simpl in Hd. clear Ed. rename Hd into Ed.
  apply bind_Ok_inv in E as ([] & we & Ee & E).
  apply (keeps_run (filesOutside (eq (clientsDir m)))) in Ee;
    [|apply keeps_wrapErr, os_Chmod_outside; exact _].
  apply bind_Ok_inv in E as ([] & wf & Ef & E).
  pose proof (ensureTLS_first _ _ Ef) as Htls.
  apply (keeps_run _ _ _ _ _ ensureTLS_outside) in Ef.
  assert (Hstate : files wf !! statePath m = files w !! statePath m).
  { rewrite (Ef _ state_not_tls_written).
    rewrite (Ee (statePath m)).
    2:{ intros Heq. apply HnoCD. right. right. auto. }
    rewrite (Ed (statePath m)).
    2:{ intros Heq. apply HnoSD. right. right. auto. }
    unfold sameFiles in *. congruence. }
  apply bind_Ok_inv in E as (clients & wg & Eg & E).
  assert (Hkg : tlsKept m wf wg).
  { eapply tlsKept_outside; [|exact (keeps_run _ _ _ _ _ (loadClientsLocked_outside m) Eg)].
    apply tls_not_state. }
  apply bind_Ok_inv in E as (clients' & wh & Eh & E).
  assert (Hmid : clients' <> ∅ /\ stateGood m (dom clients') wh /\
                 recordsOK m clients' /\ tlsKept m wg wh).
  { destruct (size clients =? 0)%nat eqn:Esz.
    - apply Nat.eqb_eq, map_size_empty_inv in Esz. subst clients.
      apply bind_Ok_inv in Eh as (res & wi & Ei & Eh).
      destruct (create_step _ _ _ Ei) as [Hgi Hki].
      destruct (load_step _ _ _ _ Eh Hgi) as (Hch & Hgh & Hdom & Hok).
      rewrite Hdom. split; [|split; [exact Hgh|split; [exact Hok|]]].
      + intros ->. rewrite dom_empty_L in Hdom.
        assert (Hin : "default-client" ∈ (∅ : gset string))
          by (rewrite Hdom; apply elem_of_singleton; reflexivity).
        apply not_elem_of_empty in Hin. exact Hin.
      + eapply tlsKept_trans; [exact Hki|].
        eapply tlsKept_outside; [|exact (proj1 Hch)]. apply tls_not_state.
    - injection Eh as <- <-. apply Nat.eqb_neq in Esz.
      destruct (load_first _ _ _ Eg) as [Hg Hok]; [|exact Esz|].
      { intros store Hst. apply Hsafe. rewrite <- Hst. symmetry.
        apply storeOf_frame, Hstate. }
      split; [|split; [exact Hg|split; [exact Hok|]]].
      + intros ->. rewrite map_size_empty in Esz. congruence.
      + intros q _. reflexivity. }
  destruct Hmid as (Hne & Hgh & Hokh & Hkh).
  destruct (rewrite_step _ _ _ _ E Hokh Hgh) as [Hc1 Hg1].
  exists (dom clients'). split; [|split].
  - intros Hd. apply Hne. apply dom_empty_iff_L, Hd.
  - exact Hg1.
  - eapply tlsKept_present; [|exact Htls].
    eapply tlsKept_trans; [exact Hkg|].
    eapply tlsKept_trans; [exact Hkh|].
    eapply tlsKept_outside; [|exact (proj1 Hc1)].
    intros q Hq. apply tls_not_managed; assumption.
Qed.

Lemma hoare_bind {A B} (P : World -> Prop) (c : M A) (k : A -> M B) :
  hoare P c (fun _ => P) -> (forall a, hoare P (k a) (fun _ => P)) ->
  hoare P (bind c k) (fun _ => P).
Proof.
  intros Hc Hk w Hp. unfold bind. specialize (Hc w Hp).
  destruct (c w) as [[a|e] w1]; simpl in *; [apply Hk, Hc|exact Hc].
Qed.

Lemma hoare_bind_result {A B} (P : World -> Prop) (Q : A -> Prop)
      (c : M A) (k : A -> M B) :
  hoare P c (fun r w => P w /\ match r with Ok a => Q a | Err _ => True end) ->
  (forall a, Q a -> hoare P (k a) (fun _ => P)) ->
  hoare P (bind c k) (fun _ => P).
Proof.
  intros Hc Hk w Hp. unfold bind. specialize (Hc w Hp).
  destruct (c w) as [[a|e] w1]; simpl in *; [|tauto].
  destruct Hc as [Hp1 Hq]. apply (Hk a Hq), Hp1.
Qed.

Section Settled.
Context (ids : gset string) (w0 : World).

Lemma settled_calm (S : string -> Prop) (w w' : World) :
  calm S w w' -> (forall q, tlsPath m q -> ~ S q) -> stateGood m ids w' ->
  settled m ids w0 w -> settled m ids w0 w'.
Proof.
  intros (Hf & He & Hl) Hs Hg (Kt & Ke & Kl & _).
  repeat split; [|etransitivity; eassumption|etransitivity; eassumption|exact Hg].
  eapply tlsKept_trans; [exact Kt|]. eapply tlsKept_outside; eassumption.
Qed.

(** A step that leaves the TLS files and the state file alone, draws
    no random byte and logs nothing. *)
Lemma hoare_calm {A} (S : string -> Prop) (c : M A) :
  keeps (calm S) c -> (forall q, protected m q -> ~ S q) ->
  hoare (settled m ids w0) c (fun _ => settled m ids w0).
Proof.
  intros Hk Hs w Hp. specialize (Hk w).
  eapply settled_calm; [exact Hk| | |exact Hp].
  - intros q Hq. apply Hs, tls_protected, Hq.
  - eapply stateGood_frame; [|apply Hp].
    apply (proj1 Hk). apply Hs. right. right. reflexivity.
Qed.

(** The second run. *)
Lemma second_run :
  ids <> ∅ -> tlsPresent m w0 ->
  hoare (settled m ids w0) (InitState m) (fun _ => settled m ids w0).
Proof.
  intros Hne Htls. unfold InitState.
  pose proof Hlayout as (_ & _ & _ & HnoSD & HnoCD & _).
  apply hoare_bind; [|intros _].
  { apply (hoare_calm (fun _ => False)); [|tauto].
    apply keeps_wrapErr, os_MkdirAll_calm. }
  apply hoare_bind; [|intros _].
  { apply (hoare_calm (fun _ => False)); [|tauto].
    apply keeps_wrapErr, os_MkdirAll_calm. }
  apply hoare_bind; [|intros _].
  { apply (hoare_calm (fun _ => False)); [|tauto].
    apply keeps_wrapErr, os_MkdirAll_calm. }
  apply hoare_bind; [|intros _].
  { apply (hoare_calm (eq (StateDir (cfg m)))).
    - apply chmodStateDir_keeps, os_Chmod_calm.
    - intros q Hq <-. contradiction. }
  apply hoare_bind; [|intros _].
  { apply (hoare_calm (eq (clientsDir m))).
    - apply keeps_wrapErr, os_Chmod_calm.
    - intros q Hq <-. contradiction. }
  apply hoare_bind; [|intros _].
  { intros w Hp. rewrite ensureTLS_present; [exact Hp|].
    eapply tlsKept_present; [apply Hp|exact Htls]. }
  apply (hoare_bind_result _ (fun clients => dom clients = ids /\ recordsOK m clients)).
  { intros w Hp.
    destruct (loadClientsLocked m w) as [r w'] eqn:E. simpl.
    destruct (load_step ids _ _ _ E) as (Hc & Hg & Hr); [apply Hp|].
    split; [|destruct r; auto].
    eapply settled_calm; [exact Hc|apply tls_not_state|exact Hg|exact Hp]. }
  intros clients [Hdom Hok].
  assert (Hsz : (size clients =? 0)%nat = false).
  { apply Nat.eqb_neq. intros Hz. apply map_size_empty_inv in Hz. subst clients.
    rewrite dom_empty_L in Hdom. auto. }
  rewrite Hsz.
  apply (hoare_bind_result _ (fun clients' => clients' = clients)).
  { intros w Hp. simpl. auto. }
  intros clients' ->. intros w Hp.
  destruct (rewriteServerConfigLocked m clients w) as [r w'] eqn:E. simpl.
  assert (Hg : stateGood m (dom clients) w) by (rewrite Hdom; apply Hp).
  destruct (rewrite_step _ _ _ _ E Hok Hg) as [Hc Hg'].
  eapply settled_calm; [exact Hc| | |exact Hp].
  - intros q Hq. apply tls_not_managed; assumption.
  - rewrite <- Hdom. exact Hg'.
Qed.
End Settled.
End Init.

Lemma stateGood_storeOf `{JSON} (m : Manager) (ids : gset string) (w : World) :
  stateGood m ids w -> exists store, storeOf m w = Some store /\ dom store = ids.
Proof.
  intros (f & store & Hf & Hnb & Hdec & Hdom & _). exists store. split; [|exact Hdom].
  unfold storeOf. rewrite Hf.
  destruct (String.eqb_spec (TrimSpace (content f)) ""); [contradiction|].
  rewrite Hdec. reflexivity.
Qed.


(** ** The reference codec *)

(** What is assumed of the JSON library in the statements on the state
    file, that decoding undoes encoding, holds of the reference codec. *)

Lemma skipWS_app (ws s : string) : isWS ws -> skipWS (ws +:+ s) = skipWS s.
Proof.
  unfold isWS. induction ws as [|c ws IH]; simpl; [reflexivity|].
  intros Hw. apply andb_true_iff in Hw as [Hc Hw]. rewrite Hc. apply IH, Hw.
Qed.

Lemma escapeByte_parse (c : ascii) (r acc : string) :
  parseStringBody (escapeByte c +:+ r) acc = parseStringBody r (String c acc).
Proof. destruct c as [[] [] [] [] [] [] [] []]; reflexivity. Qed.

Lemma escape_parse (s r acc : string) :
  parseStringBody (escape s +:+ String dquote r) acc = Some (String.rev acc +:+ s, r).
Proof.
  revert acc. induction s as [|c s IH]; intros acc.
  - simpl. rewrite app_nil_r_s. reflexivity.
  - simpl escape. rewrite app_assoc_s, escapeByte_parse, IH, rev_cons, app_assoc_s.
    reflexivity.
Qed.

Lemma encodeString_app (s r : string) :
  encodeString s +:+ r = String dquote (escape s +:+ String dquote r).
Proof. unfold encodeString. simpl. rewrite app_assoc_s. reflexivity. Qed.

Lemma parseString_encode (ws s r : string) :
  isWS ws -> parseString (ws +:+ encodeString s +:+ r) = Some (s, r).
Proof.
  intros Hw. unfold parseString. rewrite skipWS_app by exact Hw.
  rewrite encodeString_app. simpl. apply escape_parse.
Qed.

Section Members.
Context {V : Type} (enc : V -> string) (pv : string -> option (V * string)).
Context (indent close : string) (Hindent : isWS indent) (Hclose : isWS close).
Context (Hpv : forall v r, pv (String " " (enc v +:+ r)) = Some (v, r)).

Lemma parseMember_encode (k : string) (v : V) (r : string) :
  parseString (indent +:+ encodeString k +:+ ": " +:+ enc v +:+ r) = Some (k, ": " +:+ enc v +:+ r)
  /\ expect ":" (": " +:+ enc v +:+ r) = Some (String " " (enc v +:+ r)).
Proof.
  split; [apply parseString_encode, Hindent|reflexivity].
Qed.

Lemma parseMembers_encode (l : list (string * V)) :
  l <> [] ->
  forall (fuel : nat) (r : string),
    (length l <= fuel)%nat ->
    parseMembers pv fuel (encodeMembers enc indent close l +:+ r) = Some (l, r).
Proof.
  induction l as [|[k v] l IH]; [congruence|]. intros _ fuel r Hfuel.
  destruct fuel as [|fuel]; [simpl in Hfuel; lia|].
  destruct l as [|[k' v'] l].
  - change (encodeMembers enc indent close [(k, v)])
      with (indent +:+ encodeString k +:+ ": " +:+ enc v +:+ close +:+ "}").
    rewrite !app_assoc_s.
    cbn [parseMembers].
    rewrite parseString_encode by exact Hindent.
    change (expect ":" (": " +:+ enc v +:+ close +:+ "}" +:+ r))
      with (Some (String " " (enc v +:+ close +:+ "}" +:+ r))).
    cbv iota beta. rewrite Hpv. cbv iota beta.
    rewrite skipWS_app by exact Hclose. reflexivity.
  - change (encodeMembers enc indent close ((k, v) :: (k', v') :: l))
      with (indent +:+ encodeString k +:+ ": " +:+ enc v +:+ ","
                   +:+ encodeMembers enc indent close ((k', v') :: l)).
    rewrite !app_assoc_s.
    cbn [parseMembers].
    rewrite parseString_encode by exact Hindent.
    change (expect ":" (": " +:+ enc v +:+ "," +:+
                             encodeMembers enc indent close ((k', v') :: l) +:+ r))
      with (Some (String " " (enc v +:+ "," +:+
                             encodeMembers enc indent close ((k', v') :: l) +:+ r))).
    cbv iota beta. rewrite Hpv. cbv iota beta.
    change (skipWS ("," +:+ encodeMembers enc indent close ((k', v') :: l) +:+ r))
      with (String "," (encodeMembers enc indent close ((k', v') :: l) +:+ r)).
    cbv iota beta. change (Ascii.eqb "," ",") with true. cbv iota.
    rewrite IH; [reflexivity|discriminate|simpl in *; lia].
Qed.

Lemma encodeMembers_length (l : list (string * V)) :
  (length l <= String.length (encodeMembers enc indent close l))%nat.
Proof.
  induction l as [|[k v] l IH]; [simpl; lia|].
  destruct l as [|[k' v'] l].
  - change (encodeMembers enc indent close [(k, v)])
      with (indent +:+ encodeString k +:+ ": " +:+ enc v +:+ close +:+ "}").
    rewrite length_app_s, encodeString_app. simpl. lia.
  - change (encodeMembers enc indent close ((k, v) :: (k', v') :: l))
      with (indent +:+ encodeString k +:+ ": " +:+ enc v +:+ ","
                   +:+ encodeMembers enc indent close ((k', v') :: l)).
    set (tail := encodeMembers enc indent close ((k', v') :: l)) in *.
    rewrite !length_app_s. cbn [length String.length] in *. lia.
Qed.

Lemma encodeMembers_head (l : list (string * V)) (r : string) :
  l <> [] -> expect "}" (encodeMembers enc indent close l +:+ r) = None.
Proof.
  destruct l as [|[k v] l]; [congruence|]. intros _.
  assert (E : exists rest, encodeMembers enc indent close ((k, v) :: l) +:+ r
                           = indent +:+ String dquote rest).
  { destruct l as [|[k' v'] l].
    - change (encodeMembers enc indent close [(k, v)])
        with (indent +:+ encodeString k +:+ ": " +:+ enc v +:+ close +:+ "}").
      rewrite !app_assoc_s, encodeString_app. eauto.
    - change (encodeMembers enc indent close ((k, v) :: (k', v') :: l))
        with (indent +:+ encodeString k +:+ ": " +:+ enc v +:+ ","
                     +:+ encodeMembers enc indent close ((k', v') :: l)).
      rewrite !app_assoc_s, encodeString_app. eauto. }
  destruct E as [rest ->]. unfold expect. rewrite skipWS_app by exact Hindent.
  reflexivity.
Qed.

Lemma parseObject_encode (ws : string) (l : list (string * V)) (r : string) :
  isWS ws ->
  parseObject pv (ws +:+ encodeObject enc indent close l +:+ r) = Some (l, r).
Proof.
  intros Hws. unfold parseObject, expect at 1. rewrite skipWS_app by exact Hws.
  destruct l as [|e l].
  - reflexivity.
  - unfold encodeObject.
    change (skipWS (("{" +:+ encodeMembers enc indent close (e :: l)) +:+ r))
      with (String "{" (encodeMembers enc indent close (e :: l) +:+ r)).
    cbv iota beta. change (Ascii.eqb "{" "{") with true. cbv iota.
    rewrite encodeMembers_head by discriminate.
    apply parseMembers_encode; [discriminate|].
    rewrite length_app_s. pose proof (encodeMembers_length (e :: l)). lia.
Qed.
End Members.

Lemma parseZ_Itoa (z : Z) : parseZ (Itoa z) = Some z.
Proof.
  unfold parseZ, Itoa. rewrite NilZero.isi.
  - simpl. rewrite DecimalZ.of_to. reflexivity.
  - destruct z; simpl; [discriminate| |discriminate].
    intros [= Hp]. exact (DecimalPos.Unsigned.to_uint_nonnil _ Hp).
  - destruct z; simpl; [discriminate|discriminate|].
    intros [= Hp]. exact (DecimalPos.Unsigned.to_uint_nonnil _ Hp).
Qed.

Lemma IndexByte_app (a b : string) (c : ascii) :
  string_forallb (fun x => negb (Ascii.eqb x c)) a = true ->
  IndexByte (a +:+ String c b) c = Some (String.length a).
Proof.
  induction a as [|x a IH]; simpl.
  - rewrite Ascii.eqb_refl. reflexivity.
  - intros Hx. apply andb_true_iff in Hx as [Hx Ha].
    apply negb_true_iff in Hx. rewrite Hx, (IH Ha). reflexivity.
Qed.

Lemma substring_app (a b : string) : substring 0 (String.length a) (a +:+ b) = a.
Proof.
  induction a as [|x a IH]; simpl; [destruct b; reflexivity|]. rewrite IH. reflexivity.
Qed.

Lemma string_drop_app (a b : string) : string_drop (String.length a) (a +:+ b) = b.
Proof. induction a as [|x a IH]; simpl; [reflexivity|exact IH]. Qed.

Lemma Itoa_no_colon (z : Z) :
  string_forallb (fun x => negb (Ascii.eqb x ":")) (Itoa z) = true.
Proof.
  eapply string_forallb_impl; [|apply Itoa_chars].
  intros c. each_byte c.
Qed.

Lemma decodeTime_encodeTime (t : Time) : decodeTime (encodeTime t) = Some t.
Proof.
  destruct t as [sec nsec]. unfold decodeTime, encodeTime. cbn [wall_sec wall_nsec].
  change (Itoa sec +:+ ":" +:+ Itoa nsec) with (Itoa sec +:+ String ":" (Itoa nsec)).
  rewrite IndexByte_app by apply Itoa_no_colon.
  unfold slice, sliceFrom. rewrite Nat.sub_0_r, substring_app.
  replace (String.length (Itoa sec) + 1)%nat with (S (String.length (Itoa sec))) by lia.
  change (Itoa sec +:+ String ":" (Itoa nsec))
    with (Itoa sec +:+ (String ":" "" +:+ Itoa nsec)).
  rewrite <- app_assoc_s.
  replace (S (String.length (Itoa sec)))
    with (String.length (Itoa sec +:+ String ":" "")) by (rewrite length_app_s; simpl; lia).
  rewrite string_drop_app, !parseZ_Itoa. reflexivity.
Qed.

Lemma clientOfFields_clientFields (c : Client) : clientOfFields (clientFields c) = Some c.
Proof.
  destruct c as [i n u a p t]. unfold clientOfFields, clientFields.
  cbn [ID Name UUID Address ConfigPath CreatedAt].
  pose proof (decodeTime_encodeTime t) as Ht.
  generalize dependent (encodeTime t). intros et Ht.
  destruct (String.eqb_spec a "") as [->|Hne]; simpl; rewrite Ht; reflexivity.
Qed.

Lemma isWS_nl_spaces (n : nat) : isWS (nl (string_of_list_ascii (repeat " "%char n))).
Proof. unfold isWS, nl. simpl. induction n; simpl; auto. Qed.

Lemma parseClient_encode (c : Client) (r : string) :
  parseClient (String " " (encodeClient c +:+ r)) = Some (c, r).
Proof.
  unfold parseClient, encodeClient.
  pose proof (parseObject_encode encodeString parseString (nl "    ") (nl "  ")
                (isWS_nl_spaces 4) (isWS_nl_spaces 2)
                (fun v r => parseString_encode " " v r eq_refl)
                " " (clientFields c) r eq_refl) as Hp.
  change (" " +:+ ?x) with (String " " x) in Hp. rewrite Hp.
  rewrite clientOfFields_clientFields. reflexivity.
Qed.

Lemma skipWS_ws (t : string) : isWS t -> skipWS t = "".
Proof. intros Ht. rewrite <- (app_nil_r_s t). apply (skipWS_app t "" Ht). Qed.

Lemma decodeClients_encode (store : gmap string Client) (tail : string) :
  isWS tail ->
  decodeClients (encodeObject encodeClient (nl "  ") (nl "") (sortedEntries store) +:+ tail)
  = Ok store.
Proof.
  intros Ht. unfold decodeClients.
  pose proof (parseObject_encode encodeClient parseClient (nl "  ") (nl "")
                (isWS_nl_spaces 2) (isWS_nl_spaces 0) parseClient_encode
                "" (sortedEntries store) tail eq_refl) as Hp.
  change ("" +:+ ?x) with x in Hp. rewrite Hp, (skipWS_ws tail Ht).
  change (String.eqb "" "") with true. cbv iota. f_equal. symmetry.
  apply list_to_map_flip.
  etransitivity; [|apply Permutation_rev].
  symmetry. apply merge_sort_Permutation.
Qed.

Lemma encodeObject_brace {V} (enc : V -> string) (indent close : string)
      (l : list (string * V)) (tail : string) :
  string_existsb (Ascii.eqb "{") (encodeObject enc indent close l +:+ tail) = true.
Proof. destruct l; reflexivity. Qed.

(** The reference codec decodes what it encodes, whatever the map. *)
Lemma reference_roundTrip (store : gmap string Client) (raw : string) :
  marshalPretty encodeClients store = Ok raw ->
  TrimSpace raw <> "" /\ decodeClients raw = Ok store.
Proof.
  intros Hraw.
  apply marshalPretty_newline in Hraw as [_ (encoded & Henc & Hraw)].
  unfold encodeClients in Henc. injection Henc as <-.
  assert (Htail : exists tail, isWS tail /\
             raw = encodeObject encodeClient (nl "  ") (nl "") (sortedEntries store)
                   +:+ tail).
  { destruct Hraw as [->| ->].
    - exists "". split; [reflexivity|]. symmetry. apply app_nil_r_s.
    - exists (String newline ""). split; reflexivity. }
  destruct Htail as (tail & Ht & ->). split.
  - pose proof (solid_not_blank "{" _ eq_refl
                  (encodeObject_brace encodeClient (nl "  ") (nl "")
                                      (sortedEntries store) tail)) as Hb.
    unfold isBlank in Hb. intros Hz. rewrite Hz in Hb. discriminate.
  - apply decodeClients_encode, Ht.
Qed.

Lemma reference_codecRoundTrip : @codecRoundTrip referenceJSON.
Proof. intros store raw _ Hraw. apply (reference_roundTrip store raw Hraw). Qed.

(** On a map whose strings are valid UTF-8 the codec that coerces
    strings works as the reference codec does. *)
Lemma coerce_sortedEntries (store : gmap string Client) :
  storeValid store -> List.map coerceEntry (sortedEntries store) = sortedEntries store.
Proof.
  intros Hv. rewrite <- (map_id (sortedEntries store)) at 2.
  apply map_ext_in. intros [k c] Hin.
  assert (Hc : store !! k = Some c).
  { apply elem_of_map_to_list. apply list_elem_of_In in Hin.
    unfold sortedEntries in Hin. rewrite merge_sort_Permutation in Hin. exact Hin. }
  destruct (Hv k c Hc) as [Hk Hcv]. unfold coerceEntry. simpl.
  rewrite (coerceUTF8_valid k Hk), (coerceClient_valid c Hcv). reflexivity.
Qed.

Lemma decodeClientsGo_reference (store : gmap string Client) (raw : string) :
  storeValid store -> decodeClients raw = Ok store ->
  (exists tail, raw = encodeObject encodeClient (nl "  ") (nl "") (sortedEntries store)
                      +:+ tail /\ isWS tail) ->
  decodeClientsGo raw = Ok store.
Proof.
  intros Hv Hd (tail & -> & Ht). unfold decodeClientsGo.
  pose proof (parseObject_encode encodeClient parseClient (nl "  ") (nl "")
                (isWS_nl_spaces 2) (isWS_nl_spaces 0) parseClient_encode
                "" (sortedEntries store) tail eq_refl) as Hp.
  change ("" +:+ ?x) with x in Hp. rewrite Hp, (skipWS_ws tail Ht).
  change (String.eqb "" "") with true. cbv iota.
  rewrite (coerce_sortedEntries store Hv).
  unfold decodeClients in Hd. rewrite Hp, (skipWS_ws tail Ht) in Hd. exact Hd.
Qed.

Lemma go_codecRoundTrip : @codecRoundTrip goJSON.
Proof.
  intros store raw Hv Hraw.
  assert (Href : marshalPretty encodeClients store = Ok raw).
  { revert Hraw. unfold marshalPretty. cbn [json_MarshalIndent_clients goJSON].
    unfold encodeClientsGo, encodeClients. rewrite (coerce_sortedEntries store Hv).
    auto. }
  destruct (reference_roundTrip store raw Href) as [Hnb Hd].
  split; [exact Hnb|]. cbn [json_Unmarshal_clients goJSON].
  apply (decodeClientsGo_reference store raw Hv Hd).
  apply marshalPretty_newline in Href as [_ (encoded & Henc & Hr)].
  unfold encodeClients in Henc. injection Henc as <-.
  destruct Hr as [->| ->].
  - exists "". split; [symmetry; apply app_nil_r_s|reflexivity].
  - exists (String newline ""). split; reflexivity.
Qed.

(** ** The statements at work *)

(** The examples run the manager with the reference implementations of
    the library interfaces, in worlds without faults. *)

Lemma layoutOK_example : layoutOK exampleManager.
Proof.
  unfold layoutOK, safePath, protected. vm_compute.
  repeat split; intros H; repeat (destruct H as [H|H]; try discriminate H); discriminate H.
Qed.

Lemma loadClientsLocked_file_cases_witness :
  @loadClientsLocked referenceJSON exampleManager emptyWorld
  = (Ok ∅, snd (nextFault emptyWorld)) /\
  @loadClientsLocked referenceJSON exampleManager (worldWithState (String newline " "))
  = (Ok ∅, snd (nextFault (worldWithState (String newline " ")))) /\
  @loadClientsLocked referenceJSON exampleManager (worldWithState "{ broken")
  = (Err (Wrapped "parse clients state" (JSONError "invalid client map")),
     snd (nextFault (worldWithState "{ broken"))) /\
  (* a directory where the state file should be *)
  exists en op,
    (en = EISDIR \/ en = ENOTDIR) /\
    @loadClientsLocked referenceJSON exampleManager
      (setDirs {[ statePath exampleManager := 448 ]} emptyWorld)
    = (Err (Wrapped "read clients state" (PathError op (statePath exampleManager) en)),
       snd (nextFault (setDirs {[ statePath exampleManager := 448 ]} emptyWorld))).
Proof.
  split; [|split; [|split]].
  - apply (@loadClientsLocked_file_cases referenceJSON exampleManager emptyWorld);
      reflexivity.
  - apply (proj1 (proj2 (@loadClientsLocked_file_cases referenceJSON exampleManager
                           (worldWithState (String newline " "))))
             (mkFile (String newline " ") 384));
      reflexivity.
  - apply (proj1 (proj2 (proj2 (@loadClientsLocked_file_cases referenceJSON exampleManager
                                  (worldWithState "{ broken"))))
             (mkFile "{ broken" 384));
      [reflexivity|reflexivity|discriminate|reflexivity].
  - destruct (proj2 (proj2 (proj2 (proj2
                (@loadClientsLocked_file_cases referenceJSON exampleManager
                   (setDirs {[ statePath exampleManager := 448 ]} emptyWorld))))))
      as (en & Hen & op & Hload).
    + reflexivity.
    + reflexivity.
    + left. eexists. reflexivity.
    + exists en, op. split; [exact Hen|exact Hload].
Defined.

Lemma saveClientsLocked_atomic_witness :
  let m := exampleManager in
  (* a save that succeeds *)
  let ok := @saveClientsLocked referenceJSON m exampleStore emptyWorld in
  (* a save over an existing store, hit by a full disk after 5 bytes *)
  let w := setFaults [NoFault; Fault FaultNoSpace 5] (worldWithState exampleStoreJSON) in
  let ko := @saveClientsLocked referenceJSON m ∅ w in
  fst ok = Ok tt /\
  (exists raw, files (snd ok) !! statePath m = Some (mkFile raw 384) /\
               string_last raw = Some newline) /\
  files (snd ok) !! (statePath m +:+ ".tmp") = None /\
  fst ko = Err (Wrapped "write clients state"
                        (PathError "write" (statePath m +:+ ".tmp") ENOSPC)) /\
  files (snd ko) !! statePath m = Some (mkFile exampleStoreJSON 384).
Proof.
  intros m ok w ko.
  pose proof (@saveClientsLocked_atomic referenceJSON m exampleStore emptyWorld
                (snd ok) (fst ok) (surjective_pairing ok)) as [_ Hok].
  pose proof (@saveClientsLocked_atomic referenceJSON m ∅ w
                (snd ko) (fst ko) (surjective_pairing ko)) as [_ Hko].
  assert (Eok : fst ok = Ok tt) by reflexivity.
  assert (Eko : fst ko = Err (Wrapped "write clients state"
                                (PathError "write" (statePath m +:+ ".tmp") ENOSPC)))
    by reflexivity.
  rewrite Eok in Hok. rewrite Eko in Hko.
  destruct Hok as (encoded & raw & Henc & _ & Hraw & Hnl & Hfile & Htmp).
  split; [exact Eok|]. split; [eauto|]. split; [exact Htmp|]. split; [exact Eko|].
  rewrite Hko. reflexivity.
Defined.

Lemma saveClientsLocked_normalizes_witness :
  let m := exampleManager in
  let w' := snd (@saveClientsLocked referenceJSON m exampleStore emptyWorld) in
  exists stored raw,
    files w' !! statePath m = Some (mkFile raw 384) /\
    @json_Unmarshal_clients referenceJSON raw = Ok stored /\
    (ID <$> stored !! "phone") = Some "phone" /\
    (ConfigPath <$> stored !! "phone") = Some "/etc/vpn/clients/phone.json" /\
    stored !! "laptop" = Some exampleClient.
Proof.
  intros m w'.
  destruct (@saveClientsLocked_normalizes referenceJSON m exampleStore emptyWorld w')
    as (stored & raw & Hraw & Hfile & Hdom & Hrec);
    [apply (run_Ok (@saveClientsLocked referenceJSON m _) emptyWorld tt); reflexivity|].
  exists stored, raw. split; [exact Hfile|].
  split; [apply (reference_roundTrip stored raw Hraw)|].
  assert (Hin : forall id c0, exampleStore !! id = Some c0 -> is_Some (stored !! id)).
  { intros id c0 Hid. apply elem_of_dom. rewrite Hdom. apply elem_of_dom. eauto. }
  destruct (Hin "phone" _ eq_refl) as [c Hc].
  destruct (Hin "laptop" _ eq_refl) as [c' Hc'].
  destruct (Hrec "phone" c Hc) as (Hid & _ & c0 & Hc0 & Hpath & _).
  destruct (Hrec "laptop" c' Hc') as (Hid' & _ & c0' & Hc0' & Hpath' & Hn & Hu & Ha & Ht).
  rewrite Hc, Hc'. simpl.
  injection Hc0 as <-. injection Hc0' as <-.
  split; [rewrite Hid; reflexivity|]. split; [rewrite Hpath; reflexivity|].
  destruct c'; simpl in *. subst. reflexivity.
Defined.

(** The maps of the examples hold valid UTF-8 only. *)
Lemma exampleStore_valid : storeValid (normalizedClients exampleManager exampleStore).
Proof.
  intros id c Hc. rewrite normalizedClients_lookup in Hc.
  apply fmap_Some in Hc as (c0 & Hc0 & ->). unfold exampleStore in Hc0.
  apply lookup_insert_Some in Hc0 as [[<- <-]|[_ Hc0]].
  - vm_compute. repeat split; reflexivity.
  - apply lookup_singleton_Some in Hc0 as [<- <-]. vm_compute. repeat split; reflexivity.
Qed.

Lemma exampleClient_valid :
  storeValid (normalizedClients exampleManager {[ "laptop" := exampleClient ]}).
Proof.
  intros id c Hc. rewrite normalizedClients_lookup in Hc.
  apply fmap_Some in Hc as (c0 & Hc0 & ->).
  apply lookup_singleton_Some in Hc0 as [<- <-]. vm_compute. repeat split; reflexivity.
Qed.

Lemma save_load_roundtrip_witness :
  let m := exampleManager in
  let phone := mkClient "" "Phone" "" "" "" zeroTime in
  let w1 := snd (@saveClientsLocked goJSON m exampleStore emptyWorld) in
  let w1' := snd (@saveClientsLocked goJSON m {[ "laptop" := exampleClient ]}
                                     emptyWorld) in
  (* a record with all its fields comes back as it was saved *)
  @loadClientsLocked goJSON m w1' = (Ok {[ "laptop" := exampleClient ]}, w1') /\
  (* a record with a name only comes back completed *)
  exists loaded w2 c',
    @loadClientsLocked goJSON m w1 = (Ok loaded, w2) /\
    dom loaded = dom exampleStore /\
    loaded !! "laptop" = Some exampleClient /\
    loaded !! "phone" = Some c' /\
    ID c' = "phone" /\ Name c' = "Phone" /\
    (exists b, length b = 16%nat /\ UUID c' = formatUUID b) /\
    Address c' = UUID c' /\
    ConfigPath c' = clientConfigPath m "phone" /\
    CreatedAt c' = clock w1.
Proof.
  intros m phone w1 w1'. split.
  - apply (@save_load_roundtrip goJSON m {[ "laptop" := exampleClient ]}
             emptyWorld w1').
    + apply (run_Ok (@saveClientsLocked goJSON m _) emptyWorld tt). reflexivity.
    + intros raw. apply go_codecRoundTrip, exampleClient_valid.
    + reflexivity.
    + intros id c Hc. apply lookup_singleton_Some in Hc as [<- <-]. reflexivity.
  - destruct (@save_load_roundtrip goJSON m exampleStore emptyWorld w1)
      as [Hany _].
    + apply (run_Ok (@saveClientsLocked goJSON m _) emptyWorld tt). reflexivity.
    + intros raw. apply go_codecRoundTrip, exampleStore_valid.
    + assert (Hrun : exists loaded,
                 fst (@loadClientsLocked goJSON m w1) = Ok loaded)
        by (eexists; vm_compute; reflexivity).
      destruct Hrun as [loaded Hrun]. apply run_Ok in Hrun.
      destruct (Hany loaded _ Hrun) as [Hdom Hrec].
      destruct (Hrec "laptop" exampleClient eq_refl)
        as (c & Hc & _ & _ & _ & _ & _ & _ & Hsame).
      destruct (Hrec "phone" phone eq_refl)
        as (c' & Hc' & Hid & Hname & Huuid & Haddr & Hpath & Htime & _).
      exists loaded, (snd (@loadClientsLocked goJSON m w1)), c'.
      split; [exact Hrun|]. split; [exact Hdom|].
      split; [rewrite Hc, (Hsame eq_refl); reflexivity|].
      split; [exact Hc'|].
      split; [exact Hid|]. split; [exact Hname|]. split; [exact Huuid|].
      split; [exact Haddr|]. split; [exact Hpath|exact Htime].
Defined.

(** The claim as it stood, for every client map, fails where a string
    is not valid UTF-8.  The record below has all its fields and its key
    as id; its name ends in the byte 0xE9, the Latin-1 for an e with an
    acute accent.  With a codec that, as [encoding/json], writes and
    reads such a byte as U+FFFD, the save succeeds, the load succeeds,
    and the record comes back with another name: the map loaded is not
    the map saved. *)
Lemma save_load_not_roundtrip_invalid_utf8 :
  let m := exampleManager in
  let c := setName ("caf" +:+ bytes [233]%N) exampleClient in
  let c' := setName ("caf" +:+ replacementChar) exampleClient in
  let store : gmap string Client := {[ "laptop" := c ]} in
  let saved := @saveClientsLocked goJSON m store emptyWorld in
  let loaded := @loadClientsLocked goJSON m (snd saved) in
  store <> ∅ /\
  populated "laptop" c = true /\
  ValidString (Name c) = false /\
  fst saved = Ok tt /\
  fst loaded = Ok {[ "laptop" := c' ]} /\
  c' <> c /\
  fst loaded <> Ok store.
Proof.
  intros m c c' store saved loaded.
  assert (Hne : c' <> c) by (intros Heq; discriminate Heq).
  assert (Hload : fst loaded = Ok {[ "laptop" := c' ]}) by (vm_compute; reflexivity).
  split; [apply insert_non_empty|]. split; [reflexivity|]. split; [reflexivity|].
  split; [reflexivity|]. split; [exact Hload|]. split; [exact Hne|].
  rewrite Hload. intros Heq.
  apply (f_equal (fun r : result (gmap string Client) =>
                    match r with Ok s => s !! "laptop" | Err _ => None end)) in Heq.
  cbv beta iota in Heq. unfold store in Heq.
  rewrite !lookup_singleton_eq in Heq. apply Hne, (inj Some), Heq.
Qed.



(* ===================================================================== *)
(** * Further properties *)
(* ===================================================================== *)

(** ** Trimming twice *)

Lemma spaceEncodings_nonempty (p : string) : In p spaceEncodings -> p <> "".
Proof.
  intros Hin ->. revert Hin. unfold spaceEncodings. simpl.
  intuition discriminate.
Qed.

Lemma rev_spaceEncodings_nonempty (p : string) :
  In p (List.map String.rev spaceEncodings) -> p <> "".
Proof.
  intros Hin ->. revert Hin. unfold spaceEncodings. simpl.
  intuition discriminate.
Qed.

Lemma HasPrefix_empty (p : string) : p <> "" -> HasPrefix "" p = false.
Proof. destruct p; [congruence|reflexivity]. Qed.

Lemma HasPrefix_app (s x p : string) :
  HasPrefix s p = true -> HasPrefix (s +:+ x) p = true.
Proof.
  revert s. induction p as [|a p IH]; intros s.
  - intros _. destruct (s +:+ x); reflexivity.
  - destruct s as [|b s]; simpl; [discriminate|].
    intros H. apply andb_true_iff in H as [Hab Hp]. rewrite Hab. simpl. apply IH, Hp.
Qed.

Lemma matchPrefix_zero (pats : list string) (s : string) :
  (forall p, In p pats -> p <> "") ->
  matchPrefix pats s = O <-> forall p, In p pats -> HasPrefix s p = false.
Proof.
  intros Hne. induction pats as [|p ps IH]; simpl.
  - split; [intros _ p []|reflexivity].
  - destruct (HasPrefix s p) eqn:E.
    + split.
      * intros Hz. exfalso. apply (Hne p (or_introl eq_refl)).
        destruct p; [reflexivity|discriminate].
      * intros H. rewrite (H p (or_introl eq_refl)) in E. discriminate.
    + rewrite IH by (intros q Hq; apply Hne; right; exact Hq). split.
      * intros H q [<-|Hq]; [exact E|apply H, Hq].
      * intros H q Hq. apply H. right. exact Hq.
Qed.

Lemma dropRunes_fixed (pats : list string) (fuel : nat) (s : string) :
  matchPrefix pats s = O -> dropRunes pats fuel s = s.
Proof. intros H. destruct fuel; simpl; [reflexivity|]. rewrite H. reflexivity. Qed.

Lemma dropRunes_done (pats : list string) :
  (forall p, In p pats -> p <> "") ->
  forall fuel s, (String.length s <= fuel)%nat ->
                 matchPrefix pats (dropRunes pats fuel s) = O.
Proof.
  intros Hne. induction fuel as [|fuel IH]; intros s Hlen.
  - destruct s; [|simpl in Hlen; lia]. simpl.
    apply matchPrefix_zero; [exact Hne|]. intros p Hp. apply HasPrefix_empty, Hne, Hp.
  - simpl. destruct (matchPrefix_spec pats s) as [E|(p & Hin & E & Hsplit)].
    + rewrite E. exact E.
    + rewrite E.
      assert (Hp : (0 < String.length p)%nat).
      { pose proof (Hne p Hin). destruct p; [congruence|simpl; lia]. }
      destruct (String.length p) as [|n] eqn:En; [lia|].
      apply IH.
      apply (f_equal String.length) in Hsplit. rewrite length_app_s in Hsplit.
      rewrite En in Hsplit.
      change (String.length (string_drop (S n) s) <= fuel)%nat. lia.
Qed.

Lemma dropRunes_suffix (pats : list string) (fuel : nat) (s : string) :
  exists y, s = y +:+ dropRunes pats fuel s.
Proof.
  revert s. induction fuel as [|fuel IH]; intros s; simpl; [exists ""; reflexivity|].
  destruct (matchPrefix_spec pats s) as [E|(p & Hin & E & Hsplit)]; rewrite E.
  - exists "". reflexivity.
  - destruct (String.length p) as [|n] eqn:En; [exists ""; reflexivity|].
    destruct (IH (string_drop (S n) s)) as [y Hy].
    exists (p +:+ y).
    change (s = (p +:+ y) +:+ dropRunes pats fuel (string_drop (S n) s)).
    rewrite app_assoc_s, <- Hy. exact Hsplit.
Qed.

Lemma TrimRightSpace_prefix (t : string) : exists y, t = TrimRightSpace t +:+ y.
Proof.
  unfold TrimRightSpace.
  destruct (dropRunes_suffix (List.map String.rev spaceEncodings) (String.length t)
                             (String.rev t)) as [y Hy].
  exists (String.rev y).
  rewrite <- rev_app_distr_s, <- Hy, rev_involutive_s. reflexivity.
Qed.

Lemma TrimRightSpace_idem (t : string) :
  TrimRightSpace (TrimRightSpace t) = TrimRightSpace t.
Proof.
  unfold TrimRightSpace at 1.
  set (d := dropRunes (List.map String.rev spaceEncodings) (String.length t)
                      (String.rev t)).
  change (TrimRightSpace t) with (String.rev d).
  rewrite rev_involutive_s. f_equal. apply dropRunes_fixed.
  apply dropRunes_done; [apply rev_spaceEncodings_nonempty|].
  rewrite length_rev_s. lia.
Qed.

Lemma TrimLeftSpace_done (s : string) : matchPrefix spaceEncodings (TrimLeftSpace s) = O.
Proof. apply dropRunes_done; [apply spaceEncodings_nonempty|lia]. Qed.

(** [strings.TrimSpace] leaves nothing to trim. *)
Lemma TrimSpace_idem (s : string) : TrimSpace (TrimSpace s) = TrimSpace s.
Proof.
  unfold TrimSpace at 1 2. set (t := TrimLeftSpace s).
  assert (Hleft : TrimLeftSpace (TrimRightSpace t) = TrimRightSpace t).
  { apply dropRunes_fixed.
    apply matchPrefix_zero; [apply spaceEncodings_nonempty|].
    intros p Hp. destruct (HasPrefix (TrimRightSpace t) p) eqn:E; [|reflexivity].
    destruct (TrimRightSpace_prefix t) as [y Hy].
    pose proof (HasPrefix_app _ y _ E) as E'. rewrite <- Hy in E'.
    pose proof (TrimLeftSpace_done s) as Hz. fold t in Hz.
    rewrite (proj1 (matchPrefix_zero _ _ spaceEncodings_nonempty) Hz p Hp) in E'.
    discriminate. }
  rewrite Hleft. apply TrimRightSpace_idem.
Qed.

Lemma TrimSpace_not_blank (s : string) :
  TrimSpace s <> "" -> isBlank (TrimSpace s) = false.
Proof.
  intros Hne. unfold isBlank. rewrite TrimSpace_idem.
  apply String.eqb_neq, Hne.
Qed.

(** ** Client ids *)

Lemma idChar_solid (c : ascii) : idChar c = true -> solid c = true.
Proof. each_byte c. Qed.

Lemma idChars_not_blank (s : string) :
  s <> "" -> string_forallb idChar s = true -> isBlank s = false.
Proof.
  destruct s as [|c r]; [congruence|]. intros _ H. simpl in H.
  apply andb_true_iff in H as [Hc _].
  apply (solid_not_blank c); [apply idChar_solid, Hc|].
  simpl. rewrite Ascii.eqb_refl. reflexivity.
Qed.

Lemma idChars_no_upper (s : string) :
  string_forallb idChar s = true -> string_existsb is_upper s = false.
Proof.
  induction s as [|c s IH]; simpl; [reflexivity|].
  intros H. apply andb_true_iff in H as [Hc Hs].
  rewrite (idChar_lowercase c Hc), (IH Hs). reflexivity.
Qed.

(** X1. Whatever the name, the client map and the Unicode case table,
    the id [sanitizeClientID] derives and the id
    [allocateClientIDLocked] returns are not empty, not blank, and made
    of the bytes [a-z0-9._-] only; in particular they hold no upper-case
    letter. *)
Theorem client_id_wellformed `{UnicodeTables} (now : Time) (name : string)
        (clients : gmap string Client) :
  let base := sanitizeClientID name in
  let id := allocateClientIDLocked now name clients in
  (base <> "" /\ string_forallb idChar base = true) /\
  id <> "" /\
  string_forallb idChar id = true /\
  string_existsb is_upper id = false /\
  isBlank id = false.
Proof.
  intros base id.
  destruct (allocateClientIDLocked_charset now name clients) as [Hne Hcs].
  split; [apply sanitizeClientID_charset|].
  split; [exact Hne|]. split; [exact Hcs|].
  split; [apply idChars_no_upper, Hcs|apply idChars_not_blank; assumption].
Qed.

(** X2. [allocateClientIDLocked] returns the sanitized name when the map
    has no record under it; otherwise [base-j] for the least [j] from 2
    to 9999 such that the map has no record under [base-j]; and only when
    the base and all these are taken, [base-<unix time>].  In the first
    two cases the id is not a key of the map. *)
Theorem client_id_fresh `{UnicodeTables} (now : Time) (name : string)
        (clients : gmap string Client) :
  let base := sanitizeClientID name in
  let id := allocateClientIDLocked now name clients in
  (clients !! base = None /\ id = base) \/
  (clients !! base <> None /\
   exists j, 2 <= j < 10000 /\ id = suffixed base j /\ clients !! id = None /\
             forall k, 2 <= k < j -> clients !! suffixed base k <> None) \/
  (clients !! base <> None /\
   (forall k, 2 <= k < 10000 -> clients !! suffixed base k <> None) /\
   id = suffixed base (Unix now)).
Proof.
  intros base id. subst id. unfold allocateClientIDLocked. fold base.
  destruct (clients !! base) eqn:Eb; [|left; auto].
  right.
  destruct (allocateLoop base clients 2 (Z.to_nat 9998)) eqn:El.
  - left. split; [discriminate|].
    apply allocateLoop_Some in El as (j & Hj & -> & Hfree & Hbelow).
    exists j. split; [lia|]. auto.
  - right. split; [discriminate|]. split; [|reflexivity].
    intros k Hk. apply (proj1 (allocateLoop_None _ _ _ _) El). lia.
Qed.

(** ** Generated UUIDs *)

Lemma hexByte_hex (x : Z) :
  is_hex_lower (hexDigit (Z.shiftr (x mod 256) 4)) = true /\
  is_hex_lower (hexDigit (Z.land x 15)) = true.
Proof. split; apply hexDigit_hex; [apply high_nibble|apply low_nibble]. Qed.

(** The version and variant bits. *)
Lemma version_nibble (x : Z) :
  hexDigit (Z.shiftr (Z.lor (Z.land x 15) 64 mod 256) 4) = "4"%char.
Proof.
  apply Ascii.eqb_eq.
  apply (below_forallb 16
           (fun r => Ascii.eqb (hexDigit (Z.shiftr (Z.lor r 64 mod 256) 4)) "4"));
    [reflexivity|apply low_nibble].
Qed.

Lemma variant_nibble (x : Z) :
  existsb (Ascii.eqb (hexDigit (Z.shiftr (Z.lor (Z.land x 63) 128 mod 256) 4)))
          ["8"; "9"; "a"; "b"]%char = true.
Proof.
  apply (below_forallb 64
           (fun r => existsb (Ascii.eqb (hexDigit (Z.shiftr (Z.lor r 128 mod 256) 4)))
                             ["8"; "9"; "a"; "b"]%char));
    [reflexivity|exact (low_bits x 6 ltac:(lia))].
Qed.

Lemma formatUUID_shape (b : list Z) :
  length b = 16%nat -> isUUIDv4 (formatUUID b) = true.
Proof.
  intros Hlen.
  do 16 (destruct b as [|? b]; [discriminate Hlen|]).
  destruct b; [|discriminate Hlen]. clear Hlen.
  cbv [formatUUID sliceL take drop insert list_insert hexEncode hexByte String.append
       nth Nat.sub isUUIDv4 uuidShape Nat.eqb].
  repeat (apply andb_true_intro; split);
    first [ reflexivity
          | apply hexDigit_hex, high_nibble
          | apply hexDigit_hex, low_nibble
          | apply Ascii.eqb_eq, version_nibble
          | apply variant_nibble ].
Qed.

Lemma uuidShape_length (s : string) (i : nat) :
  uuidShape i s = true -> (i + String.length s = 36)%nat.
Proof.
  revert i. induction s as [|c s IH]; intros i; simpl.
  - intros H. apply Nat.eqb_eq in H. lia.
  - intros H. apply andb_true_iff in H as [_ H]. apply IH in H. lia.
Qed.

(** X3. [generateUUID] either fails, when fewer than 16 random bytes can
    be read, and then changes nothing; or it consumes exactly 16 random
    bytes, touches nothing else, and returns the text of a version 4
    UUID whatever the bytes were: 36 bytes, lower-case hexadecimal digits
    in groups of 8, 4, 4, 4 and 12 separated by dashes, the third group
    starting with 4 and the fourth with 8, 9, a or b. *)
Theorem generateUUID_spec (w : World) :
  match generateUUID w with
  | (Ok u, w') =>
      isUUIDv4 u = true /\ String.length u = 36%nat /\ isBlank u = false /\
      (16 <= length (entropy w))%nat /\
      w' = setEntropy (drop 16 (entropy w)) w
  | (Err e, w') =>
      e = RandError /\ w' = w /\ (length (entropy w) < 16)%nat
  end.
Proof.
  destruct (generateUUID w) as [[u|e] w'] eqn:E; unfold generateUUID in E.
  - apply bind_Ok_inv in E as (b & w1 & E & [= <- <-]).
    apply rand_Read_inv in E as [(b' & [= <-] & Hb & Htake & ->)|(_ & ? & _)];
      [|discriminate].
    pose proof (formatUUID_shape b Hb) as Hs.
    split; [exact Hs|]. split; [apply (uuidShape_length _ 0), Hs|].
    split; [apply formatUUID_not_blank|]. split; [|reflexivity].
    rewrite Htake, length_take in Hb. lia.
  - apply bind_inv in E as [(e' & E & [= ->])|(b & w1 & _ & ?)]; [|discriminate].
    apply rand_Read_inv in E as [(b & ? & _)|(Hlt & [= ->] & ->)]; [discriminate|].
    auto.
Qed.

(** ** Comma-separated lists *)

Lemma IndexByte_Some_existsb (s : string) (c : ascii) (n : nat) :
  IndexByte s c = Some n -> string_existsb (Ascii.eqb c) s = true.
Proof.
  revert n. induction s as [|a s IH]; intros n; cbn [IndexByte string_existsb];
    [discriminate|].
  destruct (Ascii.eqb a c) eqn:E.
  - apply Ascii.eqb_eq in E as ->. rewrite Ascii.eqb_refl. reflexivity.
  - destruct (IndexByte s c) eqn:Ei; [|discriminate]. intros _.
    rewrite (IH _ eq_refl). apply orb_true_r.
Qed.

Lemma splitByte_app (sep : ascii) (x r cur : string) :
  string_forallb (fun a => negb (Ascii.eqb a sep)) x = true ->
  splitByte sep (x +:+ r) cur = splitByte sep r (String.rev x +:+ cur).
Proof.
  revert cur. induction x as [|c x IH]; intros cur; simpl; [reflexivity|].
  intros H. apply andb_true_iff in H as [Hc Hx]. apply negb_true_iff in Hc.
  rewrite Hc, (IH _ Hx), rev_cons, app_assoc_s. reflexivity.
Qed.

Lemma splitByte_parts (sep : ascii) (s cur : string) :
  string_forallb (fun a => negb (Ascii.eqb a sep)) cur = true ->
  Forall (fun e => string_forallb (fun a => negb (Ascii.eqb a sep)) e = true)
         (splitByte sep s cur).
Proof.
  revert cur. induction s as [|c s IH]; intros cur Hcur; simpl.
  - constructor; [|constructor]. rewrite string_forallb_rev. exact Hcur.
  - destruct (Ascii.eqb c sep) eqn:E.
    + constructor; [rewrite string_forallb_rev; exact Hcur|]. apply IH. reflexivity.
    + apply IH. simpl. rewrite E. exact Hcur.
Qed.

Lemma Split_join (sep : ascii) (l : list string) :
  l <> [] ->
  Forall (fun e => string_forallb (fun a => negb (Ascii.eqb a sep)) e = true) l ->
  Split (joinWith (String sep "") l) sep = l.
Proof.
  unfold Split. induction l as [|x l IH]; [congruence|]. intros _ Hall.
  apply Forall_cons in Hall as [Hx Hl].
  destruct l as [|y l].
  - simpl. rewrite <- (app_nil_r_s x) at 1.
    rewrite (splitByte_app sep x "" "" Hx). simpl.
    rewrite app_nil_r_s, rev_involutive_s. reflexivity.
  - change (joinWith (String sep "") (x :: y :: l))
      with (x +:+ String sep "" +:+ joinWith (String sep "") (y :: l)).
    rewrite (splitByte_app sep x _ "" Hx). simpl.
    rewrite Ascii.eqb_refl, app_nil_r_s, rev_involutive_s. f_equal.
    apply IH; [discriminate|exact Hl].
Qed.

Lemma trimNonEmpty_In (parts : list string) (e : string) :
  In e (trimNonEmpty parts) ->
  exists part, In part parts /\ e = TrimSpace part /\ e <> "".
Proof.
  induction parts as [|p parts IH]; simpl; [tauto|].
  destruct (String.eqb_spec (TrimSpace p) "") as [E|E].
  - intros Hin. destruct (IH Hin) as (part & Hp & He). exists part. auto.
  - intros [<-|Hin].
    + exists p. auto.
    + destruct (IH Hin) as (part & Hp & He). exists part. auto.
Qed.

Lemma trimNonEmpty_fixed (l : list string) :
  (forall e, In e l -> e <> "" /\ TrimSpace e = e) -> trimNonEmpty l = l.
Proof.
  induction l as [|x l IH]; intros H; simpl; [reflexivity|].
  destruct (H x (or_introl eq_refl)) as [Hne Hfix]. rewrite Hfix.
  destruct (String.eqb_spec x "") as [E|_]; [contradiction|].
  f_equal. apply IH. intros e He. apply H. right. exact He.
Qed.

Lemma splitAndTrimCSV_In (raw e : string) :
  In e (splitAndTrimCSV raw) ->
  e <> "" /\ TrimSpace e = e /\ isBlank e = false /\
  string_forallb (fun a => negb (Ascii.eqb a ",")) e = true.
Proof.
  intros Hin. apply trimNonEmpty_In in Hin as (part & Hp & -> & Hne).
  split; [exact Hne|]. split; [apply TrimSpace_idem|].
  split; [apply TrimSpace_not_blank, Hne|].
  apply TrimSpace_forallb.
  pose proof (splitByte_parts "," raw "" eq_refl) as Hall.
  rewrite Forall_forall in Hall. apply Hall, list_elem_of_In, Hp.
Qed.

(** X4. [splitAndTrimCSV] returns fields that are not empty, have no
    white space left at either end and hold no comma; a blank input gives
    no field; and the function is a normal form: joining its result with
    commas and splitting again gives the same list.  The list of the
    repository's test comes out as the test expects. *)
Theorem splitAndTrimCSV_spec (raw : string) :
  (forall e, In e (splitAndTrimCSV raw) ->
             e <> "" /\ TrimSpace e = e /\ isBlank e = false /\ contains e "," = false) /\
  (isBlank raw = true -> splitAndTrimCSV raw = []) /\
  splitAndTrimCSV (joinWith "," (splitAndTrimCSV raw)) = splitAndTrimCSV raw /\
  splitAndTrimCSV " 172.19.0.1/30 , ,10.10.0.1/30 " = ["172.19.0.1/30"; "10.10.0.1/30"].
Proof.
  split; [|split; [|split]].
  - intros e He. destruct (splitAndTrimCSV_In raw e He) as (Hne & Hfix & Hnb & Hnc).
    split; [exact Hne|]. split; [exact Hfix|]. split; [exact Hnb|].
    apply contains_false, IndexByte_None_forallb, Hnc.
  - intros Hb. unfold isBlank in Hb. apply String.eqb_eq in Hb.
    unfold splitAndTrimCSV.
    assert (Hparts : forall p, In p (Split raw ",") -> TrimSpace p = "").
    { intros p Hp. destruct (IndexByte raw ",") eqn:Ei.
      - exfalso.
        pose proof (TrimSpace_keeps_solid "," raw eq_refl
                      (IndexByte_Some_existsb _ _ _ Ei)) as Hk.
        rewrite Hb in Hk. discriminate.
      - apply IndexByte_None_forallb in Ei.
        unfold Split in Hp. rewrite <- (app_nil_r_s raw) in Hp.
        rewrite (splitByte_app "," raw "" "" Ei) in Hp. simpl in Hp.
        rewrite app_nil_r_s, rev_involutive_s in Hp.
        destruct Hp as [<-|[]]. exact Hb. }
    induction (Split raw ",") as [|p ps IH]; simpl; [reflexivity|].
    rewrite (Hparts p (or_introl eq_refl)). simpl.
    apply IH. intros q Hq. apply Hparts. right. exact Hq.
  - unfold splitAndTrimCSV at 1.
    destruct (splitAndTrimCSV raw) as [|x l] eqn:E; [reflexivity|].
    rewrite Split_join; [| discriminate |].
    + apply trimNonEmpty_fixed. intros e He. rewrite <- E in He.
      destruct (splitAndTrimCSV_In raw e He) as (Hne & Hfix & _). auto.
    + apply Forall_forall. intros e He. apply list_elem_of_In in He.
      rewrite <- E in He. apply (splitAndTrimCSV_In raw e He).
  - reflexivity.
Qed.

(** X5. The tun inbound of every client document lists at least one
    address and no blank one: the fields of [ClientTunCIDR], or
    [172.19.0.1/30] when it has none.  The legacy key [inet4_address] is
    never generated. *)
Theorem client_tun_addresses (cfg : Config) (c : Client) :
  let tun := tunInbound (buildClientConfigMap cfg c) in
  exists l,
    field "address" tun = Some (JStrings l) /\
    l <> [] /\
    (forall e, In e l -> isBlank e = false) /\
    l = (match splitAndTrimCSV (ClientTunCIDR cfg) with
         | [] => ["172.19.0.1/30"]
         | fields => fields
         end) /\
    field "inet4_address" tun = None /\
    field "interface_name" tun = Some (JString (ClientTunName cfg)).
Proof.
  intros tun. subst tun.
  destruct (buildClientConfigMap_shape cfg c)
    as (host & port & tun & Hres & Htun & Hin & _).
  unfold tunInbound. rewrite Hin. simpl. subst tun. unfold tunInboundOf.
  set (l := if (length (splitAndTrimCSV (ClientTunCIDR cfg)) =? 0)%nat
            then ["172.19.0.1/30"] else splitAndTrimCSV (ClientTunCIDR cfg)).
  exists l.
  assert (Hl : l = match splitAndTrimCSV (ClientTunCIDR cfg) with
                   | [] => ["172.19.0.1/30"]
                   | fields => fields
                   end).
  { subst l. destruct (splitAndTrimCSV (ClientTunCIDR cfg)); reflexivity. }
  assert (Hlook : forall k, k <> "route_exclude_address" ->
            (if (0 <? length (routeExcludeCIDRsForHost host))%nat
             then <["route_exclude_address" := JStrings (routeExcludeCIDRsForHost host)]>
                    (object
                       [ ("type", JString "tun"); ("tag", JString "tun-in");
                         ("interface_name", JString (ClientTunName cfg));
                         ("address", JStrings l); ("auto_route", JBool true);
                         ("strict_route", JBool true); ("sniff", JBool true);
                         ("sniff_override_destination", JBool false);
                         ("stack", JString "mixed") ])
             else object
                    [ ("type", JString "tun"); ("tag", JString "tun-in");
                      ("interface_name", JString (ClientTunName cfg));
                      ("address", JStrings l); ("auto_route", JBool true);
                      ("strict_route", JBool true); ("sniff", JBool true);
                      ("sniff_override_destination", JBool false);
                      ("stack", JString "mixed") ]) !! k
            = object
                [ ("type", JString "tun"); ("tag", JString "tun-in");
                  ("interface_name", JString (ClientTunName cfg));
                  ("address", JStrings l); ("auto_route", JBool true);
                  ("strict_route", JBool true); ("sniff", JBool true);
                  ("sniff_override_destination", JBool false);
                  ("stack", JString "mixed") ] !! k).
  { intros k Hk. destruct (0 <? length (routeExcludeCIDRsForHost host))%nat;
      [apply lookup_insert_ne; congruence|reflexivity]. }
  rewrite !Hlook by discriminate.
  split; [|split; [|split; [|split; [exact Hl|split]]]].
  - generalize (ClientTunName cfg) l. intros n adds. vm_compute. reflexivity.
  - rewrite Hl. destruct (splitAndTrimCSV (ClientTunCIDR cfg)); discriminate.
  - intros e He. rewrite Hl in He.
    destruct (splitAndTrimCSV (ClientTunCIDR cfg)) as [|x r] eqn:E.
    + destruct He as [<-|[]]. reflexivity.
    + rewrite <- E in He. apply (splitAndTrimCSV_In (ClientTunCIDR cfg)), He.
  - generalize (ClientTunName cfg) l. intros n adds. vm_compute. reflexivity.
  - generalize (ClientTunName cfg) l. intros n adds. vm_compute. reflexivity.
Qed.

(** ** The configuration *)

Lemma HasPrefix_snoc (s p : string) (c : ascii) :
  HasPrefix (s +:+ String c "") p = true ->
  HasPrefix s p = true \/ p = s +:+ String c "".
Proof.
  revert p. induction s as [|b s IH]; intros p; simpl.
  - destruct p as [|a p]; [left; reflexivity|]. simpl.
    intros H. apply andb_true_iff in H as [Hac Hp]. apply Ascii.eqb_eq in Hac as ->.
    destruct p; [right; reflexivity|discriminate].
  - destruct p as [|a p]; [left; reflexivity|]. simpl.
    intros H. apply andb_true_iff in H as [Hab Hp]. rewrite Hab. simpl.
    destruct (IH p Hp) as [Hs| ->]; [left; exact Hs|].
    right. apply Ascii.eqb_eq in Hab as ->. reflexivity.
Qed.

Lemma TrimRightSpace_fixed (t : string) :
  TrimSpace t = t -> matchPrefix (List.map String.rev spaceEncodings) (String.rev t) = O.
Proof.
  intros Hfix.
  assert (Hr : TrimRightSpace t = t).
  { rewrite <- Hfix at 1. unfold TrimSpace. rewrite TrimRightSpace_idem. exact Hfix. }
  unfold TrimRightSpace in Hr.
  apply (f_equal String.rev) in Hr. rewrite rev_involutive_s in Hr.
  rewrite <- Hr at 1. apply dropRunes_done; [apply rev_spaceEncodings_nonempty|].
  rewrite length_rev_s. lia.
Qed.

(** A byte that is part of no white-space rune, put in front of a
    trimmed string, gives a trimmed string. *)
Lemma TrimSpace_cons_solid (c : ascii) (t : string) :
  solid c = true -> TrimSpace t = t -> TrimSpace (String c t) = String c t.
Proof.
  intros Hc Hfix. unfold TrimSpace, TrimLeftSpace.
  rewrite dropRunes_solid_head
    by (intros p Hin; apply solid_not_in_pattern; assumption).
  unfold TrimRightSpace. rewrite dropRunes_fixed; [apply rev_involutive_s|].
  apply matchPrefix_zero; [apply rev_spaceEncodings_nonempty|].
  intros p Hp. destruct (HasPrefix (String.rev (String c t)) p) eqn:E; [|reflexivity].
  rewrite rev_cons in E. apply HasPrefix_snoc in E as [E| ->].
  - pose proof (TrimRightSpace_fixed t Hfix) as Hz.
    rewrite (proj1 (matchPrefix_zero _ _ rev_spaceEncodings_nonempty) Hz p Hp) in E.
    discriminate.
  - exfalso. apply in_map_iff in Hp as (q & Hq & Hin).
    pose proof (solid_not_in_pattern c q Hc Hin) as Hno.
    rewrite <- string_existsb_rev, Hq, string_existsb_app in Hno. simpl in Hno.
    rewrite Ascii.eqb_refl, orb_true_r in Hno. discriminate.
Qed.

Lemma normalizeWebsocketPath_trimmed (path : string) :
  HasPrefix (normalizeWebsocketPath path) "/" = true /\
  isBlank (normalizeWebsocketPath path) = false /\
  TrimSpace (normalizeWebsocketPath path) = normalizeWebsocketPath path.
Proof.
  assert (Hfix : TrimSpace (normalizeWebsocketPath path) = normalizeWebsocketPath path).
  { unfold normalizeWebsocketPath.
    destruct (String.eqb_spec (TrimSpace path) "") as [E|E]; [reflexivity|].
    destruct (HasPrefix (TrimSpace path) "/"); simpl.
    - apply TrimSpace_idem.
    - apply (TrimSpace_cons_solid "/"); [reflexivity|apply TrimSpace_idem]. }
  assert (Hslash : HasPrefix (normalizeWebsocketPath path) "/" = true).
  { unfold normalizeWebsocketPath.
    destruct (String.eqb_spec (TrimSpace path) "") as [E|E]; [reflexivity|].
    destruct (HasPrefix (TrimSpace path) "/") eqn:Hp; simpl; [exact Hp|].
    destruct (TrimSpace path); reflexivity. }
  split; [exact Hslash|]. split; [|exact Hfix].
  rewrite <- Hfix. apply TrimSpace_not_blank. rewrite Hfix.
  intros Hz. rewrite Hz in Hslash. discriminate.
Qed.

(** X6. [normalizeWebsocketPath] returns a path that starts with a slash
    and is not blank; a blank path gives [/vpn]; a path that has a
    leading slash is only trimmed; and normalizing twice is normalizing
    once.  [vpn] gives [/vpn], as the repository's test expects. *)
Theorem normalizeWebsocketPath_spec (path : string) :
  HasPrefix (normalizeWebsocketPath path) "/" = true /\
  isBlank (normalizeWebsocketPath path) = false /\
  TrimSpace (normalizeWebsocketPath path) = normalizeWebsocketPath path /\
  (isBlank path = true -> normalizeWebsocketPath path = "/vpn") /\
  (HasPrefix (TrimSpace path) "/" = true ->
   normalizeWebsocketPath path = TrimSpace path) /\
  normalizeWebsocketPath (normalizeWebsocketPath path) = normalizeWebsocketPath path /\
  normalizeWebsocketPath "vpn" = "/vpn".
Proof.
  destruct (normalizeWebsocketPath_trimmed path) as (Hslash & Hnb & Hfix).
  split; [exact Hslash|]. split; [exact Hnb|].
  split; [exact Hfix|]. split; [|split; [|split; [|reflexivity]]].
  - intros Hb. unfold normalizeWebsocketPath. unfold isBlank in Hb. rewrite Hb. reflexivity.
  - intros Hp. unfold normalizeWebsocketPath. rewrite Hp.
    destruct (String.eqb_spec (TrimSpace path) "") as [E|E]; [|reflexivity].
    rewrite E in Hp. discriminate.
  - unfold normalizeWebsocketPath at 1. rewrite Hfix, Hslash.
    destruct (String.eqb_spec (normalizeWebsocketPath path) "") as [E|E]; [|reflexivity].
    rewrite E in Hslash. discriminate.
Qed.

(** ** Numbers and their text *)

Lemma digitsVal_acc (u : Decimal.uint) (p : positive) :
  digitsVal (NilEmpty.string_of_uint u) (Z.pos p) = Some (Z.pos (Pos.of_uint_acc u p)).
Proof.
  revert p. induction u as [|u IH|u IH|u IH|u IH|u IH|u IH|u IH|u IH|u IH|u IH];
    intros p; [reflexivity|..];
    cbn [NilEmpty.string_of_uint digitsVal Pos.of_uint_acc];
    change (is_digit _) with true; cbv iota;
    match goal with
    | |- digitsVal _ ?a = Some (Z.pos (Pos.of_uint_acc _ ?q)) =>
        replace a with (Z.pos q) by (unfold digitVal; simpl; lia)
    end; apply IH.
Qed.

Lemma digitsVal_uint (u : Decimal.uint) :
  digitsVal (NilEmpty.string_of_uint u) 0 = Some (Z.of_N (Pos.of_uint u)).
Proof.
  induction u as [|u IH|u IH|u IH|u IH|u IH|u IH|u IH|u IH|u IH|u IH];
    [reflexivity|exact IH|..];
    cbn [NilEmpty.string_of_uint digitsVal Pos.of_uint];
    change (is_digit _) with true; cbv iota;
    match goal with
    | |- digitsVal _ ?a = Some (Z.of_N (N.pos (Pos.of_uint_acc _ ?q))) =>
        change a with (Z.pos q)
    end; apply digitsVal_acc.
Qed.

Lemma digitsVal_pos (p : positive) :
  digitsVal (NilEmpty.string_of_uint (Pos.to_uint p)) 0 = Some (Z.pos p).
Proof. rewrite digitsVal_uint, DecimalPos.Unsigned.of_to. reflexivity. Qed.

Lemma string_of_uint_head (u : Decimal.uint) :
  u <> Decimal.Nil ->
  exists c r, NilEmpty.string_of_uint u = String c r /\ is_digit c = true.
Proof. destruct u; [congruence|..]; intros _; simpl; eauto. Qed.

(** [strconv.Atoi] reads back what [strconv.Itoa] prints. *)
Lemma Atoi_Itoa (n : Z) : minInt <= n <= maxInt -> Atoi (Itoa n) = Ok n.
Proof.
  intros Hn. unfold Itoa. destruct n as [|p|p]; [reflexivity| |].
  - cbn [Z.to_int NilZero.string_of_int]. unfold NilZero.string_of_uint.
    pose proof (DecimalPos.Unsigned.to_uint_nonnil p) as Hnil.
    pose proof (digitsVal_pos p) as Hv.
    destruct (Pos.to_uint p) eqn:Eu; [congruence|..];
      cbn [NilEmpty.string_of_uint] in *; unfold Atoi; cbv iota beta;
      rewrite Hv; cbv iota beta;
      destruct ((minInt <=? Z.pos p) && (Z.pos p <=? maxInt)) eqn:Er; try reflexivity;
      exfalso; apply andb_false_iff in Er as [Er|Er]; apply Z.leb_gt in Er; lia.
  - cbn [Z.to_int NilZero.string_of_int]. unfold NilZero.string_of_uint.
    pose proof (DecimalPos.Unsigned.to_uint_nonnil p) as Hnil.
    pose proof (digitsVal_pos p) as Hv.
    destruct (Pos.to_uint p) eqn:Eu; [congruence|..];
      cbn [NilEmpty.string_of_uint] in *; unfold Atoi; cbv iota beta;
      rewrite Hv; cbv iota beta;
      change (- Z.pos p) with (Z.neg p);
      destruct ((minInt <=? Z.neg p) && (Z.neg p <=? maxInt)) eqn:Er; try reflexivity;
      exfalso; apply andb_false_iff in Er as [Er|Er]; apply Z.leb_gt in Er; lia.
Qed.

Lemma envOrDefault_trimmed (env : Env) (key fallback : string) :
  isBlank fallback = false -> TrimSpace fallback = fallback ->
  isBlank (envOrDefault env key fallback) = false /\
  TrimSpace (envOrDefault env key fallback) = envOrDefault env key fallback.
Proof.
  intros Hb Hf. unfold envOrDefault.
  destruct (String.eqb_spec (TrimSpace (os_Getenv env key)) "") as [E|E]; [auto|].
  split; [apply TrimSpace_not_blank, E|apply TrimSpace_idem].
Qed.

Lemma envOrDefault_blank (env : Env) (key fallback : string) :
  isBlank (os_Getenv env key) = true -> envOrDefault env key fallback = fallback.
Proof. unfold envOrDefault, isBlank. intros ->. reflexivity. Qed.

Lemma envOrDefault_set (env : Env) (key fallback : string) :
  isBlank (os_Getenv env key) = false ->
  envOrDefault env key fallback = TrimSpace (os_Getenv env key).
Proof. unfold envOrDefault, isBlank. intros ->. reflexivity. Qed.

Lemma firstNonEmpty_cons (v : string) (r : list string) :
  firstNonEmpty (TrimSpace v :: r)
  = if isBlank v then firstNonEmpty r else TrimSpace v.
Proof. simpl. rewrite TrimSpace_idem. reflexivity. Qed.

Lemma envInt_blank (env : Env) (key : string) (fallback : Z) :
  isBlank (os_Getenv env key) = true -> envInt env key fallback = fallback.
Proof. unfold envInt, isBlank. intros ->. reflexivity. Qed.

Lemma digitOrDash_solid (c : ascii) : digitOrDash c = true -> solid c = true.
Proof. each_byte c. Qed.

Lemma string_last_forallb (q : ascii -> bool) (s : string) (l : ascii) :
  string_forallb q s = true -> string_last s = Some l -> q l = true.
Proof.
  induction s as [|c s IH]; [discriminate|].
  intros H. apply andb_true_iff in H as [Hc Hs].
  destruct s as [|c' s']; [intros [= <-]; exact Hc|]. intros Hl. apply IH; assumption.
Qed.

Lemma string_last_Some (c : ascii) (r : string) : exists l, string_last (String c r) = Some l.
Proof.
  revert c. induction r as [|c' r IH]; intros c; [eauto|].
  destruct (IH c') as [l Hl]. exists l. exact Hl.
Qed.

Lemma Itoa_trimmed (n : Z) : TrimSpace (Itoa n) = Itoa n /\ Itoa n <> "".
Proof.
  pose proof (Itoa_chars n) as Hc.
  assert (Hne : Itoa n <> "").
  { unfold Itoa. destruct (Z.to_int n) as [u|u]; simpl; [|discriminate].
    unfold NilZero.string_of_uint. destruct u; discriminate. }
  split; [|exact Hne].
  destruct (Itoa n) as [|c r]; [congruence|].
  destruct (string_last_Some c r) as [l Hl].
  apply (TrimSpace_solid_ends c r l); [| |exact Hl].
  - simpl in Hc. apply andb_true_iff in Hc as [Hc _]. apply digitOrDash_solid, Hc.
  - apply digitOrDash_solid, (string_last_forallb _ _ _ Hc Hl).
Qed.

Lemma envInt_number (env : Env) (key : string) (fallback n : Z) :
  minInt <= n <= maxInt -> os_Getenv env key = Itoa n -> envInt env key fallback = n.
Proof.
  intros Hn Hv. unfold envInt. rewrite Hv.
  destruct (Itoa_trimmed n) as [-> Hne].
  destruct (String.eqb_spec (Itoa n) ""); [contradiction|].
  rewrite (Atoi_Itoa n Hn). reflexivity.
Qed.

Lemma envBool_blank `{UnicodeTables} (env : Env) (key : string) (fallback : bool) :
  os_Getenv env key = "" -> envBool env key fallback = fallback.
Proof. unfold envBool. intros ->. reflexivity. Qed.

(** X7. The configuration [LoadConfigFromEnv] builds, whatever the
    environment: the state directory, the endpoint, the listen address,
    the websocket path, the TLS server name and paths, the tun name and
    addresses, the binary and the API address are never blank and carry
    no white space at either end; the websocket path starts with a slash.
    [VLESS_STATE_DIR] wins over [WG_DIR], which wins over [/etc/vpn], and
    likewise for the endpoint; the TLS server name is the endpoint when
    [VLESS_TLS_SERVER_NAME] is blank.  The listen port is the number
    [VLESS_LISTEN_PORT] spells, whatever its sign and size, then the one
    [WG_LISTEN_PORT] spells, then 443.  With their variables unset, client
    TLS verification is off and the interface is started automatically. *)
Theorem LoadConfigFromEnv_spec `{UnicodeTables} (env : Env) :
  let cfg := LoadConfigFromEnv env in
  let var := os_Getenv env in
  Forall (fun s => isBlank s = false /\ TrimSpace s = s)
         [ StateDir cfg; EndpointHost cfg; ListenAddress cfg; WebsocketPath cfg;
           TLSServerName cfg; TLSCertPath cfg; TLSKeyPath cfg; ClientTunName cfg;
           ClientTunCIDR cfg; SingBoxBinary cfg; APIBind cfg ] /\
  HasPrefix (WebsocketPath cfg) "/" = true /\
  StateDir cfg = (if negb (isBlank (var "VLESS_STATE_DIR"))
                  then TrimSpace (var "VLESS_STATE_DIR")
                  else if negb (isBlank (var "WG_DIR")) then TrimSpace (var "WG_DIR")
                  else "/etc/vpn") /\
  EndpointHost cfg = (if negb (isBlank (var "VLESS_ENDPOINT"))
                      then TrimSpace (var "VLESS_ENDPOINT")
                      else if negb (isBlank (var "WG_ENDPOINT"))
                           then TrimSpace (var "WG_ENDPOINT")
                      else "127.0.0.1") /\
  (isBlank (var "VLESS_TLS_SERVER_NAME") = true -> TLSServerName cfg = EndpointHost cfg) /\
  (forall n, minInt <= n <= maxInt -> var "VLESS_LISTEN_PORT" = Itoa n ->
             ListenPort cfg = n) /\
  (forall n, minInt <= n <= maxInt -> isBlank (var "VLESS_LISTEN_PORT") = true ->
             var "WG_LISTEN_PORT" = Itoa n -> ListenPort cfg = n) /\
  (isBlank (var "VLESS_LISTEN_PORT") = true -> isBlank (var "WG_LISTEN_PORT") = true ->
   ListenPort cfg = 443) /\
  (var "VLESS_CLIENT_INSECURE_TLS" = "" -> ClientInsecureTLS cfg = true) /\
  (var "VLESS_AUTOSTART" = "" -> var "WG_AUTOSTART" = "" -> AutoStart cfg = true) /\
  TrimSpace (APIToken cfg) = APIToken cfg /\
  Interface cfg = "vless".
Proof.
  intros cfg var. subst cfg var. unfold LoadConfigFromEnv. cbn [StateDir EndpointHost
    ListenAddress WebsocketPath TLSServerName TLSCertPath TLSKeyPath ClientTunName
    ClientTunCIDR SingBoxBinary APIBind ListenPort ClientInsecureTLS AutoStart APIToken
    Interface].
  rewrite !firstNonEmpty_cons.
  set (stateDir := if isBlank (os_Getenv env "VLESS_STATE_DIR")
                   then if isBlank (os_Getenv env "WG_DIR")
                        then firstNonEmpty ["/etc/vpn"]
                        else TrimSpace (os_Getenv env "WG_DIR")
                   else TrimSpace (os_Getenv env "VLESS_STATE_DIR")).
  set (endpoint := if isBlank (os_Getenv env "VLESS_ENDPOINT")
                   then if isBlank (os_Getenv env "WG_ENDPOINT")
                        then firstNonEmpty ["127.0.0.1"]
                        else TrimSpace (os_Getenv env "WG_ENDPOINT")
                   else TrimSpace (os_Getenv env "VLESS_ENDPOINT")).
  assert (Hchoice : forall a b d : string,
             isBlank d = false -> TrimSpace d = d ->
             let r := if isBlank a then if isBlank b then d else TrimSpace b
                      else TrimSpace a in
             isBlank r = false /\ TrimSpace r = r).
  { intros a b d Hd Hf. cbv zeta.
    destruct (isBlank a) eqn:Ea; [destruct (isBlank b) eqn:Eb|].
    - auto.
    - split; [|apply TrimSpace_idem]. apply TrimSpace_not_blank.
      unfold isBlank in Eb. apply String.eqb_neq, Eb.
    - split; [|apply TrimSpace_idem]. apply TrimSpace_not_blank.
      unfold isBlank in Ea. apply String.eqb_neq, Ea. }
  assert (Hsd : isBlank stateDir = false /\ TrimSpace stateDir = stateDir)
    by (apply (Hchoice _ _ "/etc/vpn"); reflexivity).
  assert (Hep : isBlank endpoint = false /\ TrimSpace endpoint = endpoint)
    by (apply (Hchoice _ _ "127.0.0.1"); reflexivity).
  split.
  { repeat (apply Forall_cons; split); try apply Forall_nil; try exact I;
      try exact Hsd; try exact Hep;
      try (apply envOrDefault_trimmed; solve [reflexivity | apply Hep]).
    destruct (normalizeWebsocketPath_trimmed (envOrDefault env "VLESS_WS_PATH" "/vpn"))
      as (_ & Hb & Hf). auto. }
  split; [apply normalizeWebsocketPath_trimmed|].
  split; [subst stateDir; destruct (isBlank (os_Getenv env "VLESS_STATE_DIR"));
          [destruct (isBlank (os_Getenv env "WG_DIR"))|]; reflexivity|].
  split; [subst endpoint; destruct (isBlank (os_Getenv env "VLESS_ENDPOINT"));
          [destruct (isBlank (os_Getenv env "WG_ENDPOINT"))|]; reflexivity|].
  split; [intros Hb; apply envOrDefault_blank, Hb|].
  split; [intros n Hn Hv; apply envInt_number; assumption|].
  split; [intros n Hn Hb Hv; rewrite (envInt_blank _ _ _ Hb);
          apply envInt_number; assumption|].
  split; [intros Hb1 Hb2; rewrite (envInt_blank _ _ _ Hb1); apply envInt_blank, Hb2|].
  split; [intros Hv; apply envBool_blank, Hv|].
  split; [intros Hv1 Hv2; rewrite (envBool_blank _ _ _ Hv1); apply envBool_blank, Hv2|].
  split; [apply TrimSpace_idem|reflexivity].
Qed.

(** ** The supervised process *)

Section KeepsRewrite.
Context `{JSON} (R : World -> World -> Prop) `{!PreOrder R}.
Context (Hw : forall path content, keeps R (writeSecretFile path content)).

Lemma writeClientConfigs_keeps (m : Manager) (l : list Client) :
  keeps R (writeClientConfigs m l).
Proof.
  induction l as [|c l IH]; simpl; [apply keeps_ret; exact _|].
  apply keeps_bind; [exact _| |intros _; exact IH].
  apply writeClientConfigLocked_keeps; [exact _|]. intros. apply Hw.
Qed.

Lemma rewriteServerConfigLocked_keeps (m : Manager) (clients : gmap string Client) :
  keeps R (rewriteServerConfigLocked m clients).
Proof.
  unfold rewriteServerConfigLocked.
  apply keeps_bind; [exact _| |intros payload].
  { apply keeps_wrapErr, keeps_liftResult; exact _. }
  apply keeps_bind; [exact _|apply keeps_wrapErr, Hw|intros _].
  apply keeps_bind; [exact _|apply writeClientConfigs_keeps|intros _].
  apply keeps_if; [|apply keeps_ret; exact _].
  apply saveClientsLocked_keeps; [exact _|]. intros. apply Hw.
Qed.
End KeepsRewrite.

Lemma rewriteServerConfigLocked_procs `{JSON} (m : Manager) (clients : gmap string Client) :
  keeps sameProcs (rewriteServerConfigLocked m clients).
Proof. apply rewriteServerConfigLocked_keeps; [exact _|]. intros. apply writeSecretFile_procs. Qed.

Lemma saveClientsLocked_procs `{JSON} (m : Manager) (clients : gmap string Client) :
  keeps sameProcs (saveClientsLocked m clients).
Proof. apply saveClientsLocked_keeps; [exact _|]. intros. apply writeSecretFile_procs. Qed.

(** What [stopInterfaceLocked] does to the processes. *)
Lemma stopInterfaceLocked_run (w : World) :
  fst (stopInterfaceLocked w) = Ok tt /\
  serverCmd (snd (stopInterfaceLocked w)) = None /\
  nextPid (snd (stopInterfaceLocked w)) = nextPid w /\
  files (snd (stopInterfaceLocked w)) = files w /\
  entropy (snd (stopInterfaceLocked w)) = entropy w /\
  procs (snd (stopInterfaceLocked w))
  = match serverCmd w with
    | Some pid => (procs w ++ [Interrupted pid; Killed pid])%list
    | None => procs w
    end.
Proof.
  unfold stopInterfaceLocked, bind, gets, modify, time_Sleep, logger_Printf.
  destruct (serverCmd w) eqn:E; simpl; rewrite ?E; repeat split.
  rewrite <- app_assoc. reflexivity.
Qed.

(** What [startInterfaceLocked] does to the processes. *)
Lemma startInterfaceLocked_run (m : Manager) (w : World) :
  let w' := snd (startInterfaceLocked m w) in
  entropy w' = entropy w /\
  match serverCmd w with
  | Some pid => startInterfaceLocked m w = (Ok tt, w)
  | None =>
      match fst (startInterfaceLocked m w) with
      | Ok _ =>
          serverCmd w' = Some (nextPid w) /\ nextPid w' = S (nextPid w) /\
          procs w' = (procs w ++ [Started (nextPid w)])%list /\
          is_Some (files w' !! serverLogPath m)
      | Err _ => sameProcs w w'
      end
  end.
Proof.
  unfold startInterfaceLocked, interfaceRunningLocked, wrapErr.
  run_on; simpl; repeat split; try reflexivity; try congruence;
    rewrite ?lookup_insert_eq; eauto.
Qed.

Lemma sameProcs_fields (w w' : World) :
  sameProcs w w' ->
  serverCmd w' = serverCmd w /\ procs w' = procs w /\ nextPid w' = nextPid w.
Proof. intros H. exact H. Qed.

(** X8. [StartInterface] never starts a second process: when the handle
    already refers to one, no process is started, stopped or signalled
    and the handle stays, whatever else happens.  When there is none, a
    successful call starts exactly one process, makes the handle refer to
    it and leaves the log file of the process in place; a failed call
    starts nothing and leaves the handle empty. *)
Theorem StartInterface_spec `{JSON} (m : Manager) (w : World) :
  let w' := snd (StartInterface m w) in
  match serverCmd w with
  | Some pid => sameProcs w w'
  | None =>
      match fst (StartInterface m w) with
      | Ok _ =>
          serverCmd w' = Some (nextPid w) /\ nextPid w' = S (nextPid w) /\
          procs w' = (procs w ++ [Started (nextPid w)])%list /\
          is_Some (files w' !! serverLogPath m)
      | Err _ => sameProcs w w'
      end
  end.
Proof.
  cbv zeta. unfold StartInterface, bind.
  pose proof (loadClientsLocked_procs m w) as Hl.
  destruct (loadClientsLocked m w) as [[clients|e] w1]; simpl in Hl.
  2:{ simpl. destruct (serverCmd w); exact Hl. }
  pose proof (rewriteServerConfigLocked_procs m clients w1) as Hr.
  destruct (rewriteServerConfigLocked m clients w1) as [[[]|e] w2]; simpl in Hr.
  2:{ simpl. assert (Hp : sameProcs w w2) by (etransitivity; eassumption).
      destruct (serverCmd w); exact Hp. }
  assert (Hp : sameProcs w w2) by (etransitivity; eassumption).
  destruct (sameProcs_fields _ _ Hp) as (Hc & Hpr & Hn).
  unfold interfaceRunningLocked, bind, gets, ret. simpl.
  pose proof (startInterfaceLocked_run m w2) as [_ Hs].
  rewrite Hc in *.
  destruct (serverCmd w) as [pid|] eqn:Ecmd; simpl; [exact Hp|].
  destruct (startInterfaceLocked m w2) as [[[]|e] w3]; simpl in *.
  - rewrite <- Hn, <- Hpr. exact Hs.
  - etransitivity; eassumption.
Qed.

(** The processes across [createClientLocked]. *)
Lemma createClientLocked_procs `{UnicodeTables} `{JSON} (m : Manager) (name : string)
      (clients : gmap string Client) (w w' : World) (r : result (Client * string)) :
  createClientLocked m name clients w = (r, w') ->
  match serverCmd w with
  | None => sameProcs w w'
  | Some pid =>
      match r with
      | Ok _ =>
          serverCmd w' = Some (nextPid w) /\ nextPid w' = S (nextPid w) /\
          procs w' = (procs w ++ [Interrupted pid; Killed pid; Started (nextPid w)])%list
      | Err e =>
          sameProcs w w' \/
          (serverCmd w' = None /\ nextPid w' = nextPid w /\
           procs w' = (procs w ++ [Interrupted pid; Killed pid])%list /\
           exists e', e = Wrapped "reload sing-box after creating client" e') \/
          (serverCmd w' = Some (nextPid w) /\ nextPid w' = S (nextPid w) /\
           procs w' = (procs w ++ [Interrupted pid; Killed pid; Started (nextPid w)])%list /\
           exists e', e = Wrapped "read generated client config" e')
      end
  end.
Proof.
  intros E. unfold createClientLocked in E.
  assert (Hquiet : forall w1, sameProcs w w1 ->
             forall e, match serverCmd w with
                       | None => sameProcs w w1
                       | Some pid =>
                           sameProcs w w1 \/
                           (serverCmd w1 = None /\ nextPid w1 = nextPid w /\
                            procs w1 = (procs w ++ [Interrupted pid; Killed pid])%list /\
                            exists e', e = Wrapped "reload sing-box after creating client" e') \/
                           (serverCmd w1 = Some (nextPid w) /\ nextPid w1 = S (nextPid w) /\
                            procs w1 = (procs w ++ [Interrupted pid; Killed pid;
                                                    Started (nextPid w)])%list /\
                            exists e', e = Wrapped "read generated client config" e')
                       end).
  { intros w1 Hp e. destruct (serverCmd w); [left|]; exact Hp. }
  apply bind_inv in E as [(e & E1 & _)|(now & w0 & E1 & E)]; [discriminate E1|].
  injection E1 as _ <-. cbv zeta in E.
  apply bind_inv in E as [(e & E1 & ->)|(u & w1 & E1 & E)].
  { apply (keeps_run _ _ _ _ _ generateUUID_procs) in E1. apply (Hquiet _ E1). }
  apply (keeps_run _ _ _ _ _ generateUUID_procs) in E1. rename E1 into H1.
  apply bind_inv in E as [(e & E1 & _)|(created & w1' & E1 & E)]; [discriminate E1|].
  injection E1 as _ <-.
  set (c := if String.eqb _ "" then _ else _) in E.
  set (clients' := <[ID c := c]> clients) in E.
  apply bind_inv in E as [(e & E2 & ->)|([] & w2 & E2 & E)].
  { apply (keeps_run _ _ _ _ _ (saveClientsLocked_procs m clients')) in E2.
    apply Hquiet. transitivity w1; assumption. }
  apply (keeps_run _ _ _ _ _ (saveClientsLocked_procs m clients')) in E2.
  apply bind_inv in E as [(e & E3 & ->)|([] & w3 & E3 & E)].
  { apply (keeps_run _ _ _ _ _ (rewriteServerConfigLocked_procs m clients')) in E3.
    apply Hquiet. transitivity w1; [assumption|]. transitivity w2; assumption. }
  apply (keeps_run _ _ _ _ _ (rewriteServerConfigLocked_procs m clients')) in E3.
  assert (Hp : sameProcs w w3).
  { transitivity w1; [assumption|]. transitivity w2; assumption. }
  clear H1 E2 E3 Hquiet.
  destruct (sameProcs_fields _ _ Hp) as (Hc & Hpr & Hn).
  apply bind_inv in E as [(e & E4 & _)|(running & w3' & E4 & E)]; [discriminate E4|].
  unfold interfaceRunningLocked, bind, gets, ret in E4. injection E4 as <- <-.
  rewrite Hc in E.
  destruct (serverCmd w) as [pid|] eqn:Ecmd.
  - (* running: stop, then start *)
    apply bind_inv in E as [(e & E5 & ->)|([] & w5 & E5 & E)].
    + right. left.
      apply bind_inv in E5 as [(e0 & E5 & _)|([] & w4 & E4 & E5)].
      { destruct (stopInterfaceLocked_run w3) as (Hok & _). rewrite E5 in Hok. discriminate. }
      destruct (stopInterfaceLocked_run w3) as (_ & Hc4 & Hn4 & _ & _ & Hp4).
      rewrite E4 in Hc4, Hn4, Hp4. simpl in Hc4, Hn4, Hp4. rewrite Hc in Hp4.
      apply wrapErr_inv in E5 as [(e' & E5 & [= ->])|(a & _ & ?)]; [|discriminate].
      pose proof (startInterfaceLocked_run m w4) as [_ Hs]. rewrite Hc4, E5 in Hs.
      simpl in Hs. destruct Hs as (Hc5 & Hp5 & Hn5).
      rewrite Hc5, Hn5, Hp5, Hc4, Hn4, Hn, Hp4, Hpr. eauto 10.
    + apply bind_inv in E5 as [(e0 & E5 & ?)|([] & w4 & E4 & E5)]; [discriminate|].
      destruct (stopInterfaceLocked_run w3) as (_ & Hc4 & Hn4 & _ & _ & Hp4).
      rewrite E4 in Hc4, Hn4, Hp4. simpl in Hc4, Hn4, Hp4. rewrite Hc in Hp4.
      apply wrapErr_Ok_inv in E5.
      pose proof (startInterfaceLocked_run m w4) as [_ Hs]. rewrite Hc4, E5 in Hs.
      simpl in Hs. destruct Hs as (Hc5 & Hn5 & Hp5 & _).
      rewrite Hn4, Hn in Hc5, Hn5, Hp5. rewrite Hp4, Hpr, <- app_assoc in Hp5.
      simpl in Hp5.
      apply bind_inv in E as [(e & E6 & ->)|(raw & w6 & E6 & E)].
      * apply wrapErr_inv in E6 as [(e' & E6 & [= ->])|(a & _ & ?)]; [|discriminate].
        apply (keeps_run _ _ _ _ _ (os_ReadFile_procs _)) in E6.
        destruct E6 as (Hc6 & Hp6 & Hn6).
        right. right. rewrite Hc6, Hn6, Hp6. eauto 10.
      * injection E as <- <-. apply wrapErr_Ok_inv in E6.
        apply (keeps_run _ _ _ _ _ (os_ReadFile_procs _)) in E6.
        destruct E6 as (Hc6 & Hp6 & Hn6).
        rewrite Hc6, Hn6, Hp6. auto.
  - apply bind_inv in E as [(e & E5 & _)|([] & w5 & E5 & E)]; [discriminate E5|].
    injection E5 as <-.
    assert (Hrd : sameProcs w3 w').
    { apply bind_inv in E as [(e & E6 & _)|(raw & w6 & E6 & E)].
      - apply wrapErr_inv in E6 as [(e' & E6 & _)|(a & E6 & _)];
          apply (keeps_run _ _ _ _ _ (os_ReadFile_procs _)) in E6; exact E6.
      - injection E as _ <-. apply wrapErr_Ok_inv in E6.
        apply (keeps_run _ _ _ _ _ (os_ReadFile_procs _)) in E6. exact E6. }
    etransitivity; eassumption.
Qed.

(** X9. [CreateClient] restarts the process only when one is running.
    With no process, none is started, stopped or signalled.  With one,
    a successful call interrupts and kills it and starts exactly one new
    process, to which the handle then refers.  A failed call has either
    left the processes alone, or it has stopped the process and failed to
    start the new one, which leaves the handle empty and the error
    [reload sing-box after creating client], or it has restarted the
    process and failed to read the new document back. *)
Theorem CreateClient_restart `{UnicodeTables} `{JSON} (m : Manager) (name : string)
        (w : World) :
  let w' := snd (CreateClient m name w) in
  match serverCmd w with
  | None => sameProcs w w'
  | Some pid =>
      match fst (CreateClient m name w) with
      | Ok _ =>
          serverCmd w' = Some (nextPid w) /\ nextPid w' = S (nextPid w) /\
          procs w' = (procs w ++ [Interrupted pid; Killed pid; Started (nextPid w)])%list
      | Err e =>
          sameProcs w w' \/
          (serverCmd w' = None /\ nextPid w' = nextPid w /\
           procs w' = (procs w ++ [Interrupted pid; Killed pid])%list /\
           exists e', e = Wrapped "reload sing-box after creating client" e') \/
          (serverCmd w' = Some (nextPid w) /\ nextPid w' = S (nextPid w) /\
           procs w' = (procs w ++ [Interrupted pid; Killed pid; Started (nextPid w)])%list /\
           exists e', e = Wrapped "read generated client config" e')
      end
  end.
Proof.
  cbv zeta. destruct (CreateClient m name w) as [r w'] eqn:E. simpl.
  unfold CreateClient in E.
  apply bind_inv in E as [(e & El & ->)|(clients & w1 & El & E)].
  { apply (keeps_run _ _ _ _ _ (loadClientsLocked_procs m)) in El.
    destruct (serverCmd w); [left|]; exact El. }
  apply (keeps_run _ _ _ _ _ (loadClientsLocked_procs m)) in El.
  destruct (sameProcs_fields _ _ El) as (Hc & Hpr & Hn).
  pose proof (createClientLocked_procs m name clients w1 w' r E) as Hcr.
  rewrite Hc, Hpr, Hn in Hcr.
  destruct (serverCmd w) as [pid|].
  - destruct r as [res|e]; [exact Hcr|].
    destruct Hcr as [Hs|Hcr]; [left; etransitivity; eassumption|right; exact Hcr].
  - etransitivity; eassumption.
Qed.

(** X19. [StopInterface] never fails and always leaves the handle
    empty, the files and the random bytes as they were.  With no process
    it changes nothing at all; with one it interrupts the process, waits
    350 ms and kills it, in this order and without looking at the outcome
    of either signal, and logs one line.  A second [StopInterface] right
    after the first does nothing. *)
Theorem StopInterface_spec (w : World) :
  let w' := snd (StopInterface w) in
  fst (StopInterface w) = Ok tt /\
  serverCmd w' = None /\
  files w' = files w /\ entropy w' = entropy w /\ nextPid w' = nextPid w /\
  match serverCmd w with
  | None => w' = w
  | Some pid =>
      procs w' = (procs w ++ [Interrupted pid; Killed pid])%list /\
      logged w' = (logged w ++ ["vless server stopped"])%list /\
      wall_sec (clock w') * 1000000000 + wall_nsec (clock w')
      = wall_sec (clock w) * 1000000000 + wall_nsec (clock w) + 350000000
  end /\
  StopInterface w' = (Ok tt, w').
Proof.
  cbv zeta. unfold StopInterface.
  destruct (stopInterfaceLocked_run w) as (Hok & Hc & Hn & Hf & He & _).
  split; [exact Hok|]. split; [exact Hc|]. split; [exact Hf|].
  split; [exact He|]. split; [exact Hn|]. split.
  - unfold stopInterfaceLocked, bind, gets, modify, time_Sleep, logger_Printf.
    destruct (serverCmd w) as [pid|] eqn:Ec; simpl; [|reflexivity].
    split; [rewrite <- app_assoc; reflexivity|]. split; [reflexivity|].
    pose proof (Z.div_mod (wall_nsec (clock w) + 350000000) 1000000000) as Hdm. lia.
  - revert Hc. generalize (snd (stopInterfaceLocked w)). intros w' Hc.
    unfold stopInterfaceLocked, bind, gets. simpl. rewrite Hc. reflexivity.
Qed.

(** ** The status report *)

Lemma status_order (x c : string) :
  String.ltb x c || String.eqb x c = String.leb x c.
Proof.
  unfold String.ltb, String.leb.
  destruct (String.compare x c) eqn:E; simpl.
  - apply String.compare_eq_iff in E. subst. apply String.eqb_refl.
  - reflexivity.
  - destruct (String.eqb_spec x c) as [->|_]; [|reflexivity].
    pose proof (String.compare_antisym c c) as Ha. rewrite E in Ha. discriminate.
Qed.

Lemma insertStatusByID_perm (c : StatusClient) (l : list StatusClient) :
  insertStatusByID c l ≡ₚ c :: l.
Proof.
  induction l as [|x r IH]; simpl; [reflexivity|].
  destruct (String.ltb (status_ID x) (status_ID c) || String.eqb (status_ID x) (status_ID c)).
  - rewrite IH. apply Permutation_swap.
  - reflexivity.
Qed.

Lemma sortStatusByID_perm (l : list StatusClient) : sortStatusByID l ≡ₚ l.
Proof.
  induction l as [|c l IH]; simpl; [reflexivity|].
  rewrite insertStatusByID_perm, IH. reflexivity.
Qed.

Lemma insertStatusByID_sorted (c : StatusClient) (l : list StatusClient) :
  Sorted (fun a b => String.leb (status_ID a) (status_ID b) = true) l ->
  Sorted (fun a b => String.leb (status_ID a) (status_ID b) = true) (insertStatusByID c l).
Proof.
  induction l as [|x r IH]; intros Hs; simpl.
  - repeat constructor.
  - rewrite status_order.
    destruct (String.leb (status_ID x) (status_ID c)) eqn:E.
    + apply Sorted_inv in Hs as [Hr Hh]. constructor; [apply IH, Hr|].
      destruct r as [|y r]; simpl.
      * constructor. exact E.
      * rewrite status_order.
        destruct (String.leb (status_ID y) (status_ID c)); constructor; [|exact E].
        apply HdRel_inv in Hh. exact Hh.
    + constructor; [exact Hs|]. constructor.
      destruct (String.leb_total (status_ID x) (status_ID c)) as [Hle|Hle];
        [congruence|exact Hle].
Qed.

Lemma sortStatusByID_sorted (l : list StatusClient) :
  Sorted (fun a b => String.leb (status_ID a) (status_ID b) = true) (sortStatusByID l).
Proof.
  induction l as [|c l IH]; simpl; [constructor|].
  apply insertStatusByID_sorted, IH.
Qed.

(** No record that a load returns has a blank UUID or a blank address. *)
Lemma loadClientsLocked_addresses `{JSON} (m : Manager) (w w' : World)
      (clients : gmap string Client) (id : string) (c : Client) :
  loadClientsLocked m w = (Ok clients, w') ->
  clients !! id = Some c ->
  isBlank (UUID c) = false /\ isBlank (Address c) = false.
Proof.
  intros El Hc.
  apply loadClientsLocked_Ok in El as [[-> _]|(f & store & _ & _ & _ & Hdom & Hheal)].
  { rewrite lookup_empty in Hc. discriminate. }
  assert (Hin : id ∈ dom store) by (rewrite <- Hdom; apply elem_of_dom; eauto).
  apply elem_of_dom in Hin as [c0 Hc0].
  destruct (Hheal id c0 Hc0) as (c' & Hc' & _ & _ & Hu & Ha & _).
  assert (c' = c) by congruence. subst c'.
  assert (HU : isBlank (UUID c) = false).
  { destruct (isBlank (UUID c0)) eqn:E.
    - destruct Hu as (b & _ & ->). apply formatUUID_not_blank.
    - rewrite Hu. exact E. }
  split; [exact HU|]. rewrite Ha.
  destruct (isBlank (Address c0)) eqn:E; [exact HU|exact E].
Qed.

(** X10. [GetStatus] fails exactly when loading the store fails, with
    the error of the load, and it never starts, stops or signals a
    process.  A successful report says whether the handle refers to a
    process and lists every loaded record exactly once, in ascending
    order of the ids; each entry carries the id, the name, the UUID and
    the creation time of its record, and its address is the trimmed
    address of the record, which is never empty: the fallback of the
    address to the UUID is not taken after a load.  The legacy fields
    for the server key and the client subnet are left empty. *)
Theorem GetStatus_spec `{JSON} (m : Manager) (w : World) :
  let w' := snd (GetStatus m w) in
  sameProcs w w' /\
  match fst (GetStatus m w) with
  | Err e => loadClientsLocked m w = (Err e, w')
  | Ok st =>
      exists clients,
        loadClientsLocked m w = (Ok clients, w') /\
        Running st = (match serverCmd w with Some _ => true | None => false end) /\
        Protocol st = "vless" /\ Transport st = "ws+tls" /\
        Endpoint st = EndpointHost (cfg m) /\
        ServerPublicKey st = "" /\ ClientSubnet st = "" /\
        length (Clients st) = size clients /\
        Clients st ≡ₚ List.map (fun e => statusClientOf (snd e)) (map_to_list clients) /\
        Sorted (fun a b => String.leb (status_ID a) (status_ID b) = true) (Clients st) /\
        forall id c, clients !! id = Some c ->
          In (mkStatusClient (ID c) (Name c) (UUID c) (TrimSpace (Address c)) (CreatedAt c))
             (Clients st) /\
          TrimSpace (Address c) <> ""
  end.
Proof.
  cbv zeta. unfold GetStatus, bind.
  pose proof (loadClientsLocked_procs m w) as Hp.
  destruct (loadClientsLocked m w) as [[clients|e] w1] eqn:El; simpl in Hp |- *.
  2:{ split; [exact Hp|reflexivity]. }
  destruct (sameProcs_fields _ _ Hp) as (Hc & _ & _).
  unfold interfaceRunningLocked, bind, gets, ret. simpl.
  split; [exact Hp|]. exists clients.
  set (raw := List.map (fun e => statusClientOf (snd e)) (map_to_list clients)).
  split; [reflexivity|]. split; [rewrite Hc; reflexivity|].
  split; [reflexivity|]. split; [reflexivity|]. split; [reflexivity|].
  split; [reflexivity|]. split; [reflexivity|].
  split.
  { rewrite (Permutation_length (sortStatusByID_perm raw)). unfold raw.
    rewrite length_map. apply length_map_to_list. }
  split; [apply sortStatusByID_perm|]. split; [apply sortStatusByID_sorted|].
  intros id c Hic.
  destruct (loadClientsLocked_addresses m w w1 clients id c El Hic) as [_ Ha].
  assert (Hne : TrimSpace (Address c) <> "").
  { unfold isBlank in Ha. intros E. rewrite E in Ha. discriminate. }
  split; [|exact Hne].
  apply (Permutation_in _ (Permutation_sym (sortStatusByID_perm raw))).
  unfold raw. apply in_map_iff. exists (id, c). split.
  - unfold statusClientOf. simpl.
    destruct (String.eqb_spec (TrimSpace (Address c)) "") as [E|_]; [contradiction|].
    reflexivity.
  - apply list_elem_of_In, elem_of_map_to_list, Hic.
Qed.

(** ** The server document and the client documents *)

Lemma insertByID_perm (c : Client) (l : list Client) : insertByID c l ≡ₚ c :: l.
Proof.
  induction l as [|x r IH]; simpl; [reflexivity|].
  destruct (String.ltb (ID x) (ID c) || String.eqb (ID x) (ID c)).
  - rewrite IH. apply Permutation_swap.
  - reflexivity.
Qed.

Lemma sortByID_perm (l : list Client) : sortByID l ≡ₚ l.
Proof.
  induction l as [|c l IH]; simpl; [reflexivity|].
  rewrite insertByID_perm, IH. reflexivity.
Qed.

Lemma insertByID_sorted (c : Client) (l : list Client) :
  Sorted (fun a b => String.leb (ID a) (ID b) = true) l ->
  Sorted (fun a b => String.leb (ID a) (ID b) = true) (insertByID c l).
Proof.
  induction l as [|x r IH]; intros Hs; simpl.
  - repeat constructor.
  - rewrite status_order.
    destruct (String.leb (ID x) (ID c)) eqn:E.
    + apply Sorted_inv in Hs as [Hr Hh]. constructor; [apply IH, Hr|].
      destruct r as [|y r]; simpl.
      * constructor. exact E.
      * rewrite status_order.
        destruct (String.leb (ID y) (ID c)); constructor; [|exact E].
        apply HdRel_inv in Hh. exact Hh.
    + constructor; [exact Hs|]. constructor.
      destruct (String.leb_total (ID x) (ID c)) as [Hle|Hle]; [congruence|exact Hle].
Qed.

Lemma sortByID_sorted (l : list Client) :
  Sorted (fun a b => String.leb (ID a) (ID b) = true) (sortByID l).
Proof.
  induction l as [|c l IH]; simpl; [constructor|].
  apply insertByID_sorted, IH.
Qed.

(** The fields of the inbound of the server document, read off the map
    literal. *)
Lemma buildServerConfigMap_inbound (cfg : Config) (clients : list Client) :
  let inbound := item 0 (buildServerConfigMap cfg clients !! "inbounds") in
  field "users" inbound
  = Some (JUsers (List.map (fun c => ({[ "name" := Name c; "uuid" := UUID c ]}
                                       : gmap string string)) clients)) /\
  field "type" inbound = Some (JString "vless") /\
  field "listen_port" inbound = Some (JInt (ListenPort cfg)) /\
  field "transport" inbound
  = Some (JObject (object [ ("type", JString "ws");
                            ("path", JString (WebsocketPath cfg)) ])) /\
  field "enabled" (field "tls" inbound) = Some (JBool true) /\
  field "server_name" (field "tls" inbound) = Some (JString (TLSServerName cfg)) /\
  field "certificate_path" (field "tls" inbound) = Some (JString (TLSCertPath cfg)) /\
  field "key_path" (field "tls" inbound) = Some (JString (TLSKeyPath cfg)).
Proof.
  cbv zeta. unfold buildServerConfigMap.
  generalize (List.map (fun c => ({[ "name" := Name c; "uuid" := UUID c ]}
                                   : gmap string string)) clients).
  generalize (ListenAddress cfg) (ListenPort cfg) (TLSServerName cfg) (TLSCertPath cfg)
             (TLSKeyPath cfg) (WebsocketPath cfg).
  intros la lp sn cp kp ws users.
  repeat split; vm_compute; reflexivity.
Qed.

(** The fields of the outbound of a client document. *)
Lemma buildClientConfigMap_outbound (cfg : Config) (c : Client) :
  let outbound := item 0 (buildClientConfigMap cfg c !! "outbounds") in
  field "uuid" outbound = Some (JString (UUID c)) /\
  field "type" outbound = Some (JString "vless") /\
  field "server" outbound
  = Some (JString (fst (resolveEndpointHostPort (EndpointHost cfg) (ListenPort cfg)))) /\
  field "server_port" outbound
  = Some (JInt (snd (resolveEndpointHostPort (EndpointHost cfg) (ListenPort cfg)))) /\
  field "transport" outbound
  = Some (JObject (object [ ("type", JString "ws");
                            ("path", JString (WebsocketPath cfg)) ])) /\
  field "enabled" (field "tls" outbound) = Some (JBool true) /\
  field "server_name" (field "tls" outbound) = Some (JString (TLSServerName cfg)) /\
  field "insecure" (field "tls" outbound) = Some (JBool (ClientInsecureTLS cfg)).
Proof.
  cbv zeta. unfold buildClientConfigMap.
  destruct (resolveEndpointHostPort (EndpointHost cfg) (ListenPort cfg)) as [host port].
  generalize (tunInboundOf cfg host) as tun; intros tun.
  generalize (UUID c) (TLSServerName cfg) (ClientInsecureTLS cfg) (WebsocketPath cfg).
  intros u sn ins ws.
  repeat split; vm_compute; reflexivity.
Qed.

(** X15. The documents generated from one configuration fit together.
    The server document lists one user per client record, in the order
    given, with the name and the UUID of the record, and the outbound of
    the document of a client carries the UUID of that client; so a
    client that is among the records is a user of the server.  Both
    sides speak VLESS over a WebSocket at the same path, with TLS enabled
    and the same server name.  The client connects to the port the
    server listens on whenever the endpoint is blank or carries no
    colon. *)
Theorem documents_agree (cfg : Config) (clients : list Client) (c : Client) :
  let inbound := item 0 (buildServerConfigMap cfg clients !! "inbounds") in
  let outbound := item 0 (buildClientConfigMap cfg c !! "outbounds") in
  (exists users,
      field "users" inbound = Some (JUsers users) /\
      users = List.map (fun c => ({[ "name" := Name c; "uuid" := UUID c ]}
                                   : gmap string string)) clients /\
      (In c clients -> In ({[ "name" := Name c; "uuid" := UUID c ]}) users)) /\
  field "uuid" outbound = Some (JString (UUID c)) /\
  field "type" outbound = field "type" inbound /\
  field "type" inbound = Some (JString "vless") /\
  field "transport" outbound = field "transport" inbound /\
  field "path" (field "transport" inbound) = Some (JString (WebsocketPath cfg)) /\
  field "enabled" (field "tls" outbound) = Some (JBool true) /\
  field "enabled" (field "tls" inbound) = Some (JBool true) /\
  field "server_name" (field "tls" outbound) = field "server_name" (field "tls" inbound) /\
  (TrimSpace (EndpointHost cfg) = "" \/ contains (TrimSpace (EndpointHost cfg)) ":" = false ->
   field "server_port" outbound = field "listen_port" inbound).
Proof.
  intros inbound outbound.
  destruct (buildServerConfigMap_inbound cfg clients)
    as (Su & Sty & Sport & Str & Sen & Ssn & _).
  destruct (buildClientConfigMap_outbound cfg c)
    as (Cu & Cty & _ & Cport & Ctr & Cen & Csn & _).
  fold inbound in Su, Sty, Sport, Str, Sen, Ssn.
  fold outbound in Cu, Cty, Cport, Ctr, Cen, Csn.
  split.
  { eexists. split; [exact Su|]. split; [reflexivity|].
    intros Hin. apply in_map_iff. exists c. auto. }
  split; [exact Cu|]. split; [congruence|]. split; [exact Sty|].
  split; [congruence|]. split; [rewrite Str; vm_compute; reflexivity|].
  split; [exact Cen|]. split; [exact Sen|]. split; [congruence|].
  intros Hep. rewrite Cport, Sport. do 2 f_equal.
  destruct Hep as [Hb|Hc].
  - unfold resolveEndpointHostPort. rewrite Hb. reflexivity.
  - destruct (String.eqb_spec (TrimSpace (EndpointHost cfg)) "") as [Hb|Hne].
    + unfold resolveEndpointHostPort. rewrite Hb. reflexivity.
    + rewrite (resolveEndpointHostPort_no_split _ _ _ Hne
                 (SplitHostPort_no_colon _ Hc)). reflexivity.
Qed.

(** ** What [rewriteServerConfigLocked] leaves in the server document *)

Lemma fillPaths_kept (m : Manager) (id : string) (c : Client) :
  ID (fst (fillPaths m id c)) = ID c /\
  Name (fst (fillPaths m id c)) = Name c /\
  UUID (fst (fillPaths m id c)) = UUID c.
Proof.
  unfold fillPaths.
  destruct (isBlank (ConfigPath c)); simpl;
    destruct (isBlank (Address c)); simpl; auto.
Qed.

(** X16. When [rewriteServerConfigLocked] succeeds, and the server
    document is not written at a path that the state file or the document
    of a client is written through, the file at the server path holds,
    with mode 0600, the encoding of the server document for the records
    of the map, each exactly once and in ascending order of the ids; its
    users are the names and UUIDs of these records. *)
Theorem rewriteServerConfigLocked_server_document `{JSON} (m : Manager)
        (clients : gmap string Client) (w w' : World) :
  rewriteServerConfigLocked m clients w = (Ok tt, w') ->
  ~ secretPaths (statePath m) (serverConfigPath m) ->
  (forall id c, clients !! id = Some c ->
                ~ secretPaths (ConfigPath (fst (fillPaths m id c))) (serverConfigPath m)) ->
  exists list payload,
    list ≡ₚ List.map (fun e => fst (fillPaths m (fst e) (snd e))) (map_to_list clients) /\
    length list = size clients /\
    Sorted (fun a b => String.leb (ID a) (ID b) = true) list /\
    marshalPretty json_MarshalIndent_doc (buildServerConfigMap (cfg m) list) = Ok payload /\
    files w' !! serverConfigPath m = Some (mkFile payload 384) /\
    field "users" (item 0 (buildServerConfigMap (cfg m) list !! "inbounds"))
    = Some (JUsers (List.map (fun c => ({[ "name" := Name c; "uuid" := UUID c ]}
                                         : gmap string string)) list)) /\
    forall id c, clients !! id = Some c ->
                 exists c', In c' list /\
                            ID c' = ID c /\ Name c' = Name c /\ UUID c' = UUID c.
Proof.
  intros E Hstate Hdocs. unfold rewriteServerConfigLocked in E. cbv zeta in E.
  set (raw := List.map (fun e => fst (fillPaths m (fst e) (snd e)))
                       (map_to_list clients)) in *.
  set (list := sortByID raw) in *.
  apply bind_Ok_inv in E as (payload & w1 & E1 & E).
  apply wrapErr_Ok_inv in E1.
  assert (Hpay : marshalPretty json_MarshalIndent_doc
                               (buildServerConfigMap (cfg m) list) = Ok payload /\ w1 = w).
  { destruct (marshalPretty json_MarshalIndent_doc _) as [p|e]; simpl in E1;
      [injection E1 as <- <-; auto|discriminate]. }
  destruct Hpay as [Hpay ->]. clear E1.
  apply bind_Ok_inv in E as ([] & w2 & E2 & E).
  apply wrapErr_Ok_inv in E2.
  pose proof (writeSecretFile_spec (serverConfigPath m) payload w) as Hw.
  rewrite E2 in Hw. destruct Hw as [Hfile _].
  apply bind_Ok_inv in E as ([] & w3 & E3 & E).
  pose proof (keeps_run _ _ _ _ _ (writeClientConfigs_calm m list) E3) as [Hc3 _].
  assert (Hfile3 : files w3 !! serverConfigPath m = Some (mkFile payload 384)).
  { rewrite <- Hfile. apply Hc3. intros (c & Hin & Hp).
    apply in_sortByID, in_map_iff in Hin as ([id c0] & <- & Hin).
    apply list_elem_of_In, elem_of_map_to_list in Hin.
    exact (Hdocs id c0 Hin Hp). }
  assert (Hfile' : files w' !! serverConfigPath m = Some (mkFile payload 384)).
  { rewrite <- Hfile3. destruct (existsb _ _).
    - pose proof (keeps_run _ _ _ _ _ (saveClientsLocked_calm m _) E) as [Hc4 _].
      apply Hc4, Hstate.
    - injection E as <-. reflexivity. }
  exists list, payload.
  split; [apply sortByID_perm|]. split.
  { unfold list. rewrite (Permutation_length (sortByID_perm raw)). unfold raw.
    rewrite length_map. apply length_map_to_list. }
  split; [apply sortByID_sorted|]. split; [exact Hpay|]. split; [exact Hfile'|].
  split; [destruct (buildServerConfigMap_inbound (cfg m) list) as [Hu _]; exact Hu|].
  intros id c Hc. exists (fst (fillPaths m id c)).
  split; [|apply fillPaths_kept].
  apply (Permutation_in _ (Permutation_sym (sortByID_perm raw))).
  unfold raw. apply in_map_iff. exists (id, c). split; [reflexivity|].
  apply list_elem_of_In, elem_of_map_to_list, Hc.
Qed.

Lemma rewriteServerConfigLocked_server_document_witness :
  let m := exampleManager in
  let clients : gmap string Client := {[ "laptop" := exampleClient ]} in
  let w' := snd (@rewriteServerConfigLocked referenceJSON m clients emptyWorld) in
  exists payload,
    @marshalPretty _ (@json_MarshalIndent_doc referenceJSON)
                   (buildServerConfigMap (cfg m) [exampleClient]) = Ok payload /\
    files w' !! serverConfigPath m = Some (mkFile payload 384).
Proof.
  intros m clients w'.
  destruct (@rewriteServerConfigLocked_server_document referenceJSON m clients
              emptyWorld w')
    as (list & payload & Hperm & _ & _ & Hpay & Hfile & _).
  - apply (run_Ok (@rewriteServerConfigLocked referenceJSON m clients) emptyWorld tt).
    vm_compute. reflexivity.
  - vm_compute. intros [Hp|Hp]; discriminate Hp.
  - intros id c Hc. apply lookup_singleton_Some in Hc as [<- <-].
    vm_compute. intros [Hp|Hp]; discriminate Hp.
  - assert (Hl : list = [exampleClient]).
    { unfold clients in Hperm. rewrite map_to_list_singleton in Hperm. simpl in Hperm.
      apply Permutation_singleton_r in Hperm. rewrite Hperm. reflexivity. }
    rewrite Hl in Hpay. exists payload. split; [exact Hpay|exact Hfile].
Defined.

(** ** The TLS files *)

(** X17. With both TLS files in place [ensureTLSMaterialLocked] does
    nothing.  When either is missing it generates a new pair for the
    first non-blank of the TLS server name, the endpoint host and
    [localhost], trimmed, from the random bytes and the time at hand, and
    writes both files anew: the key file then holds the new key with mode
    0600, whatever was there, the certificate file the new certificate
    when it is not written at the path of the key or of its temporary
    file, and one line is logged.  Every failure is wrapped as
    [generate self-signed tls certificate] and logs nothing. *)
Theorem ensureTLSMaterialLocked_spec `{X509} (m : Manager) (w : World) :
  let cert := TLSCertPath (cfg m) in
  let key := TLSKeyPath (cfg m) in
  let cn := firstNonEmpty [TLSServerName (cfg m); EndpointHost (cfg m); "localhost"] in
  cn <> "" /\
  match files w !! cert, files w !! key with
  | Some _, Some _ => ensureTLSMaterialLocked m w = (Ok tt, w)
  | _, _ =>
      match ensureTLSMaterialLocked m w with
      | (Ok _, w') =>
          exists certPEM keyPEM,
            x509_selfSigned (entropy w) (clock w) cn = (Ok (certPEM, keyPEM), entropy w') /\
            files w' !! key = Some (mkFile keyPEM 384) /\
            (cert <> key -> cert <> key +:+ ".tmp" ->
             files w' !! cert = Some (mkFile certPEM 384)) /\
            logged w' = (logged w ++ ["generated self-signed TLS certificate at " +:+ cert])%list
      | (Err e, w') =>
          (exists e', e = Wrapped "generate self-signed tls certificate" e') /\
          logged w' = logged w
      end
  end.
Proof.
  intros cert key cn.
  assert (Hcn : cn = (let commonName := TrimSpace (TLSServerName (cfg m)) in
                      let commonName :=
                        if String.eqb commonName "" then TrimSpace (EndpointHost (cfg m))
                        else commonName in
                      if String.eqb commonName "" then "localhost" else commonName)).
  { unfold cn. simpl.
    destruct (String.eqb (TrimSpace (TLSServerName (cfg m))) "") eqn:E1; simpl.
    - destruct (String.eqb (TrimSpace (EndpointHost (cfg m))) ""); reflexivity.
    - rewrite E1. reflexivity. }
  split.
  { rewrite Hcn. cbv zeta.
    destruct (String.eqb_spec (TrimSpace (TLSServerName (cfg m))) "") as [_|H1].
    - destruct (String.eqb_spec (TrimSpace (EndpointHost (cfg m))) "") as [_|H2];
        [discriminate|exact H2].
    - destruct (String.eqb_spec (TrimSpace (TLSServerName (cfg m))) "") as [?|_];
        [contradiction|exact H1]. }
  assert (Hgen : match ensureTLSMaterialLocked m w with
                 | (Ok _, w') =>
                     (is_Some (files w !! cert) /\ is_Some (files w !! key) /\ w' = w) \/
                     exists certPEM keyPEM,
                       x509_selfSigned (entropy w) (clock w) cn
                       = (Ok (certPEM, keyPEM), entropy w') /\
                       files w' !! key = Some (mkFile keyPEM 384) /\
                       (cert <> key -> cert <> key +:+ ".tmp" ->
                        files w' !! cert = Some (mkFile certPEM 384)) /\
                       logged w' = (logged w ++ ["generated self-signed TLS certificate at "
                                                  +:+ cert])%list
                 | (Err e, w') =>
                     (exists e', e = Wrapped "generate self-signed tls certificate" e') /\
                     logged w' = logged w
                 end).
  { destruct (ensureTLSMaterialLocked m w) as [r w'] eqn:E.
    unfold ensureTLSMaterialLocked in E. fold cert key in E. cbv zeta in E.
    cbv zeta in Hcn. rewrite <- Hcn in E. clear Hcn.
    apply bind_inv in E as [(e & E1 & _)|(haveCert & w1 & E1 & E)]; [discriminate E1|].
    apply bind_inv in E as [(e & E2 & _)|(haveKey & w2 & E2 & E)]; [discriminate E2|].
    unfold fileExists, bind, gets, ret in E1, E2. simpl in E1, E2.
    injection E1 as <- <-. injection E2 as <- <-.
    destruct (match files w !! cert with Some _ => true | None => false end
              && match files w !! key with Some _ => true | None => false end) eqn:Hboth.
    { injection E as <- <-. left.
      destruct (files w !! cert), (files w !! key); try discriminate Hboth. eauto. }
    clear Hboth.
    assert (Hgc : forall r0 w0,
               generateSelfSignedCertificate cert key cn w = (r0, w0) ->
               logged w0 = logged w /\
               match r0 with
               | Ok _ =>
                   exists certPEM keyPEM,
                     x509_selfSigned (entropy w) (clock w) cn
                     = (Ok (certPEM, keyPEM), entropy w0) /\
                     files w0 !! key = Some (mkFile keyPEM 384) /\
                     (cert <> key -> cert <> key +:+ ".tmp" ->
                      files w0 !! cert = Some (mkFile certPEM 384))
               | Err _ => True
               end).
    { intros r0 w0 Eg. split.
      { eapply (keeps_run sameLog); [|exact Eg].
        unfold generateSelfSignedCertificate.
        apply keeps_bind; [exact _|apply os_MkdirAll_log|intros _].
        apply keeps_bind; [exact _|apply os_MkdirAll_log|intros _].
        apply keeps_bind; [exact _|apply keeps_gets; exact _|intros en].
        apply keeps_bind; [exact _|apply keeps_gets; exact _|intros now].
        destruct (x509_selfSigned en now cn) as [rr e'].
        apply keeps_bind; [exact _|intros w5; reflexivity|intros _].
        apply keeps_bind; [exact _|apply keeps_liftResult; exact _|intros pems].
        apply keeps_bind; [exact _|apply writeSecretFile_log|intros _].
        apply writeSecretFile_log. }
      destruct r0 as [[]|e]; [|exact I].
      unfold generateSelfSignedCertificate in Eg.
      apply bind_Ok_inv in Eg as ([] & wa & Ea & Eg).
      pose proof (keeps_run _ _ _ _ _ (os_MkdirAll_entropy _ _) Ea) as Hea.
      pose proof (keeps_run _ _ _ _ _ (os_MkdirAll_clock _ _) Ea) as Hca.
      apply bind_Ok_inv in Eg as ([] & wb & Eb & Eg).
      pose proof (keeps_run _ _ _ _ _ (os_MkdirAll_entropy _ _) Eb) as Heb.
      pose proof (keeps_run _ _ _ _ _ (os_MkdirAll_clock _ _) Eb) as Hcb.
      unfold sameEntropy, sameClock in *.
      apply bind_Ok_inv in Eg as (en & wc & Ec & Eg). injection Ec as <- <-.
      apply bind_Ok_inv in Eg as (now & wd & Ed & Eg). injection Ed as <- <-.
      rewrite Heb, Hea, Hcb, Hca in Eg.
      destruct (x509_selfSigned (entropy w) (clock w) cn) as [rr e'].
      apply bind_Ok_inv in Eg as ([] & we & Ee & Eg). injection Ee as <-.
      apply bind_Ok_inv in Eg as ([certPEM keyPEM] & wf & Ef & Eg).
      destruct rr as [pems|e0]; [|discriminate Ef]. injection Ef as -> <-.
      apply bind_Ok_inv in Eg as ([] & wg & Ecert & Ekey). simpl fst in *. simpl snd in *.
      pose proof (writeSecretFile_spec cert certPEM (setEntropy e' wb)) as Sc.
      rewrite Ecert in Sc. destruct Sc as [Sc _].
      pose proof (writeSecretFile_spec key keyPEM wg) as Sk.
      rewrite Ekey in Sk. destruct Sk as [Sk _].
      pose proof (keeps_run _ _ _ _ _ (writeSecretFile_outside _ _) Ekey) as Hout.
      pose proof (keeps_run _ _ _ _ _ (writeSecretFile_entropy _ _) Ekey) as He2.
      pose proof (keeps_run _ _ _ _ _ (writeSecretFile_entropy _ _) Ecert) as He1.
      unfold sameEntropy in *. simpl in He1.
      exists certPEM, keyPEM. split; [rewrite He2, He1; reflexivity|].
      split; [exact Sk|]. intros N1 N2. rewrite <- Sc. apply Hout.
      intros [?|?]; contradiction. }
    apply bind_inv in E as [(e & E3 & ->)|([] & w3 & E3 & E)].
    - apply wrapErr_inv in E3 as [(e' & E3 & [= ->])|(a & _ & ?)]; [|discriminate].
      destruct (Hgc _ _ E3) as [Hl _]. split; [eauto|exact Hl].
    - apply wrapErr_Ok_inv in E3. destruct (Hgc _ _ E3) as [Hl (cp & kp & Hx & Hk & Hc)].
      unfold logger_Printf, modify in E. injection E as <- <-. right.
      exists cp, kp. simpl. rewrite Hl. auto. }
  destruct (files w !! cert) as [f1|] eqn:Hc1; destruct (files w !! key) as [f2|] eqn:Hk1.
  - unfold ensureTLSMaterialLocked, fileExists, bind, gets, ret. simpl.
    fold cert key. rewrite Hc1, Hk1. reflexivity.
  - destruct (ensureTLSMaterialLocked m w) as [[[]|e] w']; [|exact Hgen].
    destruct Hgen as [(_ & [? ?] & _)|Hgen]; [discriminate|exact Hgen].
  - destruct (ensureTLSMaterialLocked m w) as [[[]|e] w']; [|exact Hgen].
    destruct Hgen as [([? ?] & _)|Hgen]; [discriminate|exact Hgen].
  - destruct (ensureTLSMaterialLocked m w) as [[[]|e] w']; [|exact Hgen].
    destruct Hgen as [([? ?] & _)|Hgen]; [discriminate|exact Hgen].
Qed.

(** ** The store after [InitState] *)



(** ** The processes across the calls of the interface *)

Lemma alive_app (l l' : list procEvent) :
  alive (l ++ l') = fold_left aliveStep l' (alive l).
Proof. unfold alive. apply fold_left_app. Qed.

Lemma supervised_same (w w' : World) : sameProcs w w' -> supervised w -> supervised w'.
Proof.
  intros (Hc & Hp & Hn) Hs. unfold supervised in *. rewrite Hc, Hp, Hn. exact Hs.
Qed.

Lemma supervised_started (w w' : World) :
  supervised w -> serverCmd w = None ->
  serverCmd w' = Some (nextPid w) -> nextPid w' = S (nextPid w) ->
  procs w' = (procs w ++ [Started (nextPid w)])%list ->
  supervised w'.
Proof.
  intros [Ha _] Hnone Hc Hn Hp. unfold supervised.
  rewrite Hp, alive_app, Ha, Hnone, Hc, Hn. simpl. split; [reflexivity|].
  repeat constructor.
Qed.

Lemma supervised_stopped (w w' : World) (pid : nat) :
  supervised w -> serverCmd w = Some pid ->
  serverCmd w' = None -> nextPid w' = nextPid w ->
  procs w' = (procs w ++ [Interrupted pid; Killed pid])%list ->
  supervised w'.
Proof.
  intros [Ha _] Hsome Hc Hn Hp. unfold supervised.
  rewrite Hp, alive_app, Ha, Hsome, Hc. simpl. rewrite Nat.eqb_refl. simpl.
  split; [reflexivity|constructor].
Qed.

Lemma hoare_keeps {A} (c : M A) :
  keeps sameProcs c -> hoare supervised c (fun _ => supervised).
Proof. intros Hk w Hs. apply (supervised_same w); [apply Hk|exact Hs]. Qed.

Lemma hoare_wrapErr {A} (P : World -> Prop) (msg : string) (c : M A) :
  hoare P c (fun _ => P) -> hoare P (wrapErr msg c) (fun _ => P).
Proof.
  intros Hc w Hp. specialize (Hc w Hp). unfold wrapErr.
  destruct (c w) as [[a|e] w']; exact Hc.
Qed.

Lemma startInterfaceLocked_supervised (m : Manager) :
  hoare supervised (startInterfaceLocked m) (fun _ => supervised).
Proof.
  intros w Hs. pose proof (startInterfaceLocked_run m w) as [_ Hr].
  destruct (serverCmd w) as [pid|] eqn:Ec.
  - rewrite Hr. exact Hs.
  - destruct (fst (startInterfaceLocked m w)).
    + destruct Hr as (Hc & Hn & Hp & _).
      apply (supervised_started w); assumption.
    + apply (supervised_same w); assumption.
Qed.

Lemma stopInterfaceLocked_supervised :
  hoare supervised stopInterfaceLocked (fun _ => supervised).
Proof.
  intros w Hs. destruct (stopInterfaceLocked_run w) as (_ & Hc & Hn & _ & _ & Hp).
  destruct (serverCmd w) as [pid|] eqn:Ec.
  - apply (supervised_stopped w _ pid); assumption.
  - apply (supervised_same w); [|exact Hs]. repeat split; congruence.
Qed.

Lemma interfaceRunningLocked_procs : keeps sameProcs interfaceRunningLocked.
Proof. intros w. repeat split. Qed.

Lemma createClientLocked_supervised `{UnicodeTables} `{JSON} (m : Manager)
      (name : string) (clients : gmap string Client) :
  hoare supervised (createClientLocked m name clients) (fun _ => supervised).
Proof.
  unfold createClientLocked.
  apply hoare_bind; [apply hoare_keeps, time_Now_procs|intros now].
  apply hoare_bind; [apply hoare_keeps, generateUUID_procs|intros u].
  apply hoare_bind; [apply hoare_keeps, time_Now_procs|intros created].
  cbv zeta.
  apply hoare_bind; [apply hoare_keeps, saveClientsLocked_procs|intros _].
  apply hoare_bind; [apply hoare_keeps, rewriteServerConfigLocked_procs|intros _].
  apply hoare_bind; [apply hoare_keeps, interfaceRunningLocked_procs|intros running].
  apply hoare_bind.
  - destruct running.
    + apply hoare_bind; [apply stopInterfaceLocked_supervised|intros _].
      apply hoare_wrapErr, startInterfaceLocked_supervised.
    + apply hoare_keeps. intros w. repeat split.
  - intros _.
    apply hoare_bind; [apply hoare_wrapErr, hoare_keeps, os_ReadFile_procs|intros raw].
    apply hoare_keeps. intros w. repeat split.
Qed.

Lemma ensureTLSMaterialLocked_procs `{X509} (m : Manager) :
  keeps sameProcs (ensureTLSMaterialLocked m).
Proof.
  unfold ensureTLSMaterialLocked.
  apply keeps_bind; [exact _|apply fileExists_procs|intros haveCert].
  apply keeps_bind; [exact _|apply fileExists_procs|intros haveKey].
  apply keeps_if; [apply keeps_ret; exact _|].
  apply keeps_bind; [exact _| |intros _; apply logger_Printf_procs].
  apply keeps_wrapErr. unfold generateSelfSignedCertificate.
  apply keeps_bind; [exact _|apply os_MkdirAll_procs|intros _].
  apply keeps_bind; [exact _|apply os_MkdirAll_procs|intros _].
  apply keeps_bind; [exact _|apply keeps_gets; exact _|intros en].
  apply keeps_bind; [exact _|apply time_Now_procs|intros now].
  destruct (x509_selfSigned en now _) as [rr e'].
  apply keeps_bind; [exact _|intros w; repeat split|intros _].
  apply keeps_bind; [exact _|apply keeps_liftResult; exact _|intros pems].
  apply keeps_bind; [exact _|apply writeSecretFile_procs|intros _].
  apply writeSecretFile_procs.
Qed.

Lemma InitState_supervised `{UnicodeTables} `{JSON} `{X509} (m : Manager) :
  hoare supervised (InitState m) (fun _ => supervised).
Proof.
  unfold InitState.
  apply hoare_bind; [apply hoare_keeps, keeps_wrapErr, os_MkdirAll_procs|intros _].
  apply hoare_bind; [apply hoare_keeps, keeps_wrapErr, os_MkdirAll_procs|intros _].
  apply hoare_bind; [apply hoare_keeps, keeps_wrapErr, os_MkdirAll_procs|intros _].
  apply hoare_bind; [apply hoare_keeps, chmodStateDir_keeps, os_Chmod_procs|intros _].
  apply hoare_bind; [apply hoare_keeps, keeps_wrapErr, os_Chmod_procs|intros _].
  apply hoare_bind; [apply hoare_keeps, ensureTLSMaterialLocked_procs|intros _].
  apply hoare_bind; [apply hoare_keeps, loadClientsLocked_procs|intros clients].
  apply hoare_bind; [|intros clients'; apply hoare_keeps, rewriteServerConfigLocked_procs].
  destruct (size clients =? 0)%nat.
  - apply hoare_bind; [apply createClientLocked_supervised|intros _].
    apply hoare_keeps, loadClientsLocked_procs.
  - apply hoare_keeps. intros w. repeat split.
Qed.

Lemma after_supervised `{UnicodeTables} `{JSON} `{X509} (m : Manager) (c : call)
      (w : World) :
  supervised w -> supervised (after m c w).
Proof.
  intros Hs. destruct c as [| |name|clientID| |]; simpl.
  - apply (InitState_supervised m w Hs).
  - eapply supervised_same; [|exact Hs].
    unfold GetStatus.
    apply keeps_bind; [exact _|apply loadClientsLocked_procs|intros clients].
    apply keeps_bind; [exact _|apply interfaceRunningLocked_procs|intros running].
    apply keeps_ret. exact _.
  - revert w Hs. unfold CreateClient.
    apply hoare_bind; [apply hoare_keeps, loadClientsLocked_procs|intros clients].
    apply createClientLocked_supervised.
  - eapply supervised_same; [|exact Hs].
    unfold GetClientConfig.
    apply keeps_bind; [exact _|apply loadClientsLocked_procs|intros clients].
    destruct (clients !! clientID) as [c|]; [|apply keeps_throw; exact _].
    apply keeps_bind; [exact _| |intros _].
    + apply writeClientConfigLocked_keeps; [exact _|]. intros. apply writeSecretFile_procs.
    + apply keeps_bind; [exact _|apply keeps_wrapErr, os_ReadFile_procs|intros raw].
      apply keeps_ret. exact _.
  - revert w Hs. unfold StartInterface.
    apply hoare_bind; [apply hoare_keeps, loadClientsLocked_procs|intros clients].
    apply hoare_bind; [apply hoare_keeps, rewriteServerConfigLocked_procs|intros _].
    apply hoare_bind; [apply hoare_keeps, interfaceRunningLocked_procs|intros running].
    destruct running; [apply hoare_keeps; intros w; repeat split|].
    apply startInterfaceLocked_supervised.
  - apply (stopInterfaceLocked_supervised w Hs).
Qed.

(** X11. Whatever calls of the interface are made one after the other,
    and whether they succeed or fail, the manager keeps track of its
    process: from a state in which the only process started and not
    killed is the one the handle refers to, every sequence of
    [InitState], [GetStatus], [CreateClient], [GetClientConfig],
    [StartInterface] and [StopInterface] leads to such a state again.
    So at most one process started by the manager is left unkilled, and
    none when the handle is empty.  The calls are the steps here: a
    process that ends by itself, after which [reapLocked] empties the
    handle, is not one of them. *)
Theorem interface_keeps_one_process `{UnicodeTables} `{JSON} `{X509} (m : Manager)
        (cs : list call) (w : World) :
  supervised w ->
  let w' := afterAll m cs w in
  supervised w' /\
  (length (alive (procs w')) <= 1)%nat /\
  (serverCmd w' = None -> alive (procs w') = []).
Proof.
  intros Hs. cbv zeta.
  assert (Hall : supervised (afterAll m cs w)).
  { revert w Hs. unfold afterAll.
    induction cs as [|c cs IH]; intros w Hs; simpl; [exact Hs|].
    apply IH, after_supervised, Hs. }
  split; [exact Hall|]. destruct Hall as [Ha _]. rewrite Ha.
  split; [destruct (serverCmd _); simpl; lia|].
  intros ->. reflexivity.
Qed.

Lemma interface_keeps_one_process_witness :
  supervised emptyWorld /\
  let w' := @afterAll asciiToLower referenceJSON referenceX509 exampleManager
              [CallInitState; CallStartInterface; CallCreateClient "phone";
               CallStopInterface] emptyWorld in
  supervised w' /\
  (length (alive (procs w')) <= 1)%nat /\
  (serverCmd w' = None -> alive (procs w') = []).
Proof.
  assert (Hs : supervised emptyWorld) by (split; [reflexivity|constructor]).
  split; [exact Hs|].
  exact (@interface_keeps_one_process asciiToLower referenceJSON referenceX509
           exampleManager
           [CallInitState; CallStartInterface; CallCreateClient "phone";
            CallStopInterface] emptyWorld Hs).
Defined.

(** ** The record of a new client *)

Lemma loadClientsLocked_clock `{JSON} (m : Manager) : keeps sameClock (loadClientsLocked m).
Proof.
  apply loadClientsLocked_keeps;
    [exact _|apply os_ReadFile_clock|apply generateUUID_clock|].
  intros. apply writeSecretFile_clock.
Qed.

Lemma writeClientConfigs_error `{JSON} (m : Manager) (l : list Client)
      (w w' : World) (e : error) :
  writeClientConfigs m l w = (Err e, w') -> exists msg e', e = Wrapped msg e'.
Proof.
  revert w. induction l as [|c l IH]; intros w E; simpl in E; [discriminate|].
  apply bind_inv in E as [(e0 & E & [= ->])|([] & w1 & _ & E)]; [|exact (IH _ E)].
  unfold writeClientConfigLocked in E.
  apply bind_inv in E as [(e1 & E & [= ->])|(payload & w1 & _ & E)];
    apply wrapErr_inv in E as [(e2 & _ & [= ->])|(a & _ & ?)]; eauto; discriminate.
Qed.

Lemma rewriteServerConfigLocked_error `{JSON} (m : Manager)
      (clients : gmap string Client) (w w' : World) (e : error) :
  rewriteServerConfigLocked m clients w = (Err e, w') -> exists msg e', e = Wrapped msg e'.
Proof.
  unfold rewriteServerConfigLocked. intros E.
  apply bind_inv in E as [(e0 & E & [= ->])|(payload & w1 & _ & E)].
  { apply wrapErr_inv in E as [(e2 & _ & [= ->])|(a & _ & ?)]; eauto; discriminate. }
  apply bind_inv in E as [(e0 & E & [= ->])|([] & w2 & _ & E)].
  { apply wrapErr_inv in E as [(e2 & _ & [= ->])|(a & _ & ?)]; eauto; discriminate. }
  apply bind_inv in E as [(e0 & E & [= ->])|([] & w3 & _ & E)].
  { exact (writeClientConfigs_error _ _ _ _ _ E). }
  destruct (existsb _ _); [|discriminate].
  exact (saveClientsLocked_error _ _ _ _ _ E).
Qed.

Lemma restart_entropy (m : Manager) :
  keeps sameEntropy
        (stopInterfaceLocked ;;;
         wrapErr "reload sing-box after creating client" (startInterfaceLocked m)).
Proof.
  intros w. unfold bind.
  destruct (stopInterfaceLocked_run w) as (_ & _ & _ & _ & He & _).
  destruct (stopInterfaceLocked w) as [[[]|e] w1]; simpl in *; [|exact He].
  pose proof (startInterfaceLocked_run m w1) as [Hs _]. unfold wrapErr.
  destruct (startInterfaceLocked m w1) as [[[]|e] w2]; simpl in *;
    unfold sameEntropy; congruence.
Qed.

(** The record [createClientLocked] makes, given that the random bytes
    suffice. *)
Lemma createClientLocked_record `{UnicodeTables} `{JSON} (m : Manager) (name : string)
      (clients : gmap string Client) (w w' : World) (r : result (Client * string)) :
  createClientLocked m name clients w = (r, w') ->
  (16 <= length (entropy w))%nat ->
  match r with
  | Ok (c, raw) =>
      let id := allocateClientIDLocked (clock w) name clients in
      let u := formatUUID (take 16 (entropy w)) in
      c = mkClient id (if String.eqb (TrimSpace name) "" then id else TrimSpace name)
                   u u (clientConfigPath m id) (clock w) /\
      entropy w' = drop 16 (entropy w) /\
      exists f, files w' !! ConfigPath c = Some f /\ content f = raw
  | Err e => exists msg e', e = Wrapped msg e'
  end.
Proof.
  intros E Hlen. unfold createClientLocked in E.
  apply bind_inv in E as [(e & E1 & _)|(now & w0 & E1 & E)]; [discriminate E1|].
  injection E1 as <- <-. cbv zeta in E.
  apply bind_inv in E as [(e & E1 & ->)|(u & w1 & E1 & E)].
  { unfold generateUUID in E1.
    apply bind_inv in E1 as [(e' & E1 & _)|(b & w1 & _ & ?)]; [|discriminate].
    apply rand_Read_inv in E1 as [(b & ? & _)|(Hlt & _)]; [discriminate|lia]. }
  assert (Hu : u = formatUUID (take 16 (entropy w)) /\
               w1 = setEntropy (drop 16 (entropy w)) w).
  { unfold generateUUID in E1.
    apply bind_Ok_inv in E1 as (b & w2 & E1 & [= <- <-]).
    apply rand_Read_inv in E1 as [(b' & [= <-] & _ & -> & ->)|(_ & ? & _)];
      [auto|discriminate]. }
  destruct Hu as [-> ->]. clear E1.
  apply bind_inv in E as [(e & E1 & _)|(created & w1 & E1 & E)]; [discriminate E1|].
  injection E1 as <- <-. simpl clock in E.
  set (id := allocateClientIDLocked (clock w) name clients) in *.
  set (u := formatUUID (take 16 (entropy w))) in *.
  set (c0 := mkClient id (TrimSpace name) u u (clientConfigPath m id) (clock w)) in E.
  assert (Hc : (if String.eqb (Name c0) "" then setName id c0 else c0)
               = mkClient id (if String.eqb (TrimSpace name) "" then id
                              else TrimSpace name)
                          u u (clientConfigPath m id) (clock w)).
  { unfold c0. simpl. destruct (String.eqb (TrimSpace name) ""); reflexivity. }
  rewrite Hc in E. clear Hc c0.
  set (c := mkClient id _ u u _ _) in E.
  apply bind_inv in E as [(e & E2 & ->)|([] & w2 & E2 & E)].
  { exact (saveClientsLocked_error _ _ _ _ _ E2). }
  assert (He2 : entropy w2 = drop 16 (entropy w)).
  { eapply (keeps_run sameEntropy) in E2; [exact E2|].
    apply saveClientsLocked_keeps; [exact _|]. intros. apply writeSecretFile_entropy. }
  apply bind_inv in E as [(e & E3 & ->)|([] & w3 & E3 & E)].
  { exact (rewriteServerConfigLocked_error _ _ _ _ _ E3). }
  assert (He3 : entropy w3 = drop 16 (entropy w)).
  { eapply (keeps_run sameEntropy) in E3; [rewrite <- He2; exact E3|].
    apply rewriteServerConfigLocked_keeps; [exact _|]. intros. apply writeSecretFile_entropy. }
  apply bind_inv in E as [(e & E4 & _)|(running & w4 & E4 & E)]; [discriminate E4|].
  injection E4 as _ <-.
  apply bind_inv in E as [(e & E5 & ->)|([] & w5 & E5 & E)].
  { destruct running; [|discriminate].
    apply bind_inv in E5 as [(e0 & E5 & _)|([] & w4 & _ & E5)].
    { destruct (stopInterfaceLocked_run w3) as (Hok & _). rewrite E5 in Hok. discriminate. }
    apply wrapErr_inv in E5 as [(e' & _ & [= ->])|(a & _ & ?)]; eauto; discriminate. }
  assert (He5 : entropy w5 = drop 16 (entropy w)).
  { rewrite <- He3. destruct running.
    - exact (keeps_run _ _ _ _ _ (restart_entropy m) E5).
    - injection E5 as <-. reflexivity. }
  apply bind_inv in E as [(e & E6 & ->)|(raw & w6 & E6 & E)].
  { apply wrapErr_inv in E6 as [(e' & _ & [= ->])|(a & _ & ?)]; eauto; discriminate. }
  injection E as <- <-. apply wrapErr_Ok_inv in E6.
  split; [reflexivity|]. split.
  - rewrite <- He5. exact (keeps_run _ _ _ _ _ (os_ReadFile_entropy _) E6).
  - pose proof (keeps_run _ _ _ _ _ (os_ReadFile_files _) E6) as Hf.
    apply os_ReadFile_inv in E6 as [_ (f & Hfile & ->)].
    exists f. rewrite Hf. auto.
Qed.

(** X12. [CreateClient] fails with the error of the load when loading
    the store fails, and with the error of the random source, before
    anything else is written, when fewer than 16 random bytes are left
    after the load.  Otherwise every error is a wrapped one, and a
    successful call returns the record with the allocated id, the
    trimmed name or, when that is empty, the id as name, a version 4
    UUID made of the next 16 random bytes as UUID and as address, the
    document path [<clients dir>/<id>.json] and the time of the call;
    the id and the name are not blank, exactly 16 random bytes are used
    up, and the text returned is the content of the file at that path. *)
Theorem CreateClient_record `{UnicodeTables} `{JSON} (m : Manager) (name : string)
        (w : World) :
  match loadClientsLocked m w with
  | (Err e, w1) => CreateClient m name w = (Err e, w1)
  | (Ok clients, w1) =>
      if (length (entropy w1) <? 16)%nat
      then CreateClient m name w = (Err RandError, w1)
      else
        match CreateClient m name w with
        | (Ok (c, raw), w') =>
            let id := allocateClientIDLocked (clock w) name clients in
            let u := formatUUID (take 16 (entropy w1)) in
            c = mkClient id (if String.eqb (TrimSpace name) "" then id else TrimSpace name)
                         u u (clientConfigPath m id) (clock w) /\
            isUUIDv4 (UUID c) = true /\
            isBlank (ID c) = false /\ isBlank (Name c) = false /\
            entropy w' = drop 16 (entropy w1) /\
            exists f, files w' !! ConfigPath c = Some f /\ content f = raw
        | (Err e, w') => exists msg e', e = Wrapped msg e'
        end
  end.
Proof.
  pose proof (loadClientsLocked_clock m w) as Hck.
  destruct (loadClientsLocked m w) as [[clients|e] w1] eqn:El.
  2:{ unfold CreateClient, bind. rewrite El. reflexivity. }
  simpl in Hck. unfold sameClock in Hck.
  assert (Hcc : CreateClient m name w = createClientLocked m name clients w1).
  { unfold CreateClient, bind. rewrite El. reflexivity. }
  rewrite Hcc. clear Hcc.
  destruct (createClientLocked m name clients w1) as [r w'] eqn:E.
  destruct (length (entropy w1) <? 16)%nat eqn:Hlen.
  - apply Nat.ltb_lt in Hlen. unfold createClientLocked in E.
    apply bind_inv in E as [(e & E1 & _)|(now & w0 & E1 & E)]; [discriminate E1|].
    injection E1 as _ <-. cbv zeta in E.
    apply bind_inv in E as [(e & E1 & ->)|(u & w2 & E1 & _)].
    + apply generateUUID_inv in E1 as [(b & ? & _)|(_ & [= ->] & ->)];
        [discriminate|reflexivity].
    + exfalso. unfold generateUUID in E1.
      apply bind_Ok_inv in E1 as (b & w3 & E1 & _).
      apply rand_Read_inv in E1 as [(b' & _ & Hb & -> & _)|(_ & ? & _)]; [|discriminate].
      rewrite length_take in Hb. lia.
  - apply Nat.ltb_ge in Hlen.
    pose proof (createClientLocked_record m name clients w1 w' r E Hlen) as Hr.
    destruct r as [[c raw]|e]; [|exact Hr].
    cbv zeta in Hr. rewrite Hck in Hr. destruct Hr as (-> & He & Hf).
    cbv zeta. split; [reflexivity|]. simpl.
    split; [apply formatUUID_shape; rewrite length_take; lia|].
    destruct (allocateClientIDLocked_charset (clock w) name clients) as [Hne Hcs].
    assert (Hid : isBlank (allocateClientIDLocked (clock w) name clients) = false)
      by (apply idChars_not_blank; assumption).
    split; [exact Hid|]. split; [|split; [exact He|exact Hf]].
    destruct (String.eqb_spec (TrimSpace name) "") as [_|Hn]; [exact Hid|].
    apply TrimSpace_not_blank, Hn.
Qed.

(** ** A state file that does not parse *)

Lemma loadClientsLocked_unparsed `{JSON} (m : Manager) (w : World) (f : File) (e : error) :
  files w !! statePath m = Some f ->
  TrimSpace (content f) <> "" ->
  json_Unmarshal_clients (content f) = Err e ->
  exists e0,
    loadClientsLocked m w = (Err e0, snd (nextFault w)) /\
    (e0 = Wrapped "parse clients state" e \/
     exists en, e0 = Wrapped "read clients state" (PathError "read" (statePath m) en)).
Proof.
  intros Hf Hne Hd. unfold loadClientsLocked, os_ReadFile, bind, nextFault, gets, ret, throw.
  assert (Hlen : (String.length (TrimSpace (content f)) =? 0)%nat = false).
  { destruct (TrimSpace (content f)); [congruence|reflexivity]. }
  destruct (faults w) as [|[|fe n] fs]; simpl; rewrite ?Hf; simpl; rewrite ?Hlen, ?Hd.
  - eauto.
  - eauto.
  - destruct fe; simpl; eauto.
Qed.

(** X13. A state file that is there, is not blank and does not parse is
    never overwritten: [GetStatus], [CreateClient], [GetClientConfig] and
    [StartInterface] all fail with the same error, which is the parse
    error wrapped as [parse clients state] or, when reading the file
    fails, the error of the read wrapped as [read clients state]; and
    they leave every file and directory, the processes and their handle
    and the random bytes as they were. *)
Theorem unparsed_store_kept `{UnicodeTables} `{JSON} (m : Manager) (w : World)
        (f : File) (e : error) :
  files w !! statePath m = Some f ->
  TrimSpace (content f) <> "" ->
  json_Unmarshal_clients (content f) = Err e ->
  exists e0 w',
    (e0 = Wrapped "parse clients state" e \/
     exists en, e0 = Wrapped "read clients state" (PathError "read" (statePath m) en)) /\
    GetStatus m w = (Err e0, w') /\
    (forall name, CreateClient m name w = (Err e0, w')) /\
    (forall clientID, GetClientConfig m clientID w = (Err e0, w')) /\
    StartInterface m w = (Err e0, w') /\
    files w' = files w /\ dirs w' = dirs w /\ sameProcs w w' /\
    entropy w' = entropy w.
Proof.
  intros Hf Hne Hd.
  destruct (loadClientsLocked_unparsed m w f e Hf Hne Hd) as (e0 & El & He).
  exists e0, (snd (nextFault w)). split; [exact He|].
  unfold GetStatus, CreateClient, GetClientConfig, StartInterface, bind. rewrite El.
  split; [reflexivity|]. split; [reflexivity|]. split; [reflexivity|].
  split; [reflexivity|].
  unfold nextFault. destruct (faults w); simpl; repeat split.
Qed.

Lemma unparsed_store_kept_witness :
  exists e0 w',
    (e0 = Wrapped "parse clients state" (JSONError "invalid client map") \/
     exists en, e0 = Wrapped "read clients state"
                             (PathError "read" (statePath exampleManager) en)) /\
    @GetStatus referenceJSON exampleManager (worldWithState "{oops") = (Err e0, w') /\
    (forall name, @CreateClient asciiToLower referenceJSON exampleManager name
                                (worldWithState "{oops") = (Err e0, w')) /\
    (forall clientID, @GetClientConfig referenceJSON exampleManager clientID
                                       (worldWithState "{oops") = (Err e0, w')) /\
    @StartInterface referenceJSON exampleManager (worldWithState "{oops") = (Err e0, w') /\
    files w' = files (worldWithState "{oops") /\
    dirs w' = dirs (worldWithState "{oops") /\
    sameProcs (worldWithState "{oops") w' /\
    entropy w' = entropy (worldWithState "{oops").
Proof.
  apply (@unparsed_store_kept asciiToLower referenceJSON exampleManager
           (worldWithState "{oops") (mkFile "{oops" 384) (JSONError "invalid client map")).
  - vm_compute. reflexivity.
  - vm_compute. discriminate.
  - vm_compute. reflexivity.
Defined.

(** ** Endpoints with a port *)

Lemma IndexByte_absent (s : string) (c : ascii) :
  string_forallb (fun x => negb (Ascii.eqb x c)) s = true -> IndexByte s c = None.
Proof.
  induction s as [|a s IH]; simpl; [reflexivity|]. intros H.
  apply andb_true_iff in H as [Ha Hs]. apply negb_true_iff in Ha.
  rewrite Ha, (IH Hs). reflexivity.
Qed.

Lemma LastIndexByte_absent (s : string) (c : ascii) :
  string_forallb (fun x => negb (Ascii.eqb x c)) s = true -> LastIndexByte s c = None.
Proof.
  induction s as [|a s IH]; simpl; [reflexivity|]. intros H.
  apply andb_true_iff in H as [Ha Hs]. apply negb_true_iff in Ha.
  rewrite Ha, (IH Hs). reflexivity.
Qed.

Lemma LastIndexByte_app (a b : string) (c : ascii) :
  string_forallb (fun x => negb (Ascii.eqb x c)) b = true ->
  LastIndexByte (a +:+ String c b) c = Some (String.length a).
Proof.
  intros Hb. induction a as [|x a IH]; simpl.
  - rewrite (LastIndexByte_absent b c Hb), Ascii.eqb_refl. reflexivity.
  - rewrite IH. reflexivity.
Qed.

Lemma string_drop_past (a b : string) (c : ascii) :
  string_drop (String.length a + 1) (a +:+ String c b) = b.
Proof. induction a as [|x a IH]; simpl; [reflexivity|exact IH]. Qed.

Lemma hostChar_not (c : ascii) :
  hostChar c = true ->
  negb (Ascii.eqb c ":") = true /\ negb (Ascii.eqb c "[") = true /\
  negb (Ascii.eqb c "]") = true.
Proof.
  unfold hostChar.
  destruct (Ascii.eqb c ":"), (Ascii.eqb c "["), (Ascii.eqb c "]"); simpl;
    intros; repeat split; congruence.
Qed.

Lemma hostChars_contains (s : string) (c : ascii) :
  c = ":"%char \/ c = "["%char \/ c = "]"%char ->
  string_forallb hostChar s = true -> contains s c = false.
Proof.
  intros Hc Hs. apply contains_false, IndexByte_absent.
  eapply string_forallb_impl; [|exact Hs].
  intros x Hx. apply hostChar_not in Hx as (H1 & H2 & H3).
  destruct Hc as [->|[->| ->]]; assumption.
Qed.

Lemma not_bracketed (s : string) :
  contains s "[" = false ->
  match s with String "[" _ => true | _ => false end = false.
Proof.
  destruct s as [|c s]; [reflexivity|]. unfold contains. simpl.
  destruct (Ascii.eqb c "[") eqn:E; [discriminate|]. intros _.
  destruct c as [[] [] [] [] [] [] [] []]; try reflexivity. discriminate E.
Qed.

(** [net.SplitHostPort] on a host and a port without colon or bracket. *)
Lemma SplitHostPort_join (h p : string) :
  string_forallb hostChar h = true -> string_forallb hostChar p = true ->
  SplitHostPort (h +:+ ":" +:+ p) = Ok (h, p).
Proof.
  intros Hh Hp.
  assert (Hbr : forall c, c = "["%char \/ c = "]"%char ->
                          contains (h +:+ ":" +:+ p) c = false).
  { intros c Hc. apply contains_false, IndexByte_absent.
    rewrite string_forallb_app. simpl.
    assert (Hq : forall s, string_forallb hostChar s = true ->
                           string_forallb (fun x => negb (Ascii.eqb x c)) s = true).
    { intros s. apply string_forallb_impl. intros x Hx.
      apply hostChar_not in Hx as (_ & H2 & H3). destruct Hc as [->| ->]; assumption. }
    rewrite (Hq h Hh), (Hq p Hp). destruct Hc as [->| ->]; reflexivity. }
  unfold SplitHostPort. cbv zeta.
  change (h +:+ ":" +:+ p) with (h +:+ String ":" p) in *.
  rewrite LastIndexByte_app.
  2:{ eapply string_forallb_impl; [|exact Hp]. intros x Hx. apply (hostChar_not x Hx). }
  rewrite (not_bracketed _ (Hbr "["%char (or_introl eq_refl))).
  unfold slice, sliceFrom. rewrite Nat.sub_0_r, substring_app.
  rewrite (hostChars_contains h ":" (or_introl eq_refl) Hh).
  change (string_drop 0 (h +:+ String ":" p)) with (h +:+ String ":" p).
  rewrite (Hbr "["%char (or_introl eq_refl)), (Hbr "]"%char (or_intror eq_refl)).
  rewrite string_drop_past. reflexivity.
Qed.

(** X14. When the trimmed endpoint is a host and a port joined by a
    colon, neither with a colon or a square bracket in it,
    [resolveEndpointHostPort] returns that host, also when it is empty,
    and the port when it is a decimal number above zero, the fallback
    port otherwise: a port that is zero, negative or no number is
    dropped without an error, and no upper bound is checked.  A host
    joined to the decimal text of a positive port resolves to that host
    and that port. *)
Theorem resolveEndpointHostPort_explicit (raw h p : string) (fallback : Z) :
  TrimSpace raw = h +:+ ":" +:+ p ->
  string_forallb hostChar h = true ->
  string_forallb hostChar p = true ->
  resolveEndpointHostPort raw fallback
  = (h, match Atoi p with
        | Ok n => if 0 <? n then n else fallback
        | Err _ => fallback
        end) /\
  (forall n, 0 < n <= maxInt -> p = Itoa n ->
             resolveEndpointHostPort raw fallback = (h, n)) /\
  (forall n, n <= 0 -> minInt <= n -> p = Itoa n ->
             resolveEndpointHostPort raw fallback = (h, fallback)).
Proof.
  intros Ht Hh Hp.
  assert (Hres : resolveEndpointHostPort raw fallback
                 = (h, match Atoi p with
                       | Ok n => if 0 <? n then n else fallback
                       | Err _ => fallback
                       end)).
  { unfold resolveEndpointHostPort. rewrite Ht, (SplitHostPort_join h p Hh Hp).
    assert (Hne : String.eqb (h +:+ ":" +:+ p) "" = false).
    { destruct h; reflexivity. }
    rewrite Hne. destruct (Atoi p) as [n|e]; [|reflexivity].
    destruct (0 <? n); reflexivity. }
  split; [exact Hres|]. split.
  - intros n Hn ->. rewrite Hres, Atoi_Itoa by (unfold minInt, maxInt in *; lia).
    destruct (Z.ltb_spec 0 n); [reflexivity|lia].
  - intros n Hn Hmin ->. rewrite Hres, Atoi_Itoa by (unfold minInt, maxInt in *; lia).
    destruct (Z.ltb_spec 0 n); [lia|reflexivity].
Qed.

Lemma resolveEndpointHostPort_explicit_witness :
  resolveEndpointHostPort " vpn.example.com:70000 " 443
  = ("vpn.example.com",
     match Atoi "70000" with
     | Ok n => if 0 <? n then n else 443
     | Err _ => 443
     end) /\
  (forall n, 0 < n <= maxInt -> "70000" = Itoa n ->
             resolveEndpointHostPort " vpn.example.com:70000 " 443
             = ("vpn.example.com", n)) /\
  (forall n, n <= 0 -> minInt <= n -> "70000" = Itoa n ->
             resolveEndpointHostPort " vpn.example.com:70000 " 443
             = ("vpn.example.com", 443)).
Proof.
  apply (resolveEndpointHostPort_explicit " vpn.example.com:70000 " "vpn.example.com"
           "70000" 443); reflexivity.
Defined.
